(** * LegalLens: a shallow embedding of the upload, analysis and storage code

    The development follows the TypeScript sources:
    - [types.ts]                      the data model (module [Types]);
    - [services/storageService.ts]    the browser-storage adapter;
    - [services/geminiService.ts]     the client of the generative-AI backend;
    - [components/ContractUpload.tsx] the batch upload orchestrator;
    - [components/CompareView.tsx]    the resolution of the recommended contract,
                                      the effect and the render of the page;
    - [components/ChatBot.tsx], [components/ClauseCard.tsx],
      [components/AnalysisView.tsx], [components/Dashboard.tsx],
      [components/ProfileView.tsx], [components/Auth.tsx]
                                      the handlers of the pages;
    - [App.tsx]                       the events of the application shell.

    Conventions.  A JavaScript [number] is an integer here ([Z]): the code
    only produces timestamps ([Date.now()]), sizes and integer scores.  A
    JavaScript string is a [string] of 8-bit characters.  A value thrown by
    JavaScript code is an [Error] with its [message]; the empty message
    stands for every falsy [message] (absent, [undefined], empty). *)

From Stdlib Require Import ZArith Ascii String List Bool Lia.
From Stdlib Require Import Numbers.DecimalString Numbers.DecimalPos.
From Stdlib Require Import Sorting.Sorted.
From stdpp Require Import base option list gmap strings.

Local Open Scope Z_scope.
#[local] Set Warnings "-register-all".
#[local] Arguments String.append !s1 s2 : simpl nomatch.

(** ** JavaScript strings and arrays *)

Module JS.

(** The double quote, which the sources write inside template strings. *)
Definition dquote : string := String "034"%char EmptyString.

(** [s.startsWith(p)] *)
Definition startsWith (s p : string) : bool := String.prefix p s.

(** [s.includes(sub)]: [sub] occurs at some position of [s]. *)
Fixpoint includes (s sub : string) : bool :=
  if String.prefix sub s then true
  else match s with
       | EmptyString => false
       | String _ s' => includes s' sub
       end.

(** [arr.includes(x)] on an array of strings (strict equality). *)
Definition Array_includes (arr : list string) (x : string) : bool :=
  existsb (String.eqb x) arr.

Definition lower_char (c : ascii) : ascii :=
  let n := nat_of_ascii c in
  if ((65 <=? n) && (n <=? 90))%nat then ascii_of_nat (n + 32) else c.

(** [s.toLowerCase()], on the ASCII letters. *)
Fixpoint toLowerCase (s : string) : string :=
  match s with
  | EmptyString => EmptyString
  | String c s' => String (lower_char c) (toLowerCase s')
  end.

(** Truthiness of a string: every string but the empty one. *)
Definition truthy (s : string) : bool :=
  match s with EmptyString => false | _ => true end.

(** [a || b] on strings. *)
Definition or_else (a b : string) : string := if truthy a then a else b.

(** [arr.find(p)] *)
Definition find {A} (p : A -> bool) (arr : list A) : option A := List.find p arr.

(** [arr.findIndex(p)], [None] standing for [-1]. *)
Fixpoint findIndex {A} (p : A -> bool) (arr : list A) : option nat :=
  match arr with
  | [] => None
  | x :: t => if p x then Some 0%nat else option_map S (findIndex p t)
  end.

(** The white space [trim] removes, among 8-bit characters. *)
Definition is_space (c : ascii) : bool :=
  let n := nat_of_ascii c in
  (((9 <=? n) && (n <=? 13)) || (n =? 32) || (n =? 160))%nat.

Fixpoint trimStart (s : string) : string :=
  match s with
  | String c s' => if is_space c then trimStart s' else s
  | EmptyString => EmptyString
  end.

Fixpoint trimEnd (s : string) : string :=
  match s with
  | String c s' =>
      match trimEnd s' with
      | EmptyString => if is_space c then EmptyString else String c EmptyString
      | t => String c t
      end
  | EmptyString => EmptyString
  end.

(** [s.trim()] *)
Definition trim (s : string) : string := trimEnd (trimStart s).

(** [s] without its first [n] characters. *)
Fixpoint drop (n : nat) (s : string) : string :=
  match n, s with
  | O, _ => s
  | S n', String _ s' => drop n' s'
  | S _, EmptyString => EmptyString
  end.

(** [s.replace(/p$/, '')] for a literal [p]: [s] without [p] at its end. *)
Fixpoint strip_suffix (p s : string) : string :=
  if String.eqb s p then EmptyString
  else match s with
       | String c s' => String c (strip_suffix p s')
       | EmptyString => EmptyString
       end.

(** [s.split(',')[1]]; [None] is [undefined], when [s] has no comma. *)
Fixpoint until_comma (s : string) : string :=
  match s with
  | String c s' => if Ascii.eqb c "," then EmptyString else String c (until_comma s')
  | EmptyString => EmptyString
  end.

Fixpoint split_comma_1 (s : string) : option string :=
  match s with
  | String c s' => if Ascii.eqb c "," then Some (until_comma s') else split_comma_1 s'
  | EmptyString => None
  end.

(** [arr.slice(0, n)] *)
Definition slice0 {A} (n : nat) (arr : list A) : list A := firstn n arr.

(** The line feed, which the sources write as [\n] or as a line break
    inside a template string. *)
Definition nl : string := String "010"%char EmptyString.

(** [arr.slice(-n)]: the last [n] elements, all of them when there are
    fewer. *)
Definition slice_last {A} (n : nat) (arr : list A) : list A :=
  skipn (length arr - n) arr.

(** [s.substring(0, n)] *)
Fixpoint substring0 (n : nat) (s : string) : string :=
  match n, s with
  | S n', String c s' => String c (substring0 n' s')
  | _, _ => EmptyString
  end.

(** [arr.join(sep)] *)
Fixpoint join (sep : string) (parts : list string) : string :=
  match parts with
  | [] => EmptyString
  | [p] => p
  | p :: rest => p +:+ sep +:+ join sep rest
  end.

(** [arr.filter((_, i) => p i)]: the elements whose index passes [p]. *)
Definition filter_index {A} (p : nat -> bool) (arr : list A) : list A :=
  map snd (List.filter (fun ix => p (fst ix)) (imap (fun i x => (i, x)) arr)).

(** Every character of [s] passes [p]. *)
Fixpoint all_chars (p : ascii -> bool) (s : string) : bool :=
  match s with
  | EmptyString => true
  | String c s' => p c && all_chars p s'
  end.

(** [arr.sort(compare)], for a comparator that orders its arguments
    consistently.  The standard prescribes a stable sort, and the result of
    a stable sort does not depend on the algorithm: here each element, from
    the last to the first, is put before the elements already sorted that
    it does not have to follow ([compare x y > 0] puts [y] first). *)
Fixpoint sort_insert {A} (compare : A -> A -> Z) (x : A) (sorted : list A) : list A :=
  match sorted with
  | [] => [x]
  | y :: rest => if 0 <? compare x y then y :: sort_insert compare x rest else x :: sorted
  end.

Definition sort {A} (compare : A -> A -> Z) (arr : list A) : list A :=
  fold_right (sort_insert compare) [] arr.

End JS.

(** ** The data model of [types.ts] *)

Module Types.

Inductive RiskLevel := LOW | MEDIUM | HIGH.

Module QAPair.
Record t := mk { question : string; answer : string; timestamp : Z }.
End QAPair.

Module Clause.
Record t := mk {
    id : string;
    text : string;
    explanation : string;
    riskLevel : RiskLevel;
    riskyKeywords : list string;
    reason : string;
    conversationHistory : option (list QAPair.t)
  }.
End Clause.

Module ContractAnalysis.
Record t := mk {
    summary : string;
    overallRisk : RiskLevel;
    riskScore : option Z;
    clauses : list Clause.t;
    fullText : option string
  }.
End ContractAnalysis.

Inductive ContractStatus := CPending | CAnalyzed | CError.

Module Contract.
Record t := mk {
    id : string;
    userId : string;
    fileName : string;
    uploadDate : Z;
    status : ContractStatus;
    analysis : option ContractAnalysis.t;
    fileData : option string;
    mimeType : option string
  }.
End Contract.

Inductive SourceType := SrcFile | SrcText.

Module RecentAnalysis.
Record t := mk {
    id : string;
    name : string;
    createdAt : string;
    sourceType : SourceType;
    fileName : option string;
    rawText : string;
    riskScore : Z;
    riskSummary : string;
    summary : list string;
    clauses : list Clause.t
  }.
End RecentAnalysis.

Inductive Role := RoleUser | RoleModel.

Module ChatMessage.
Record t := mk { role : Role; text : string; timestamp : Z }.
End ChatMessage.

Module ComparisonResult.
Record t := mk {
    recommendedId : string;
    reasoning : string;
    keyDifferences : list string
  }.
End ComparisonResult.

Module User.
Record t := mk { id : string; email : string; name : string }.
End User.

(** The browser's [File], as far as the code reads it. *)
Module File.
Record t := mk { name : string; type : string; size : Z }.
End File.

(** [FileUploadState], the entry of the batch in [ContractUpload.tsx]. *)
Inductive UploadStatus := pending | processing | success | error.

Module FileUploadState.
Record t := mk {
    file : File.t;
    status : UploadStatus;
    error : option string;
    contract : option Contract.t
  }.
End FileUploadState.

End Types.
Import Types.

(** ** [components/CompareView.tsx] *)

Module CompareView.

(** [contracts.find(c => c.id === comparison.recommendedId) || contracts[0]];
    [None] is JavaScript's [undefined], which the expression yields on an
    empty list only (a contract object is always truthy). *)
Definition winner (contracts : list Contract.t) (comparison : ComparisonResult.t)
  : option Contract.t :=
  match JS.find (fun c => String.eqb (Contract.id c) (ComparisonResult.recommendedId comparison))
                contracts with
  | Some c => Some c
  | None => contracts !! 0%nat
  end.

End CompareView.


(** ** JSON: the platform's [JSON.stringify] and [JSON.parse]

    The storage adapter keeps every value as JSON text.  [stringify] prints
    a document the way [JSON.stringify] does without an indent argument;
    [parse] reads the JSON grammar (white space between tokens, the escapes
    of string literals).  Numbers are read in the integer syntax only, and a
    [\u] escape above [00ff] is not representable in 8-bit strings: such
    texts are rejected like a syntax error. *)

Module JSON.

Inductive json :=
| JNull
| JBool (b : bool)
| JNum (z : Z)
| JStr (s : string)
| JArr (l : list json)
| JObj (m : list (string * json)).

(** *** Printing *)

Definition hex_digit (n : nat) : ascii :=
  if (n <? 10)%nat then ascii_of_nat (48 + n) else ascii_of_nat (87 + n).

(** The escape of one character inside a string literal. *)
Definition escape_char (c : ascii) : string :=
  let n := nat_of_ascii c in
  if (n =? 34)%nat then "\" +:+ JS.dquote
  else if (n =? 92)%nat then "\\"
  else if (n =? 8)%nat then "\b"
  else if (n =? 12)%nat then "\f"
  else if (n =? 10)%nat then "\n"
  else if (n =? 13)%nat then "\r"
  else if (n =? 9)%nat then "\t"
  else if (n <? 32)%nat then
    "\u00" +:+ String (hex_digit (n / 16)) (String (hex_digit (n mod 16)) EmptyString)
  else String c EmptyString.

Fixpoint escape (s : string) : string :=
  match s with
  | EmptyString => EmptyString
  | String c s' => escape_char c +:+ escape s'
  end.

Definition quote (s : string) : string := JS.dquote +:+ escape s +:+ JS.dquote.

Definition print_Z (z : Z) : string :=
  match z with
  | Z0 => "0"
  | Zpos p => NilEmpty.string_of_uint (Pos.to_uint p)
  | Zneg p => "-" +:+ NilEmpty.string_of_uint (Pos.to_uint p)
  end.

(** [parts.join(",")] *)
Fixpoint join_comma (parts : list string) : string :=
  match parts with
  | [] => EmptyString
  | [p] => p
  | p :: rest => p +:+ "," +:+ join_comma rest
  end.

Fixpoint stringify (j : json) : string :=
  match j with
  | JNull => "null"
  | JBool true => "true"
  | JBool false => "false"
  | JNum z => print_Z z
  | JStr s => quote s
  | JArr l => "[" +:+ join_comma (map stringify l) +:+ "]"
  | JObj m =>
      "{" +:+ join_comma (map (fun kv => quote (fst kv) +:+ ":" +:+ stringify (snd kv)) m) +:+ "}"
  end.

(** *** Parsing *)

Definition is_ws (c : ascii) : bool :=
  let n := nat_of_ascii c in
  ((n =? 32) || (n =? 9) || (n =? 10) || (n =? 13))%nat.

Fixpoint skip_ws (s : string) : string :=
  match s with
  | String c s' => if is_ws c then skip_ws s' else s
  | EmptyString => EmptyString
  end.

Fixpoint strip_prefix (p s : string) : option string :=
  match p, s with
  | EmptyString, _ => Some s
  | String a p', String b s' => if Ascii.eqb a b then strip_prefix p' s' else None
  | String _ _, EmptyString => None
  end.

Definition hex_value (c : ascii) : option nat :=
  let n := nat_of_ascii c in
  if ((48 <=? n) && (n <=? 57))%nat then Some (n - 48)%nat
  else if ((97 <=? n) && (n <=? 102))%nat then Some (n - 87)%nat
  else if ((65 <=? n) && (n <=? 70))%nat then Some (n - 55)%nat
  else None.

(** The character denoted by [\uh1h2h3h4], when it fits in 8 bits. *)
Definition unicode_escape (h1 h2 h3 h4 : ascii) : option ascii :=
  match hex_value h1, hex_value h2, hex_value h3, hex_value h4 with
  | Some 0%nat, Some 0%nat, Some c, Some d => Some (ascii_of_nat (16 * c + d))
  | _, _, _, _ => None
  end.

(** The character denoted by a one-letter escape. *)
Definition simple_escape (e : ascii) : option ascii :=
  let n := nat_of_ascii e in
  if (n =? 34)%nat then Some e
  else if (n =? 92)%nat then Some e
  else if (n =? 47)%nat then Some e
  else if (n =? 98)%nat then Some (ascii_of_nat 8)
  else if (n =? 102)%nat then Some (ascii_of_nat 12)
  else if (n =? 110)%nat then Some (ascii_of_nat 10)
  else if (n =? 114)%nat then Some (ascii_of_nat 13)
  else if (n =? 116)%nat then Some (ascii_of_nat 9)
  else None.

Definition cons_char (c : ascii) (r : option (string * string)) : option (string * string) :=
  match r with
  | Some (body, rest) => Some (String c body, rest)
  | None => None
  end.

(** The body of a string literal, after its opening quote, and the text
    after the closing quote. *)
Fixpoint parse_string_body (s : string) : option (string * string) :=
  match s with
  | EmptyString => None
  | String c rest =>
      let n := nat_of_ascii c in
      if (n =? 34)%nat then Some (EmptyString, rest)
      else if (n =? 92)%nat then
        match rest with
        | String e rest1 =>
            if (nat_of_ascii e =? 117)%nat then
              match rest1 with
              | String h1 (String h2 (String h3 (String h4 rest2))) =>
                  match unicode_escape h1 h2 h3 h4 with
                  | Some d => cons_char d (parse_string_body rest2)
                  | None => None
                  end
              | _ => None
              end
            else
              match simple_escape e with
              | Some d => cons_char d (parse_string_body rest1)
              | None => None
              end
        | EmptyString => None
        end
      else if (n <? 32)%nat then None
      else cons_char c (parse_string_body rest)
  end.

Definition is_digit (c : ascii) : bool :=
  let n := nat_of_ascii c in ((48 <=? n) && (n <=? 57))%nat.

(** The longest prefix of digits and the text after it. *)
Fixpoint span_digits (s : string) : string * string :=
  match s with
  | String c s' =>
      if is_digit c then let (ds, rest) := span_digits s' in (String c ds, rest)
      else (EmptyString, s)
  | EmptyString => (EmptyString, EmptyString)
  end.

(** No digit sequence but ["0"] itself starts with a zero. *)
Definition no_leading_zero (ds : string) : bool :=
  match ds with
  | String c (String _ _) => negb (Ascii.eqb c "0")
  | _ => true
  end.

(** After the digits of an integer, a fraction or an exponent would follow. *)
Definition integer_ends (rest : string) : bool :=
  match rest with
  | String c _ =>
      let n := nat_of_ascii c in negb ((n =? 46) || (n =? 101) || (n =? 69))%nat
  | EmptyString => true
  end.

Definition parse_digits (s : string) : option (Z * string) :=
  let (ds, rest) := span_digits s in
  match ds with
  | EmptyString => None
  | _ =>
      if no_leading_zero ds && integer_ends rest then
        match NilEmpty.uint_of_string ds with
        | Some u => Some (Z.of_uint u, rest)
        | None => None
        end
      else None
  end.

Definition parse_number (s : string) : option (Z * string) :=
  match s with
  | String c s' =>
      if Ascii.eqb c "-" then
        match parse_digits s' with
        | Some (z, rest) => Some (- z, rest)
        | None => None
        end
      else parse_digits s
  | EmptyString => None
  end.

Definition starts_with_char (n : nat) (s : string) : option string :=
  match s with
  | String c rest => if (nat_of_ascii c =? n)%nat then Some rest else None
  | EmptyString => None
  end.

(** One value, then the rest of the text.  [parse_elements] reads the
    elements of an array up to its closing bracket, [parse_members] the
    members of an object up to its closing brace. *)
Fixpoint parse_value (fuel : nat) (s : string) : option (json * string) :=
  match fuel with
  | O => None
  | S fuel' =>
      let s := skip_ws s in
      match strip_prefix "null" s with
      | Some rest => Some (JNull, rest)
      | None =>
      match strip_prefix "true" s with
      | Some rest => Some (JBool true, rest)
      | None =>
      match strip_prefix "false" s with
      | Some rest => Some (JBool false, rest)
      | None =>
      match starts_with_char 34 s with
      | Some rest =>
          match parse_string_body rest with
          | Some (str, rest') => Some (JStr str, rest')
          | None => None
          end
      | None =>
      match starts_with_char 91 s with
      | Some rest =>
          match starts_with_char 93 (skip_ws rest) with
          | Some rest' => Some (JArr [], rest')
          | None =>
              match parse_elements fuel' rest with
              | Some (l, rest') => Some (JArr l, rest')
              | None => None
              end
          end
      | None =>
      match starts_with_char 123 s with
      | Some rest =>
          match starts_with_char 125 (skip_ws rest) with
          | Some rest' => Some (JObj [], rest')
          | None =>
              match parse_members fuel' rest with
              | Some (m, rest') => Some (JObj m, rest')
              | None => None
              end
          end
      | None =>
          match parse_number s with
          | Some (z, rest) => Some (JNum z, rest)
          | None => None
          end
      end end end end end end
  end
with parse_elements (fuel : nat) (s : string) : option (list json * string) :=
  match fuel with
  | O => None
  | S fuel' =>
      match parse_value fuel' s with
      | Some (v, rest) =>
          let rest := skip_ws rest in
          match starts_with_char 93 rest with
          | Some rest' => Some ([v], rest')
          | None =>
              match starts_with_char 44 rest with
              | Some rest' =>
                  match parse_elements fuel' rest' with
                  | Some (vs, rest'') => Some (v :: vs, rest'')
                  | None => None
                  end
              | None => None
              end
          end
      | None => None
      end
  end
with parse_members (fuel : nat) (s : string) : option (list (string * json) * string) :=
  match fuel with
  | O => None
  | S fuel' =>
      match starts_with_char 34 (skip_ws s) with
      | Some rest =>
          match parse_string_body rest with
          | Some (key, rest) =>
              match starts_with_char 58 (skip_ws rest) with
              | Some rest =>
                  match parse_value fuel' rest with
                  | Some (v, rest) =>
                      let rest := skip_ws rest in
                      match starts_with_char 125 rest with
                      | Some rest' => Some ([(key, v)], rest')
                      | None =>
                          match starts_with_char 44 rest with
                          | Some rest' =>
                              match parse_members fuel' rest' with
                              | Some (m, rest'') => Some ((key, v) :: m, rest'')
                              | None => None
                              end
                          | None => None
                          end
                      end
                  | None => None
                  end
              | None => None
              end
          | None => None
          end
      | None => None
      end
  end.

(** [JSON.parse(text)]; [None] is the [SyntaxError] it throws.  Every
    nested value and every further element or member takes at least one
    character, so the length of the text bounds the recursion. *)
Definition parse (text : string) : option json :=
  match parse_value (2 * String.length text + 2) text with
  | Some (v, rest) =>
      match skip_ws rest with
      | EmptyString => Some v
      | _ => None
      end
  | None => None
  end.

(** *** What the round trip of [parse] and [stringify] is stated with *)

Definition starts_digit (s : string) : bool :=
  match s with String c _ => is_digit c | EmptyString => false end.

(** What may follow a value in a text: the end, a comma, a closing bracket
    or a closing brace. *)
Definition delimited (rest : string) : Prop :=
  match rest with
  | EmptyString => True
  | String c _ =>
      nat_of_ascii c = 44%nat \/ nat_of_ascii c = 93%nat \/ nat_of_ascii c = 125%nat
  end.

(** The first character of a printed value. *)
Definition value_start (c : ascii) : Prop :=
  is_digit c = true \/
  In (nat_of_ascii c) [45; 34; 91; 123; 110; 116; 102]%nat.

(** The recursion depth [parse_value] needs for a value: one per value and
    one per element or member. *)
Fixpoint size (j : json) : nat :=
  match j with
  | JArr l => S (list_sum (map (fun x => S (size x)) l))
  | JObj m => S (list_sum (map (fun kv => S (size (snd kv))) m))
  | _ => 1
  end.

(** [parse_value] reads back the text of [j], whatever follows it. *)
Definition roundtrips (j : json) : Prop :=
  forall fuel rest, (size j <= fuel)%nat -> delimited rest ->
    parse_value fuel (stringify j +:+ rest) = Some (j, rest).

End JSON.


(** ** The JSON shape of the data model

    A value of the data model is a JavaScript object whose keys are the
    fields of its interface; [JSON.stringify] leaves out a field that is
    [undefined].  The sources cast what [JSON.parse] returns to the
    interface they expect ([as T], or a typed binding) without a check;
    here the cast is the decoder of that interface, and a document of
    another shape is treated like text that does not parse. *)

Module Codec.
Import JSON.

(** The members of an object literal, the [undefined] ones left out. *)
Definition obj (fields : list (string * option json)) : json :=
  JObj (omap (fun kv => match snd kv with Some v => Some (fst kv, v) | None => None end) fields).

(** [o[k]] on a parsed object: of two members with one key the last wins. *)
Definition field (k : string) (m : list (string * json)) : option json :=
  match List.find (fun kv => String.eqb (fst kv) k) (rev m) with
  | Some kv => Some (snd kv)
  | None => None
  end.

Definition as_string (j : json) : option string :=
  match j with JStr s => Some s | _ => None end.

Definition as_number (j : json) : option Z :=
  match j with JNum z => Some z | _ => None end.

Definition as_array {A} (dec : json -> option A) (j : json) : option (list A) :=
  match j with JArr l => mapM dec l | _ => None end.

(** A field the interface requires. *)
Definition req {A} (dec : json -> option A) (k : string) (m : list (string * json)) : option A :=
  match field k m with Some j => dec j | None => None end.

(** A field the interface marks optional ([k?: T]). *)
Definition opt {A} (dec : json -> option A) (k : string) (m : list (string * json))
  : option (option A) :=
  match field k m with
  | Some j => match dec j with Some a => Some (Some a) | None => None end
  | None => Some None
  end.

Definition strings (l : list string) : json := JArr (map JStr l).

Definition RiskLevel_to_string (r : RiskLevel) : string :=
  match r with LOW => "Low" | MEDIUM => "Medium" | HIGH => "High" end.

Definition RiskLevel_of_json (j : json) : option RiskLevel :=
  match j with
  | JStr s =>
      if String.eqb s "Low" then Some LOW
      else if String.eqb s "Medium" then Some MEDIUM
      else if String.eqb s "High" then Some HIGH
      else None
  | _ => None
  end.

Definition ContractStatus_to_string (s : ContractStatus) : string :=
  match s with CPending => "pending" | CAnalyzed => "analyzed" | CError => "error" end.

Definition ContractStatus_of_json (j : json) : option ContractStatus :=
  match j with
  | JStr s =>
      if String.eqb s "pending" then Some CPending
      else if String.eqb s "analyzed" then Some CAnalyzed
      else if String.eqb s "error" then Some CError
      else None
  | _ => None
  end.

Definition SourceType_to_string (s : SourceType) : string :=
  match s with SrcFile => "file" | SrcText => "text" end.

Definition SourceType_of_json (j : json) : option SourceType :=
  match j with
  | JStr s =>
      if String.eqb s "file" then Some SrcFile
      else if String.eqb s "text" then Some SrcText
      else None
  | _ => None
  end.

Definition QAPair_to_json (q : QAPair.t) : json :=
  obj [("question", Some (JStr (QAPair.question q)));
       ("answer", Some (JStr (QAPair.answer q)));
       ("timestamp", Some (JNum (QAPair.timestamp q)))].

Definition QAPair_of_json (j : json) : option QAPair.t :=
  match j with
  | JObj m =>
      question ← req as_string "question" m;
      answer ← req as_string "answer" m;
      timestamp ← req as_number "timestamp" m;
      Some (QAPair.mk question answer timestamp)
  | _ => None
  end.

Definition Clause_to_json (c : Clause.t) : json :=
  obj [("id", Some (JStr (Clause.id c)));
       ("text", Some (JStr (Clause.text c)));
       ("explanation", Some (JStr (Clause.explanation c)));
       ("riskLevel", Some (JStr (RiskLevel_to_string (Clause.riskLevel c))));
       ("riskyKeywords", Some (strings (Clause.riskyKeywords c)));
       ("reason", Some (JStr (Clause.reason c)));
       ("conversationHistory",
         option_map (fun h => JArr (map QAPair_to_json h)) (Clause.conversationHistory c))].

Definition Clause_of_json (j : json) : option Clause.t :=
  match j with
  | JObj m =>
      id ← req as_string "id" m;
      text ← req as_string "text" m;
      explanation ← req as_string "explanation" m;
      riskLevel ← req RiskLevel_of_json "riskLevel" m;
      riskyKeywords ← req (as_array as_string) "riskyKeywords" m;
      reason ← req as_string "reason" m;
      conversationHistory ← opt (as_array QAPair_of_json) "conversationHistory" m;
      Some (Clause.mk id text explanation riskLevel riskyKeywords reason conversationHistory)
  | _ => None
  end.

Definition ContractAnalysis_to_json (a : ContractAnalysis.t) : json :=
  obj [("summary", Some (JStr (ContractAnalysis.summary a)));
       ("overallRisk", Some (JStr (RiskLevel_to_string (ContractAnalysis.overallRisk a))));
       ("riskScore", option_map JNum (ContractAnalysis.riskScore a));
       ("clauses", Some (JArr (map Clause_to_json (ContractAnalysis.clauses a))));
       ("fullText", option_map JStr (ContractAnalysis.fullText a))].

Definition ContractAnalysis_of_json (j : json) : option ContractAnalysis.t :=
  match j with
  | JObj m =>
      summary ← req as_string "summary" m;
      overallRisk ← req RiskLevel_of_json "overallRisk" m;
      riskScore ← opt as_number "riskScore" m;
      clauses ← req (as_array Clause_of_json) "clauses" m;
      fullText ← opt as_string "fullText" m;
      Some (ContractAnalysis.mk summary overallRisk riskScore clauses fullText)
  | _ => None
  end.

Definition Contract_to_json (c : Contract.t) : json :=
  obj [("id", Some (JStr (Contract.id c)));
       ("userId", Some (JStr (Contract.userId c)));
       ("fileName", Some (JStr (Contract.fileName c)));
       ("uploadDate", Some (JNum (Contract.uploadDate c)));
       ("status", Some (JStr (ContractStatus_to_string (Contract.status c))));
       ("analysis", option_map ContractAnalysis_to_json (Contract.analysis c));
       ("fileData", option_map JStr (Contract.fileData c));
       ("mimeType", option_map JStr (Contract.mimeType c))].

Definition Contract_of_json (j : json) : option Contract.t :=
  match j with
  | JObj m =>
      id ← req as_string "id" m;
      userId ← req as_string "userId" m;
      fileName ← req as_string "fileName" m;
      uploadDate ← req as_number "uploadDate" m;
      status ← req ContractStatus_of_json "status" m;
      analysis ← opt ContractAnalysis_of_json "analysis" m;
      fileData ← opt as_string "fileData" m;
      mimeType ← opt as_string "mimeType" m;
      Some (Contract.mk id userId fileName uploadDate status analysis fileData mimeType)
  | _ => None
  end.

Definition RecentAnalysis_to_json (r : RecentAnalysis.t) : json :=
  obj [("id", Some (JStr (RecentAnalysis.id r)));
       ("name", Some (JStr (RecentAnalysis.name r)));
       ("createdAt", Some (JStr (RecentAnalysis.createdAt r)));
       ("sourceType", Some (JStr (SourceType_to_string (RecentAnalysis.sourceType r))));
       ("fileName", option_map JStr (RecentAnalysis.fileName r));
       ("rawText", Some (JStr (RecentAnalysis.rawText r)));
       ("riskScore", Some (JNum (RecentAnalysis.riskScore r)));
       ("riskSummary", Some (JStr (RecentAnalysis.riskSummary r)));
       ("summary", Some (strings (RecentAnalysis.summary r)));
       ("clauses", Some (JArr (map Clause_to_json (RecentAnalysis.clauses r))))].

Definition RecentAnalysis_of_json (j : json) : option RecentAnalysis.t :=
  match j with
  | JObj m =>
      id ← req as_string "id" m;
      name ← req as_string "name" m;
      createdAt ← req as_string "createdAt" m;
      sourceType ← req SourceType_of_json "sourceType" m;
      fileName ← opt as_string "fileName" m;
      rawText ← req as_string "rawText" m;
      riskScore ← req as_number "riskScore" m;
      riskSummary ← req as_string "riskSummary" m;
      summary ← req (as_array as_string) "summary" m;
      clauses ← req (as_array Clause_of_json) "clauses" m;
      Some (RecentAnalysis.mk id name createdAt sourceType fileName rawText riskScore
              riskSummary summary clauses)
  | _ => None
  end.

Definition ComparisonResult_of_json (j : json) : option ComparisonResult.t :=
  match j with
  | JObj m =>
      recommendedId ← req as_string "recommendedId" m;
      reasoning ← req as_string "reasoning" m;
      keyDifferences ← req (as_array as_string) "keyDifferences" m;
      Some (ComparisonResult.mk recommendedId reasoning keyDifferences)
  | _ => None
  end.

(** [JSON.stringify(value)] of a typed array and [JSON.parse(text)] bound
    to a typed array. *)
Definition stringify_list {A} (enc : A -> json) (l : list A) : string :=
  stringify (JArr (map enc l)).

Definition parse_list {A} (dec : json -> option A) (text : string) : option (list A) :=
  match parse text with
  | Some j => as_array dec j
  | None => None
  end.

Definition User_to_json (u : User.t) : json :=
  obj [("id", Some (JStr (User.id u)));
       ("email", Some (JStr (User.email u)));
       ("name", Some (JStr (User.name u)))].

Definition User_of_json (j : json) : option User.t :=
  match j with
  | JObj m =>
      id ← req as_string "id" m;
      email ← req as_string "email" m;
      name ← req as_string "name" m;
      Some (User.mk id email name)
  | _ => None
  end.

End Codec.


(** ** The browser's [localStorage]

    A map from keys to texts.  [setItem] throws when the browser refuses
    the write (a full quota, storage disabled); which writes are refused is
    the browser's policy [admits], a predicate on the contents the store
    would have after the write (a quota on their size, for instance). *)

Module LocalStorage.

Record t := mk {
  items : gmap string string;
  admits : gmap string string -> bool
}.

Definition getItem (key : string) (ls : t) : option string := items ls !! key.

(** [None]: the write was refused and [setItem] threw. *)
Definition setItem (key value : string) (ls : t) : option t :=
  let items' := <[key := value]> (items ls) in
  if admits ls items' then Some (mk items' (admits ls)) else None.

Definition removeItem (key : string) (ls : t) : t :=
  mk (delete key (items ls)) (admits ls).

(** The size a quota counts: the characters of the keys and of the values. *)
Definition usage (m : gmap string string) : nat :=
  map_fold (fun k v acc => (String.length k + String.length v + acc)%nat) 0%nat m.

(** The usual policy: a quota on the size of the contents. *)
Definition quota (limit : nat) (m : gmap string string) : bool := (usage m <=? limit)%nat.

End LocalStorage.

(** ** The run time: errors, promises, the event loop *)

Module Runtime.

(** What JavaScript code throws.  [Error m] is [new Error(m)], or an error
    object of the backend SDK with message [m]; the other two are thrown by
    the platform. *)
Inductive exn :=
| Error (message : string)
| SyntaxError
| QuotaExceededError.

(** [e.message]; the platform's own texts are the browser's. *)
Definition message (e : exn) : string :=
  match e with
  | Error m => m
  | SyntaxError => "Unexpected token in JSON"
  | QuotaExceededError => "The quota has been exceeded."
  end.

Inductive Result (A : Type) :=
| Ok (a : A)
| Throw (e : exn).
Arguments Ok {A} a.
Arguments Throw {A} e.

(** The requests [ai.models.generateContent] is called with, each given by
    the inputs that determine its model, prompt and configuration. *)
Inductive Request :=
| ReqAnalyze (mimeType : string) (data : option string)
| ReqClauseQuestion (clauseText question : string)
| ReqChat (history : list ChatMessage.t) (newMessage contractContext : string)
| ReqCompare (contracts : list Contract.t).

(** How the backend settles a request: [response.text] (empty also when it
    is [undefined]), or the error the SDK rejects with. *)
Inductive BackendOutcome :=
| Responded (text : string)
| Rejected (error : exn).

(** What the code reads from its environment and does not control.  The
    backend's answer may depend on the request and on how many requests
    came before it; random identifiers and the clock are read in sequence. *)
Record Platform := mkPlatform {
  API_KEY : string;
  generateContent : nat -> Request -> BackendOutcome;
  readAsDataURL : File.t -> option string;
  Math_random_id : nat -> string;
  Date_now : nat -> Z;
  toISOString : Z -> string
}.

(** What an observer of the page sees, in order. *)
Inductive Event :=
| EvRequest (r : Request)
| EvSetFiles (files : list FileUploadState.t)
| EvUploadComplete (c : Contract.t).

Record World := mkWorld {
  platform : Platform;
  localStorage : LocalStorage.t;
  files : list FileUploadState.t;
  globalError : option string;
  ticks : nat;
  trace : list Event
}.

Definition with_localStorage (ls : LocalStorage.t) (w : World) : World :=
  mkWorld (platform w) ls (files w) (globalError w) (ticks w) (trace w).

Definition with_files (fs : list FileUploadState.t) (w : World) : World :=
  mkWorld (platform w) (localStorage w) fs (globalError w) (ticks w) (trace w).

Definition with_globalError (e : option string) (w : World) : World :=
  mkWorld (platform w) (localStorage w) (files w) e (ticks w) (trace w).

Definition tick (w : World) : World :=
  mkWorld (platform w) (localStorage w) (files w) (globalError w) (S (ticks w)) (trace w).

Definition emit (ev : Event) (w : World) : World :=
  mkWorld (platform w) (localStorage w) (files w) (globalError w) (ticks w) (trace w ++ [ev]).

(** The contracts [onUploadComplete] was called with, in order. *)
Definition uploads_completed (tr : list Event) : list Contract.t :=
  omap (fun ev => match ev with EvUploadComplete c => Some c | _ => None end) tr.

(** The number of backend requests issued so far. *)
Definition requests_issued (w : World) : nat :=
  length (List.filter (fun ev => match ev with EvRequest _ => true | _ => false end) (trace w)).

(** The body of an [async] function: synchronous steps on the world, which
    run without interruption, and the points where it is suspended until
    the event loop resumes it ([await]). *)
Inductive Async (A : Type) : Type :=
| Ret (r : Result A)
| Do (step : World -> World) (k : World -> Async A)
| Yield (k : Async A).
Arguments Ret {A} r.
Arguments Do {A} step k.
Arguments Yield {A} k.

Definition ret {A} (a : A) : Async A := Ret (Ok a).
Definition throw {A} (e : exn) : Async A := Ret (Throw e).

Fixpoint bind {A B} (m : Async A) (f : A -> Async B) : Async B :=
  match m with
  | Ret (Ok a) => f a
  | Ret (Throw e) => Ret (Throw e)
  | Do step k => Do step (fun w => bind (k w) f)
  | Yield k => Yield (bind k f)
  end.

(** [try { m } catch (e) { handler e }] *)
Fixpoint try_catch {A} (m : Async A) (handler : exn -> Async A) : Async A :=
  match m with
  | Ret (Ok a) => Ret (Ok a)
  | Ret (Throw e) => handler e
  | Do step k => Do step (fun w => try_catch (k w) handler)
  | Yield k => Yield (try_catch k handler)
  end.

(** [await m]: the synchronous start of [m] runs at once; the awaiting
    function continues in a later turn of the event loop, after [m] has
    settled. *)
Definition await {A} (m : Async A) : Async A :=
  try_catch (bind m (fun a => Yield (ret a))) (fun e => Yield (throw e)).

(** Runs the synchronous steps up to the next suspension. *)
Fixpoint advance {A} (m : Async A) (w : World) : World * Async A :=
  match m with
  | Ret r => (w, Ret r)
  | Do step k => advance (k w) (step w)
  | Yield k => (w, Yield k)
  end.

(** The event loop resumes a suspended function. *)
Definition resume {A} (m : Async A) (w : World) : World * Async A :=
  match m with
  | Yield k => advance k w
  | _ => (w, m)
  end.

(** Runs a function to its end when nothing else is scheduled in between. *)
Fixpoint run {A} (m : Async A) (w : World) : World * Result A :=
  match m with
  | Ret r => (w, r)
  | Do step k => run (k w) (step w)
  | Yield k => run k w
  end.

(** Runs a function to its end while the page handles other events:
    [others] gives what happens to the world at each suspension of the
    function, in order (the identity when nothing happens); once they are
    used up the function runs on alone. *)
Fixpoint run_among {A} (others : list (World -> World)) (m : Async A) (w : World)
  : World * Result A :=
  match m with
  | Ret r => (w, r)
  | Do step k => run_among others (k w) (step w)
  | Yield k =>
      match others with
      | [] => run_among [] k w
      | other :: rest => run_among rest k (other w)
      end
  end.

(** Every way [m] can settle satisfies [P], whatever the world is at each
    of its steps, hence whatever else runs while [m] is suspended. *)
Fixpoint always {A} (P : Result A -> Prop) (m : Async A) : Prop :=
  match m with
  | Ret r => P r
  | Do _ k => forall w, always P (k w)
  | Yield k => always P k
  end.

(** [m] settles after at most [n] suspensions. *)
Fixpoint within {A} (n : nat) (m : Async A) : Prop :=
  match m with
  | Ret _ => True
  | Do _ k => forall w, within n (k w)
  | Yield k => match n with O => False | S n' => within n' k end
  end.

(** Every synchronous step of [m] takes a world to one related by [R]. *)
Fixpoint guarantees {A} (R : World -> World -> Prop) (m : Async A) : Prop :=
  match m with
  | Ret _ => True
  | Do step k => forall w, R w (step w) /\ guarantees R (k w)
  | Yield k => guarantees R k
  end.

(** A promise between two turns of the event loop: settled or suspended. *)
Definition parked {A} (m : Async A) : Prop :=
  match m with Do _ _ => False | _ => True end.

(** As [always], over the worlds of the platform [p]. *)
Fixpoint always_on {A} (p : Platform) (P : Result A -> Prop) (m : Async A) : Prop :=
  match m with
  | Ret r => P r
  | Do _ k => forall w, platform w = p -> always_on p P (k w)
  | Yield k => always_on p P k
  end.

(** A step that leaves the platform and the trace as they are. *)
Definition silent (w w' : World) : Prop :=
  platform w' = platform w /\ trace w' = trace w.

Definition emit_request (req : option Request) (w : World) : World :=
  match req with
  | Some r => emit (EvRequest r) w
  | None => w
  end.

(** A promise whose request is out: it is suspended or settled, emits
    nothing more, and settles with a result in [P]. *)
Definition answered {A} (p : Platform) (P : Result A -> Prop) (m : Async A) : Prop :=
  parked m /\ guarantees silent m /\ always_on p P m.

(** A suspended promise that leaves the world alone for [turns] turns and in
    the next one issues the request [req], if any, and nothing else; it then
    settles with a result in [P n], [n] being the number of requests that
    had been issued before that turn. *)
Fixpoint issues {A} (p : Platform) (req : option Request) (P : nat -> Result A -> Prop)
    (turns : nat) (m : Async A) {struct turns} : Prop :=
  exists k, m = Yield k /\
    forall w, platform w = p ->
      match turns with
      | O => fst (advance k w) = emit_request req w /\
             answered p (P (requests_issued w)) (snd (advance k w))
      | S t => fst (advance k w) = w /\ issues p req P t (snd (advance k w))
      end.

(** The promises in the order in which a schedule gives them their second
    turn; [turns] counts the turns each has had. *)
Fixpoint second_turns (turns : nat -> nat) (sched : list nat) : list nat :=
  match sched with
  | [] => []
  | i :: rest =>
      let rest' :=
        second_turns (fun j => if (j =? i)%nat then S (turns j) else turns j) rest in
      if (turns i =? 1)%nat then i :: rest' else rest'
  end.

(** The event loop resumes task [i] of a pool of promises. *)
Definition resume_task {A} (i : nat) (pool : list (Async A)) (w : World)
  : World * list (Async A) :=
  match pool !! i with
  | Some m => let (w', m') := resume m w in (w', <[i := m']> pool)
  | None => (w, pool)
  end.

(** The first promise of the pool that has rejected, if any. *)
Fixpoint first_rejected {A} (pool : list (Async A)) : option exn :=
  match pool with
  | [] => None
  | Ret (Throw e) :: _ => Some e
  | _ :: rest => first_rejected rest
  end.

(** The values of the pool when every promise has resolved. *)
Fixpoint all_resolved {A} (pool : list (Async A)) : option (list A) :=
  match pool with
  | [] => Some []
  | Ret (Ok a) :: rest =>
      match all_resolved rest with Some l => Some (a :: l) | None => None end
  | _ :: _ => None
  end.

(** [await Promise.all(pool)]: rejects as soon as one promise has rejected,
    resolves with all the values once every promise has resolved.  [sched]
    is the order in which the event loop resumes the tasks; [None] when it
    ends with promises still pending. *)
Fixpoint Promise_all {A} (sched : list nat) (pool : list (Async A)) (w : World)
  : World * list (Async A) * option (Result (list A)) :=
  match first_rejected pool with
  | Some e => (w, pool, Some (Throw e))
  | None =>
      match all_resolved pool with
      | Some values => (w, pool, Some (Ok values))
      | None =>
          match sched with
          | [] => (w, pool, None)
          | i :: sched' =>
              let (w', pool') := resume_task i pool w in
              Promise_all sched' pool' w'
          end
      end
  end.

(** Calling the [async] functions of a list one after the other: each runs
    its synchronous start and leaves a promise. *)
Fixpoint launch_all {A} (calls : list (Async A)) (w : World) : World * list (Async A) :=
  match calls with
  | [] => (w, [])
  | m :: rest =>
      let (w1, p) := advance m w in
      let (w2, ps) := launch_all rest w1 in
      (w2, p :: ps)
  end.

End Runtime.


(** ** [services/storageService.ts] *)

Module storageService.
Import JSON Codec Runtime.

Definition USERS : string := "legallens_users".
Definition CONTRACTS : string := "legallens_contracts".
Definition CURRENT_USER : string := "legallens_current_user".
Definition RECENT_ANALYSES : string := "legallens_recent_analyses".

(** [raw ? JSON.parse(raw) : []], bound to a typed array; [None] when
    [JSON.parse] throws. *)
Definition parse_or_empty {A} (dec : json -> option A) (raw : option string)
  : option (list A) :=
  match raw with
  | Some text => if JS.truthy text then parse_list dec text else Some []
  | None => Some []
  end.

Definition getContracts (userId : string) (ls : LocalStorage.t) : list Contract.t :=
  match parse_or_empty Contract_of_json (LocalStorage.getItem CONTRACTS ls) with
  | Some contracts =>
      List.filter (fun c => String.eqb (Contract.userId c) userId) contracts
  | None => []
  end.

(** Every stored contract, as [getContracts] reads them before it filters. *)
Definition allContracts (ls : LocalStorage.t) : list Contract.t :=
  match parse_or_empty Contract_of_json (LocalStorage.getItem CONTRACTS ls) with
  | Some contracts => contracts
  | None => []
  end.

(** The contracts array after [saveContract]'s update: the entry with the
    contract's id is replaced, or the contract is pushed. *)
Definition upsert (contract : Contract.t) (contracts : list Contract.t) : list Contract.t :=
  match JS.findIndex (fun c => String.eqb (Contract.id c) (Contract.id contract)) contracts with
  | Some existingIndex => <[existingIndex := contract]> contracts
  | None => contracts ++ [contract]
  end.

(** [saveContract] rethrows what its [try] block throws; the store is then
    as it was. *)
Definition saveContract (contract : Contract.t) (ls : LocalStorage.t)
  : LocalStorage.t * Result unit :=
  match parse_or_empty Contract_of_json (LocalStorage.getItem CONTRACTS ls) with
  | Some contracts =>
      match LocalStorage.setItem CONTRACTS
              (stringify_list Contract_to_json (upsert contract contracts)) ls with
      | Some ls' => (ls', Ok tt)
      | None => (ls, Throw QuotaExceededError)
      end
  | None => (ls, Throw SyntaxError)
  end.

Definition getRecentAnalyses (ls : LocalStorage.t) : list RecentAnalysis.t :=
  match parse_or_empty RecentAnalysis_of_json (LocalStorage.getItem RECENT_ANALYSES ls) with
  | Some recent => recent
  | None => []
  end.

(** The list [saveRecentAnalysis] writes. *)
Definition updated_recent (analysis : RecentAnalysis.t) (recent : list RecentAnalysis.t)
  : list RecentAnalysis.t :=
  let filtered :=
    List.filter (fun r => negb (String.eqb (RecentAnalysis.id r) (RecentAnalysis.id analysis)))
                recent in
  JS.slice0 10 (analysis :: filtered).

(** [saveRecentAnalysis] swallows what its [try] block throws. *)
Definition saveRecentAnalysis (analysis : RecentAnalysis.t) (ls : LocalStorage.t)
  : LocalStorage.t :=
  let recent := getRecentAnalyses ls in
  match LocalStorage.setItem RECENT_ANALYSES
          (stringify_list RecentAnalysis_to_json (updated_recent analysis recent)) ls with
  | Some ls' => ls'
  | None => ls
  end.

Definition clearRecentAnalyses (ls : LocalStorage.t) : LocalStorage.t :=
  LocalStorage.removeItem RECENT_ANALYSES ls.

(** [getUsers] returns [[]] when its [try] block throws. *)
Definition getUsers (ls : LocalStorage.t) : list User.t :=
  match parse_or_empty User_of_json (LocalStorage.getItem USERS ls) with
  | Some users => users
  | None => []
  end.

(** [{ ...existing, ...user }]: a field of [user] wins over the field of
    [existing] with its name, and a [User] has the three fields. *)
Definition spread (existing user : User.t) : User.t :=
  User.mk (User.id user) (User.email user) (User.name user).

(** The users array after [saveUser]'s update. *)
Definition updated_users (user : User.t) (users : list User.t) : list User.t :=
  match JS.findIndex (fun u => String.eqb (User.id u) (User.id user)) users with
  | Some existingIndex =>
      match users !! existingIndex with
      | Some existing => <[existingIndex := spread existing user]> users
      | None => users
      end
  | None => users ++ [user]
  end.

(** [saveUser] swallows what its [try] block throws. *)
Definition saveUser (user : User.t) (ls : LocalStorage.t) : LocalStorage.t :=
  let users := getUsers ls in
  match LocalStorage.setItem USERS (stringify_list User_to_json (updated_users user users)) ls with
  | Some ls' => ls'
  | None => ls
  end.

(** [getCurrentUser]; [None] is [null], also returned when [JSON.parse]
    throws. *)
Definition getCurrentUser (ls : LocalStorage.t) : option User.t :=
  match LocalStorage.getItem CURRENT_USER ls with
  | Some user =>
      if JS.truthy user
      then match parse user with
           | Some j => User_of_json j
           | None => None
           end
      else None
  | None => None
  end.

(** [setCurrentUser(user)], [None] being [null]; a refused write is
    swallowed. *)
Definition setCurrentUser (user : option User.t) (ls : LocalStorage.t) : LocalStorage.t :=
  match user with
  | Some u =>
      match LocalStorage.setItem CURRENT_USER (stringify (User_to_json u)) ls with
      | Some ls' => ls'
      | None => ls
      end
  | None => LocalStorage.removeItem CURRENT_USER ls
  end.

End storageService.

(** ** [services/geminiService.ts] *)

Module geminiService.
Import JSON Codec Runtime.

(** The kinds of failure [handleGenAIError] tells apart, in the order of its
    tests. *)
Inductive ErrorKind :=
| Quota | Auth | TooLarge | Unavailable | Safety | Malformed | Unexpected.

(** The substrings that select a kind, looked for in the lower-cased message. *)
Definition keywords (k : ErrorKind) : list string :=
  match k with
  | Quota => ["429"; "quota"; "resource exhausted"]
  | Auth => ["403"; "key"; "permission"]
  | TooLarge => ["413"; "too large"]
  | Unavailable => ["503"; "overloaded"; "unavailable"]
  | Safety => ["safety"; "blocked"]
  | Malformed => ["json"; "parse"]
  | Unexpected => []
  end.

Definition matches (k : ErrorKind) (msg : string) : bool :=
  existsb (JS.includes msg) (keywords k).

(** [handleGenAIError(error)] returns [never]: the result is the error it
    throws. *)
Definition handleGenAIError (error : exn) : exn :=
  let errorMessage :=
    if JS.truthy (message error) then
      let msg := JS.toLowerCase (message error) in
      if JS.includes msg "429" || JS.includes msg "quota" || JS.includes msg "resource exhausted"
      then "AI usage limit exceeded. Please try again in a few moments."
      else if JS.includes msg "403" || JS.includes msg "key" || JS.includes msg "permission"
      then "Authentication failed. Please check the system configuration."
      else if JS.includes msg "413" || JS.includes msg "too large"
      then "The document is too large for the AI to process."
      else if JS.includes msg "503" || JS.includes msg "overloaded" || JS.includes msg "unavailable"
      then "AI service is temporarily unavailable. Please retry."
      else if JS.includes msg "safety" || JS.includes msg "blocked"
      then "The document was flagged by safety settings and could not be analyzed."
      else if JS.includes msg "json" || JS.includes msg "parse"
      then "Received an invalid response format from AI. Please retry."
      else "Processing failed: " +:+ message error
    else "An unexpected error occurred during processing." in
  Error errorMessage.

(** The taxonomy read as a table: the kind of a raw message is the first
    kind, in the order of the tests, one of whose keywords occurs in the
    lower-cased message, and [Unexpected] when there is none. *)
Definition classify (raw : string) : ErrorKind :=
  match List.find (fun k => matches k (JS.toLowerCase raw))
                  [Quota; Auth; TooLarge; Unavailable; Safety; Malformed] with
  | Some k => k
  | None => Unexpected
  end.

(** The message thrown for a kind; only the fallback quotes the raw message. *)
Definition kind_message (k : ErrorKind) (raw : string) : string :=
  match k with
  | Quota => "AI usage limit exceeded. Please try again in a few moments."
  | Auth => "Authentication failed. Please check the system configuration."
  | TooLarge => "The document is too large for the AI to process."
  | Unavailable => "AI service is temporarily unavailable. Please retry."
  | Safety => "The document was flagged by safety settings and could not be analyzed."
  | Malformed => "Received an invalid response format from AI. Please retry."
  | Unexpected =>
      if JS.truthy raw then "Processing failed: " +:+ raw
      else "An unexpected error occurred during processing."
  end.

(** [/^```(json)?\n?/i] removed from a text that starts with the fence. *)
Definition strip_open_fence (s : string) : string :=
  let s := JS.drop 3 s in
  let s := if JS.startsWith (JS.toLowerCase s) "json" then JS.drop 4 s else s in
  match s with
  | String c s' => if (nat_of_ascii c =? 10)%nat then s' else s
  | EmptyString => s
  end.

(** The text [parseJSONResponse] hands to [JSON.parse]: trimmed, and without
    the Markdown fence when it starts with one. *)
Definition cleaned (text : string) : string :=
  let cleanText := JS.trim text in
  if JS.startsWith cleanText "```"
  then JS.strip_suffix "```" (strip_open_fence cleanText)
  else cleanText.

(** [parseJSONResponse<T>(text)].  The cast in [JSON.parse(cleanText) as T]
    is not checked when the code runs, which returns whatever value the text
    denotes.  The model is typed: [dec] reads the parsed value as a [T]; a
    value that is not a [T], which a typed function cannot return, is given
    the outcome of the [catch].  What is proved of this function is about
    texts whose value is a [T], or that [JSON.parse] refuses. *)
Definition parseJSONResponse {T} (dec : json -> option T) (text : string) : Result T :=
  if negb (JS.truthy text) then Throw (Error "Empty response from AI service.")
  else
    let cleanText := cleaned text in
    match parse cleanText with
    | Some j =>
        match dec j with
        | Some v => Ok v
        | None => Throw (Error "Failed to parse AI response. The model output was not valid JSON.")
        end
    | None => Throw (Error "Failed to parse AI response. The model output was not valid JSON.")
    end.

(** [ai.models.generateContent(request)]: the request goes out at the call;
    the promise settles in a later turn, as the backend decides. *)
Definition generateContent (req : Request) : Async string :=
  Do (emit (EvRequest req)) (fun w0 =>
    Yield (Do (fun w => w) (fun w =>
      match Runtime.generateContent (platform w) (requests_issued w0) req with
      | Responded text => ret text
      | Rejected e => throw e
      end))).

(** The module constant [API_KEY]. *)
Definition read_API_KEY : Async string :=
  Do (fun w => w) (fun w => ret (API_KEY (platform w))).

Definition analyzeContract (base64Data : option string) (mimeType : string)
  : Async ContractAnalysis.t :=
  bind read_API_KEY (fun key =>
  if negb (JS.truthy key)
  then throw (Error "API Key is missing. Please set process.env.API_KEY.")
  else
    try_catch
      (bind (await (generateContent (ReqAnalyze mimeType base64Data))) (fun text =>
       Ret (parseJSONResponse ContractAnalysis_of_json text)))
      (fun error => throw (handleGenAIError error))).

Definition askClauseQuestion (clauseText question : string) : Async string :=
  bind read_API_KEY (fun key =>
  if negb (JS.truthy key) then ret "API Key missing."
  else
    try_catch
      (bind (await (generateContent (ReqClauseQuestion clauseText question))) (fun text =>
       ret (JS.or_else text "Could not generate an answer.")))
      (fun error => ret "Sorry, I couldn't answer that right now due to a connection issue.")).

Definition sendChatMessage (history : list ChatMessage.t) (newMessage contractContext : string)
  : Async string :=
  bind read_API_KEY (fun key =>
  if negb (JS.truthy key) then ret "API Key missing."
  else
    try_catch
      (bind (await (generateContent (ReqChat history newMessage contractContext))) (fun text =>
       ret (JS.or_else text "I couldn't generate a response.")))
      (fun error => ret "Sorry, I'm having trouble connecting right now. Please try again.")).

Definition compareContracts (contracts : list Contract.t) : Async ComparisonResult.t :=
  bind read_API_KEY (fun key =>
  if negb (JS.truthy key) then throw (Error "API Key missing")
  else
    try_catch
      (bind (await (generateContent (ReqCompare contracts))) (fun text =>
       Ret (parseJSONResponse ComparisonResult_of_json text)))
      (fun error => throw (handleGenAIError error))).

End geminiService.


(** ** [components/ContractUpload.tsx] *)

Module ContractUpload.
Import Runtime.

Definition validTypes : list string :=
  ["application/pdf"; "image/jpeg"; "image/png"; "image/webp"].

Definition invalid_format_message (file : File.t) : string :=
  "File " +:+ JS.dquote +:+ File.name file +:+ JS.dquote
  +:+ " has an invalid format. Please upload PDF or Images.".

Definition too_large_message (file : File.t) : string :=
  "File " +:+ JS.dquote +:+ File.name file +:+ JS.dquote +:+ " is too large (>20MB).".

(** One turn of the [forEach] in [validateAndAddFiles], on the pair of
    [newFiles] and [fileError]. *)
Definition validate_step (acc : list FileUploadState.t * option string) (file : File.t)
  : list FileUploadState.t * option string :=
  let (newFiles, fileError) := acc in
  if negb (JS.Array_includes validTypes (File.type file))
  then (newFiles, Some (invalid_format_message file))
  else if 20 * 1024 * 1024 <? File.size file
  then (newFiles, Some (too_large_message file))
  else (newFiles ++ [FileUploadState.mk file pending None None], fileError).

(** A file passes both tests of the loop. *)
Definition accepted (file : File.t) : bool :=
  JS.Array_includes validTypes (File.type file) && negb (20 * 1024 * 1024 <? File.size file).

(** The message the loop records for a file it rejects. *)
Definition rejection_message (file : File.t) : string :=
  if negb (JS.Array_includes validTypes (File.type file))
  then invalid_format_message file
  else too_large_message file.

Definition pending_entry (file : File.t) : FileUploadState.t :=
  FileUploadState.mk file pending None None.

(** [setFiles(update)]: the updater is applied to the current batch. *)
Definition setFiles (update : list FileUploadState.t -> list FileUploadState.t) (w : World)
  : World :=
  let next := update (files w) in
  emit (EvSetFiles next) (with_files next w).

Definition validateAndAddFiles (fileList : list File.t) (w : World) : World :=
  let (newFiles, fileError) := fold_left validate_step fileList ([], None) in
  let w :=
    match fileError with
    | Some e => if JS.truthy e then with_globalError (Some e) w else with_globalError None w
    | None => with_globalError None w
    end in
  if (0 <? length newFiles)%nat
  then setFiles (fun prev => prev ++ newFiles) w
  else w.

(** [generateId()]: the next random identifier. *)
Definition generateId : Async string :=
  Do tick (fun w => ret (Math_random_id (platform w) (ticks w))).

(** [Date.now()] *)
Definition Date_now : Async Z :=
  Do tick (fun w => ret (Runtime.Date_now (platform w) (ticks w))).

(** The promise around the [FileReader]: the read is started at once and
    settles in a later turn. *)
Definition base64Promise (file : File.t) : Async (option string) :=
  Yield (Do (fun w => w) (fun w =>
    match readAsDataURL (platform w) file with
    | Some base64String => ret (JS.split_comma_1 base64String)
    | None => throw (Error "Failed to read file")
    end)).

(** [storageService.saveContract], an [async] function without [await]. *)
Definition saveContract (contract : Contract.t) : Async unit :=
  Do (fun w => with_localStorage (fst (storageService.saveContract contract (localStorage w))) w)
     (fun w => Ret (snd (storageService.saveContract contract (localStorage w)))).

Definition saveRecentAnalysis (analysis : RecentAnalysis.t) : Async unit :=
  Do (fun w => with_localStorage (storageService.saveRecentAnalysis analysis (localStorage w)) w)
     (fun _ => ret tt).

Definition recentAnalysis_of (toISO : Z -> string) (newContract : Contract.t)
    (analysis : ContractAnalysis.t) : RecentAnalysis.t :=
  RecentAnalysis.mk
    (Contract.id newContract)
    (Contract.fileName newContract)
    (toISO (Contract.uploadDate newContract))
    SrcFile
    (Some (Contract.fileName newContract))
    (match ContractAnalysis.fullText analysis with
     | Some t => JS.or_else t EmptyString
     | None => EmptyString
     end)
    (match ContractAnalysis.riskScore analysis with Some n => n | None => 0 end)
    (Codec.RiskLevel_to_string (ContractAnalysis.overallRisk analysis))
    [ContractAnalysis.summary analysis]
    (ContractAnalysis.clauses analysis).

Definition processFile (user : User.t) (fileState : FileUploadState.t)
  : Async FileUploadState.t :=
  let file := FileUploadState.file fileState in
  try_catch
    (bind (await (base64Promise file)) (fun base64Data =>
     bind (await (geminiService.analyzeContract base64Data (File.type file))) (fun analysis =>
     bind generateId (fun id =>
     bind Date_now (fun now =>
     let newContract :=
       Contract.mk id (User.id user) (File.name file) now CAnalyzed (Some analysis)
                   base64Data (Some (File.type file)) in
     bind (try_catch (await (saveContract newContract))
             (fun storageError =>
                throw (Error "Analyzed successfully but failed to save to browser storage. Check available disk space.")))
          (fun _ =>
     bind (Do (fun w => w) (fun w => ret (toISOString (platform w)))) (fun toISO =>
     bind (saveRecentAnalysis (recentAnalysis_of toISO newContract analysis)) (fun _ =>
     ret (FileUploadState.mk file success (FileUploadState.error fileState)
            (Some newContract))))))))))
    (fun e =>
       ret (FileUploadState.mk file error
              (Some (JS.or_else (message e) "Failed to analyze due to an unexpected error."))
              (FileUploadState.contract fileState))).

(** What a step of an analysis may change: the store and the counter of the
    random source, and the trace by requests to the backend only. *)
Definition analysis_step (w w' : World) : Prop :=
  platform w' = platform w /\ files w' = files w /\ globalError w' = globalError w /\
  exists reqs, trace w' = trace w ++ map EvRequest reqs.

(** An entry as [processFile] leaves it: a success with the new contract,
    or an error with its message and the contract the entry had. *)
Definition outcome_of (fileState result : FileUploadState.t) : Prop :=
  FileUploadState.file result = FileUploadState.file fileState /\
  ((FileUploadState.status result = success /\
    exists c, FileUploadState.contract result = Some c) \/
   (FileUploadState.status result = error /\
    (exists msg, FileUploadState.error result = Some msg) /\
    FileUploadState.contract result = FileUploadState.contract fileState)).

Definition status_eqb (a b : UploadStatus) : bool :=
  match a, b with
  | pending, pending | processing, processing | success, success | error, error => true
  | _, _ => false
  end.

(** [f.status === 'pending' || f.status === 'error'
       ? { ...f, status: 'processing', error: undefined } : f] *)
Definition mark_processing (f : FileUploadState.t) : FileUploadState.t :=
  if status_eqb (FileUploadState.status f) pending || status_eqb (FileUploadState.status f) error
  then FileUploadState.mk (FileUploadState.file f) processing None (FileUploadState.contract f)
  else f.

(** [files.map((f, index) => ({ file: f, index })).filter(item =>
    item.file.status !== 'success')] *)
Definition filesToProcess (files : list FileUploadState.t) : list (FileUploadState.t * nat) :=
  List.filter (fun item => negb (status_eqb (FileUploadState.status (fst item)) success))
              (imap (fun index f => (f, index)) files).

(** The [async] arrow function mapped over [filesToProcess]. *)
Definition process_item (user : User.t) (item : FileUploadState.t * nat)
  : Async (nat * FileUploadState.t) :=
  bind (await (processFile user (fst item))) (fun result => ret (snd item, result)).

(** The request [processFile] sends for an entry: none when the file cannot
    be read or the API key is missing. *)
Definition request_of (p : Platform) (fileState : FileUploadState.t) : option Request :=
  let file := FileUploadState.file fileState in
  match readAsDataURL p file with
  | Some base64String =>
      if JS.truthy (API_KEY p)
      then Some (ReqAnalyze (File.type file) (JS.split_comma_1 base64String))
      else None
  | None => None
  end.

(** The entry the [catch] of [processFile] returns for the error [e]. *)
Definition failed_entry (fileState : FileUploadState.t) (e : exn) : FileUploadState.t :=
  FileUploadState.mk (FileUploadState.file fileState) error
    (Some (JS.or_else (message e) "Failed to analyze due to an unexpected error."))
    (FileUploadState.contract fileState).

(** What the analysis of an entry makes of it on the platform [p], when [n]
    requests were issued before its own: the entry of the error when the
    file cannot be read, the key is missing, the backend rejects the request
    or its answer is empty; for an answer that holds an analysis, the entry
    with [success] and the contract of that analysis, or the entry of the
    storage error when the contract could not be saved. *)
Definition analysed (p : Platform) (user : User.t) (n : nat)
    (fileState result : FileUploadState.t) : Prop :=
  let file := FileUploadState.file fileState in
  match readAsDataURL p file with
  | None => result = failed_entry fileState (Error "Failed to read file")
  | Some base64String =>
      let base64Data := JS.split_comma_1 base64String in
      if negb (JS.truthy (API_KEY p))
      then result
           = failed_entry fileState (Error "API Key is missing. Please set process.env.API_KEY.")
      else
        match Runtime.generateContent p n (ReqAnalyze (File.type file) base64Data) with
        | Rejected e => result = failed_entry fileState (geminiService.handleGenAIError e)
        | Responded text =>
            match geminiService.parseJSONResponse Codec.ContractAnalysis_of_json text with
            | Ok analysis =>
                (exists t t',
                   result
                   = FileUploadState.mk file success (FileUploadState.error fileState)
                       (Some (Contract.mk (Math_random_id p t) (User.id user) (File.name file)
                                (Runtime.Date_now p t') CAnalyzed (Some analysis) base64Data
                                (Some (File.type file))))) \/
                result
                = failed_entry fileState
                    (Error "Analyzed successfully but failed to save to browser storage. Check available disk space.")
            | Throw e =>
                JS.truthy text = false ->
                result = failed_entry fileState (geminiService.handleGenAIError e)
            end
        end
  end.

(** The requests of a batch in the order in which they go out under a
    schedule: an analysis reads its file in its first turn and calls the
    backend in its second. *)
Definition batch_requests (p : Platform) (files : list FileUploadState.t) (sched : list nat)
  : list Request :=
  omap (fun j => match filesToProcess files !! j with
                 | Some item => request_of p (fst item)
                 | None => None
                 end)
       (second_turns (fun _ => 0%nat) sched).

(** [results.forEach(({ index, result }) => { next[index] = result; })] on
    a copy of the batch.  Every index comes from the batch the handler was
    called on; an assignment past the end, which would extend a JavaScript
    array, does not arise while the batch keeps its length. *)
Definition apply_results (results : list (nat * FileUploadState.t))
    (prev : list FileUploadState.t) : list FileUploadState.t :=
  fold_left (fun next r => <[fst r := snd r]> next) results prev.

(** The navigation at the end of [handleAnalyzeAll]. *)
Definition navigation (files : list FileUploadState.t)
    (results : list (nat * FileUploadState.t)) (w : World) : World :=
  match results with
  | [(_, result)] =>
      if (length files =? 1)%nat && status_eqb (FileUploadState.status result) success
      then match FileUploadState.contract result with
           | Some c => emit (EvUploadComplete c) w
           | None => w
           end
      else w
  | _ => w
  end.

(** A schedule gives each of [n] analyses in flight its turns: [processFile]
    is suspended six times at most, and the arrow function around it once
    more. *)
Definition fair (n : nat) (sched : list nat) : Prop :=
  forall i, (i < n)%nat -> (7 <= count_occ Nat.eq_dec sched i)%nat.

(** [handleAnalyzeAll], called with the batch [files] of the last render.
    [sched] is the order in which the event loop resumes the analyses in
    flight; the outcome is [None] when it ends before they have all
    settled. *)
Definition handleAnalyzeAll (user : User.t) (files : list FileUploadState.t)
    (sched : list nat) (w : World) : World * option (Result unit) :=
  let w := setFiles (map mark_processing) w in
  let (w, promises) := launch_all (map (process_item user) (filesToProcess files)) w in
  match Promise_all sched promises w with
  | (w, _, Some (Ok results)) =>
      let w := setFiles (apply_results results) w in
      (navigation files results w, Some (Ok tt))
  | (w, _, Some (Throw e)) => (w, Some (Throw e))
  | (w, _, None) => (w, None)
  end.

(** [retryFile(index)], called with the batch [files] of the last render;
    an index without an entry returns at once. *)
Definition retryFile (user : User.t) (files : list FileUploadState.t) (index : nat)
  : Async unit :=
  match files !! index with
  | None => ret tt
  | Some fileToRetry =>
      Do (setFiles (imap (fun i f =>
            if (i =? index)%nat
            then FileUploadState.mk (FileUploadState.file f) processing None
                   (FileUploadState.contract f)
            else f)))
         (fun _ =>
      bind (await (processFile user
              (FileUploadState.mk (FileUploadState.file fileToRetry) pending None
                 (FileUploadState.contract fileToRetry)))) (fun result =>
      Do (setFiles (imap (fun i f => if (i =? index)%nat then result else f)))
         (fun _ => ret tt)))
  end.

(** [handleRemoveFile(index)], called with the batch [files] of the last
    render. *)
Definition handleRemoveFile (files : list FileUploadState.t) (index : nat) (w : World)
  : World :=
  let w := setFiles (JS.filter_index (fun i => negb (i =? index)%nat)) w in
  if (length files <=? 1)%nat then with_globalError None w else w.

(** The flags the page derives from the batch at each render. *)
Definition hasProcessing (files : list FileUploadState.t) : bool :=
  existsb (fun f => status_eqb (FileUploadState.status f) processing) files.

Definition allSuccess (files : list FileUploadState.t) : bool :=
  (0 <? length files)%nat
  && forallb (fun f => status_eqb (FileUploadState.status f) success) files.

Definition hasErrors (files : list FileUploadState.t) : bool :=
  existsb (fun f => status_eqb (FileUploadState.status f) error) files.

(** The button of the action bar: what it shows, and whether it is
    disabled.  The bar is rendered with the list, when the batch is not
    empty. *)
Inductive Action :=
| GoToDashboard
| Processing
| RetryFailed
| Analyze (documents : nat).

Definition action (files : list FileUploadState.t) : Action :=
  if allSuccess files then GoToDashboard
  else if hasProcessing files then Processing
  else if hasErrors files then RetryFailed
  else Analyze (length (List.filter
                  (fun f => negb (status_eqb (FileUploadState.status f) success)) files)).

Definition analyze_disabled (files : list FileUploadState.t) : bool :=
  hasProcessing files
  || ((0 <? length files)%nat
      && forallb (fun f => status_eqb (FileUploadState.status f) success) files)
  || (length files =? 0)%nat.

End ContractUpload.

(** ** Components: event handlers with state of their own

    A component keeps its state in [useState] cells.  An event handler
    reads the state of the render it was created in (a parameter of the
    handler here) and changes the state through updaters, which apply to
    the state of the moment.  [Task S A] is the body of an [async] handler
    of a component with state [S]: like [Async], with steps on the state
    of the component and on the world. *)

Module React.
Import Runtime.

Inductive Task (S A : Type) : Type :=
| TRet (r : Result A)
| TDo (step : S * World -> S * World) (k : S * World -> Task S A)
| TYield (k : Task S A).
Arguments TRet {S A} r.
Arguments TDo {S A} step k.
Arguments TYield {S A} k.

Definition ret {S A} (a : A) : Task S A := TRet (Ok a).
Definition throw {S A} (e : exn) : Task S A := TRet (Throw e).

Fixpoint bind {S A B} (m : Task S A) (f : A -> Task S B) : Task S B :=
  match m with
  | TRet (Ok a) => f a
  | TRet (Throw e) => TRet (Throw e)
  | TDo step k => TDo step (fun p => bind (k p) f)
  | TYield k => TYield (bind k f)
  end.

Fixpoint try_catch {S A} (m : Task S A) (handler : exn -> Task S A) : Task S A :=
  match m with
  | TRet (Ok a) => TRet (Ok a)
  | TRet (Throw e) => handler e
  | TDo step k => TDo step (fun p => try_catch (k p) handler)
  | TYield k => TYield (try_catch k handler)
  end.

(** [try { m } finally { cleanup }]: [cleanup] runs however [m] settles,
    and the outcome is the outcome of [m] unless [cleanup] throws. *)
Fixpoint finally {S A} (m : Task S A) (cleanup : Task S unit) : Task S A :=
  match m with
  | TRet r => bind cleanup (fun _ => TRet r)
  | TDo step k => TDo step (fun p => finally (k p) cleanup)
  | TYield k => TYield (finally k cleanup)
  end.

Definition await {S A} (m : Task S A) : Task S A :=
  try_catch (bind m (fun a => TYield (ret a))) (fun e => TYield (throw e)).

(** A call of a function that does not know the component. *)
Fixpoint lift {S A} (m : Async A) : Task S A :=
  match m with
  | Ret r => TRet r
  | Do step k => TDo (fun p => (fst p, step (snd p))) (fun p => lift (k (snd p)))
  | Yield k => TYield (lift k)
  end.

(** [setState(updater)] *)
Definition update {S} (updater : S -> S) : Task S unit :=
  TDo (fun p => (updater (fst p), snd p)) (fun _ => ret tt).



(** Runs a handler to its end when nothing else is scheduled in between. *)
Fixpoint run {S A} (m : Task S A) (p : S * World) : S * World * Result A :=
  match m with
  | TRet r => (p, r)
  | TDo step k => run (k p) (step p)
  | TYield k => run k p
  end.

(** Every way [m] can settle satisfies [P], whatever the state and the
    world are at each of its steps. *)
Fixpoint always {S A} (P : Result A -> Prop) (m : Task S A) : Prop :=
  match m with
  | TRet r => P r
  | TDo _ k => forall p, always P (k p)
  | TYield k => always P k
  end.

End React.

(** ** [components/ChatBot.tsx] *)

Module ChatBot.
Import Runtime React.

Record state := mkState {
  isOpen : bool;
  isMinimized : bool;
  messages : list ChatMessage.t;
  input : string;
  isLoading : bool
}.

Definition setMessages (updater : list ChatMessage.t -> list ChatMessage.t) (s : state)
  : state :=
  mkState (isOpen s) (isMinimized s) (updater (messages s)) (input s) (isLoading s).

Definition setInput (value : string) (s : state) : state :=
  mkState (isOpen s) (isMinimized s) (messages s) value (isLoading s).

Definition setIsLoading (value : bool) (s : state) : state :=
  mkState (isOpen s) (isMinimized s) (messages s) (input s) value.

(** The context [handleSend] prepares: a template with the file name, the
    summary, the overall risk and the first 20000 characters of the text. *)
Definition context (contract : option Contract.t) : string :=
  match contract with
  | Some c =>
      match Contract.analysis c with
      | Some a =>
          JS.nl +:+ "        Filename: " +:+ Contract.fileName c +:+
          JS.nl +:+ "        Summary: " +:+ ContractAnalysis.summary a +:+
          JS.nl +:+ "        Overall Risk: "
            +:+ Codec.RiskLevel_to_string (ContractAnalysis.overallRisk a) +:+
          JS.nl +:+ "        Full Text: "
            +:+ match ContractAnalysis.fullText a with
                | Some t => if JS.truthy t then JS.substring0 (20 * 1000) t else "Not available"
                | None => "Not available"
                end +:+
          JS.nl +:+ "        "
      | None => EmptyString
      end
  | None => EmptyString
  end.

(** [handleSend], created in the render with state [snap]. *)
Definition handleSend (contract : option Contract.t) (snap : state) : Task state unit :=
  if negb (JS.truthy (JS.trim (input snap))) || isLoading snap then ret tt
  else
    bind (lift ContractUpload.Date_now) (fun now =>
    let userMsg := ChatMessage.mk RoleUser (input snap) now in
    bind (update (fun s =>
            setIsLoading true (setInput EmptyString
              (setMessages (fun prev => prev ++ [userMsg]) s)))) (fun _ =>
    let historyForApi := JS.slice_last 10 (messages snap) in
    bind (await (lift (geminiService.sendChatMessage historyForApi
                         (ChatMessage.text userMsg) (context contract)))) (fun responseText =>
    bind (lift ContractUpload.Date_now) (fun now' =>
    let botMsg := ChatMessage.mk RoleModel responseText now' in
    update (fun s => setIsLoading false (setMessages (fun prev => prev ++ [botMsg]) s)))))).

End ChatBot.

(** ** [components/ClauseCard.tsx] *)

Module ClauseCard.
Import Runtime React.

Record state := mkState {
  expanded : bool;
  question : string;
  loadingAnswer : bool
}.

Definition setQuestion (value : string) (s : state) : state :=
  mkState (expanded s) value (loadingAnswer s).

Definition setLoadingAnswer (value : bool) (s : state) : state :=
  mkState (expanded s) (question s) value.

(** [{ ...clause, conversationHistory: [...(clause.conversationHistory || []), item] }] *)
Definition with_answer (clause : Clause.t) (item : QAPair.t) : Clause.t :=
  Clause.mk (Clause.id clause) (Clause.text clause) (Clause.explanation clause)
    (Clause.riskLevel clause) (Clause.riskyKeywords clause) (Clause.reason clause)
    (Some (match Clause.conversationHistory clause with
           | Some history => history
           | None => []
           end ++ [item])).

(** [handleAsk], created in the render with state [snap]; [onUpdate] tells
    whether the card was given the callback.  The result is the clause
    [onUpdate] is called with, the last thing the handler does, and [None]
    when it does not call it. *)
Definition handleAsk (clause : Clause.t) (onUpdate : bool) (snap : state)
  : Task state (option Clause.t) :=
  if negb (JS.truthy (JS.trim (question snap))) then ret None
  else
    bind (update (setLoadingAnswer true)) (fun _ =>
    let currentQuestion := question snap in
    bind (await (lift (geminiService.askClauseQuestion (Clause.text clause) currentQuestion)))
      (fun result =>
    bind (update (fun s => setQuestion EmptyString (setLoadingAnswer false s))) (fun _ =>
    if onUpdate then
      bind (lift ContractUpload.Date_now) (fun now =>
      ret (Some (with_answer clause (QAPair.mk currentQuestion result now))))
    else ret None))).

End ClauseCard.

(** ** [components/AnalysisView.tsx] *)

Module AnalysisView.

Definition risk_eqb (a b : RiskLevel) : bool :=
  match a, b with
  | LOW, LOW | MEDIUM, MEDIUM | HIGH, HIGH => true
  | _, _ => false
  end.

(** [clauses.filter(c => c.riskLevel === level).length] *)
Definition count (level : RiskLevel) (clauses : list Clause.t) : nat :=
  length (List.filter (fun c => risk_eqb (Clause.riskLevel c) level) clauses).

(** A slice of the chart: its name, its value and its colour. *)
Definition chartData (clauses : list Clause.t) : list (string * nat * string) :=
  List.filter (fun d => (0 <? snd (fst d))%nat)
    [("High Risk", count HIGH clauses, "#ef4444");
     ("Medium Risk", count MEDIUM clauses, "#f59e0b");
     ("Low Risk", count LOW clauses, "#10b981")].

Definition getScoreColor (score : Z) : string :=
  if 70 <=? score then "text-red-500"
  else if 40 <=? score then "text-amber-500"
  else "text-emerald-500".

Definition getScoreBg (score : Z) : string :=
  if 70 <=? score then "bg-red-600"
  else if 40 <=? score then "bg-amber-500"
  else "bg-emerald-600".

(** [handleClauseUpdate]: the contract [onContractUpdate] is called with,
    [None] when the view has no callback or the contract no analysis. *)
Definition handleClauseUpdate (contract : Contract.t) (onContractUpdate : bool)
    (updatedClause : Clause.t) : option Contract.t :=
  if negb onContractUpdate then None
  else
    match Contract.analysis contract with
    | None => None
    | Some a =>
        Some (Contract.mk (Contract.id contract) (Contract.userId contract)
                (Contract.fileName contract) (Contract.uploadDate contract)
                (Contract.status contract)
                (Some (ContractAnalysis.mk (ContractAnalysis.summary a)
                         (ContractAnalysis.overallRisk a) (ContractAnalysis.riskScore a)
                         (map (fun c =>
                                 if String.eqb (Clause.id c) (Clause.id updatedClause)
                                 then updatedClause else c)
                              (ContractAnalysis.clauses a))
                         (ContractAnalysis.fullText a)))
                (Contract.fileData contract) (Contract.mimeType contract))
    end.

(** [handleDownloadOriginal]: the [href] and the [download] name of the
    link it clicks, [None] when it returns at once. *)
Definition handleDownloadOriginal (contract : Contract.t) : option (string * string) :=
  match Contract.fileData contract, Contract.mimeType contract with
  | Some fileData, Some mimeType =>
      if negb (JS.truthy fileData) || negb (JS.truthy mimeType) then None
      else Some ("data:" +:+ mimeType +:+ ";base64," +:+ fileData, Contract.fileName contract)
  | _, _ => None
  end.

End AnalysisView.

(** ** [components/CompareView.tsx]: the effect that loads the comparison *)

Module CompareViewPage.
Import Runtime React.

Record state := mkState {
  comparison : option ComparisonResult.t;
  loading : bool;
  activeDifference : option string
}.

Definition initial : state := mkState None true None.

Definition setComparison (value : option ComparisonResult.t) (s : state) : state :=
  mkState value (loading s) (activeDifference s).

Definition setLoading (value : bool) (s : state) : state :=
  mkState (comparison s) value (activeDifference s).

Definition fetchComparison (contracts : list Contract.t) : Task state unit :=
  finally
    (try_catch
       (bind (await (lift (geminiService.compareContracts contracts))) (fun result =>
        update (setComparison (Some result))))
       (fun e => ret tt))
    (update (setLoading false)).

(** The effect of the component, run when it is given [contracts]. *)
Definition effect (contracts : list Contract.t) : Task state unit :=
  if (0 <? length contracts)%nat then fetchComparison contracts else ret tt.

(** What the component renders.  The comparison page reads
    [winner.fileName]: with [winner] undefined the render throws. *)
Inductive Screen :=
| Loading
| Failed
| Comparison (winner : Contract.t) (result : ComparisonResult.t)
| Crash.

Definition render (contracts : list Contract.t) (s : state) : Screen :=
  if loading s then Loading
  else match comparison s with
       | None => Failed
       | Some c =>
           match CompareView.winner contracts c with
           | Some winner => Comparison winner c
           | None => Crash
           end
       end.

End CompareViewPage.

(** ** Regular expressions

    The patterns the sources test a string with use classes, sequence and
    repetition only.  For such a pattern, anchored at both ends,
    [pattern.test(s)] tells whether the whole of [s] is in the language of
    the pattern; the test is computed with derivatives. *)

Module RegExp.

Inductive regex :=
| Never
| Empty
| Class (p : ascii -> bool)
| Seq (r1 r2 : regex)
| Alt (r1 r2 : regex)
| Star (r : regex).

(** [r+] *)
Definition Plus (r : regex) : regex := Seq r (Star r).

(** A literal character. *)
Definition Char (c : ascii) : regex := Class (Ascii.eqb c).

Fixpoint nullable (r : regex) : bool :=
  match r with
  | Never => false
  | Empty => true
  | Class _ => false
  | Seq r1 r2 => nullable r1 && nullable r2
  | Alt r1 r2 => nullable r1 || nullable r2
  | Star _ => true
  end.

(** What is left of [r] to match after the character [c]. *)
Fixpoint deriv (c : ascii) (r : regex) : regex :=
  match r with
  | Never => Never
  | Empty => Never
  | Class p => if p c then Empty else Never
  | Seq r1 r2 =>
      if nullable r1 then Alt (Seq (deriv c r1) r2) (deriv c r2)
      else Seq (deriv c r1) r2
  | Alt r1 r2 => Alt (deriv c r1) (deriv c r2)
  | Star r1 => Seq (deriv c r1) (Star r1)
  end.

(** [/^r$/.test(s)] *)
Fixpoint test (r : regex) (s : string) : bool :=
  match s with
  | EmptyString => nullable r
  | String c s' => test (deriv c r) s'
  end.

(** The language of a pattern. *)
Inductive matches : regex -> string -> Prop :=
| matches_Empty : matches Empty EmptyString
| matches_Class p c : p c = true -> matches (Class p) (String c EmptyString)
| matches_Seq r1 r2 s1 s2 : matches r1 s1 -> matches r2 s2 -> matches (Seq r1 r2) (s1 +:+ s2)
| matches_Alt_l r1 r2 s : matches r1 s -> matches (Alt r1 r2) s
| matches_Alt_r r1 r2 s : matches r2 s -> matches (Alt r1 r2) s
| matches_Star_nil r : matches (Star r) EmptyString
| matches_Star_cons r s1 s2 :
    matches r s1 -> matches (Star r) s2 -> matches (Star r) (s1 +:+ s2).

End RegExp.

(** ** [components/Auth.tsx] *)

Module Auth.

Record state := mkState {
  isLogin : bool;
  email : string;
  password : string;
  name : string;
  error : option string
}.

Definition setError (value : option string) (s : state) : state :=
  mkState (isLogin s) (email s) (password s) (name s) value.

(** [[^\s@]] *)
Definition local_char (c : ascii) : bool := negb (JS.is_space c || Ascii.eqb c "@").

(** [/^[^\s@]+@[^\s@]+\.[^\s@]+$/] *)
Definition email_pattern : RegExp.regex :=
  RegExp.Seq (RegExp.Plus (RegExp.Class local_char))
    (RegExp.Seq (RegExp.Char "@")
       (RegExp.Seq (RegExp.Plus (RegExp.Class local_char))
          (RegExp.Seq (RegExp.Char ".")
             (RegExp.Plus (RegExp.Class local_char))))).

Definition validateEmail (email : string) : bool := RegExp.test email_pattern email.

(** [handleSubmit]: the state it leaves and the arguments [onLogin] is
    called with, [None] when it returns before the call. *)
Definition handleSubmit (s : state) : state * option (string * string) :=
  let s := setError None s in
  let normalizedEmail := JS.toLowerCase (JS.trim (email s)) in
  if negb (validateEmail normalizedEmail)
  then (setError (Some "Please enter a valid email address.") s, None)
  else if negb (JS.truthy (password s)) || (String.length (password s) <? 6)%nat
  then (setError (Some "Password must be at least 6 characters.") s, None)
  else if negb (isLogin s) && negb (JS.truthy (JS.trim (name s)))
  then (setError (Some "Please enter your full name.") s, None)
  else (s, Some (normalizedEmail, if isLogin s then "User" else JS.trim (name s))).

End Auth.

(** ** [App.tsx] *)

Module App.

Inductive View := auth | dashboard | upload | analysis | profile | compare.

Record state := mkState {
  user : option User.t;
  view : View;
  selectedContract : option Contract.t;
  compareContracts : option (list Contract.t)
}.

Definition initial : state := mkState None auth None None.

Definition setUser (value : option User.t) (s : state) : state :=
  mkState value (view s) (selectedContract s) (compareContracts s).

Definition setView (value : View) (s : state) : state :=
  mkState (user s) value (selectedContract s) (compareContracts s).

Definition setSelectedContract (value : option Contract.t) (s : state) : state :=
  mkState (user s) (view s) value (compareContracts s).

Definition setCompareContracts (value : option (list Contract.t)) (s : state) : state :=
  mkState (user s) (view s) (selectedContract s) value.

(** What happens to the component: it is mounted, or one of the callbacks
    it defines or hands to its children is called. *)
Inductive Event :=
| Mount
| Login (email : string) (name : option string)
| Logout
| UploadComplete (contract : Contract.t)
| ContractUpdate (updatedContract : Contract.t)
| UserUpdate (updatedUser : User.t)
| Compare (contracts : list Contract.t)
| NewUpload
| SelectContract (c : Contract.t)
| BackToDashboard
| NavigateHome
| NavigateProfile.

(** The state of the component and the store after an event.
    [handleContractUpdate] awaits [saveContract], which runs to its end at
    the call, and swallows its failure. *)
Definition handle (ev : Event) (p : state * LocalStorage.t) : state * LocalStorage.t :=
  let (s, ls) := p in
  match ev with
  | Mount =>
      match storageService.getCurrentUser ls with
      | Some currentUser => (setView dashboard (setUser (Some currentUser) s), ls)
      | None => (s, ls)
      end
  | Login email name =>
      let name := match name with Some n => n | None => "User" end in
      let newUser := User.mk email email name in
      let ls := storageService.setCurrentUser (Some newUser) ls in
      let ls := storageService.saveUser newUser ls in
      (setView dashboard (setUser (Some newUser) s), ls)
  | Logout =>
      let ls := storageService.setCurrentUser None ls in
      (setCompareContracts None (setSelectedContract None (setView auth (setUser None s))), ls)
  | UploadComplete contract =>
      (setView analysis (setSelectedContract (Some contract) s), ls)
  | ContractUpdate updatedContract =>
      (setSelectedContract (Some updatedContract) s,
       fst (storageService.saveContract updatedContract ls))
  | UserUpdate updatedUser => (setUser (Some updatedUser) s, ls)
  | Compare contracts =>
      (setView compare (setCompareContracts (Some contracts) s), ls)
  | NewUpload => (setView upload s, ls)
  | SelectContract c => (setView analysis (setSelectedContract (Some c) s), ls)
  | BackToDashboard => (setView dashboard s, ls)
  | NavigateHome =>
      match user s with Some _ => (setView dashboard s, ls) | None => (s, ls) end
  | NavigateProfile =>
      match user s with Some _ => (setView profile s, ls) | None => (s, ls) end
  end.

(** What [renderContent] shows. *)
Inductive Screen :=
| AuthScreen
| DashboardScreen (user : User.t)
| UploadScreen (user : User.t)
| AnalysisScreen (contract : Contract.t)
| NoContractSelected
| ProfileScreen (user : User.t)
| CompareScreen (contracts : list Contract.t)
| SelectAtLeast2
| NotFound.

Definition renderContent (s : state) : Screen :=
  match user s with
  | None => AuthScreen
  | Some u =>
      match view s with
      | dashboard => DashboardScreen u
      | upload => UploadScreen u
      | analysis =>
          match selectedContract s with
          | Some c => AnalysisScreen c
          | None => NoContractSelected
          end
      | profile => ProfileScreen u
      | compare =>
          match compareContracts s with
          | Some cs => CompareScreen cs
          | None => SelectAtLeast2
          end
      | auth => NotFound
      end
  end.

(** The [contract] the chat bot is given; the outer [None] when the chat
    bot is not rendered. *)
Definition chatBot (s : state) : option (option Contract.t) :=
  match user s, view s with
  | Some _, auth => None
  | Some _, analysis => Some (selectedContract s)
  | Some _, _ => Some None
  | None, _ => None
  end.

End App.

(** ** [components/Dashboard.tsx] *)

Module Dashboard.

Definition MAX_COMPARE : nat := 3.

(** [toggleSelection(e, id)] on [selectedIds]. *)
Definition toggleSelection (id : string) (selectedIds : list string) : list string :=
  if JS.Array_includes selectedIds id
  then List.filter (fun sid => negb (String.eqb sid id)) selectedIds
  else if (length selectedIds <? MAX_COMPARE)%nat then selectedIds ++ [id]
  else selectedIds.

(** [handleCompareClick]: the contracts [onCompare] is called with, [None]
    when it is not called. *)
Definition handleCompareClick (contracts : list Contract.t) (selectedIds : list string)
  : option (list Contract.t) :=
  if (2 <=? length selectedIds)%nat then
    let selectedContracts :=
      List.filter (fun c => JS.Array_includes selectedIds (Contract.id c)) contracts in
    if (2 <=? length selectedContracts)%nat then Some selectedContracts else None
  else None.

(** [handleSelectRecent]: the contract [onSelectContract] is called with.
    [getTime] is [new Date(text).getTime()].  The code casts [riskSummary]
    to a risk level without a check; a text that names no risk level has no
    contract of the data model ([None]). *)
Definition handleSelectRecent (getTime : string -> Z) (user : User.t)
    (recent : RecentAnalysis.t) : option Contract.t :=
  match Codec.RiskLevel_of_json (JSON.JStr (RecentAnalysis.riskSummary recent)) with
  | Some overallRisk =>
      Some (Contract.mk (RecentAnalysis.id recent) (User.id user)
              (match RecentAnalysis.fileName recent with
               | Some fileName => JS.or_else fileName (RecentAnalysis.name recent)
               | None => RecentAnalysis.name recent
               end)
              (getTime (RecentAnalysis.createdAt recent))
              CAnalyzed
              (Some (ContractAnalysis.mk
                       (JS.join JS.nl (RecentAnalysis.summary recent))
                       overallRisk
                       (Some (RecentAnalysis.riskScore recent))
                       (RecentAnalysis.clauses recent)
                       (Some (RecentAnalysis.rawText recent))))
              None None)
  | None => None
  end.

(** The test of the search filter. *)
Definition matches_query (searchQuery : string) (contract : Contract.t) : bool :=
  JS.includes (JS.toLowerCase (Contract.fileName contract)) (JS.toLowerCase searchQuery)
  || match Contract.analysis contract with
     | Some a =>
         JS.includes (JS.toLowerCase (ContractAnalysis.summary a)) (JS.toLowerCase searchQuery)
     | None => false
     end.

(** [contract.analysis?.riskScore || 0] *)
Definition score (contract : Contract.t) : Z :=
  match Contract.analysis contract with
  | Some a => match ContractAnalysis.riskScore a with Some n => n | None => 0 end
  | None => 0
  end.

(** The comparator of the sort; [localeCompare] is the platform's. *)
Definition compare (localeCompare : string -> string -> Z) (sortOrder : string)
    (a b : Contract.t) : Z :=
  if String.eqb sortOrder "newest" then Contract.uploadDate b - Contract.uploadDate a
  else if String.eqb sortOrder "oldest" then Contract.uploadDate a - Contract.uploadDate b
  else if String.eqb sortOrder "risk_high" then score b - score a
  else if String.eqb sortOrder "risk_low" then score a - score b
  else if String.eqb sortOrder "name_asc"
  then localeCompare (Contract.fileName a) (Contract.fileName b)
  else if String.eqb sortOrder "name_desc"
  then localeCompare (Contract.fileName b) (Contract.fileName a)
  else Contract.uploadDate b - Contract.uploadDate a.

Definition filteredContracts (localeCompare : string -> string -> Z)
    (contracts : list Contract.t) (searchQuery sortOrder : string) : list Contract.t :=
  JS.sort (compare localeCompare sortOrder)
    (List.filter (matches_query searchQuery) contracts).

End Dashboard.

(** ** [components/ProfileView.tsx] *)

Module ProfileView.
Import Runtime React.

Record state := mkState {
  name : string;
  contracts : list Contract.t;
  isSaving : bool;
  message : string
}.




(** [stats]: the number of contracts, the number of high-risk ones, and
    the time of the last upload ([None] shows as [Never]). *)
Definition total (contracts : list Contract.t) : nat := length contracts.

Definition highRisk (contracts : list Contract.t) : nat :=
  length (List.filter
            (fun c => match Contract.analysis c with
                      | Some a => AnalysisView.risk_eqb (ContractAnalysis.overallRisk a) HIGH
                      | None => false
                      end) contracts).

Definition lastUpload (contracts : list Contract.t) : option Z :=
  match map Contract.uploadDate contracts with
  | [] => None
  | d :: ds => Some (fold_left Z.max ds d)
  end.

End ProfileView.


(** ** Sample data, for the examples below *)

Module Samples.
Import Runtime.

Definition contract (id fileName : string) : Contract.t :=
  Contract.mk id "ada@example.org" fileName 1700000000000 CAnalyzed None None None.

Definition lease : Contract.t := contract "k3x9" "lease.pdf".
Definition offer : Contract.t := contract "p07q" "offer.pdf".

Definition pdf : File.t := File.mk "lease.pdf" "application/pdf" 52000.
Definition scan : File.t := File.mk "scan.png" "image/png" 910000.
Definition sheet : File.t := File.mk "rates.xlsx" "application/vnd.ms-excel" 4000.
Definition huge : File.t := File.mk "archive.pdf" "application/pdf" 30000000.

Definition analysis : ContractAnalysis.t :=
  ContractAnalysis.mk "A one-year lease of a flat." MEDIUM (Some 55)
    [Clause.mk "clause-1" "The tenant shall pay all repairs." "You pay for every repair."
       HIGH ["all repairs"] "Payment Risk: open-ended cost." None]
    (Some "LEASE AGREEMENT").

Definition user : User.t := User.mk "ada@example.org" "ada@example.org" "Ada".

(** A backend that answers every request with the analysis above, and a
    store with a quota of [limit] characters. *)
Definition platform (key : string) : Platform :=
  mkPlatform key
    (fun _ _ => Responded (JSON.stringify (Codec.ContractAnalysis_to_json analysis)))
    (fun _ => Some "data:application/pdf;base64,JVBERi0xLjQ=")
    (fun n => "id" +:+ JSON.print_Z (Z.of_nat n))
    (fun n => 1700000000000 + Z.of_nat n)
    (fun _ => "2023-11-14T22:13:20.000Z").

Definition store (limit : nat) : LocalStorage.t :=
  LocalStorage.mk ∅ (LocalStorage.quota limit).

Definition world (key : string) (limit : nat) (files : list FileUploadState.t) : World :=
  mkWorld (platform key) (store limit) files None 0 [].

Definition fresh : FileUploadState.t := FileUploadState.mk pdf pending None None.

Definition failed : FileUploadState.t :=
  FileUploadState.mk scan error (Some "AI service is temporarily unavailable. Please retry.") None.

(** Two analyses in flight, resumed in turn. *)
Definition alternate : list nat :=
  [0; 1; 0; 1; 0; 1; 0; 1; 0; 1; 0; 1; 0; 1]%nat.

Definition recent (id name : string) : RecentAnalysis.t :=
  RecentAnalysis.mk id name "2023-11-14T22:13:20.000Z" SrcFile (Some name)
    "LEASE AGREEMENT" 55 "Medium" ["A one-year lease of a flat."] [].


(** A page on which the scan cannot be read, the rest as in [world]. *)
Definition world_unreadable_scan (files : list FileUploadState.t) : World :=
  mkWorld
    (mkPlatform "test-key"
       (fun _ _ => Responded (JSON.stringify (Codec.ContractAnalysis_to_json analysis)))
       (fun file =>
          if String.eqb (File.type file) "image/png" then None
          else Some "data:application/pdf;base64,JVBERi0xLjQ=")
       (fun n => "id" +:+ JSON.print_Z (Z.of_nat n))
       (fun n => 1700000000000 + Z.of_nat n)
       (fun _ => "2023-11-14T22:13:20.000Z"))
    (store 4000) files None 0 [].

(** A backend that is down. *)
Definition platform_down : Platform :=
  mkPlatform "test-key"
    (fun _ _ => Rejected (Error "503 Service Unavailable"))
    (fun _ => Some "data:application/pdf;base64,JVBERi0xLjQ=")
    (fun n => "id" +:+ JSON.print_Z (Z.of_nat n))
    (fun n => 1700000000000 + Z.of_nat n)
    (fun _ => "2023-11-14T22:13:20.000Z").

Definition world_down : World := mkWorld platform_down (store 4000) [] None 0 [].

(** The lease once analysed, and the states of the components on it. *)
Definition clause : Clause.t :=
  Clause.mk "clause-1" "The tenant shall pay all repairs." "You pay for every repair."
    HIGH ["all repairs"] "Payment Risk: open-ended cost." None.

Definition analyzed : Contract.t :=
  Contract.mk "k3x9" "ada@example.org" "lease.pdf" 1700000000000 CAnalyzed
    (Some analysis) (Some "JVBERi0xLjQ=") (Some "application/pdf").

Definition chat : ChatBot.state :=
  ChatBot.mkState true false [] "Is the deposit refundable?" false.

Definition card : ClauseCard.state :=
  ClauseCard.mkState true "Who pays for the repairs?" false.

Definition signup : Auth.state :=
  Auth.mkState false " Ada@Example.org " "s3cret-pw" "Ada" None.

Definition profile : ProfileView.state :=
  ProfileView.mkState "Ada L." [] false EmptyString.

End Samples.

(** * Properties *)

(** ** JavaScript strings *)

Lemma prefix_append (p s : string) : String.prefix p (p +:+ s) = true.
Proof.
  induction p as [|c p IH]; simpl.
  - now destruct s.
  - destruct (ascii_dec c c); [exact IH | congruence].
Qed.

Lemma append_assoc (a b c : string) : (a +:+ b) +:+ c = a +:+ (b +:+ c).
Proof. induction a as [|x a IH]; simpl; [reflexivity | now rewrite IH]. Qed.

Lemma includes_prefix (s sub : string) : String.prefix sub s = true -> JS.includes s sub = true.
Proof. intros H. destruct s; cbn [JS.includes]; now rewrite H. Qed.

Lemma includes_cons (c : ascii) (s sub : string) :
  JS.includes s sub = true -> JS.includes (String c s) sub = true.
Proof. intros H. cbn [JS.includes]. rewrite H. now destruct (String.prefix sub (String c s)). Qed.

(** A string includes every string it was built around. *)
Lemma includes_infix (a sub b : string) : JS.includes (a +:+ sub +:+ b) sub = true.
Proof.
  induction a as [|c a IH].
  - change (EmptyString +:+ sub +:+ b) with (sub +:+ b).
    apply includes_prefix, prefix_append.
  - change (String c a +:+ sub +:+ b) with (String c (a +:+ sub +:+ b)).
    apply includes_cons, IH.
Qed.

(** ** The recommended contract of [CompareView] *)

Lemma find_none_forall {A} (p : A -> bool) (l : list A) :
  JS.find p l = None <-> Forall (fun x => p x = false) l.
Proof.
  unfold JS.find. induction l as [|x l IH]; simpl.
  - split; [constructor | reflexivity].
  - destruct (p x) eqn:E.
    + split; [discriminate | intros H; inversion H; congruence].
    + rewrite IH. split; [now constructor | intros H; now inversion H].
Qed.

(** C9.  When [recommendedId] is the id of no contract of the list, the
    expression yields the first contract of the list; when it is the id of
    some contract, the expression yields a contract of the list with that id
    (the first such).  The expression is total: on every non-empty list it
    yields a contract, and nothing is thrown. *)
Theorem winner_resolution (contracts : list Contract.t) (comparison : ComparisonResult.t) :
  let rid := ComparisonResult.recommendedId comparison in
  (Forall (fun c => Contract.id c <> rid) contracts ->
     CompareView.winner contracts comparison = head contracts) /\
  (forall before c after,
     contracts = before ++ c :: after ->
     Contract.id c = rid ->
     Forall (fun c' => Contract.id c' <> rid) before ->
     CompareView.winner contracts comparison = Some c) /\
  (contracts <> [] -> exists c, CompareView.winner contracts comparison = Some c /\ In c contracts).
Proof.
  intros rid. unfold CompareView.winner. fold rid.
  set (p := fun c => String.eqb (Contract.id c) rid).
  split; [|split].
  - intros Hno.
    assert (Hf : JS.find p contracts = None).
    { apply find_none_forall. eapply Forall_impl; [exact Hno|].
      intros c Hc. unfold p. now apply String.eqb_neq. }
    rewrite Hf. now destruct contracts.
  - intros before c after -> Hid Hbefore.
    assert (Hf : JS.find p (before ++ c :: after) = Some c).
    { unfold JS.find. induction Hbefore as [|x before Hx _ IH]; simpl.
      - unfold p. now rewrite Hid, String.eqb_refl.
      - assert (p x = false) as -> by (unfold p; now apply String.eqb_neq).
        exact IH. }
    now rewrite Hf.
  - intros Hne. destruct (JS.find p contracts) as [c|] eqn:Hf.
    + exists c. split; [reflexivity|].
      unfold JS.find in Hf. now apply find_some in Hf.
    + destruct contracts as [|c rest]; [congruence|].
      exists c. split; [reflexivity | now left].
Qed.

Lemma winner_resolution_witness :
  CompareView.winner [Samples.lease; Samples.offer]
    (ComparisonResult.mk "none" "neither stands out" []) = Some Samples.lease /\
  CompareView.winner [Samples.lease; Samples.offer]
    (ComparisonResult.mk "p07q" "shorter notice period" []) = Some Samples.offer.
Proof.
  split.
  - apply (proj1 (winner_resolution [Samples.lease; Samples.offer]
                    (ComparisonResult.mk "none" "neither stands out" []))).
    repeat constructor; discriminate.
  - apply (proj1 (proj2 (winner_resolution [Samples.lease; Samples.offer]
                           (ComparisonResult.mk "p07q" "shorter notice period" [])))
             [Samples.lease] Samples.offer []).
    + reflexivity.
    + reflexivity.
    + repeat constructor; discriminate.
Defined.

(** ** Validation of the files added to a batch *)

Section Validation.
Import Runtime ContractUpload.

Lemma validate_step_accepted acc f :
  accepted f = true ->
  validate_step acc f = (fst acc ++ [pending_entry f], snd acc).
Proof.
  unfold accepted, validate_step. destruct acc as [nf fe]. intros H.
  apply andb_true_iff in H as [H1 H2]. rewrite H1. simpl.
  apply negb_true_iff in H2. now rewrite H2.
Qed.

Lemma validate_step_rejected acc f :
  accepted f = false ->
  validate_step acc f = (fst acc, Some (rejection_message f)).
Proof.
  unfold accepted, validate_step, rejection_message. destruct acc as [nf fe]. intros H.
  destruct (JS.Array_includes validTypes (File.type f)); simpl in *.
  - apply negb_false_iff in H. now rewrite H.
  - reflexivity.
Qed.

Lemma validate_loop_files l acc :
  fst (fold_left validate_step l acc) = fst acc ++ map pending_entry (List.filter accepted l).
Proof.
  revert acc. induction l as [|f l IH]; intros acc; simpl.
  - now rewrite app_nil_r.
  - rewrite IH. destruct (accepted f) eqn:E.
    + rewrite validate_step_accepted by assumption. simpl. now rewrite <- app_assoc.
    + now rewrite validate_step_rejected.
Qed.

Lemma validate_loop_error_kept l acc :
  forallb accepted l = true ->
  snd (fold_left validate_step l acc) = snd acc.
Proof.
  revert acc. induction l as [|f l IH]; intros acc H; simpl in *; [reflexivity|].
  apply andb_true_iff in H as [H1 H2].
  rewrite IH by assumption. now rewrite validate_step_accepted.
Qed.

Lemma validate_loop_error_last before f after acc :
  accepted f = false -> forallb accepted after = true ->
  snd (fold_left validate_step (before ++ f :: after) acc) = Some (rejection_message f).
Proof.
  intros Hf Hafter. rewrite fold_left_app. simpl.
  rewrite validate_loop_error_kept by assumption.
  now rewrite validate_step_rejected.
Qed.

Lemma rejection_message_names f :
  JS.includes (rejection_message f) (File.name f) = true.
Proof.
  unfold rejection_message, invalid_format_message, too_large_message.
  destruct (negb _);
    rewrite <- (append_assoc "File " JS.dquote); apply includes_infix.
Qed.

Lemma rejection_message_truthy f : JS.truthy (rejection_message f) = true.
Proof.
  unfold rejection_message, invalid_format_message, too_large_message.
  now destruct (negb _).
Qed.

Lemma validateAndAddFiles_files fileList w :
  files (validateAndAddFiles fileList w)
  = files w ++ map pending_entry (List.filter accepted fileList).
Proof.
  unfold validateAndAddFiles.
  pose proof (validate_loop_files fileList ([], None)) as Hf.
  destruct (fold_left validate_step fileList ([], None)) as [newFiles fileError].
  simpl in Hf. subst newFiles.
  set (w1 := match fileError with Some e => _ | None => _ end).
  assert (Hw1 : files w1 = files w) by (subst w1; destruct fileError as [e|]; [destruct (JS.truthy e)|]; reflexivity).
  destruct (0 <? _)%nat eqn:E.
  - simpl. now rewrite Hw1.
  - apply Nat.ltb_ge in E. rewrite Hw1.
    destruct (map pending_entry (List.filter accepted fileList)); simpl in *; [now rewrite app_nil_r | lia].
Qed.

Lemma validateAndAddFiles_error fileList w :
  globalError (validateAndAddFiles fileList w)
  = match snd (fold_left validate_step fileList ([], None)) with
    | Some e => if JS.truthy e then Some e else None
    | None => None
    end.
Proof.
  unfold validateAndAddFiles.
  destruct (fold_left validate_step fileList ([], None)) as [newFiles fileError]. simpl.
  destruct (0 <? _)%nat; destruct fileError as [e|]; try destruct (JS.truthy e); reflexivity.
Qed.

End Validation.

(** C3.  A file of another type than the four accepted ones, or of more
    than 20 MiB, is never appended to the batch; the files appended by a call
    are its accepted files, in the order of arrival, each [pending].  When the
    loop reaches a rejected file it records the message for that file, which
    contains the file's name, in place of whatever was recorded before; the
    message shown after the call is therefore the one of the last rejected
    file of the call, whatever message was shown before, and no message is
    shown when the call rejects none. *)
Theorem validateAndAddFiles_rejects (fileList : list File.t) (w : Runtime.World) :
  let w' := ContractUpload.validateAndAddFiles fileList w in
  let appended := skipn (length (Runtime.files w)) (Runtime.files w') in
  Runtime.files w' = Runtime.files w ++ appended /\
  appended = map ContractUpload.pending_entry (List.filter ContractUpload.accepted fileList) /\
  (forall f, ContractUpload.accepted f = false ->
     ~ In f (map FileUploadState.file appended)) /\
  (forall before f,
     ContractUpload.accepted f = false ->
     snd (fold_left ContractUpload.validate_step (before ++ [f]) ([], None))
       = Some (ContractUpload.rejection_message f) /\
     JS.includes (ContractUpload.rejection_message f) (File.name f) = true) /\
  (forall before f after,
     fileList = before ++ f :: after ->
     ContractUpload.accepted f = false ->
     forallb ContractUpload.accepted after = true ->
     Runtime.globalError w' = Some (ContractUpload.rejection_message f)) /\
  (forallb ContractUpload.accepted fileList = true -> Runtime.globalError w' = None).
Proof.
  intros w' appended.
  assert (Happ : appended
            = map ContractUpload.pending_entry (List.filter ContractUpload.accepted fileList)).
  { subst appended w'. rewrite validateAndAddFiles_files.
    now rewrite drop_app_length. }
  split; [|split; [|split; [|split; [|split]]]].
  - rewrite Happ. apply validateAndAddFiles_files.
  - exact Happ.
  - intros f Hf Hin. rewrite Happ, map_map in Hin. simpl in Hin.
    rewrite map_id in Hin. apply filter_In in Hin as [_ Hacc]. congruence.
  - intros before f Hf. split.
    + now apply (validate_loop_error_last before f []).
    + apply rejection_message_names.
  - intros before f after -> Hf Hafter. subst w'.
    rewrite validateAndAddFiles_error, validate_loop_error_last by assumption.
    now rewrite rejection_message_truthy.
  - intros Hall. subst w'.
    rewrite validateAndAddFiles_error, validate_loop_error_kept by assumption.
    reflexivity.
Qed.

Lemma validateAndAddFiles_rejects_witness :
  Runtime.globalError
    (ContractUpload.validateAndAddFiles
       [Samples.pdf; Samples.sheet; Samples.scan; Samples.huge]
       (Samples.world "test-key" 4000 []))
  = Some (ContractUpload.rejection_message Samples.huge).
Proof.
  apply (proj1 (proj2 (proj2 (proj2 (proj2
           (validateAndAddFiles_rejects
              [Samples.pdf; Samples.sheet; Samples.scan; Samples.huge]
              (Samples.world "test-key" 4000 []))))))
           [Samples.pdf; Samples.sheet; Samples.scan] Samples.huge []);
    reflexivity.
Defined.

(** ** Promises *)

Section Promises.
Import Runtime.

Lemma run_bind {A B} (m : Async A) (f : A -> Async B) w :
  run (bind m f) w
  = match run m w with
    | (w', Ok a) => run (f a) w'
    | (w', Throw e) => (w', Throw e)
    end.
Proof.
  revert w. induction m as [[a|e]|step k IH|k IH]; intros w; simpl; auto.
Qed.

Lemma run_try_catch {A} (m : Async A) (h : exn -> Async A) w :
  run (try_catch m h) w
  = match run m w with
    | (w', Ok a) => (w', Ok a)
    | (w', Throw e) => run (h e) w'
    end.
Proof.
  revert w. induction m as [[a|e]|step k IH|k IH]; intros w; simpl; auto.
Qed.

Lemma run_await {A} (m : Async A) w : run (await m) w = run m w.
Proof.
  unfold await. rewrite run_try_catch, run_bind.
  destruct (run m w) as [w' [a|e]]; reflexivity.
Qed.

Lemma always_impl {A} (P Q : Result A -> Prop) (m : Async A) :
  (forall r, P r -> Q r) -> always P m -> always Q m.
Proof. intros HPQ. induction m as [r|step k IH|k IH]; simpl; auto. Qed.

Lemma always_bind {A B} (P : Result A -> Prop) (Q : Result B -> Prop)
    (m : Async A) (f : A -> Async B) :
  always P m ->
  (forall a, P (Ok a) -> always Q (f a)) ->
  (forall e, P (Throw e) -> Q (Throw e)) ->
  always Q (bind m f).
Proof.
  intros Hm Hok Hthrow.
  induction m as [[a|e]|step k IH|k IH]; simpl in *; auto.
Qed.

Lemma always_try_catch {A} (P Q : Result A -> Prop) (m : Async A) (h : exn -> Async A) :
  always P m ->
  (forall a, P (Ok a) -> Q (Ok a)) ->
  (forall e, P (Throw e) -> always Q (h e)) ->
  always Q (try_catch m h).
Proof.
  intros Hm Hok Hthrow.
  induction m as [[a|e]|step k IH|k IH]; simpl in *; auto.
Qed.

Lemma always_await {A} (P : Result A -> Prop) (m : Async A) :
  always P m -> always P (await m).
Proof.
  intros Hm. unfold await.
  apply always_try_catch with (P := P).
  - apply always_bind with (P := P); auto.
  - auto.
  - auto.
Qed.

Lemma always_run {A} (P : Result A -> Prop) (m : Async A) w :
  always P m -> P (snd (run m w)).
Proof. revert w. induction m as [r|step k IH|k IH]; intros w H; simpl in *; auto. Qed.

Lemma always_advance {A} (P : Result A -> Prop) (m : Async A) w :
  always P m -> always P (snd (advance m w)).
Proof. revert w. induction m as [r|step k IH|k IH]; intros w H; simpl in *; auto. Qed.

Lemma always_resume {A} (P : Result A -> Prop) (m : Async A) w :
  always P m -> always P (snd (resume m w)).
Proof. destruct m; simpl; auto. apply always_advance. Qed.

Lemma always_true {A} (m : Async A) : always (fun _ => True) m.
Proof. induction m; simpl; auto. Qed.

Lemma within_mono {A} (m : Async A) n n' :
  (n <= n')%nat -> within n m -> within n' m.
Proof.
  revert n n'. induction m as [r|step k IH|k IH]; intros n n' Hle H; simpl in *; auto.
  - intros w. eapply IH; eauto.
  - destruct n as [|n]; [contradiction|]. destruct n' as [|n']; [lia|].
    eapply IH; [|exact H]. lia.
Qed.

Lemma within_bind {A B} (m : Async A) (f : A -> Async B) n1 n2 :
  within n1 m -> (forall a, within n2 (f a)) -> within (n1 + n2) (bind m f).
Proof.
  revert n1. induction m as [[a|e]|step k IH|k IH]; intros n1 Hm Hf; simpl in *; auto.
  - eapply within_mono; [|apply Hf]. lia.
  - destruct n1 as [|n1]; [contradiction|]. simpl. now apply IH.
Qed.

Lemma within_try_catch {A} (m : Async A) (h : exn -> Async A) n1 n2 :
  within n1 m -> (forall e, within n2 (h e)) -> within (n1 + n2) (try_catch m h).
Proof.
  revert n1. induction m as [[a|e]|step k IH|k IH]; intros n1 Hm Hh; simpl in *; auto.
  - eapply within_mono; [|apply Hh]. lia.
  - destruct n1 as [|n1]; [contradiction|]. simpl. now apply IH.
Qed.

Lemma within_await {A} (m : Async A) n : within n m -> within (S n) (await m).
Proof.
  unfold await. revert n.
  induction m as [[a|e]|step k IH|k IH]; intros n Hm; simpl in *; auto.
  destruct n as [|n]; [contradiction|]. now apply IH.
Qed.

Lemma within_advance {A} (m : Async A) n w : within n m -> within n (snd (advance m w)).
Proof. revert w. induction m as [r|step k IH|k IH]; intros w H; simpl in *; auto. Qed.

Lemma parked_advance {A} (m : Async A) w : parked (snd (advance m w)).
Proof. revert w. induction m as [r|step k IH|k IH]; intros w; simpl; auto. Qed.

Lemma within_resume {A} (m : Async A) n w :
  parked m -> within (S n) m -> within n (snd (resume m w)).
Proof.
  destruct m as [r|step k|k]; simpl; intros Hp H; auto; [contradiction|].
  now apply within_advance.
Qed.

Lemma parked_resume {A} (m : Async A) w : parked m -> parked (snd (resume m w)).
Proof. destruct m; simpl; auto. intros _. apply parked_advance. Qed.

Lemma guarantees_bind {A B} R (m : Async A) (f : A -> Async B) :
  guarantees R m -> (forall a, guarantees R (f a)) -> guarantees R (bind m f).
Proof.
  intros Hm Hf. induction m as [[a|e]|step k IH|k IH]; simpl in *; auto.
  intros w. destruct (Hm w). auto.
Qed.

Lemma guarantees_try_catch {A} R (m : Async A) (h : exn -> Async A) :
  guarantees R m -> (forall e, guarantees R (h e)) -> guarantees R (try_catch m h).
Proof.
  intros Hm Hh. induction m as [[a|e]|step k IH|k IH]; simpl in *; auto.
  intros w. destruct (Hm w). auto.
Qed.

Lemma guarantees_await {A} R (m : Async A) : guarantees R m -> guarantees R (await m).
Proof.
  intros Hm. unfold await. apply guarantees_try_catch.
  - apply guarantees_bind; [exact Hm|]. intros a. exact I.
  - intros e. exact I.
Qed.

Section Guarantee.
Context {A : Type} (R : World -> World -> Prop).
Hypothesis R_refl : forall w, R w w.
Hypothesis R_trans : forall w1 w2 w3, R w1 w2 -> R w2 w3 -> R w1 w3.

Lemma guarantees_advance (m : Async A) w :
  guarantees R m -> R w (fst (advance m w)) /\ guarantees R (snd (advance m w)).
Proof.
  revert w. induction m as [r|step k IH|k IH]; intros w H; simpl in *; auto.
  destruct (H w) as [Hs Hk]. destruct (IH w (step w) Hk) as [H1 H2]. eauto.
Qed.

Lemma guarantees_resume (m : Async A) w :
  guarantees R m -> R w (fst (resume m w)) /\ guarantees R (snd (resume m w)).
Proof.
  destruct m as [r|step k|k]; simpl; intros H; auto.
  now apply guarantees_advance.
Qed.

End Guarantee.

Section Scheduler.
Context {A : Type}.
Implicit Types (pool : list (Async A)) (sched : list nat).

Lemma Promise_all_unfold sched pool w :
  Promise_all sched pool w
  = match first_rejected pool with
    | Some e => (w, pool, Some (Throw e))
    | None =>
        match all_resolved pool with
        | Some values => (w, pool, Some (Ok values))
        | None =>
            match sched with
            | [] => (w, pool, None)
            | i :: sched' =>
                let (w', pool') := resume_task i pool w in Promise_all sched' pool' w'
            end
        end
    end.
Proof. destruct sched; reflexivity. Qed.

Lemma all_settled_result pool :
  Forall (fun m => exists r, m = Ret r) pool ->
  (exists e, first_rejected pool = Some e) \/ (exists values, all_resolved pool = Some values).
Proof.
  induction 1 as [|m pool [[a|e] ->] _ IH]; simpl.
  - right. eauto.
  - destruct IH as [[e He]|[values Hv]].
    + left. eauto.
    + right. rewrite Hv. eauto.
  - left. eauto.
Qed.

Lemma all_resolved_lookup pool values :
  all_resolved pool = Some values ->
  length values = length pool /\
  forall i v, values !! i = Some v -> pool !! i = Some (Ret (Ok v)).
Proof.
  revert values. induction pool as [|m pool IH]; intros values H; simpl in H.
  - injection H as <-. split; [reflexivity|]. intros i v Hi. now rewrite lookup_nil in Hi.
  - destruct m as [[a|e]|step k|k]; try discriminate.
    destruct (all_resolved pool) as [l|] eqn:E; [|discriminate].
    injection H as <-. destruct (IH l eq_refl) as [Hlen Hl]. split; [simpl; lia|].
    intros [|i] v Hi; simpl in *; [congruence | auto].
Qed.

Lemma first_rejected_lookup pool e :
  first_rejected pool = Some e -> exists i, pool !! i = Some (Ret (Throw e)).
Proof.
  induction pool as [|m pool IH]; simpl; [discriminate|].
  destruct m as [[a|e']|step k|k]; intros H.
  - destruct (IH H) as [i Hi]. now exists (S i).
  - injection H as ->. now exists 0%nat.
  - destruct (IH H) as [i Hi]. now exists (S i).
  - destruct (IH H) as [i Hi]. now exists (S i).
Qed.

(** A task the pool holds after a turn is the task it held before, or the
    resumed task when the turn was its own. *)
Lemma resume_task_lookup i pool w j m' :
  snd (resume_task i pool w) !! j = Some m' ->
  (i <> j /\ pool !! j = Some m') \/
  (i = j /\ exists m, pool !! j = Some m /\ m' = snd (resume m w)).
Proof.
  unfold resume_task. destruct (pool !! i) as [m|] eqn:Hi.
  - destruct (resume m w) as [w1 m1] eqn:Hr. simpl. intros H.
    destruct (decide (i = j)) as [->|Hne].
    + right. split; [reflexivity|]. exists m. split; [exact Hi|].
      rewrite list_lookup_insert_eq in H by (now apply lookup_lt_Some in Hi).
      injection H as <-. now rewrite Hr.
    + left. now rewrite list_lookup_insert_ne in H.
  - simpl. intros H. left. split; [|exact H]. intros ->. congruence.
Qed.

Lemma resume_task_world i pool w :
  fst (resume_task i pool w) = w \/
  exists m, pool !! i = Some m /\ fst (resume_task i pool w) = fst (resume m w).
Proof.
  unfold resume_task. destruct (pool !! i) as [m|]; [|now left].
  right. exists m. split; [reflexivity|]. now destruct (resume m w).
Qed.

Lemma resume_task_length i pool w : length (snd (resume_task i pool w)) = length pool.
Proof.
  unfold resume_task. destruct (pool !! i) as [m|]; [|reflexivity].
  destruct (resume m w). simpl. apply length_insert.
Qed.

(** Under a schedule that gives every task the turns it still needs,
    [Promise.all] settles. *)
Lemma Promise_all_completes sched pool w :
  (forall i m, pool !! i = Some m ->
     parked m /\ within (count_occ Nat.eq_dec sched i) m) ->
  exists r, snd (Promise_all sched pool w) = Some r.
Proof.
  revert pool w. induction sched as [|i sched IH]; intros pool w Hpool;
    rewrite Promise_all_unfold.
  - assert (Hall : Forall (fun m => exists r, m = Ret r) pool).
    { apply Forall_lookup. intros i m Hi. destruct (Hpool i m Hi) as [Hp Hw].
      destruct m; simpl in *; try contradiction. eauto. }
    destruct (all_settled_result pool Hall) as [[e ->]|[values Hv]]; [eauto|].
    destruct (first_rejected pool); [eauto|]. rewrite Hv. eauto.
  - destruct (first_rejected pool); [eauto|].
    destruct (all_resolved pool); [eauto|].
    destruct (resume_task i pool w) as [w' pool'] eqn:Hr.
    apply IH. intros j m' Hj.
    pose proof (resume_task_lookup i pool w j m') as Hl. rewrite Hr in Hl.
    destruct (Hl Hj) as [[Hne Hm]|[-> (m & Hm & ->)]].
    + destruct (Hpool j m' Hm) as [Hp Hw]. split; [exact Hp|].
      now rewrite count_occ_cons_neq in Hw.
    + destruct (Hpool j m Hm) as [Hp Hw]. rewrite count_occ_cons_eq in Hw by reflexivity.
      split; [now apply parked_resume | now apply within_resume].
Qed.

(** What the tasks guarantee of their results, [Promise.all] delivers. *)
Lemma Promise_all_results (P : nat -> Result A -> Prop) sched pool w :
  (forall i m, pool !! i = Some m -> always (P i) m) ->
  match snd (Promise_all sched pool w) with
  | Some (Ok values) =>
      length values = length pool /\ forall i v, values !! i = Some v -> P i (Ok v)
  | Some (Throw e) => exists i, P i (Throw e)
  | None => True
  end.
Proof.
  revert pool w. induction sched as [|i sched IH]; intros pool w Hpool;
    rewrite Promise_all_unfold.
  - destruct (first_rejected pool) as [e|] eqn:Hf.
    { simpl. apply first_rejected_lookup in Hf as [i Hi]. exists i. exact (Hpool i _ Hi). }
    destruct (all_resolved pool) as [values|] eqn:Hv; [|exact I].
    simpl. apply all_resolved_lookup in Hv as [Hlen Hv]. split; [exact Hlen|].
    intros i v Hi. exact (Hpool i _ (Hv i v Hi)).
  - destruct (first_rejected pool) as [e|] eqn:Hf.
    { simpl. apply first_rejected_lookup in Hf as [j Hj]. exists j. exact (Hpool j _ Hj). }
    destruct (all_resolved pool) as [values|] eqn:Hv.
    { simpl. apply all_resolved_lookup in Hv as [Hlen Hv]. split; [exact Hlen|].
      intros j v Hj. exact (Hpool j _ (Hv j v Hj)). }
    destruct (resume_task i pool w) as [w' pool'] eqn:Hr.
    assert (Hlen : length pool' = length pool)
      by (pose proof (resume_task_length i pool w) as H; now rewrite Hr in H).
    assert (Hpool' : forall j m, pool' !! j = Some m -> always (P j) m).
    { intros j m' Hj.
      pose proof (resume_task_lookup i pool w j m') as Hl. rewrite Hr in Hl.
      destruct (Hl Hj) as [[Hne Hm]|[-> (m & Hm & ->)]]; [eauto|].
      apply always_resume. eauto. }
    specialize (IH pool' w' Hpool').
    destruct (snd (Promise_all sched pool' w')) as [[values|e]|]; auto.
    now rewrite <- Hlen.
Qed.

Lemma Promise_all_guarantees (R : World -> World -> Prop) sched pool w :
  (forall w, R w w) ->
  (forall w1 w2 w3, R w1 w2 -> R w2 w3 -> R w1 w3) ->
  (forall i m, pool !! i = Some m -> guarantees R m) ->
  R w (fst (fst (Promise_all sched pool w))).
Proof.
  intros Hrefl Htrans.
  revert pool w. induction sched as [|i sched IH]; intros pool w Hpool;
    rewrite Promise_all_unfold.
  - destruct (first_rejected pool); [apply Hrefl|].
    destruct (all_resolved pool); apply Hrefl.
  - destruct (first_rejected pool); [apply Hrefl|].
    destruct (all_resolved pool); [apply Hrefl|].
    destruct (resume_task i pool w) as [w' pool'] eqn:Hr.
    apply Htrans with w'.
    + pose proof (resume_task_world i pool w) as Hw. rewrite Hr in Hw. simpl in Hw.
      destruct Hw as [->|(m & Hm & ->)]; [apply Hrefl|].
      now apply guarantees_resume; eauto.
    + apply IH. intros j m' Hj.
      pose proof (resume_task_lookup i pool w j m') as Hl. rewrite Hr in Hl.
      destruct (Hl Hj) as [[Hne Hm]|[-> (m & Hm & ->)]]; [eauto|].
      now apply guarantees_resume; eauto.
Qed.

(** The promises [launch_all] leaves are the calls after their synchronous
    start. *)
Lemma launch_all_lookup (calls : list (Async A)) w i p :
  snd (launch_all calls w) !! i = Some p ->
  exists m wi, calls !! i = Some m /\ p = snd (advance m wi).
Proof.
  revert w i. induction calls as [|m calls IH]; intros w i; simpl.
  - now rewrite lookup_nil.
  - destruct (advance m w) as [w1 p1] eqn:Ha.
    destruct (launch_all calls w1) as [w2 ps] eqn:Hl. simpl.
    destruct i as [|i]; simpl.
    + intros [= <-]. exists m, w. now rewrite Ha.
    + intros Hi. apply (IH w1 i). now rewrite Hl.
Qed.

Lemma launch_all_length (calls : list (Async A)) w :
  length (snd (launch_all calls w)) = length calls.
Proof.
  revert w. induction calls as [|m calls IH]; intros w; simpl; [reflexivity|].
  destruct (advance m w) as [w1 p1]. specialize (IH w1).
  destruct (launch_all calls w1) as [w2 ps]. simpl in *. now rewrite IH.
Qed.

Lemma launch_all_guarantees (R : World -> World -> Prop) (calls : list (Async A)) w :
  (forall w, R w w) ->
  (forall w1 w2 w3, R w1 w2 -> R w2 w3 -> R w1 w3) ->
  Forall (guarantees R) calls ->
  R w (fst (launch_all calls w)).
Proof.
  intros Hrefl Htrans Hcalls. revert w.
  induction Hcalls as [|m calls Hm _ IH]; intros w; simpl; [apply Hrefl|].
  destruct (advance m w) as [w1 p1] eqn:Ha.
  specialize (IH w1). destruct (launch_all calls w1) as [w2 ps]. simpl in *.
  apply Htrans with w1; [|exact IH].
  pose proof (guarantees_advance R Hrefl Htrans m w Hm) as [H _]. now rewrite Ha in H.
Qed.

End Scheduler.

End Promises.

(** ** The client of the backend *)

Section GeminiService.
Import Runtime geminiService.

Lemma run_generateContent req w :
  run (await (generateContent req)) w
  = (emit (EvRequest req) w,
     match Runtime.generateContent (platform w) (requests_issued w) req with
     | Responded text => Ok text
     | Rejected e => Throw e
     end).
Proof.
  rewrite run_await. simpl.
  destruct (Runtime.generateContent (platform w) (requests_issued w) req); reflexivity.
Qed.

(** Whatever the backend does, a request settles with a text or an error. *)
Lemma always_generateContent req : always (fun _ => True) (await (generateContent req)).
Proof. apply always_true. Qed.

Lemma always_with_key {A} (P : Result A -> Prop) (f : string -> Async A) :
  (forall key, always P (f key)) -> always P (bind read_API_KEY f).
Proof. intros H. simpl. intros w. apply H. Qed.

Lemma run_with_key {A} (f : string -> Async A) w :
  run (bind read_API_KEY f) w = run (f (API_KEY (platform w))) w.
Proof. reflexivity. Qed.

Lemma advance_with_key {A} (f : string -> Async A) w :
  advance (bind read_API_KEY f) w = advance (f (API_KEY (platform w))) w.
Proof. reflexivity. Qed.

Lemma handleGenAIError_taxonomy (error : exn) :
  handleGenAIError error
  = Error (kind_message (classify (message error)) (message error)).
Proof.
  unfold handleGenAIError, classify, kind_message, matches, keywords.
  destruct (JS.truthy (message error)) eqn:Ht.
  - set (msg := JS.toLowerCase (message error)). simpl.
    repeat rewrite orb_false_r.
    repeat match goal with
    | |- context [JS.includes msg ?k] => destruct (JS.includes msg k); simpl; try (rewrite Ht; reflexivity); try reflexivity
    end.
  - destruct (message error); [reflexivity | discriminate].
Qed.

End GeminiService.

(** C6.  [askClauseQuestion] and [sendChatMessage] never reject: however
    the backend settles the request, and whatever else runs while they are
    suspended, they resolve to a string.  When the backend rejects the
    request, that string is the fixed apology of the function. *)
Theorem chat_never_raises :
  (forall clauseText question,
     Runtime.always (fun r => exists answer, r = Runtime.Ok answer)
       (geminiService.askClauseQuestion clauseText question)) /\
  (forall history newMessage contractContext,
     Runtime.always (fun r => exists answer, r = Runtime.Ok answer)
       (geminiService.sendChatMessage history newMessage contractContext)) /\
  (forall clauseText question w e,
     JS.truthy (Runtime.API_KEY (Runtime.platform w)) = true ->
     Runtime.generateContent (Runtime.platform w) (Runtime.requests_issued w)
       (Runtime.ReqClauseQuestion clauseText question) = Runtime.Rejected e ->
     snd (Runtime.run (geminiService.askClauseQuestion clauseText question) w)
     = Runtime.Ok "Sorry, I couldn't answer that right now due to a connection issue.") /\
  (forall history newMessage contractContext w e,
     JS.truthy (Runtime.API_KEY (Runtime.platform w)) = true ->
     Runtime.generateContent (Runtime.platform w) (Runtime.requests_issued w)
       (Runtime.ReqChat history newMessage contractContext) = Runtime.Rejected e ->
     snd (Runtime.run (geminiService.sendChatMessage history newMessage contractContext) w)
     = Runtime.Ok "Sorry, I'm having trouble connecting right now. Please try again.").
Proof.
  split; [|split; [|split]].
  - intros clauseText question. unfold geminiService.askClauseQuestion.
    apply always_with_key. intros key.
    destruct (negb _); [simpl; eauto|].
    apply always_try_catch with (P := fun _ => True).
    + apply always_true.
    + intros a _. eauto.
    + intros e _. simpl. eauto.
  - intros history newMessage contractContext.
    unfold geminiService.sendChatMessage.
    apply always_with_key. intros key.
    destruct (negb _); [simpl; eauto|].
    apply always_try_catch with (P := fun _ => True).
    + apply always_true.
    + intros a _. eauto.
    + intros e _. simpl. eauto.
  - intros clauseText question w e Hkey Hout.
    unfold geminiService.askClauseQuestion. rewrite run_with_key, Hkey.
    cbn [negb]. rewrite run_try_catch, run_bind, run_generateContent, Hout. reflexivity.
  - intros history newMessage contractContext w e Hkey Hout.
    unfold geminiService.sendChatMessage. rewrite run_with_key, Hkey.
    cbn [negb]. rewrite run_try_catch, run_bind, run_generateContent, Hout. reflexivity.
Qed.

Lemma chat_never_raises_witness :
  snd (Runtime.run (geminiService.askClauseQuestion "The tenant shall pay all repairs."
                      "Who pays for a broken boiler?") Samples.world_down)
  = Runtime.Ok "Sorry, I couldn't answer that right now due to a connection issue.".
Proof.
  apply (proj1 (proj2 (proj2 chat_never_raises))
           "The tenant shall pay all repairs." "Who pays for a broken boiler?"
           Samples.world_down (Runtime.Error "503 Service Unavailable"));
    reflexivity.
Defined.

Section Taxonomy.
Import Runtime geminiService.

Lemma classify_matches raw :
  classify raw <> Unexpected -> matches (classify raw) (JS.toLowerCase raw) = true.
Proof.
  unfold classify.
  destruct (List.find _ _) as [k|] eqn:Hf; [|congruence].
  intros _. now apply find_some in Hf.
Qed.

Lemma classify_unexpected raw k :
  classify raw = Unexpected -> matches k (JS.toLowerCase raw) = false.
Proof.
  unfold classify.
  destruct (List.find _ _) as [k'|] eqn:Hf.
  - intros ->. apply find_some in Hf as [_ Hf]. discriminate.
  - intros _. destruct k; try reflexivity;
      (apply (find_none _ _ Hf); simpl; tauto).
Qed.

(** Of the kinds whose keywords occur in a message, the message gets the
    first in the order of the taxonomy. *)
Lemma classify_first raw before k after :
  [Quota; Auth; TooLarge; Unavailable; Safety; Malformed] = before ++ k :: after ->
  classify raw = k ->
  Forall (fun k' => matches k' (JS.toLowerCase raw) = false) before.
Proof.
  intros Hsplit Hk. unfold classify in Hk. rewrite Hsplit in Hk.
  assert (Hk' : k <> Unexpected).
  { intros ->. assert (Hin : In Unexpected (before ++ Unexpected :: after))
      by (apply in_or_app; right; now left).
    rewrite <- Hsplit in Hin. simpl in Hin. intuition discriminate. }
  assert (Hnodup : ~ In k before).
  { intros Hin. assert (Hd : List.NoDup (before ++ k :: after)).
    { rewrite <- Hsplit. repeat constructor; simpl; intuition discriminate. }
    apply List.NoDup_remove_2 in Hd. apply Hd, in_or_app. now left. }
  clear Hsplit. induction before as [|k0 before IH]; [constructor|].
  simpl in Hk. destruct (matches k0 (JS.toLowerCase raw)) eqn:E.
  - exfalso. apply Hnodup. left. congruence.
  - constructor; [exact E|]. apply IH; [exact Hk|]. intros Hin. apply Hnodup. now right.
Qed.

End Taxonomy.

(** C7.  [compareContracts] rejects whenever the backend rejects the request
    or the response does not parse (it is empty, or its text is not JSON), and
    resolves to the parsed result otherwise.  The error it rejects with
    carries the message of the kind of the raw error: the first kind of the
    taxonomy (quota, authentication, payload too large, service unavailable,
    safety block, malformed response) one of whose keywords occurs in the
    lower-cased raw message, hence exactly one; when no keyword occurs the
    kind is the fallback, whose message is "Processing failed: " followed by
    the raw message, or the fixed "unexpected error" text when the raw error
    has no message. *)
Theorem compareContracts_propagates (contracts : list Contract.t) (w : Runtime.World) :
  JS.truthy (Runtime.API_KEY (Runtime.platform w)) = true ->
  let outcome :=
    Runtime.generateContent (Runtime.platform w) (Runtime.requests_issued w)
      (Runtime.ReqCompare contracts) in
  let thrown raw :=
    Runtime.Throw (A := ComparisonResult.t)
      (Runtime.Error (geminiService.kind_message
                        (geminiService.classify (Runtime.message raw)) (Runtime.message raw))) in
  (forall raw, outcome = Runtime.Rejected raw ->
     snd (Runtime.run (geminiService.compareContracts contracts) w) = thrown raw) /\
  (forall text,
     outcome = Runtime.Responded text ->
     JS.truthy text = false ->
     snd (Runtime.run (geminiService.compareContracts contracts) w)
     = thrown (Runtime.Error "Empty response from AI service.")) /\
  (forall text,
     outcome = Runtime.Responded text ->
     JS.truthy text = true ->
     JSON.parse (geminiService.cleaned text) = None ->
     snd (Runtime.run (geminiService.compareContracts contracts) w)
     = thrown (Runtime.Error "Failed to parse AI response. The model output was not valid JSON.")) /\
  (forall text result,
     outcome = Runtime.Responded text ->
     geminiService.parseJSONResponse Codec.ComparisonResult_of_json text = Runtime.Ok result ->
     snd (Runtime.run (geminiService.compareContracts contracts) w) = Runtime.Ok result) /\
  (forall raw,
     (geminiService.classify raw <> geminiService.Unexpected ->
      geminiService.matches (geminiService.classify raw) (JS.toLowerCase raw) = true) /\
     (geminiService.classify raw = geminiService.Unexpected ->
      forall k, geminiService.matches k (JS.toLowerCase raw) = false) /\
     (forall before after,
        [geminiService.Quota; geminiService.Auth; geminiService.TooLarge;
         geminiService.Unavailable; geminiService.Safety; geminiService.Malformed]
        = before ++ geminiService.classify raw :: after ->
        Forall (fun k => geminiService.matches k (JS.toLowerCase raw) = false) before)).
Proof.
  intros Hkey outcome thrown.
  assert (Hrun : Runtime.run (geminiService.compareContracts contracts) w
                 = (Runtime.emit (Runtime.EvRequest (Runtime.ReqCompare contracts)) w,
                    match outcome with
                    | Runtime.Responded text =>
                        match geminiService.parseJSONResponse Codec.ComparisonResult_of_json text with
                        | Runtime.Ok v => Runtime.Ok v
                        | Runtime.Throw e => Runtime.Throw (geminiService.handleGenAIError e)
                        end
                    | Runtime.Rejected e => Runtime.Throw (geminiService.handleGenAIError e)
                    end)).
  { unfold geminiService.compareContracts. rewrite run_with_key, Hkey. cbn [negb].
    rewrite run_try_catch, run_bind, run_generateContent. fold outcome.
    destruct outcome as [text|e]; [|reflexivity].
    simpl. destruct (geminiService.parseJSONResponse _ text); reflexivity. }
  rewrite Hrun. cbn [snd]. subst thrown. split; [|split; [|split; [|split]]].
  - intros raw ->. now rewrite handleGenAIError_taxonomy.
  - intros text -> Hempty. unfold geminiService.parseJSONResponse. rewrite Hempty.
    cbn [negb]. now rewrite handleGenAIError_taxonomy.
  - intros text -> Hfull Hparse. unfold geminiService.parseJSONResponse.
    rewrite Hfull. cbn [negb]. cbv zeta. rewrite Hparse.
    now rewrite handleGenAIError_taxonomy.
  - now intros text result -> ->.
  - intros raw. split; [|split].
    + apply classify_matches.
    + intros H k. now apply classify_unexpected.
    + intros before after Hsplit.
      now apply (classify_first raw before (geminiService.classify raw) after).
Qed.

Lemma compareContracts_propagates_witness :
  snd (Runtime.run (geminiService.compareContracts [Samples.lease; Samples.offer])
         Samples.world_down)
  = Runtime.Throw (Runtime.Error "AI service is temporarily unavailable. Please retry.").
Proof.
  apply (proj1 (compareContracts_propagates [Samples.lease; Samples.offer] Samples.world_down
                  eq_refl) (Runtime.Error "503 Service Unavailable")).
  reflexivity.
Defined.

(** How the two failures of [parseJSONResponse] are classified. *)
Lemma parse_failures_classified :
  geminiService.handleGenAIError
    (Runtime.Error "Failed to parse AI response. The model output was not valid JSON.")
  = Runtime.Error "Received an invalid response format from AI. Please retry." /\
  geminiService.handleGenAIError (Runtime.Error "Empty response from AI service.")
  = Runtime.Error "Processing failed: Empty response from AI service.".
Proof. split; reflexivity. Qed.

(** C10.  With an empty API key the four functions settle in their
    synchronous start, before any request is issued (the world, hence the
    trace of requests, is unchanged): [analyzeContract] and
    [compareContracts] reject with their missing-key errors, while
    [askClauseQuestion] and [sendChatMessage] resolve to the string
    "API Key missing.".  A backend that answers with that very text makes
    the chat functions resolve to the same value when the key is present, so
    the value does not tell the two conditions apart. *)
Theorem missing_api_key (w : Runtime.World) :
  Runtime.API_KEY (Runtime.platform w) = EmptyString ->
  (forall base64Data mimeType,
     Runtime.advance (geminiService.analyzeContract base64Data mimeType) w
     = (w, Runtime.Ret (Runtime.Throw
             (Runtime.Error "API Key is missing. Please set process.env.API_KEY.")))) /\
  (forall contracts,
     Runtime.advance (geminiService.compareContracts contracts) w
     = (w, Runtime.Ret (Runtime.Throw (Runtime.Error "API Key missing")))) /\
  (forall clauseText question,
     Runtime.advance (geminiService.askClauseQuestion clauseText question) w
     = (w, Runtime.Ret (Runtime.Ok "API Key missing."))) /\
  (forall history newMessage contractContext,
     Runtime.advance (geminiService.sendChatMessage history newMessage contractContext) w
     = (w, Runtime.Ret (Runtime.Ok "API Key missing."))) /\
  (forall clauseText question w',
     JS.truthy (Runtime.API_KEY (Runtime.platform w')) = true ->
     Runtime.generateContent (Runtime.platform w') (Runtime.requests_issued w')
       (Runtime.ReqClauseQuestion clauseText question) = Runtime.Responded "API Key missing." ->
     snd (Runtime.run (geminiService.askClauseQuestion clauseText question) w')
     = snd (Runtime.run (geminiService.askClauseQuestion clauseText question) w)) /\
  (forall history newMessage contractContext w',
     JS.truthy (Runtime.API_KEY (Runtime.platform w')) = true ->
     Runtime.generateContent (Runtime.platform w') (Runtime.requests_issued w')
       (Runtime.ReqChat history newMessage contractContext) = Runtime.Responded "API Key missing." ->
     snd (Runtime.run (geminiService.sendChatMessage history newMessage contractContext) w')
     = snd (Runtime.run (geminiService.sendChatMessage history newMessage contractContext) w)).
Proof.
  intros Hkey. repeat split.
  - intros. unfold geminiService.analyzeContract. now rewrite advance_with_key, Hkey.
  - intros. unfold geminiService.compareContracts. now rewrite advance_with_key, Hkey.
  - intros. unfold geminiService.askClauseQuestion. now rewrite advance_with_key, Hkey.
  - intros. unfold geminiService.sendChatMessage. now rewrite advance_with_key, Hkey.
  - intros clauseText question w' Hkey' Hout.
    unfold geminiService.askClauseQuestion. rewrite !run_with_key, Hkey, Hkey'.
    cbn [negb JS.truthy]. rewrite run_try_catch, run_bind, run_generateContent, Hout.
    reflexivity.
  - intros history newMessage contractContext w' Hkey' Hout.
    unfold geminiService.sendChatMessage. rewrite !run_with_key, Hkey, Hkey'.
    cbn [negb JS.truthy]. rewrite run_try_catch, run_bind, run_generateContent, Hout.
    reflexivity.
Qed.

Lemma missing_api_key_witness :
  Runtime.advance (geminiService.compareContracts [Samples.lease; Samples.offer])
    (Samples.world EmptyString 4000 [])
  = (Samples.world EmptyString 4000 [],
     Runtime.Ret (Runtime.Throw (Runtime.Error "API Key missing"))).
Proof.
  apply (proj1 (proj2 (missing_api_key (Samples.world EmptyString 4000 []) eq_refl))).
Defined.

(** ** The analysis of one file *)

Section ProcessFile.
Import Runtime ContractUpload.

Lemma analysis_step_refl w : analysis_step w w.
Proof. repeat split. exists []. simpl. now rewrite app_nil_r. Qed.

Lemma analysis_step_trans w1 w2 w3 :
  analysis_step w1 w2 -> analysis_step w2 w3 -> analysis_step w1 w3.
Proof.
  intros (Hp & Hf & Hg & reqs & Ht) (Hp' & Hf' & Hg' & reqs' & Ht').
  repeat split; try congruence.
  exists (reqs ++ reqs'). rewrite Ht', Ht, map_app. now rewrite app_assoc.
Qed.

Lemma analysis_step_request req w : analysis_step w (emit (EvRequest req) w).
Proof. repeat split. now exists [req]. Qed.

Lemma analysis_step_tick w : analysis_step w (tick w).
Proof. repeat split. exists []. simpl. now rewrite app_nil_r. Qed.

Lemma analysis_step_storage ls w : analysis_step w (with_localStorage ls w).
Proof. repeat split. exists []. simpl. now rewrite app_nil_r. Qed.

Lemma analyzeContract_within base64Data mimeType :
  within 3 (await (geminiService.analyzeContract base64Data mimeType)).
Proof.
  apply within_await. unfold geminiService.analyzeContract. simpl. intros w.
  destruct (negb _); simpl; [exact I|].
  intros w1 w2. destruct (Runtime.generateContent _ _ _); simpl; [|exact I].
  now destruct (geminiService.parseJSONResponse _ _).
Qed.

Lemma analyzeContract_guarantees base64Data mimeType :
  guarantees analysis_step (await (geminiService.analyzeContract base64Data mimeType)).
Proof.
  apply guarantees_await. unfold geminiService.analyzeContract. simpl. intros w.
  split; [apply analysis_step_refl|].
  destruct (negb _); simpl; [exact I|].
  intros w1. split; [apply analysis_step_request|]. simpl.
  intros w2. split; [apply analysis_step_refl|].
  destruct (Runtime.generateContent _ _ _); simpl; [|exact I].
  now destruct (geminiService.parseJSONResponse _ _).
Qed.

Lemma processFile_within user fileState : within 6 (processFile user fileState).
Proof.
  unfold processFile.
  apply (within_try_catch _ _ 6 0); [|intros e; exact I].
  apply (within_bind _ _ 2 4).
  { apply within_await. simpl. intros w. now destruct (readAsDataURL _ _). }
  intros base64Data. apply (within_bind _ _ 3 1); [apply analyzeContract_within|].
  intros analysis. apply (within_bind _ _ 0 1); [simpl; auto|].
  intros id. apply (within_bind _ _ 0 1); [simpl; auto|].
  intros now. apply (within_bind _ _ 1 0).
  { apply (within_try_catch _ _ 1 0); [|intros e; exact I].
    apply within_await. simpl. intros w. exact I. }
  intros _. apply (within_bind _ _ 0 0); [simpl; auto|].
  intros toISO. apply (within_bind _ _ 0 0); [simpl; auto|].
  intros _. exact I.
Qed.

Lemma processFile_guarantees user fileState :
  guarantees analysis_step (processFile user fileState).
Proof.
  unfold processFile.
  apply guarantees_try_catch; [|intros e; exact I].
  apply guarantees_bind.
  { apply guarantees_await. simpl. intros w. split; [apply analysis_step_refl|].
    now destruct (readAsDataURL _ _). }
  intros base64Data. apply guarantees_bind; [apply analyzeContract_guarantees|].
  intros analysis. apply guarantees_bind.
  { simpl. intros w. split; [apply analysis_step_tick | exact I]. }
  intros id. apply guarantees_bind.
  { simpl. intros w. split; [apply analysis_step_tick | exact I]. }
  intros now. apply guarantees_bind.
  { apply guarantees_try_catch; [|intros e; exact I].
    apply guarantees_await. simpl. intros w. split; [apply analysis_step_storage | exact I]. }
  intros _. apply guarantees_bind.
  { simpl. intros w. split; [apply analysis_step_refl | exact I]. }
  intros toISO. apply guarantees_bind.
  { simpl. intros w. split; [apply analysis_step_storage | exact I]. }
  intros _. exact I.
Qed.

(** However its steps are interleaved with others, [processFile] resolves,
    to the entry with a success or with an error. *)
Lemma processFile_outcome user fileState :
  always (fun r => exists result, r = Ok result /\ outcome_of fileState result)
         (processFile user fileState).
Proof.
  unfold processFile.
  apply always_try_catch with
    (P := fun r => match r with
                   | Ok result =>
                       FileUploadState.file result = FileUploadState.file fileState /\
                       FileUploadState.status result = success /\
                       exists c, FileUploadState.contract result = Some c
                   | Throw _ => True
                   end).
  - repeat (apply always_bind with (P := fun _ => True);
            [apply always_true | intros ? _ | auto]).
    simpl. eauto.
  - intros result (Hfile & Hstatus & Hc). exists result. split; [reflexivity|].
    split; [exact Hfile|]. left. auto.
  - intros e _. simpl. eexists. split; [reflexivity|].
    split; [reflexivity|]. right. simpl. eauto.
Qed.

Lemma process_item_within user item : within 7 (process_item user item).
Proof.
  unfold process_item. apply (within_bind _ _ 7 0); [|intros; exact I].
  apply within_await, processFile_within.
Qed.

Lemma process_item_guarantees user item : guarantees analysis_step (process_item user item).
Proof.
  unfold process_item. apply guarantees_bind; [|intros; exact I].
  apply guarantees_await, processFile_guarantees.
Qed.

Lemma process_item_outcome user item :
  always (fun r => exists result, r = Ok (snd item, result) /\ outcome_of (fst item) result)
         (process_item user item).
Proof.
  unfold process_item.
  apply always_bind with
    (P := fun r => exists result, r = Ok result /\ outcome_of (fst item) result).
  - apply always_await, processFile_outcome.
  - intros a (result & [= ->] & H). simpl. eauto.
  - intros e (result & [=] & _).
Qed.

End ProcessFile.

(** ** The batch *)

Section Batch.
Import Runtime ContractUpload.

Lemma imap_indices {A B} (g : nat -> B) (l : list A) :
  map snd (imap (fun i x => (x, g i)) l) = map g (seq 0 (length l)).
Proof.
  revert g. induction l as [|x l IH]; intros g; [reflexivity|].
  simpl. f_equal. rewrite <- seq_shift, map_map. apply (IH (fun i => g (S i))).
Qed.

Lemma NoDup_map_filter {A B} (g : A -> B) (p : A -> bool) (l : list A) :
  List.NoDup (map g l) -> List.NoDup (map g (List.filter p l)).
Proof.
  induction l as [|x l IH]; simpl; [auto|].
  intros H. inversion H as [|? ? Hx Hl]; subst.
  destruct (p x); simpl; [|auto].
  constructor; [|auto].
  intros Hin. apply Hx. apply in_map_iff in Hin as (y & Hy & Hin).
  apply in_map_iff. exists y. split; [exact Hy|]. now apply filter_In in Hin.
Qed.

Lemma filesToProcess_In files item :
  In item (filesToProcess files) <->
  files !! snd item = Some (fst item) /\ FileUploadState.status (fst item) <> success.
Proof.
  unfold filesToProcess. rewrite filter_In, <- list_elem_of_In, elem_of_lookup_imap.
  split.
  - intros [(i & f & -> & Hf) Hs]. simpl in *. split; [exact Hf|].
    intros E. rewrite E in Hs. discriminate.
  - intros [Hf Hs]. split.
    + exists (snd item), (fst item). split; [now destruct item | exact Hf].
    + now destruct (FileUploadState.status (fst item)).
Qed.

Lemma filesToProcess_NoDup files : List.NoDup (map snd (filesToProcess files)).
Proof.
  unfold filesToProcess. apply NoDup_map_filter.
  rewrite (imap_indices (fun i => i)), map_id. apply seq_NoDup.
Qed.

Lemma filesToProcess_length files : (length (filesToProcess files) <= length files)%nat.
Proof.
  unfold filesToProcess.
  etransitivity; [apply filter_length_le|]. now rewrite length_imap.
Qed.

Lemma apply_results_length results prev :
  length (apply_results results prev) = length prev.
Proof.
  unfold apply_results. revert prev.
  induction results as [|r results IH]; intros prev; simpl; [reflexivity|].
  now rewrite IH, length_insert.
Qed.

Lemma apply_results_other results prev i :
  ~ In i (map fst results) -> apply_results results prev !! i = prev !! i.
Proof.
  unfold apply_results. revert prev.
  induction results as [|r results IH]; intros prev Hi; simpl in *; [reflexivity|].
  rewrite IH by tauto. apply list_lookup_insert_ne. tauto.
Qed.

Lemma apply_results_at results prev i result :
  List.NoDup (map fst results) -> In (i, result) results -> (i < length prev)%nat ->
  apply_results results prev !! i = Some result.
Proof.
  revert prev. induction results as [|r results IH]; intros prev Hnd Hin Hlt; [contradiction|].
  simpl in Hnd. inversion Hnd as [|? ? Hr Hnd']; subst.
  change (apply_results (r :: results) prev)
    with (apply_results results (<[fst r := snd r]> prev)).
  destruct Hin as [->|Hin].
  - rewrite apply_results_other by exact Hr. simpl. now apply list_lookup_insert_eq.
  - apply IH; [exact Hnd' | exact Hin | now rewrite length_insert].
Qed.

Lemma mark_processing_success f :
  FileUploadState.status f = success -> mark_processing f = f.
Proof. unfold mark_processing. now intros ->. Qed.

Lemma mark_processing_waiting f :
  FileUploadState.status f = pending \/ FileUploadState.status f = error ->
  mark_processing f
  = FileUploadState.mk (FileUploadState.file f) processing None (FileUploadState.contract f).
Proof. unfold mark_processing. now intros [-> | ->]. Qed.

Lemma handleAnalyzeAll_completes user files sched w :
  Runtime.files w = files ->
  fair (length (filesToProcess files)) sched ->
  exists results reqs w',
    handleAnalyzeAll user files sched w = (navigation files results w', Some (Ok tt)) /\
    Forall2 (fun item r => fst r = snd item /\ outcome_of (fst item) (snd r))
            (filesToProcess files) results /\
    Runtime.files w' = apply_results results (map mark_processing files) /\
    trace w' = trace w ++ [EvSetFiles (map mark_processing files)]
                 ++ map EvRequest reqs
                 ++ [EvSetFiles (apply_results results (map mark_processing files))].
Proof.
  intros Hfiles Hfair. unfold handleAnalyzeAll.
  set (w1 := setFiles (map mark_processing) w).
  set (calls := map (process_item user) (filesToProcess files)).
  pose proof (launch_all_guarantees analysis_step calls w1
                analysis_step_refl analysis_step_trans) as Hlaunch.
  pose proof (launch_all_length calls w1) as Hlen.
  pose proof (launch_all_lookup calls w1) as Hlook.
  destruct (launch_all calls w1) as [w2 promises]. simpl in Hlaunch, Hlen, Hlook.
  assert (Hcalls : forall i m, calls !! i = Some m ->
            exists item, filesToProcess files !! i = Some item /\ m = process_item user item).
  { intros i m Hi. subst calls. rewrite list_lookup_fmap in Hi.
    destruct (filesToProcess files !! i) as [item|]; [|discriminate].
    injection Hi as <-. eauto. }
  assert (Hlaunch' : analysis_step w1 w2).
  { apply Hlaunch. subst calls. apply List.Forall_forall. intros m Hm.
    apply in_map_iff in Hm as (item & <- & _). apply process_item_guarantees. }
  set (P := fun (i : nat) (r : Result (nat * FileUploadState.t)) =>
              exists item result, filesToProcess files !! i = Some item /\
                r = Ok (snd item, result) /\ outcome_of (fst item) result).
  pose proof (Promise_all_completes sched promises w2) as Hdone.
  pose proof (Promise_all_results P sched promises w2) as Hres.
  pose proof (Promise_all_guarantees analysis_step sched promises w2
                analysis_step_refl analysis_step_trans) as Hguar.
  destruct (Promise_all sched promises w2) as [[w3 pool3] r]. simpl in Hdone, Hres, Hguar.
  destruct Hdone as [r' ->].
  { intros i p Hp. destruct (Hlook i p Hp) as (m & wi & Hm & ->).
    destruct (Hcalls i m Hm) as (item & Hitem & ->).
    split; [apply parked_advance|].
    apply within_advance. eapply within_mono; [|apply process_item_within].
    apply Hfair. apply lookup_lt_Some in Hitem. exact Hitem. }
  assert (Hres' : match r' with
                  | Ok values => length values = length promises /\
                                 forall i v, values !! i = Some v -> P i (Ok v)
                  | Throw e => exists i, P i (Throw e)
                  end).
  { apply Hres. intros i p Hp. destruct (Hlook i p Hp) as (m & wi & Hm & ->).
    destruct (Hcalls i m Hm) as (item & Hitem & ->).
    apply always_advance. eapply always_impl; [|apply process_item_outcome].
    intros r (result & -> & Hout). exists item, result. auto. }
  assert (Hstep : analysis_step w2 w3).
  { apply Hguar. intros i p Hp. destruct (Hlook i p Hp) as (m & wi & Hm & ->).
    destruct (Hcalls i m Hm) as (item & Hitem & ->).
    apply (guarantees_advance analysis_step analysis_step_refl analysis_step_trans).
    apply process_item_guarantees. }
  destruct r' as [values|e]; [|destruct Hres' as (i & item & result & _ & [=] & _)].
  destruct Hres' as [Hvlen Hvalues].
  destruct (analysis_step_trans _ _ _ Hlaunch' Hstep) as (Hp13 & Hf13 & Hg13 & reqs & Ht13).
  exists values, reqs, (setFiles (apply_results values) w3).
  assert (Hf3 : Runtime.files w3 = map mark_processing files).
  { rewrite Hf13. subst w1. simpl. now rewrite Hfiles. }
  split; [reflexivity|]. split; [|split].
  - apply Forall2_same_length_lookup. split.
    + rewrite Hvlen, Hlen. subst calls. now rewrite length_map.
    + intros i item v Hitem Hv.
      destruct (Hvalues i v Hv) as (item' & result & Hitem' & [= ->] & Hout).
      rewrite Hitem in Hitem'. injection Hitem' as <-. simpl. auto.
  - simpl. now rewrite Hf3.
  - simpl. rewrite Hf3, Ht13. subst w1. simpl. rewrite Hfiles.
    now rewrite <- !app_assoc.
Qed.

End Batch.

Section Navigation.
Import Runtime ContractUpload.

Lemma navigation_effect files results w :
  Runtime.files (navigation files results w) = Runtime.files w /\
  exists nav, trace (navigation files results w) = trace w ++ nav /\
    Forall (fun ev => exists c, ev = EvUploadComplete c) nav.
Proof.
  unfold navigation.
  assert (Hnone : Runtime.files w = Runtime.files w /\
            exists nav, trace w = trace w ++ nav /\
              Forall (fun ev => exists c, ev = EvUploadComplete c) nav).
  { split; [reflexivity|]. exists []. now rewrite app_nil_r. }
  destruct results as [|[i result] [|r results]]; try exact Hnone.
  destruct (_ && _); [|exact Hnone].
  destruct (FileUploadState.contract result) as [c|]; [|exact Hnone].
  split; [reflexivity|]. exists [EvUploadComplete c]. split; [reflexivity|].
  constructor; eauto.
Qed.

Lemma uploads_completed_app tr1 tr2 :
  uploads_completed (tr1 ++ tr2) = uploads_completed tr1 ++ uploads_completed tr2.
Proof. unfold uploads_completed. apply omap_app. Qed.

Lemma uploads_completed_requests reqs : uploads_completed (map EvRequest reqs) = [].
Proof. induction reqs; simpl; auto. Qed.

End Navigation.

(** ** The order of the requests and the outcome of each analysis *)

Section Platforms.
Import Runtime.
Context {A : Type} (p : Platform).

Lemma always_on_impl (P Q : Result A -> Prop) (m : Async A) :
  (forall r, P r -> Q r) -> always_on p P m -> always_on p Q m.
Proof. intros HPQ. induction m as [r|step k IH|k IH]; simpl; auto. Qed.

Lemma always_always_on (P : Result A -> Prop) (m : Async A) : always P m -> always_on p P m.
Proof. induction m as [r|step k IH|k IH]; simpl; auto. Qed.

Lemma always_on_bind {B} (P : Result A -> Prop) (Q : Result B -> Prop)
    (m : Async A) (f : A -> Async B) :
  always_on p P m ->
  (forall a, P (Ok a) -> always_on p Q (f a)) ->
  (forall e, P (Throw e) -> Q (Throw e)) ->
  always_on p Q (bind m f).
Proof.
  intros Hm Hok Hthrow.
  induction m as [[a|e]|step k IH|k IH]; simpl in *; auto.
Qed.

Lemma always_on_try_catch (P Q : Result A -> Prop) (m : Async A) (h : exn -> Async A) :
  always_on p P m ->
  (forall a, P (Ok a) -> Q (Ok a)) ->
  (forall e, P (Throw e) -> always_on p Q (h e)) ->
  always_on p Q (try_catch m h).
Proof.
  intros Hm Hok Hthrow.
  induction m as [[a|e]|step k IH|k IH]; simpl in *; auto.
Qed.

Lemma always_on_await (P : Result A -> Prop) (m : Async A) :
  always_on p P m -> always_on p P (await m).
Proof.
  intros Hm. unfold await.
  apply always_on_try_catch with (P := P); auto.
  apply always_on_bind with (P := P); auto.
Qed.

(** The steps of a silent promise keep the platform, so what holds over the
    worlds of [p] holds of what is left after a turn. *)
Lemma always_on_advance (P : Result A -> Prop) (m : Async A) w :
  platform w = p -> guarantees silent m -> always_on p P m ->
  always_on p P (snd (advance m w)).
Proof.
  revert w. induction m as [r|step k IH|k IH]; intros w Hp Hg H; simpl in *; auto.
  destruct (Hg w) as [[Hs _] Hk]. apply IH; [congruence | exact Hk | auto].
Qed.

Lemma always_on_resume (P : Result A -> Prop) (m : Async A) w :
  platform w = p -> guarantees silent m -> always_on p P m ->
  always_on p P (snd (resume m w)).
Proof. destruct m; simpl; auto. intros. now apply always_on_advance. Qed.

Lemma silent_refl w : silent w w.
Proof. now split. Qed.

Lemma silent_trans w1 w2 w3 : silent w1 w2 -> silent w2 w3 -> silent w1 w3.
Proof. intros [H1 H2] [H3 H4]. split; congruence. Qed.

(** A promise whose request is out stays so when it is resumed, and the
    turn changes neither the platform nor the trace. *)
Lemma answered_resume (P : Result A -> Prop) (m : Async A) w :
  platform w = p -> answered p P m ->
  silent w (fst (resume m w)) /\ answered p P (snd (resume m w)).
Proof.
  intros Hp (Hpark & Hg & Hal).
  destruct (guarantees_resume silent silent_refl silent_trans m w Hg) as [Hs Hg'].
  split; [exact Hs|]. split; [now apply parked_resume|].
  split; [exact Hg' | now apply always_on_resume].
Qed.

End Platforms.

Section Phases.
Import Runtime ContractUpload.

Lemma silent_tick w : silent w (tick w).
Proof. now split. Qed.

Lemma silent_storage ls w : silent w (with_localStorage ls w).
Proof. now split. Qed.

(** What is left of [processFile] once the analysis has arrived: the
    contract is built and saved. *)
Lemma saved_guarantees user fileState base64Data analysis :
  let file := FileUploadState.file fileState in
  guarantees silent
    (bind generateId (fun id =>
     bind Date_now (fun now =>
     let newContract :=
       Contract.mk id (User.id user) (File.name file) now CAnalyzed (Some analysis)
                   base64Data (Some (File.type file)) in
     bind (try_catch (await (saveContract newContract))
             (fun storageError =>
                throw (Error "Analyzed successfully but failed to save to browser storage. Check available disk space.")))
          (fun _ =>
     bind (Do (fun w => w) (fun w => ret (toISOString (platform w)))) (fun toISO =>
     bind (saveRecentAnalysis (recentAnalysis_of toISO newContract analysis)) (fun _ =>
     ret (FileUploadState.mk file success (FileUploadState.error fileState)
            (Some newContract)))))))).
Proof.
  intros file.
  apply guarantees_bind.
  { simpl. intros w. split; [apply silent_tick | exact I]. }
  intros id. apply guarantees_bind.
  { simpl. intros w. split; [apply silent_tick | exact I]. }
  intros now. apply guarantees_bind.
  { apply guarantees_try_catch; [|intros e; exact I].
    apply guarantees_await. simpl. intros w. split; [apply silent_storage | exact I]. }
  intros _. apply guarantees_bind.
  { simpl. intros w. split; [apply silent_refl | exact I]. }
  intros toISO. apply guarantees_bind.
  { simpl. intros w. split; [apply silent_storage | exact I]. }
  intros _. exact I.
Qed.

Lemma saved_outcome p user fileState base64Data analysis :
  let file := FileUploadState.file fileState in
  always_on p
    (fun r =>
       match r with
       | Ok result =>
           exists t t',
             result
             = FileUploadState.mk file success (FileUploadState.error fileState)
                 (Some (Contract.mk (Math_random_id p t) (User.id user) (File.name file)
                          (Runtime.Date_now p t') CAnalyzed (Some analysis) base64Data
                          (Some (File.type file))))
       | Throw e =>
           e = Error "Analyzed successfully but failed to save to browser storage. Check available disk space."
       end)
    (bind generateId (fun id =>
     bind Date_now (fun now =>
     let newContract :=
       Contract.mk id (User.id user) (File.name file) now CAnalyzed (Some analysis)
                   base64Data (Some (File.type file)) in
     bind (try_catch (await (saveContract newContract))
             (fun storageError =>
                throw (Error "Analyzed successfully but failed to save to browser storage. Check available disk space.")))
          (fun _ =>
     bind (Do (fun w => w) (fun w => ret (toISOString (platform w)))) (fun toISO =>
     bind (saveRecentAnalysis (recentAnalysis_of toISO newContract analysis)) (fun _ =>
     ret (FileUploadState.mk file success (FileUploadState.error fileState)
            (Some newContract)))))))).
Proof.
  intros file.
  cbn [generateId Date_now bind always_on ret]. intros w1 Hw1 w2 Hw2.
  rewrite Hw1, Hw2.
  set (newContract := Contract.mk _ _ _ _ _ _ _ _).
  apply always_on_bind with
    (P := fun r => match r with
                   | Ok _ => True
                   | Throw e => e = Error "Analyzed successfully but failed to save to browser storage. Check available disk space."
                   end).
  - apply always_on_try_catch with (P := fun _ => True).
    + apply always_always_on, always_true.
    + auto.
    + intros e _. reflexivity.
  - intros _ _. cbn [bind always_on ret saveRecentAnalysis]. intros w3 _ w4 _.
    subst newContract. eauto.
  - auto.
Qed.

End Phases.

Section Issue.
Import Runtime ContractUpload.

Lemma process_item_issues user item p w0 :
  issues p (request_of p (fst item))
    (fun n r => exists result, r = Ok (snd item, result) /\ analysed p user n (fst item) result)
    1 (snd (advance (process_item user item) w0)).
Proof.
  destruct item as [f idx]. cbn [fst snd].
  unfold process_item, processFile, base64Promise.
  cbn [advance await bind try_catch fst snd].
  eexists. split; [reflexivity|]. intros w Hp.
  cbn [advance fst snd]. rewrite Hp.
  unfold request_of, analysed.
  destruct (readAsDataURL p (FileUploadState.file f)) as [url|] eqn:Hread.
  - cbn [advance await bind try_catch fst snd ret throw].
    split; [reflexivity|].
    eexists. split; [reflexivity|]. intros w' Hp'.
    unfold geminiService.analyzeContract, geminiService.read_API_KEY,
      geminiService.generateContent.
    cbn [advance await bind try_catch fst snd ret throw]. rewrite Hp'.
    destruct (JS.truthy (API_KEY p)) eqn:Hkey; cbn [negb].
    + cbn [advance await bind try_catch fst snd ret throw emit_request].
      split; [reflexivity|].
      split; [exact I|]. split.
      * cbn [guarantees]. intros w1. split; [apply silent_refl|].
        destruct (generateContent (platform w1) _ _) as [text|e];
          cbn [bind try_catch ret throw guarantees].
        -- destruct (geminiService.parseJSONResponse _ text) as [analysis|e];
             cbn [bind try_catch ret throw guarantees]; [|exact I].
           apply guarantees_bind; [|intros; exact I].
           apply guarantees_try_catch; [|intros; exact I].
           apply guarantees_bind; [|intros; exact I].
           apply guarantees_try_catch; [|intros; exact I].
           apply (saved_guarantees user f (JS.split_comma_1 url) analysis).
        -- exact I.
      * cbn [always_on]. intros w1 Hw1. rewrite Hw1.
        destruct (generateContent p _ _) as [text|e];
          cbn [bind try_catch ret throw always_on].
        -- destruct (geminiService.parseJSONResponse _ text) as [analysis|e] eqn:Hparse;
             cbn [bind try_catch ret throw always_on].
           ++ apply always_on_bind with
                (P := fun r => exists result, r = Ok result /\
                        ((exists t t', result = FileUploadState.mk (FileUploadState.file f) success
                            (FileUploadState.error f)
                            (Some (Contract.mk (Math_random_id p t) (User.id user)
                                     (File.name (FileUploadState.file f)) (Runtime.Date_now p t')
                                     CAnalyzed (Some analysis) (JS.split_comma_1 url)
                                     (Some (File.type (FileUploadState.file f)))))) \/
                         result = failed_entry f (Error "Analyzed successfully but failed to save to browser storage. Check available disk space."))).
              ** apply always_on_try_catch with
                   (P := fun r => exists result, r = Ok result /\
                        ((exists t t', result = FileUploadState.mk (FileUploadState.file f) success
                            (FileUploadState.error f)
                            (Some (Contract.mk (Math_random_id p t) (User.id user)
                                     (File.name (FileUploadState.file f)) (Runtime.Date_now p t')
                                     CAnalyzed (Some analysis) (JS.split_comma_1 url)
                                     (Some (File.type (FileUploadState.file f)))))) \/
                         result = failed_entry f (Error "Analyzed successfully but failed to save to browser storage. Check available disk space."))).
                 --- apply always_on_bind with (P := fun r => exists result, r = Ok result /\
                        ((exists t t', result = FileUploadState.mk (FileUploadState.file f) success
                            (FileUploadState.error f)
                            (Some (Contract.mk (Math_random_id p t) (User.id user)
                                     (File.name (FileUploadState.file f)) (Runtime.Date_now p t')
                                     CAnalyzed (Some analysis) (JS.split_comma_1 url)
                                     (Some (File.type (FileUploadState.file f)))))) \/
                         result = failed_entry f (Error "Analyzed successfully but failed to save to browser storage. Check available disk space."))).
                     +++ apply always_on_try_catch with
                           (P := fun r =>
       match r with
       | Ok result =>
           exists t t',
             result
             = FileUploadState.mk (FileUploadState.file f) success (FileUploadState.error f)
                 (Some (Contract.mk (Math_random_id p t) (User.id user) (File.name (FileUploadState.file f))
                          (Runtime.Date_now p t') CAnalyzed (Some analysis) (JS.split_comma_1 url)
                          (Some (File.type (FileUploadState.file f)))))
       | Throw e =>
           e = Error "Analyzed successfully but failed to save to browser storage. Check available disk space."
       end).
                         *** apply (saved_outcome p user f (JS.split_comma_1 url) analysis).
                         *** intros a Ha. eauto.
                         *** intros e ->. cbn [always_on ret]. eexists. split; [reflexivity|].
                             right. reflexivity.
                     +++ intros a Ha. exact Ha.
                     +++ intros e (r & [=] & _).
                 --- auto.
                 --- intros e (r & [=] & _).
              ** intros a (result & [= ->] & H). cbn [always_on ret]. eauto.
              ** intros e (r & [=] & _).
           ++ eexists. split; [reflexivity|]. intros _. reflexivity.
        -- eexists. split; [reflexivity|]. reflexivity.
    + cbn [advance await bind try_catch fst snd ret throw emit_request].
      split; [reflexivity|].
      split; [exact I|]. split; [exact I|].
      cbn [always_on bind try_catch ret throw message failed_entry].
      eexists. split; reflexivity.
  - cbn [advance await bind try_catch fst snd ret throw].
    split; [reflexivity|].
    eexists. split; [reflexivity|]. intros w' Hp'.
    cbn [advance await bind try_catch fst snd ret throw emit_request].
    split; [reflexivity|].
    split; [exact I|]. split; [exact I|].
    cbn [always_on bind try_catch ret throw message failed_entry].
    eexists. split; reflexivity.
Qed.

End Issue.

Section Order.
Import Runtime.
Context {A : Type} (p : Platform) (reqs_of : nat -> option Request)
        (Q : nat -> nat -> Result A -> Prop) (tr0 : list Event).
Implicit Types (pool : list (Async A)) (sched : list nat) (turns : nat -> nat).

Lemma requests_issued_trace w issued :
  trace w = tr0 ++ map EvRequest issued ->
  requests_issued w
  = (length (List.filter (fun ev => match ev with EvRequest _ => true | _ => false end) tr0)
     + length issued)%nat.
Proof.
  unfold requests_issued. intros ->. rewrite List.filter_app, length_app. f_equal.
  induction issued as [|r issued IH]; simpl; auto.
Qed.

Lemma second_turns_In turns sched j : In j (second_turns turns sched) -> (turns j <= 1)%nat.
Proof.
  revert turns. induction sched as [|i sched IH]; intros turns; simpl; [contradiction|].
  assert (Hrest : In j (second_turns (fun j0 => if (j0 =? i)%nat then S (turns j0) else turns j0)
                          sched) -> (turns j <= 1)%nat).
  { intros H. apply IH in H. destruct (j =? i)%nat; lia. }
  destruct (turns i =? 1)%nat eqn:E; [|exact Hrest].
  intros [<-|H]; [|auto]. apply Nat.eqb_eq in E. lia.
Qed.

Lemma omap_cons_eq {B C} (g : B -> option C) (x : B) (l : list B) :
  omap g (x :: l) = match g x with Some y => y :: omap g l | None => omap g l end.
Proof. reflexivity. Qed.

Lemma omap_none {B C} (g : B -> option C) (l : list B) :
  (forall x, In x l -> g x = None) -> omap g l = [].
Proof.
  induction l as [|x l IH]; intros H; [reflexivity|].
  rewrite omap_cons_eq, (H x) by now left. apply IH. intros y Hy. apply H. now right.
Qed.

Lemma all_resolved_settled pool values j m :
  all_resolved pool = Some values -> pool !! j = Some m -> exists v, m = Ret (Ok v).
Proof.
  revert values j. induction pool as [|m0 pool IH]; intros values j H Hj.
  - now rewrite lookup_nil in Hj.
  - simpl in H. destruct m0 as [[a|e]|step k|k]; try discriminate.
    destruct (all_resolved pool) as [l|] eqn:E; [|discriminate].
    destruct j as [|j]; simpl in Hj.
    + injection Hj as <-. eauto.
    + eapply IH; eauto.
Qed.

(** The requests of a pool of promises that each read in their first turn
    and call the backend in their second go out in the order of the second
    turns, and each promise settles as its own request is answered. *)
Lemma Promise_all_order sched : forall pool w turns issued,
  platform w = p ->
  trace w = tr0 ++ map EvRequest issued ->
  (forall j m, pool !! j = Some m ->
     match turns j with
     | O => issues p (reqs_of j) (Q j) 1 m
     | 1%nat => issues p (reqs_of j) (Q j) 0 m
     | _ =>
         exists k, (k <= length issued)%nat /\
           (forall req, reqs_of j = Some req -> issued !! k = Some req) /\
           answered p
             (Q j (length (List.filter
                             (fun ev => match ev with EvRequest _ => true | _ => false end)
                             tr0) + k)%nat) m
     end) ->
  (forall j, pool !! j = None -> reqs_of j = None) ->
  match Promise_all sched pool w with
  | (w', _, Some (Ok values)) =>
      let all := issued ++ omap reqs_of (second_turns turns sched) in
      platform w' = p /\
      trace w' = tr0 ++ map EvRequest all /\
      forall j v, values !! j = Some v ->
        exists k, (k <= length all)%nat /\
          (forall req, reqs_of j = Some req -> all !! k = Some req) /\
          Q j (length (List.filter
                         (fun ev => match ev with EvRequest _ => true | _ => false end)
                         tr0) + k)%nat (Ok v)
  | _ => True
  end.
Proof.
  set (n0 := length (List.filter (fun ev => match ev with EvRequest _ => true | _ => false end)
                       tr0)).
  induction sched as [|i sched IH]; intros pool w turns issued Hp Htr Hinv Hout;
    rewrite Promise_all_unfold.
  - destruct (first_rejected pool); [exact I|].
    destruct (all_resolved pool) as [values|] eqn:Hv; [|exact I].
    cbn [second_turns]. change (omap reqs_of []) with (@nil Request).
    cbv zeta. rewrite app_nil_r. split; [exact Hp|]. split; [exact Htr|].
    intros j v Hj. apply all_resolved_lookup in Hv as [_ Hv]. specialize (Hv j v Hj).
    specialize (Hinv j _ Hv).
    destruct (turns j) as [|[|t]].
    + destruct Hinv as (k & [=] & _).
    + destruct Hinv as (k & [=] & _).
    + destruct Hinv as (k & Hk & Hreq & _ & _ & HQ). exists k. auto.
  - destruct (first_rejected pool); [exact I|].
    destruct (all_resolved pool) as [values|] eqn:Hv.
    { assert (Hnone : omap reqs_of (second_turns turns (i :: sched)) = []).
      { apply omap_none. intros j Hj. apply second_turns_In in Hj.
        destruct (pool !! j) as [m|] eqn:Hm; [|now apply Hout].
        destruct (all_resolved_settled pool values j m Hv Hm) as [v ->].
        specialize (Hinv j _ Hm).
        destruct (turns j) as [|[|t]]; [| |lia]; destruct Hinv as (k & [=] & _). }
      cbv zeta. rewrite Hnone, app_nil_r. split; [exact Hp|]. split; [exact Htr|].
      intros j v Hj. apply all_resolved_lookup in Hv as [_ Hv]. specialize (Hv j v Hj).
      specialize (Hinv j _ Hv).
      destruct (turns j) as [|[|t]].
      + destruct Hinv as (k & [=] & _).
      + destruct Hinv as (k & [=] & _).
      + destruct Hinv as (k & Hk & Hreq & _ & _ & HQ). exists k. auto. }
    unfold resume_task.
    set (turns' := fun j => if (j =? i)%nat then S (turns j) else turns j).
    change (second_turns turns (i :: sched))
      with (if (turns i =? 1)%nat then i :: second_turns turns' sched
            else second_turns turns' sched).
    destruct (pool !! i) as [m|] eqn:Hi.
    + destruct (resume m w) as [w1 m1] eqn:Hr.
      assert (Hout' : forall j, <[i := m1]> pool !! j = None -> reqs_of j = None).
      { intros j Hj. apply Hout. apply lookup_ge_None in Hj. apply lookup_ge_None.
        now rewrite length_insert in Hj. }
      pose proof (Hinv i m Hi) as Hm.
      destruct (turns i) as [|[|t]] eqn:Hti.
      * (* the first turn: the file is read *)
        destruct Hm as (k & -> & Hk). destruct (Hk w Hp) as [Hw Hnext].
        simpl in Hr. rewrite Hr in Hw, Hnext. simpl in Hw, Hnext. subst w1.
        cbn [Nat.eqb]. apply (IH _ w turns' issued Hp Htr); [|exact Hout'].
        intros j m' Hj. unfold turns'.
        destruct (Nat.eqb_spec j i) as [->|Hne].
        -- rewrite list_lookup_insert_eq in Hj by (now apply lookup_lt_Some in Hi).
           injection Hj as <-. now rewrite Hti.
        -- rewrite list_lookup_insert_ne in Hj by congruence. now apply Hinv.
      * (* the second turn: the request goes out *)
        destruct Hm as (k & -> & Hk). destruct (Hk w Hp) as [Hw Hnext].
        simpl in Hr. rewrite Hr in Hw, Hnext. simpl in Hw, Hnext.
        rewrite (requests_issued_trace w issued Htr) in Hnext. fold n0 in Hnext.
        cbn [Nat.eqb].
        set (mine := match reqs_of i with Some r => [r] | None => [] end).
        assert (Hmine : omap reqs_of (i :: second_turns turns' sched)
                        = mine ++ omap reqs_of (second_turns turns' sched)).
        { subst mine. rewrite omap_cons_eq. now destruct (reqs_of i). }
        rewrite Hmine, app_assoc.
        apply (IH _ w1 turns' (issued ++ mine)); [| | |exact Hout'].
        -- subst w1. now destruct (reqs_of i).
        -- subst w1 mine. destruct (reqs_of i) as [r|]; simpl.
           ++ rewrite Htr, map_app. simpl. now rewrite app_assoc.
           ++ now rewrite app_nil_r.
        -- intros j m' Hj. unfold turns'.
           destruct (Nat.eqb_spec j i) as [->|Hne].
           ++ rewrite list_lookup_insert_eq in Hj by (now apply lookup_lt_Some in Hi).
              injection Hj as <-. rewrite Hti. exists (length issued).
              split; [rewrite length_app; lia|]. split; [|exact Hnext].
              intros req Hreq. subst mine. rewrite Hreq.
              rewrite lookup_app_r by lia. now rewrite Nat.sub_diag.
           ++ rewrite list_lookup_insert_ne in Hj by congruence.
              specialize (Hinv j m' Hj).
              destruct (turns j) as [|[|t]]; [exact Hinv | exact Hinv |].
              destruct Hinv as (k' & Hk' & Hreq & Hans). exists k'.
              split; [rewrite length_app; lia|]. split; [|exact Hans].
              intros req Hr'. specialize (Hreq req Hr').
              apply lookup_app_l_Some. exact Hreq.
      * (* a later turn: nothing goes out *)
        destruct Hm as (k & Hk & Hreq & Hans).
        destruct (answered_resume p _ m w Hp Hans) as [[Hp1 Ht1] Hans1].
        rewrite Hr in Hp1, Ht1, Hans1. simpl in Hp1, Ht1, Hans1.
        cbn [Nat.eqb]. apply (IH _ w1 turns' issued); [congruence | congruence | | exact Hout'].
        intros j m' Hj. unfold turns'.
        destruct (Nat.eqb_spec j i) as [->|Hne].
        -- rewrite list_lookup_insert_eq in Hj by (now apply lookup_lt_Some in Hi).
           injection Hj as <-. rewrite Hti. exists k. auto.
        -- rewrite list_lookup_insert_ne in Hj by congruence. now apply Hinv.
    + assert (Hskip : omap reqs_of (if (turns i =? 1)%nat then i :: second_turns turns' sched
                                    else second_turns turns' sched)
                      = omap reqs_of (second_turns turns' sched)).
      { destruct (turns i =? 1)%nat; [|reflexivity].
        rewrite omap_cons_eq. now rewrite (Hout i Hi). }
      rewrite Hskip. apply (IH _ w turns' issued Hp Htr); [|exact Hout].
      intros j m' Hj. unfold turns'.
      destruct (Nat.eqb_spec j i) as [->|Hne]; [congruence|]. now apply Hinv.
Qed.

End Order.

Section Analysed.
Import Runtime ContractUpload.

Lemma answered_impl {A} p (P P' : Result A -> Prop) (m : Async A) :
  (forall r, P r -> P' r) -> answered p P m -> answered p P' m.
Proof.
  intros H (Hpark & Hg & Hal). split; [exact Hpark|]. split; [exact Hg|].
  now apply always_on_impl with (P := P).
Qed.

Lemma issues_impl {A} p req (P P' : nat -> Result A -> Prop) turns (m : Async A) :
  (forall n r, P n r -> P' n r) -> issues p req P turns m -> issues p req P' turns m.
Proof.
  intros H. revert m. induction turns as [|t IH]; intros m (k & -> & Hk);
    exists k; (split; [reflexivity|]); intros w Hw; destruct (Hk w Hw) as [Hw' Hnext];
    (split; [exact Hw'|]).
  - eapply answered_impl; [|exact Hnext]. apply H.
  - now apply IH.
Qed.

(** The synchronous start of an analysis does nothing: it waits for its
    file. *)
Lemma process_item_start user item w : fst (advance (process_item user item) w) = w.
Proof. reflexivity. Qed.

Lemma launch_all_idle {A} (calls : list (Async A)) w :
  (forall m, In m calls -> forall w, fst (advance m w) = w) ->
  fst (launch_all calls w) = w.
Proof.
  revert w. induction calls as [|m calls IH]; intros w H; simpl; [reflexivity|].
  pose proof (H m (or_introl eq_refl) w) as Hm.
  destruct (advance m w) as [w1 p1]. simpl in Hm. subst w1.
  assert (IH' : fst (launch_all calls w) = w) by (apply IH; intros; apply H; now right).
  destruct (launch_all calls w) as [w2 ps]. exact IH'.
Qed.

Lemma handleAnalyzeAll_analysed user files sched w :
  Runtime.files w = files ->
  fair (length (filesToProcess files)) sched ->
  let p := platform w in
  let reqs := batch_requests p files sched in
  exists results w',
    handleAnalyzeAll user files sched w = (navigation files results w', Some (Ok tt)) /\
    Forall2 (fun item r =>
               fst r = snd item /\ outcome_of (fst item) (snd r) /\
               exists k, (k <= length reqs)%nat /\
                 (forall req, request_of p (fst item) = Some req -> reqs !! k = Some req) /\
                 analysed p user (requests_issued w + k) (fst item) (snd r))
            (filesToProcess files) results /\
    Runtime.files w' = apply_results results (map mark_processing files) /\
    trace w' = trace w ++ [EvSetFiles (map mark_processing files)]
                 ++ map EvRequest reqs
                 ++ [EvSetFiles (apply_results results (map mark_processing files))].
Proof.
  intros Hfiles Hfair p reqs. unfold handleAnalyzeAll.
  set (w1 := setFiles (map mark_processing) w).
  set (calls := map (process_item user) (filesToProcess files)).
  pose proof (launch_all_idle calls w1) as Hidle.
  pose proof (launch_all_length calls w1) as Hlen.
  pose proof (launch_all_lookup calls w1) as Hlook.
  destruct (launch_all calls w1) as [w2 promises]. simpl in Hidle, Hlen, Hlook.
  assert (Hw2 : w2 = w1).
  { apply Hidle. subst calls. intros m Hm w0.
    apply in_map_iff in Hm as (item & <- & _). apply process_item_start. }
  subst w2.
  assert (Hcalls : forall i m, calls !! i = Some m ->
            exists item, filesToProcess files !! i = Some item /\ m = process_item user item).
  { intros i m Hi. subst calls. rewrite list_lookup_fmap in Hi.
    destruct (filesToProcess files !! i) as [item|]; [|discriminate].
    injection Hi as <-. eauto. }
  set (reqs_of := fun j => match filesToProcess files !! j with
                           | Some item => request_of p (fst item)
                           | None => None
                           end).
  set (Q := fun (j n : nat) (r : Result (nat * FileUploadState.t)) =>
              exists item result, filesToProcess files !! j = Some item /\
                r = Ok (snd item, result) /\ analysed p user n (fst item) result).
  set (P := fun (i : nat) (r : Result (nat * FileUploadState.t)) =>
              exists item result, filesToProcess files !! i = Some item /\
                r = Ok (snd item, result) /\ outcome_of (fst item) result).
  pose proof (Promise_all_completes sched promises w1) as Hdone.
  pose proof (Promise_all_results P sched promises w1) as Hres.
  pose proof (Promise_all_guarantees analysis_step sched promises w1
                analysis_step_refl analysis_step_trans) as Hguar.
  pose proof (Promise_all_order p reqs_of Q (trace w1) sched promises w1 (fun _ => 0%nat) [])
    as Horder.
  destruct (Promise_all sched promises w1) as [[w3 pool3] r].
  simpl in Hdone, Hres, Hguar.
  destruct Hdone as [r' ->].
  { intros i m Hm. destruct (Hlook i m Hm) as (call & wi & Hcall & ->).
    destruct (Hcalls i call Hcall) as (item & Hitem & ->).
    split; [apply parked_advance|].
    apply within_advance. eapply within_mono; [|apply process_item_within].
    apply Hfair. apply lookup_lt_Some in Hitem. exact Hitem. }
  assert (Hres' : match r' with
                  | Ok values => length values = length promises /\
                                 forall i v, values !! i = Some v -> P i (Ok v)
                  | Throw e => exists i, P i (Throw e)
                  end).
  { apply Hres. intros i m Hm. destruct (Hlook i m Hm) as (call & wi & Hcall & ->).
    destruct (Hcalls i call Hcall) as (item & Hitem & ->).
    apply always_advance. eapply always_impl; [|apply process_item_outcome].
    intros r (result & -> & Hout). exists item, result. auto. }
  assert (Hstep : analysis_step w1 w3).
  { apply Hguar. intros i m Hm. destruct (Hlook i m Hm) as (call & wi & Hcall & ->).
    destruct (Hcalls i call Hcall) as (item & Hitem & ->).
    apply (guarantees_advance analysis_step analysis_step_refl analysis_step_trans).
    apply process_item_guarantees. }
  destruct r' as [values|e]; [|destruct Hres' as (i & item & result & _ & [=] & _)].
  destruct Hres' as [Hvlen Hvalues].
  assert (Horder' : platform w3 = p /\
            trace w3 = trace w1 ++ map EvRequest reqs /\
            forall j v, values !! j = Some v ->
              exists k, (k <= length reqs)%nat /\
                (forall req, reqs_of j = Some req -> reqs !! k = Some req) /\
                Q j (requests_issued w + k)%nat (Ok v)).
  { assert (Hn0 : length (List.filter
                            (fun ev => match ev with EvRequest _ => true | _ => false end)
                            (trace w1)) = requests_issued w).
    { subst w1. unfold requests_issued. simpl. rewrite List.filter_app. simpl.
      now rewrite app_nil_r. }
    rewrite Hn0 in Horder. apply Horder.
    - reflexivity.
    - simpl. now rewrite app_nil_r.
    - intros j m Hm. destruct (Hlook j m Hm) as (call & wi & Hcall & ->).
      destruct (Hcalls j call Hcall) as (item & Hitem & ->).
      subst reqs_of. cbv beta. rewrite Hitem.
      eapply issues_impl; [|apply process_item_issues].
      intros n r (result & -> & Han). exists item, result. auto.
    - intros j Hj. subst reqs_of. cbv beta.
      destruct (filesToProcess files !! j) as [item|] eqn:Hitem; [|reflexivity].
      apply lookup_lt_Some in Hitem. apply lookup_ge_None in Hj.
      rewrite Hlen in Hj. subst calls. rewrite length_map in Hj. lia. }
  destruct Horder' as (Hp3 & Ht3 & Han).
  destruct Hstep as (_ & Hf13 & _ & _).
  exists values, (setFiles (apply_results values) w3).
  assert (Hf3 : Runtime.files w3 = map mark_processing files).
  { rewrite Hf13. subst w1. simpl. now rewrite Hfiles. }
  split; [reflexivity|]. split; [|split].
  - apply Forall2_same_length_lookup. split.
    + rewrite Hvlen, Hlen. subst calls. now rewrite length_map.
    + intros i item v Hitem Hv.
      destruct (Han i v Hv) as (k & Hk & Hreq & item2 & result2 & Hitem2 & Hv2 & Hanalysed).
      destruct (Hvalues i v Hv) as (item' & result & Hitem' & Hv' & Hout).
      rewrite Hitem in Hitem', Hitem2. injection Hitem' as <-. injection Hitem2 as <-.
      injection Hv' as ->. injection Hv2 as <-. simpl.
      split; [reflexivity|]. split; [exact Hout|].
      exists k. split; [exact Hk|]. split; [|exact Hanalysed].
      intros req Hr. apply Hreq. subst reqs_of. cbv beta. now rewrite Hitem.
  - simpl. now rewrite Hf3.
  - simpl. rewrite Hf3, Ht3. subst w1. simpl. rewrite Hfiles.
    now rewrite <- !app_assoc.
Qed.

End Analysed.

(** C1.  Called on the batch of the last render, under any schedule that
    gives every analysis in flight its turns, [handleAnalyzeAll] completes,
    and what the page observes is, in this order: the batch with every
    [pending] or [error] entry set to [processing] (the other entries
    untouched); then requests to the backend and nothing else; then one
    update of the batch that puts every result in place at once; then the
    navigation, if any.  The analyses run concurrently: the requests go out
    in the order in which the schedule gives the analyses their second turn
    (the first reads the file), whatever the order of the entries and
    whether or not earlier requests have been answered.  Every entry that
    was not [success] is analysed and ends as its own analysis ends,
    whatever becomes of the other entries: with the error of the reader, of
    the missing key, of the backend or of an empty answer, with [success]
    and the contract of the analysis the backend returned to its request,
    or with the error of the store; an entry that was [success] stays as it
    was. *)
Theorem handleAnalyzeAll_batch (user : User.t) (files : list FileUploadState.t)
    (sched : list nat) (w : Runtime.World) :
  Runtime.files w = files ->
  ContractUpload.fair (length (ContractUpload.filesToProcess files)) sched ->
  exists marked final reqs nav w',
    ContractUpload.handleAnalyzeAll user files sched w = (w', Some (Runtime.Ok tt)) /\
    Runtime.trace w'
    = Runtime.trace w ++ [Runtime.EvSetFiles marked] ++ map Runtime.EvRequest reqs
        ++ [Runtime.EvSetFiles final] ++ nav /\
    Forall (fun ev => exists c, ev = Runtime.EvUploadComplete c) nav /\
    Runtime.files w' = final /\
    length marked = length files /\
    length final = length files /\
    reqs = ContractUpload.batch_requests (Runtime.platform w) files sched /\
    forall i f, files !! i = Some f ->
      (FileUploadState.status f = pending \/ FileUploadState.status f = error ->
         exists m, marked !! i = Some m /\ FileUploadState.status m = processing /\
                   FileUploadState.file m = FileUploadState.file f) /\
      (FileUploadState.status f <> success ->
         exists result, final !! i = Some result /\
           FileUploadState.file result = FileUploadState.file f /\
           (FileUploadState.status result = success \/
            FileUploadState.status result = error) /\
           exists k, (k <= length reqs)%nat /\
             (forall req,
                ContractUpload.request_of (Runtime.platform w) f = Some req ->
                reqs !! k = Some req) /\
             ContractUpload.analysed (Runtime.platform w) user
               (Runtime.requests_issued w + k) f result) /\
      (FileUploadState.status f = success -> marked !! i = Some f /\ final !! i = Some f).
Proof.
  intros Hfiles Hfair.
  destruct (handleAnalyzeAll_analysed user files sched w Hfiles Hfair)
    as (results & w' & Hrun & Hres & Hfinal & Htrace).
  destruct (navigation_effect files results w') as (Hnf & nav & Hnt & Hnav).
  exists (map ContractUpload.mark_processing files),
         (ContractUpload.apply_results results (map ContractUpload.mark_processing files)),
         (ContractUpload.batch_requests (Runtime.platform w) files sched),
         nav, (ContractUpload.navigation files results w').
  assert (Hidx : map fst results = map snd (ContractUpload.filesToProcess files)).
  { clear -Hres. induction Hres as [|item r items results [H _] _ IH]; simpl; congruence. }
  split; [exact Hrun|]. split; [|split; [exact Hnav|split; [|split; [|split; [|split]]]]].
  - rewrite Hnt, Htrace. now rewrite <- !app_assoc.
  - now rewrite Hnf.
  - apply length_map.
  - now rewrite apply_results_length, length_map.
  - reflexivity.
  - intros i f Hi. split; [|split].
    + intros Hs. rewrite list_lookup_fmap, Hi. simpl.
      rewrite mark_processing_waiting by exact Hs. eauto.
    + intros Hs.
      assert (Hin : In (f, i) (ContractUpload.filesToProcess files))
        by (apply filesToProcess_In; auto).
      apply list_elem_of_In, list_elem_of_lookup in Hin as [j Hj].
      destruct (Forall2_lookup_l _ _ _ _ _ Hres Hj) as ([i' result] & Hr & Hi' & Hout & Han).
      simpl in Hi', Hout, Han. subst i'. exists result. split; [|split; [|split]].
      * apply apply_results_at.
        -- rewrite Hidx. apply filesToProcess_NoDup.
        -- apply list_elem_of_In. eapply list_elem_of_lookup_2. exact Hr.
        -- rewrite length_map. now apply lookup_lt_Some in Hi.
      * now destruct Hout.
      * destruct Hout as [Hf [[Hok _]|[Herr _]]]; auto.
      * exact Han.
    + intros Hs.
      assert (Hm : map ContractUpload.mark_processing files !! i = Some f).
      { rewrite list_lookup_fmap, Hi. simpl. now rewrite mark_processing_success. }
      split; [exact Hm|]. rewrite apply_results_other; [exact Hm|].
      rewrite Hidx. intros Hin. apply in_map_iff in Hin as (item & Hsnd & Hin).
      apply filesToProcess_In in Hin as [Hitem Hns]. rewrite Hsnd, Hi in Hitem.
      injection Hitem as ->. contradiction.
Qed.

Lemma handleAnalyzeAll_batch_witness :
  exists marked final nav w',
    ContractUpload.handleAnalyzeAll Samples.user [Samples.fresh; Samples.failed]
      Samples.alternate (Samples.world "test-key" 4000 [Samples.fresh; Samples.failed])
    = (w', Some (Runtime.Ok tt)) /\
    Runtime.trace w'
    = [Runtime.EvSetFiles marked]
        ++ map Runtime.EvRequest
             [Runtime.ReqAnalyze "application/pdf" (Some "JVBERi0xLjQ=");
              Runtime.ReqAnalyze "image/png" (Some "JVBERi0xLjQ=")]
        ++ [Runtime.EvSetFiles final] ++ nav /\
    length final = 2%nat.
Proof.
  destruct (handleAnalyzeAll_batch Samples.user [Samples.fresh; Samples.failed]
              Samples.alternate
              (Samples.world "test-key" 4000 [Samples.fresh; Samples.failed]) eq_refl)
    as (marked & final & reqs & nav & w' & Hrun & Htrace & _ & _ & _ & Hlen & Hreqs & _).
  - intros i Hi. destruct i as [|[|i]]; [vm_compute; lia | vm_compute; lia |].
    simpl in Hi. lia.
  - exists marked, final, nav, w'. rewrite Hreqs in Htrace. auto.
Defined.

(** The same batch when the event loop serves the second analysis first:
    its request goes out before the request of the first entry, and both
    entries end with [success]. *)
Example handleAnalyzeAll_overlap :
  let sched := [1; 1; 0; 0; 0; 1; 0; 1; 0; 1; 0; 1; 0; 1]%nat in
  let w := Samples.world "test-key" 4000 [Samples.fresh; Samples.failed] in
  ContractUpload.batch_requests (Runtime.platform w) [Samples.fresh; Samples.failed] sched
  = [Runtime.ReqAnalyze "image/png" (Some "JVBERi0xLjQ=");
     Runtime.ReqAnalyze "application/pdf" (Some "JVBERi0xLjQ=")] /\
  map FileUploadState.status
    (Runtime.files
       (fst (ContractUpload.handleAnalyzeAll Samples.user [Samples.fresh; Samples.failed]
               sched w)))
  = [success; success].
Proof. vm_compute. split; reflexivity. Qed.

(** Two files in one batch, the second of which cannot be read: the first
    ends with [success], the second with [error], and the page sees the
    marking, the one request, and one update with both results. *)
Example handleAnalyzeAll_mixed :
  let w := Samples.world_unreadable_scan [Samples.fresh; Samples.failed] in
  let w' := fst (ContractUpload.handleAnalyzeAll Samples.user [Samples.fresh; Samples.failed]
                   Samples.alternate w) in
  map FileUploadState.status (Runtime.files w') = [success; error] /\
  map FileUploadState.error (Runtime.files w') = [None; Some "Failed to read file"] /\
  (exists marked final,
     Runtime.trace w'
     = [Runtime.EvSetFiles marked;
        Runtime.EvRequest (Runtime.ReqAnalyze "application/pdf" (Some "JVBERi0xLjQ="));
        Runtime.EvSetFiles final]).
Proof. vm_compute. repeat split. eauto. Qed.

(** C2.  Called on a batch of exactly one file that is not yet [success],
    [handleAnalyzeAll] analyses it; when the analysis ends with [success],
    [onUploadComplete] is called once, with the contract of the resulting
    entry, and when it ends with [error] the callback is not called.  Called
    on a batch of two or more files, it never calls [onUploadComplete],
    however the analyses end. *)
Theorem handleAnalyzeAll_navigation (user : User.t) (files : list FileUploadState.t)
    (sched : list nat) (w : Runtime.World) :
  Runtime.files w = files ->
  ContractUpload.fair (length (ContractUpload.filesToProcess files)) sched ->
  exists w',
    ContractUpload.handleAnalyzeAll user files sched w = (w', Some (Runtime.Ok tt)) /\
    (forall f,
       files = [f] -> FileUploadState.status f <> success ->
       exists result,
         Runtime.files w' = [result] /\
         FileUploadState.file result = FileUploadState.file f /\
         (FileUploadState.status result = success ->
            exists c, FileUploadState.contract result = Some c /\
              Runtime.uploads_completed (Runtime.trace w')
              = Runtime.uploads_completed (Runtime.trace w) ++ [c]) /\
         (FileUploadState.status result <> success ->
            Runtime.uploads_completed (Runtime.trace w')
            = Runtime.uploads_completed (Runtime.trace w))) /\
    ((2 <= length files)%nat ->
       Runtime.uploads_completed (Runtime.trace w')
       = Runtime.uploads_completed (Runtime.trace w)).
Proof.
  intros Hfiles Hfair.
  destruct (handleAnalyzeAll_completes user files sched w Hfiles Hfair)
    as (results & reqs & w' & Hrun & Hres & Hfinal & Htrace).
  exists (ContractUpload.navigation files results w').
  assert (Hquiet : Runtime.uploads_completed (Runtime.trace w')
                   = Runtime.uploads_completed (Runtime.trace w)).
  { rewrite Htrace, !uploads_completed_app, uploads_completed_requests. simpl.
    now rewrite app_nil_r. }
  split; [exact Hrun|]. split.
  - intros f -> Hs.
    assert (Hitems : ContractUpload.filesToProcess [f] = [(f, 0%nat)]).
    { unfold ContractUpload.filesToProcess. simpl.
      destruct (FileUploadState.status f); simpl; congruence. }
    rewrite Hitems in Hres.
    inversion Hres as [|item [i result] items rs [Hi Hout] Hrest]; subst.
    inversion Hrest; subst. simpl in Hi, Hout. subst i.
    exists result.
    destruct (navigation_effect [f] [(0%nat, result)] w') as (Hnf & _).
    split; [rewrite Hnf, Hfinal; reflexivity|].
    destruct Hout as [Hfile Hcases]. split; [exact Hfile|]. split.
    + intros Hok. destruct Hcases as [[_ [c Hc]]|[Herr _]]; [|congruence].
      exists c. split; [exact Hc|].
      unfold ContractUpload.navigation. rewrite Hok, Hc. simpl.
      now rewrite uploads_completed_app, Hquiet.
    + intros Hne. unfold ContractUpload.navigation.
      destruct (FileUploadState.status result); simpl; try exact Hquiet. congruence.
  - intros Hlen. unfold ContractUpload.navigation.
    destruct results as [|[i result] [|r results]]; try exact Hquiet.
    destruct (length files) as [|[|n]] eqn:E; simpl; try exact Hquiet; lia.
Qed.

Lemma handleAnalyzeAll_navigation_witness :
  exists w',
    ContractUpload.handleAnalyzeAll Samples.user [Samples.fresh] [0; 0; 0; 0; 0; 0; 0]%nat
      (Samples.world "test-key" 4000 [Samples.fresh])
    = (w', Some (Runtime.Ok tt)) /\
    exists result, Runtime.files w' = [result].
Proof.
  destruct (handleAnalyzeAll_navigation Samples.user [Samples.fresh]
              [0; 0; 0; 0; 0; 0; 0]%nat
              (Samples.world "test-key" 4000 [Samples.fresh]) eq_refl)
    as (w' & Hrun & Hone & _).
  - intros i Hi. destruct i as [|i]; [vm_compute; lia|]. simpl in Hi. lia.
  - exists w'. split; [exact Hrun|].
    destruct (Hone Samples.fresh eq_refl) as (result & Hf & _); [discriminate|].
    eauto.
Defined.

(** ** A failure of the store after a successful analysis *)

Section StorageFailure.
Import Runtime ContractUpload.

Lemma saveContract_throw_unchanged contract ls e :
  snd (storageService.saveContract contract ls) = Throw e ->
  fst (storageService.saveContract contract ls) = ls.
Proof.
  unfold storageService.saveContract.
  destruct (storageService.parse_or_empty _ _); [|reflexivity].
  now destruct (LocalStorage.setItem _ _ _).
Qed.

End StorageFailure.

(** C4, as the code has it.  When the file is read, the backend answers
    with an analysis that parses, and [saveContract] throws, [processFile]
    resolves to the entry with status [error] and the message that the
    document was analysed but not saved.  The entry carries the contract it
    had before, not the new one: the contract built from the analysis is in
    neither the result nor the store, which is as it was. *)
Theorem processFile_storage_failure (user : User.t) (fileState : FileUploadState.t)
    (w : Runtime.World) (dataURL text : string) (analysis : ContractAnalysis.t)
    (e : Runtime.exn) :
  let file := FileUploadState.file fileState in
  let base64Data := JS.split_comma_1 dataURL in
  let newContract :=
    Contract.mk (Runtime.Math_random_id (Runtime.platform w) (Runtime.ticks w))
      (User.id user) (File.name file)
      (Runtime.Date_now (Runtime.platform w) (S (Runtime.ticks w)))
      CAnalyzed (Some analysis) base64Data (Some (File.type file)) in
  Runtime.readAsDataURL (Runtime.platform w) file = Some dataURL ->
  JS.truthy (Runtime.API_KEY (Runtime.platform w)) = true ->
  Runtime.generateContent (Runtime.platform w) (Runtime.requests_issued w)
    (Runtime.ReqAnalyze (File.type file) base64Data) = Runtime.Responded text ->
  geminiService.parseJSONResponse Codec.ContractAnalysis_of_json text = Runtime.Ok analysis ->
  snd (storageService.saveContract newContract (Runtime.localStorage w)) = Runtime.Throw e ->
  snd (Runtime.run (ContractUpload.processFile user fileState) w)
  = Runtime.Ok
      (FileUploadState.mk file error
         (Some "Analyzed successfully but failed to save to browser storage. Check available disk space.")
         (FileUploadState.contract fileState)) /\
  Runtime.localStorage (fst (Runtime.run (ContractUpload.processFile user fileState) w))
  = Runtime.localStorage w.
Proof.
  intros file base64Data newContract Hread Hkey Hout Hparse Hsave.
  pose proof (saveContract_throw_unchanged _ _ _ Hsave) as Hls.
  unfold ContractUpload.processFile. fold file.
  subst newContract base64Data. simpl in Hsave, Hls.
  rewrite run_try_catch, run_bind, run_await. simpl.
  rewrite Hread. simpl. rewrite Hkey. simpl. rewrite Hout. simpl. rewrite Hparse. simpl.
  rewrite Hsave. simpl. rewrite Hls. auto.
Qed.

(** ** The round trip of JSON texts *)

Section JSONRoundTrip.
Import JSON.

Lemma parse_escape_char c X :
  parse_string_body (escape_char c +:+ X) = cons_char c (parse_string_body X).
Proof.
  destruct c as [[] [] [] [] [] [] [] []]; reflexivity.
Qed.

Lemma parse_string_body_escape s rest :
  parse_string_body (escape s +:+ JS.dquote +:+ rest) = Some (s, rest).
Proof.
  induction s as [|c s IH].
  - reflexivity.
  - change (escape (String c s)) with (escape_char c +:+ escape s).
    rewrite append_assoc, parse_escape_char, IH. reflexivity.
Qed.




Lemma span_digits_uint d rest :
  starts_digit rest = false ->
  span_digits (NilEmpty.string_of_uint d +:+ rest) = (NilEmpty.string_of_uint d, rest).
Proof.
  intros Hrest. induction d; simpl; try (rewrite IHd; reflexivity).
  destruct rest as [|c rest]; [reflexivity|]. simpl in *. now rewrite Hrest.
Qed.

Lemma nzhead_head d : match Decimal.nzhead d with Decimal.D0 _ => False | _ => True end.
Proof. induction d; simpl; auto. Qed.

Lemma no_leading_zero_unorm d :
  no_leading_zero (NilEmpty.string_of_uint (Decimal.unorm d)) = true.
Proof.
  unfold Decimal.unorm. pose proof (nzhead_head d) as H.
  destruct (Decimal.nzhead d) as [|u|u|u|u|u|u|u|u|u|u]; try contradiction; try reflexivity;
    destruct u; reflexivity.
Qed.

Lemma to_uint_unorm p : Pos.to_uint p = Decimal.unorm (Pos.to_uint p).
Proof.
  rewrite <- (DecimalPos.Unsigned.to_of (Pos.to_uint p)).
  now rewrite DecimalPos.Unsigned.of_to.
Qed.

Lemma parse_digits_pos p rest :
  starts_digit rest = false -> integer_ends rest = true ->
  parse_digits (NilEmpty.string_of_uint (Pos.to_uint p) +:+ rest) = Some (Zpos p, rest).
Proof.
  intros Hd He. unfold parse_digits. rewrite span_digits_uint by exact Hd.
  pose proof (DecimalPos.Unsigned.to_uint_nonnil p) as Hnn.
  destruct (NilEmpty.string_of_uint (Pos.to_uint p)) as [|c s] eqn:E.
  { destruct (Pos.to_uint p); simpl in E; congruence. }
  rewrite <- E. rewrite (to_uint_unorm p) at 1. rewrite no_leading_zero_unorm, He. simpl.
  rewrite NilEmpty.usu. unfold Z.of_uint. now rewrite DecimalPos.Unsigned.of_to.
Qed.

Lemma uint_head_digit d :
  d <> Decimal.Nil -> exists c s, NilEmpty.string_of_uint d = String c s /\ is_digit c = true.
Proof. destruct d; intros H; try congruence; simpl; eauto. Qed.

Lemma parse_number_print z rest :
  starts_digit rest = false -> integer_ends rest = true ->
  parse_number (print_Z z +:+ rest) = Some (z, rest).
Proof.
  intros Hd He. destruct z as [|p|p]; unfold print_Z, parse_number.
  - simpl. unfold parse_digits. simpl.
    destruct rest as [|c rest]; [reflexivity|]. simpl in *. rewrite Hd. simpl. now rewrite He.
  - destruct (uint_head_digit (Pos.to_uint p) (DecimalPos.Unsigned.to_uint_nonnil p))
      as (c & s & E & Hc).
    pose proof (parse_digits_pos p rest Hd He) as H. rewrite E in *. simpl.
    replace (Ascii.eqb c "-") with false; [exact H|].
    symmetry. apply Ascii.eqb_neq. intros ->. discriminate.
  - simpl. now rewrite parse_digits_pos.
Qed.

Lemma json_ind' (P : json -> Prop) :
  P JNull -> (forall b, P (JBool b)) -> (forall z, P (JNum z)) -> (forall s, P (JStr s)) ->
  (forall l, Forall P l -> P (JArr l)) ->
  (forall m, Forall (fun kv => P (snd kv)) m -> P (JObj m)) ->
  forall j, P j.
Proof.
  intros Hnull Hbool Hnum Hstr Harr Hobj.
  fix IH 1. intros [| b | z | s | l | m].
  - exact Hnull.
  - apply Hbool.
  - apply Hnum.
  - apply Hstr.
  - apply Harr. induction l as [|x l IHl]; constructor; [apply IH | exact IHl].
  - apply Hobj. induction m as [|[k v] m IHm]; constructor; [apply IH | exact IHm].
Qed.

Lemma delimited_not_digit rest : delimited rest -> starts_digit rest = false.
Proof.
  destruct rest as [|c rest]; [reflexivity|]. simpl. unfold is_digit.
  intros [-> | [-> | ->]]; reflexivity.
Qed.

Lemma delimited_integer_ends rest : delimited rest -> integer_ends rest = true.
Proof.
  destruct rest as [|c rest]; [reflexivity|]. simpl.
  intros [-> | [-> | ->]]; reflexivity.
Qed.

Lemma parse_value_S fuel s :
  parse_value (S fuel) s
  = let s := skip_ws s in
    match strip_prefix "null" s with
    | Some rest => Some (JNull, rest)
    | None =>
    match strip_prefix "true" s with
    | Some rest => Some (JBool true, rest)
    | None =>
    match strip_prefix "false" s with
    | Some rest => Some (JBool false, rest)
    | None =>
    match starts_with_char 34 s with
    | Some rest =>
        match parse_string_body rest with
        | Some (str, rest') => Some (JStr str, rest')
        | None => None
        end
    | None =>
    match starts_with_char 91 s with
    | Some rest =>
        match starts_with_char 93 (skip_ws rest) with
        | Some rest' => Some (JArr [], rest')
        | None =>
            match parse_elements fuel rest with
            | Some (l, rest') => Some (JArr l, rest')
            | None => None
            end
        end
    | None =>
    match starts_with_char 123 s with
    | Some rest =>
        match starts_with_char 125 (skip_ws rest) with
        | Some rest' => Some (JObj [], rest')
        | None =>
            match parse_members fuel rest with
            | Some (m, rest') => Some (JObj m, rest')
            | None => None
            end
        end
    | None =>
        match parse_number s with
        | Some (z, rest) => Some (JNum z, rest)
        | None => None
        end
    end end end end end end.
Proof. reflexivity. Qed.

Lemma parse_elements_S fuel s :
  parse_elements (S fuel) s
  = match parse_value fuel s with
    | Some (v, rest) =>
        let rest := skip_ws rest in
        match starts_with_char 93 rest with
        | Some rest' => Some ([v], rest')
        | None =>
            match starts_with_char 44 rest with
            | Some rest' =>
                match parse_elements fuel rest' with
                | Some (vs, rest'') => Some (v :: vs, rest'')
                | None => None
                end
            | None => None
            end
        end
    | None => None
    end.
Proof. reflexivity. Qed.

Lemma parse_members_S fuel s :
  parse_members (S fuel) s
  = match starts_with_char 34 (skip_ws s) with
    | Some rest =>
        match parse_string_body rest with
        | Some (key, rest) =>
            match starts_with_char 58 (skip_ws rest) with
            | Some rest =>
                match parse_value fuel rest with
                | Some (v, rest) =>
                    let rest := skip_ws rest in
                    match starts_with_char 125 rest with
                    | Some rest' => Some ([(key, v)], rest')
                    | None =>
                        match starts_with_char 44 rest with
                        | Some rest' =>
                            match parse_members fuel rest' with
                            | Some (m, rest'') => Some ((key, v) :: m, rest'')
                            | None => None
                            end
                        | None => None
                        end
                    end
                | None => None
                end
            | None => None
            end
        | None => None
        end
    | None => None
    end.
Proof. reflexivity. Qed.

Lemma stringify_head j : exists c s, stringify j = String c s /\ value_start c.
Proof.
  destruct j as [| [] | [|p|p] | s | l | m]; simpl;
    try (eexists _, _; split; [reflexivity|]; unfold value_start; simpl; tauto).
  - destruct (uint_head_digit (Pos.to_uint p) (DecimalPos.Unsigned.to_uint_nonnil p))
      as (c & s & E & Hc).
    exists c, s. split; [exact E|]. now left.
Qed.

Lemma value_start_cases c :
  value_start c ->
  is_ws c = false /\ nat_of_ascii c <> 93%nat /\ nat_of_ascii c <> 125%nat /\
  nat_of_ascii c <> 44%nat.
Proof.
  intros [H|H].
  - unfold is_digit in H. apply andb_true_iff in H as [H1 H2].
    apply Nat.leb_le in H1, H2. unfold is_ws.
    repeat split; try lia.
    repeat (apply orb_false_iff; split); apply Nat.eqb_neq; lia.
  - simpl in H. unfold is_ws.
    repeat split; try lia.
    repeat (apply orb_false_iff; split); apply Nat.eqb_neq; lia.
Qed.

Lemma skip_ws_value j X : skip_ws (stringify j +:+ X) = stringify j +:+ X.
Proof.
  destruct (stringify_head j) as (c & s & -> & Hc).
  destruct (value_start_cases c Hc) as (Hws & _). simpl. now rewrite Hws.
Qed.

Lemma starts_with_char_value j X n :
  (n = 93 \/ n = 125 \/ n = 44)%nat -> starts_with_char n (stringify j +:+ X) = None.
Proof.
  destruct (stringify_head j) as (c & s & -> & Hc).
  destruct (value_start_cases c Hc) as (_ & H1 & H2 & H3). simpl.
  intros Hn. destruct (Nat.eqb_spec (nat_of_ascii c) n); [lia | reflexivity].
Qed.

Lemma append_nil_r s : s +:+ EmptyString = s.
Proof. induction s as [|c s IH]; simpl; [reflexivity | now rewrite IH]. Qed.

Lemma join_comma_head p ps :
  join_comma (p :: ps)
  = p +:+ match ps with [] => EmptyString | _ => "," +:+ join_comma ps end.
Proof. destruct ps; simpl; [now rewrite append_nil_r | reflexivity]. Qed.

Lemma number_head z : exists c s, print_Z z = String c s /\ (is_digit c = true \/ c = "-"%char).
Proof.
  destruct z as [|p|p]; simpl.
  - eexists _, _. split; [reflexivity|]. now left.
  - destruct (uint_head_digit (Pos.to_uint p) (DecimalPos.Unsigned.to_uint_nonnil p))
      as (c & s & E & Hc).
    exists c, s. auto.
  - eexists _, _. split; [reflexivity|]. now right.
Qed.

Lemma number_dispatch c s :
  is_digit c = true \/ c = "-"%char ->
  skip_ws (String c s) = String c s /\
  strip_prefix "null" (String c s) = None /\
  strip_prefix "true" (String c s) = None /\
  strip_prefix "false" (String c s) = None /\
  starts_with_char 34 (String c s) = None /\
  starts_with_char 91 (String c s) = None /\
  starts_with_char 123 (String c s) = None.
Proof.
  intros [H | ->]; [|repeat split; reflexivity].
  destruct c as [[] [] [] [] [] [] [] []]; try (vm_compute in H; discriminate H);
    repeat split; reflexivity.
Qed.

Lemma quote_append s rest :
  quote s +:+ rest = String "034"%char (escape s +:+ JS.dquote +:+ rest).
Proof. unfold quote, JS.dquote. rewrite !append_assoc. reflexivity. Qed.

Lemma delimited_close n rest :
  (n = 44 \/ n = 93 \/ n = 125)%nat -> delimited (String (ascii_of_nat n) rest).
Proof. intros [-> | [-> | ->]]; simpl; auto. Qed.

Lemma starts_with_char_eq n c X :
  nat_of_ascii c = n -> starts_with_char n (String c X) = Some X.
Proof. intros <-. simpl. now rewrite Nat.eqb_refl. Qed.

Lemma starts_with_char_ne n c X :
  nat_of_ascii c <> n -> starts_with_char n (String c X) = None.
Proof. intros H. simpl. now apply Nat.eqb_neq in H as ->. Qed.

Lemma skip_ws_token c X : is_ws c = false -> skip_ws (String c X) = String c X.
Proof. intros H. simpl. now rewrite H. Qed.

Lemma parse_elements_join l :
  Forall roundtrips l -> l <> [] ->
  forall fuel rest, (list_sum (map (fun x => S (size x)) l) <= fuel)%nat ->
    parse_elements fuel (join_comma (map stringify l) +:+ "]" +:+ rest) = Some (l, rest).
Proof.
  induction 1 as [|x l Hx Hl IH]; [congruence|]. intros _ fuel rest Hfuel.
  simpl in Hfuel.
  destruct fuel as [|fuel]; [lia|]. rewrite parse_elements_S.
  cbn [map]. rewrite join_comma_head, append_assoc.
  destruct l as [|y l].
  - cbn [map]. change (EmptyString +:+ "]" +:+ rest) with (String "]" rest).
    rewrite Hx; [| simpl in Hfuel; lia | simpl; auto].
    cbv zeta. rewrite skip_ws_token by reflexivity.
    now rewrite (starts_with_char_eq 93) by reflexivity.
  - cbn [map]. set (tail := join_comma (stringify y :: map stringify l)).
    change (("," +:+ tail) +:+ "]" +:+ rest) with (String "," (tail +:+ "]" +:+ rest)).
    rewrite Hx; [| lia | simpl; auto].
    cbv zeta. rewrite skip_ws_token by reflexivity.
    rewrite (starts_with_char_ne 93) by discriminate.
    rewrite (starts_with_char_eq 44) by reflexivity.
    subst tail. change (stringify y :: map stringify l) with (map stringify (y :: l)).
    rewrite IH; [reflexivity | discriminate | lia].
Qed.

Lemma parse_members_join m :
  Forall (fun kv => roundtrips (snd kv)) m -> m <> [] ->
  forall fuel rest, (list_sum (map (fun kv => S (size (snd kv))) m) <= fuel)%nat ->
    parse_members fuel
      (join_comma (map (fun kv => quote (fst kv) +:+ ":" +:+ stringify (snd kv)) m)
       +:+ "}" +:+ rest)
    = Some (m, rest).
Proof.
  induction 1 as [|[k v] m Hv Hm IH]; [congruence|]. intros _ fuel rest Hfuel.
  simpl in Hfuel, Hv.
  destruct fuel as [|fuel]; [lia|]. rewrite parse_members_S.
  cbn [map fst snd]. rewrite join_comma_head, !append_assoc, quote_append.
  rewrite skip_ws_token by reflexivity.
  rewrite (starts_with_char_eq 34) by reflexivity.
  rewrite parse_string_body_escape.
  change (":" +:+ ?x) with (String ":" x).
  rewrite skip_ws_token by reflexivity.
  rewrite (starts_with_char_eq 58) by reflexivity.
  destruct m as [|kv m].
  - cbn [map]. change (EmptyString +:+ "}" +:+ rest) with (String "}" rest).
    rewrite Hv; [| simpl in Hfuel; lia | simpl; auto].
    cbv zeta. rewrite skip_ws_token by reflexivity.
    now rewrite (starts_with_char_eq 125) by reflexivity.
  - cbn [map]. set (tail := join_comma (_ :: map _ m)).
    change (("," +:+ tail) +:+ "}" +:+ rest) with (String "," (tail +:+ "}" +:+ rest)).
    rewrite Hv; [| lia | simpl; auto].
    cbv zeta. rewrite skip_ws_token by reflexivity.
    rewrite (starts_with_char_ne 125) by discriminate.
    rewrite (starts_with_char_eq 44) by reflexivity.
    subst tail.
    change (?f kv :: map ?f m) with (map f (kv :: m)).
    rewrite IH; [reflexivity | discriminate | lia].
Qed.

Lemma parse_value_stringify j : roundtrips j.
Proof.
  induction j as [| b | z | s | l IH | m IH] using json_ind';
    intros fuel rest Hfuel Hrest;
    (destruct fuel as [|fuel]; [simpl in Hfuel; lia|]); rewrite parse_value_S.
  - reflexivity.
  - destruct b; reflexivity.
  - cbn [stringify].
    destruct (number_head z) as (c & s & E & Hc).
    pose proof (parse_number_print z rest (delimited_not_digit _ Hrest)
                  (delimited_integer_ends _ Hrest)) as Hnum.
    rewrite E in *. change (String c s +:+ rest) with (String c (s +:+ rest)) in *.
    destruct (number_dispatch c (s +:+ rest) Hc) as (H0 & H1 & H2 & H3 & H4 & H5 & H6).
    cbv zeta. rewrite H0, H1, H2, H3, H4, H5, H6, Hnum. reflexivity.
  - cbn [stringify]. rewrite quote_append.
    cbv zeta. rewrite skip_ws_token by reflexivity.
    change (strip_prefix "null" (String "034" ?x)) with (@None string).
    change (strip_prefix "true" (String "034" ?x)) with (@None string).
    change (strip_prefix "false" (String "034" ?x)) with (@None string).
    rewrite (starts_with_char_eq 34) by reflexivity.
    now rewrite parse_string_body_escape.
  - cbn [stringify]. rewrite !append_assoc.
    change ("[" +:+ ?x) with (String "[" x).
    cbv zeta. rewrite skip_ws_token by reflexivity.
    change (strip_prefix "null" (String "[" ?x)) with (@None string).
    change (strip_prefix "true" (String "[" ?x)) with (@None string).
    change (strip_prefix "false" (String "[" ?x)) with (@None string).
    rewrite (starts_with_char_ne 34) by discriminate.
    rewrite (starts_with_char_eq 91) by reflexivity.
    destruct l as [|x l].
    + reflexivity.
    + assert (Hhead : forall X, skip_ws (join_comma (map stringify (x :: l)) +:+ X)
                                = join_comma (map stringify (x :: l)) +:+ X
                                /\ starts_with_char 93 (join_comma (map stringify (x :: l)) +:+ X) = None).
      { intros X. cbn [map]. rewrite join_comma_head, append_assoc.
        split; [apply skip_ws_value | apply starts_with_char_value; auto]. }
      destruct (Hhead ("]" +:+ rest)) as [-> ->].
      rewrite parse_elements_join; [reflexivity | exact IH | discriminate |].
      simpl in Hfuel. simpl. lia.
  - cbn [stringify]. rewrite !append_assoc.
    change ("{" +:+ ?x) with (String "{" x).
    cbv zeta. rewrite skip_ws_token by reflexivity.
    change (strip_prefix "null" (String "{" ?x)) with (@None string).
    change (strip_prefix "true" (String "{" ?x)) with (@None string).
    change (strip_prefix "false" (String "{" ?x)) with (@None string).
    rewrite (starts_with_char_ne 34) by discriminate.
    rewrite (starts_with_char_ne 91) by discriminate.
    rewrite (starts_with_char_eq 123) by reflexivity.
    destruct m as [|[k v] m].
    + reflexivity.
    + set (parts := map _ ((k, v) :: m)).
      assert (Hhead : forall X, skip_ws (join_comma parts +:+ X) = join_comma parts +:+ X
                                /\ starts_with_char 125 (join_comma parts +:+ X) = None).
      { intros X. subst parts. cbn [map fst snd].
        rewrite join_comma_head, !append_assoc, quote_append.
        split; [now apply skip_ws_token | now apply starts_with_char_ne]. }
      destruct (Hhead ("}" +:+ rest)) as [-> ->]. subst parts.
      rewrite parse_members_join; [reflexivity | exact IH | discriminate |].
      simpl in Hfuel. simpl. lia.
Qed.

Lemma length_append a b : String.length (a +:+ b) = (String.length a + String.length b)%nat.
Proof. induction a as [|c a IH]; simpl; [reflexivity | now rewrite IH]. Qed.

Lemma join_comma_length parts :
  (list_sum (map String.length parts) <= String.length (join_comma parts))%nat.
Proof.
  induction parts as [|p parts IH]; [simpl; lia|].
  rewrite join_comma_head. destruct parts as [|q parts].
  - simpl. rewrite length_append. simpl. lia.
  - rewrite !length_append. simpl in *. lia.
Qed.

Lemma list_sum_le {A} (f g : A -> nat) (l : list A) :
  Forall (fun x => f x <= g x)%nat l -> (list_sum (map f l) <= list_sum (map g l))%nat.
Proof. induction 1; simpl; lia. Qed.

Lemma list_sum_double {A} (f : A -> nat) (l : list A) :
  list_sum (map (fun x => 2 * f x)%nat l) = (2 * list_sum (map f l))%nat.
Proof. induction l as [|x l IH]; simpl in *; lia. Qed.

(** A value has fewer nodes than twice its text has characters. *)
Lemma size_le_length j : (S (size j) <= 2 * String.length (stringify j))%nat.
Proof.
  induction j as [| b | z | s | l IH | m IH] using json_ind'.
  - simpl. lia.
  - destruct b; simpl; lia.
  - destruct (number_head z) as (c & s & E & _). simpl. rewrite E. simpl. lia.
  - simpl. unfold quote. rewrite length_append. simpl. lia.
  - cbn [stringify size]. rewrite !length_append.
    pose proof (join_comma_length (map stringify l)) as Hj. rewrite map_map in Hj.
    pose proof (list_sum_le (fun x => S (size x)) (fun x => 2 * String.length (stringify x))%nat
                  l IH) as Hs.
    rewrite list_sum_double in Hs. simpl String.length. lia.
  - cbn [stringify size]. rewrite !length_append.
    set (part := fun kv : string * json => quote (fst kv) +:+ ":" +:+ stringify (snd kv)).
    pose proof (join_comma_length (map part m)) as Hj. rewrite map_map in Hj.
    assert (Hs : (list_sum (map (fun kv => S (size (snd kv))) m)
                  <= list_sum (map (fun kv => 2 * String.length (part kv))%nat m))%nat).
    { apply list_sum_le. eapply Forall_impl; [exact IH|]. intros kv H. simpl in H.
      unfold part. rewrite !length_append. lia. }
    rewrite list_sum_double in Hs. simpl String.length. lia.
Qed.

(** [JSON.parse(JSON.stringify(j))] is [j]. *)
Lemma parse_stringify j : parse (stringify j) = Some j.
Proof.
  unfold parse. rewrite <- (append_nil_r (stringify j)) at 2.
  rewrite parse_value_stringify; [reflexivity | | exact I].
  pose proof (size_le_length j). lia.
Qed.

End JSONRoundTrip.

(** ** The round trip of the data model *)

Section CodecRoundTrip.
Import JSON Codec.

Lemma as_array_map {A} (enc : A -> json) (dec : json -> option A) (l : list A) :
  (forall x, dec (enc x) = Some x) -> as_array dec (JArr (map enc l)) = Some l.
Proof. intros H. exact (mapM_fmap_Some dec enc l H). Qed.

Lemma as_array_strings l : as_array as_string (strings l) = Some l.
Proof. now apply as_array_map. Qed.

Lemma RiskLevel_roundtrip r : RiskLevel_of_json (JStr (RiskLevel_to_string r)) = Some r.
Proof. now destruct r. Qed.

Lemma ContractStatus_roundtrip s :
  ContractStatus_of_json (JStr (ContractStatus_to_string s)) = Some s.
Proof. now destruct s. Qed.

Lemma SourceType_roundtrip s : SourceType_of_json (JStr (SourceType_to_string s)) = Some s.
Proof. now destruct s. Qed.

Lemma QAPair_roundtrip q : QAPair_of_json (QAPair_to_json q) = Some q.
Proof. now destruct q. Qed.

Lemma Clause_roundtrip c : Clause_of_json (Clause_to_json c) = Some c.
Proof.
  destruct c as [id text explanation riskLevel riskyKeywords reason history].
  unfold Clause_of_json, Clause_to_json, obj, req, opt.
  destruct history as [h|]; cbn -[as_array RiskLevel_of_json RiskLevel_to_string strings];
    rewrite RiskLevel_roundtrip, as_array_strings; cbn -[as_array];
    rewrite ?(as_array_map QAPair_to_json QAPair_of_json) by apply QAPair_roundtrip;
    reflexivity.
Qed.

Lemma ContractAnalysis_roundtrip a :
  ContractAnalysis_of_json (ContractAnalysis_to_json a) = Some a.
Proof.
  destruct a as [summary overallRisk riskScore clauses fullText].
  unfold ContractAnalysis_of_json, ContractAnalysis_to_json, obj, req, opt.
  destruct riskScore, fullText;
    cbn -[as_array RiskLevel_of_json RiskLevel_to_string Clause_of_json Clause_to_json];
    rewrite RiskLevel_roundtrip; cbn -[as_array Clause_of_json Clause_to_json];
    rewrite (as_array_map Clause_to_json Clause_of_json) by apply Clause_roundtrip;
    reflexivity.
Qed.

Lemma Contract_roundtrip c : Contract_of_json (Contract_to_json c) = Some c.
Proof.
  destruct c as [id userId fileName uploadDate status analysis fileData mimeType].
  unfold Contract_of_json, Contract_to_json, obj, req, opt.
  destruct analysis, fileData, mimeType;
    cbn -[ContractStatus_of_json ContractStatus_to_string
          ContractAnalysis_of_json ContractAnalysis_to_json];
    rewrite ContractStatus_roundtrip;
    cbn -[ContractAnalysis_of_json ContractAnalysis_to_json];
    rewrite ?ContractAnalysis_roundtrip; reflexivity.
Qed.

Lemma RecentAnalysis_roundtrip r : RecentAnalysis_of_json (RecentAnalysis_to_json r) = Some r.
Proof.
  destruct r as [id name createdAt sourceType fileName rawText riskScore riskSummary
                   summary clauses].
  unfold RecentAnalysis_of_json, RecentAnalysis_to_json, obj, req, opt.
  destruct fileName;
    cbn -[as_array SourceType_of_json SourceType_to_string strings
          Clause_of_json Clause_to_json];
    rewrite SourceType_roundtrip;
    cbn -[as_array strings Clause_of_json Clause_to_json];
    rewrite as_array_strings; cbn -[as_array Clause_of_json Clause_to_json];
    rewrite (as_array_map Clause_to_json Clause_of_json) by apply Clause_roundtrip;
    reflexivity.
Qed.

Lemma parse_list_stringify_list {A} (enc : A -> json) (dec : json -> option A) (l : list A) :
  (forall x, dec (enc x) = Some x) ->
  parse_list dec (stringify_list enc l) = Some l.
Proof.
  intros H. unfold parse_list, stringify_list. rewrite parse_stringify.
  now apply as_array_map.
Qed.

Lemma stringify_list_truthy {A} (enc : A -> json) (l : list A) :
  JS.truthy (stringify_list enc l) = true.
Proof. reflexivity. Qed.

End CodecRoundTrip.

(** ** The storage adapter *)

Section Storage.
Import Runtime storageService.

Lemma setItem_getItem key value ls ls' :
  LocalStorage.setItem key value ls = Some ls' ->
  LocalStorage.getItem key ls' = Some value /\
  LocalStorage.admits ls (<[key := value]> (LocalStorage.items ls)) = true.
Proof.
  unfold LocalStorage.setItem, LocalStorage.getItem.
  destruct (LocalStorage.admits ls _) eqn:E; [|discriminate].
  intros [= <-]. simpl. split; [apply lookup_insert_eq | reflexivity].
Qed.

Lemma findIndex_Some {A} (p : A -> bool) (l : list A) i :
  JS.findIndex p l = Some i -> (i < length l)%nat.
Proof.
  revert i. induction l as [|x l IH]; intros i; simpl; [discriminate|].
  destruct (p x).
  - intros [= <-]. lia.
  - destruct (JS.findIndex p l) as [j|]; [|discriminate].
    intros [= <-]. specialize (IH j eq_refl). lia.
Qed.

Lemma upsert_In contract contracts : In contract (upsert contract contracts).
Proof.
  unfold upsert. destruct (JS.findIndex _ contracts) as [i|] eqn:E.
  - apply findIndex_Some in E. apply list_elem_of_In.
    eapply list_elem_of_lookup_2. now apply list_lookup_insert_eq.
  - apply in_or_app. right. now left.
Qed.

Lemma getContracts_filter userId ls :
  getContracts userId ls
  = List.filter (fun c => String.eqb (Contract.userId c) userId) (allContracts ls).
Proof.
  unfold getContracts, allContracts. now destruct (parse_or_empty _ _).
Qed.

(** After a successful [saveContract] the store holds the updated array. *)
Lemma saveContract_stored contract ls ls' :
  saveContract contract ls = (ls', Ok tt) ->
  allContracts ls' = upsert contract (allContracts ls).
Proof.
  unfold saveContract, allContracts.
  destruct (parse_or_empty _ (LocalStorage.getItem CONTRACTS ls)) as [contracts|];
    [|discriminate].
  destruct (LocalStorage.setItem _ _ ls) as [ls1|] eqn:E; [|discriminate].
  intros [= <-]. apply setItem_getItem in E as [-> _].
  unfold parse_or_empty. rewrite stringify_list_truthy.
  now rewrite parse_list_stringify_list by apply Contract_roundtrip.
Qed.

End Storage.

(** C8.  A contract saved with success is read back: the list
    [getContracts] returns for its [userId] contains the contract, equal to
    the one saved.  Nothing is lost on the way: the JSON text of any array of
    contracts parses back to that array, and the JSON object of a contract
    decodes to that contract.  The save replaces and does not duplicate: when
    some stored contract has the id, the first such entry is overwritten in
    place and the array keeps its length; otherwise the contract is appended
    at the end. *)
Theorem saveContract_roundtrip (contract : Contract.t) (ls ls' : LocalStorage.t) :
  storageService.saveContract contract ls = (ls', Runtime.Ok tt) ->
  let same_id c := String.eqb (Contract.id c) (Contract.id contract) in
  In contract (storageService.getContracts (Contract.userId contract) ls') /\
  Codec.Contract_of_json (Codec.Contract_to_json contract) = Some contract /\
  (forall contracts,
     Codec.parse_list Codec.Contract_of_json
       (Codec.stringify_list Codec.Contract_to_json contracts) = Some contracts) /\
  (forall i,
     JS.findIndex same_id (storageService.allContracts ls) = Some i ->
     storageService.allContracts ls' = <[i := contract]> (storageService.allContracts ls) /\
     storageService.allContracts ls' !! i = Some contract /\
     length (storageService.allContracts ls') = length (storageService.allContracts ls)) /\
  (JS.findIndex same_id (storageService.allContracts ls) = None ->
     storageService.allContracts ls' = storageService.allContracts ls ++ [contract]).
Proof.
  intros Hsave same_id.
  pose proof (saveContract_stored contract ls ls' Hsave) as Hstored.
  split; [|split; [|split; [|split]]].
  - rewrite getContracts_filter, Hstored. apply filter_In. split.
    + apply upsert_In.
    + apply String.eqb_refl.
  - apply Contract_roundtrip.
  - intros contracts. apply parse_list_stringify_list, Contract_roundtrip.
  - intros i Hi. rewrite Hstored. unfold storageService.upsert. fold same_id. rewrite Hi.
    apply findIndex_Some in Hi.
    split; [reflexivity|]. split; [now apply list_lookup_insert_eq | apply length_insert].
  - intros Hnone. rewrite Hstored. unfold storageService.upsert. fold same_id.
    now rewrite Hnone.
Qed.

Lemma saveContract_roundtrip_witness :
  In Samples.lease
     (storageService.getContracts "ada@example.org"
        (fst (storageService.saveContract Samples.lease (Samples.store 4000)))).
Proof.
  apply (proj1 (saveContract_roundtrip Samples.lease (Samples.store 4000)
                  (fst (storageService.saveContract Samples.lease (Samples.store 4000)))
                  ltac:(vm_compute; reflexivity))).
Defined.




Lemma processFile_storage_failure_witness :
  snd (Runtime.run (ContractUpload.processFile Samples.user Samples.fresh)
         (Samples.world "test-key" 10 [Samples.fresh]))
  = Runtime.Ok
      (FileUploadState.mk Samples.pdf error
         (Some "Analyzed successfully but failed to save to browser storage. Check available disk space.")
         None).
Proof.
  apply (proj1 (processFile_storage_failure Samples.user Samples.fresh
                  (Samples.world "test-key" 10 [Samples.fresh])
                  "data:application/pdf;base64,JVBERi0xLjQ="
                  (JSON.stringify (Codec.ContractAnalysis_to_json Samples.analysis))
                  Samples.analysis Runtime.QuotaExceededError
                  eq_refl eq_refl eq_refl
                  ltac:(vm_compute; reflexivity) ltac:(vm_compute; reflexivity))).
Defined.

(** * Further properties of the services and the components *)

(** ** The storage adapter: accounts, the session and the keys *)

Section Accounts.
Import JSON Codec Runtime storageService.

Lemma User_roundtrip u : User_of_json (User_to_json u) = Some u.
Proof. now destruct u. Qed.

Lemma getItem_setItem_ne key key' value ls ls' :
  LocalStorage.setItem key value ls = Some ls' -> key' <> key ->
  LocalStorage.getItem key' ls' = LocalStorage.getItem key' ls.
Proof.
  unfold LocalStorage.setItem, LocalStorage.getItem.
  destruct (LocalStorage.admits ls _); [|discriminate].
  intros [= <-] Hne. simpl. now apply lookup_insert_ne.
Qed.

Lemma getItem_removeItem key ls :
  LocalStorage.getItem key (LocalStorage.removeItem key ls) = None.
Proof. unfold LocalStorage.getItem, LocalStorage.removeItem. simpl. apply lookup_delete_eq. Qed.

Lemma getItem_removeItem_ne key key' ls :
  key' <> key ->
  LocalStorage.getItem key' (LocalStorage.removeItem key ls) = LocalStorage.getItem key' ls.
Proof.
  intros Hne. unfold LocalStorage.getItem, LocalStorage.removeItem. simpl.
  now apply lookup_delete_ne.
Qed.

(** A write that is swallowed when refused changes one key at most. *)
Lemma getItem_write_ne key key' value ls :
  key' <> key ->
  LocalStorage.getItem key'
    (match LocalStorage.setItem key value ls with Some ls' => ls' | None => ls end)
  = LocalStorage.getItem key' ls.
Proof.
  intros Hne. destruct (LocalStorage.setItem key value ls) as [ls'|] eqn:E; [|reflexivity].
  now apply (getItem_setItem_ne key key' value ls ls').
Qed.

Lemma getItem_write key value ls :
  LocalStorage.admits ls (<[key := value]> (LocalStorage.items ls)) = true ->
  LocalStorage.getItem key
    (match LocalStorage.setItem key value ls with Some ls' => ls' | None => ls end)
  = Some value.
Proof.
  intros H. unfold LocalStorage.setItem. rewrite H.
  unfold LocalStorage.getItem. simpl. apply lookup_insert_eq.
Qed.

Lemma write_refused key value ls :
  LocalStorage.admits ls (<[key := value]> (LocalStorage.items ls)) = false ->
  match LocalStorage.setItem key value ls with Some ls' => ls' | None => ls end = ls.
Proof. intros H. unfold LocalStorage.setItem. now rewrite H. Qed.

(** What each reader returns depends on the text under its key only. *)
Lemma getUsers_ext ls ls' :
  LocalStorage.getItem USERS ls' = LocalStorage.getItem USERS ls -> getUsers ls' = getUsers ls.
Proof. unfold getUsers. now intros ->. Qed.

Lemma getCurrentUser_ext ls ls' :
  LocalStorage.getItem CURRENT_USER ls' = LocalStorage.getItem CURRENT_USER ls ->
  getCurrentUser ls' = getCurrentUser ls.
Proof. unfold getCurrentUser. now intros ->. Qed.

Lemma getRecentAnalyses_ext ls ls' :
  LocalStorage.getItem RECENT_ANALYSES ls' = LocalStorage.getItem RECENT_ANALYSES ls ->
  getRecentAnalyses ls' = getRecentAnalyses ls.
Proof. unfold getRecentAnalyses. now intros ->. Qed.

Lemma allContracts_ext ls ls' :
  LocalStorage.getItem CONTRACTS ls' = LocalStorage.getItem CONTRACTS ls ->
  allContracts ls' = allContracts ls.
Proof. unfold allContracts. now intros ->. Qed.

Lemma getContracts_ext userId ls ls' :
  LocalStorage.getItem CONTRACTS ls' = LocalStorage.getItem CONTRACTS ls ->
  getContracts userId ls' = getContracts userId ls.
Proof. unfold getContracts. now intros ->. Qed.

Lemma saveContract_getItem_ne key contract ls :
  key <> CONTRACTS ->
  LocalStorage.getItem key (fst (saveContract contract ls)) = LocalStorage.getItem key ls.
Proof.
  intros Hne. unfold saveContract.
  destruct (parse_or_empty _ _) as [contracts|]; [|reflexivity].
  destruct (LocalStorage.setItem _ _ ls) as [ls'|] eqn:E; [|reflexivity].
  simpl. now apply (getItem_setItem_ne _ _ _ _ _ E).
Qed.

Lemma getContracts_saveRecentAnalysis userId a ls :
  getContracts userId (saveRecentAnalysis a ls) = getContracts userId ls.
Proof. apply getContracts_ext, getItem_write_ne. discriminate. Qed.

Lemma getRecentAnalyses_saveContract contract ls :
  getRecentAnalyses (fst (saveContract contract ls)) = getRecentAnalyses ls.
Proof. apply getRecentAnalyses_ext, saveContract_getItem_ne. discriminate. Qed.

Lemma getCurrentUser_saveUser user ls :
  getCurrentUser (saveUser user ls) = getCurrentUser ls.
Proof. apply getCurrentUser_ext, getItem_write_ne. discriminate. Qed.

Lemma getUsers_setCurrentUser user ls :
  getUsers (setCurrentUser user ls) = getUsers ls.
Proof.
  apply getUsers_ext. destruct user as [u|]; unfold setCurrentUser.
  - apply getItem_write_ne. discriminate.
  - apply getItem_removeItem_ne. discriminate.
Qed.

Lemma getCurrentUser_set user ls :
  LocalStorage.admits ls
    (<[CURRENT_USER := stringify (User_to_json user)]> (LocalStorage.items ls)) = true ->
  getCurrentUser (setCurrentUser (Some user) ls) = Some user.
Proof.
  intros H. unfold getCurrentUser, setCurrentUser. rewrite getItem_write by exact H.
  replace (JS.truthy (stringify (User_to_json user))) with true by reflexivity.
  now rewrite parse_stringify, User_roundtrip.
Qed.

Lemma getCurrentUser_unset ls : getCurrentUser (setCurrentUser None ls) = None.
Proof. unfold getCurrentUser, setCurrentUser. now rewrite getItem_removeItem. Qed.


Lemma getRecentAnalyses_save a ls :
  getRecentAnalyses (saveRecentAnalysis a ls) = updated_recent a (getRecentAnalyses ls) \/
  getRecentAnalyses (saveRecentAnalysis a ls) = getRecentAnalyses ls.
Proof.
  unfold saveRecentAnalysis.
  destruct (LocalStorage.admits ls
              (<[RECENT_ANALYSES := stringify_list RecentAnalysis_to_json
                                      (updated_recent a (getRecentAnalyses ls))]>
                 (LocalStorage.items ls))) eqn:E.
  - left. unfold getRecentAnalyses at 1. rewrite getItem_write by exact E.
    unfold parse_or_empty. rewrite stringify_list_truthy.
    now rewrite parse_list_stringify_list by apply RecentAnalysis_roundtrip.
  - right. now rewrite write_refused.
Qed.

Lemma findIndex_split {A} (p : A -> bool) (l : list A) i :
  JS.findIndex p l = Some i ->
  exists l1 x l2, l = l1 ++ x :: l2 /\ length l1 = i /\ p x = true /\
                  Forall (fun y => p y = false) l1.
Proof.
  revert i. induction l as [|y l IH]; intros i; simpl; [discriminate|].
  destruct (p y) eqn:Hy.
  - intros [= <-]. exists [], y, l. auto.
  - destruct (JS.findIndex p l) as [j|]; [|discriminate]. intros [= <-].
    destruct (IH j eq_refl) as (l1 & x & l2 & -> & Hlen & Hx & Hl1).
    exists (y :: l1), x, l2. simpl. repeat split; auto.
Qed.

Lemma findIndex_None {A} (p : A -> bool) (l : list A) :
  JS.findIndex p l = None -> Forall (fun y => p y = false) l.
Proof.
  induction l as [|y l IH]; simpl; [constructor|].
  destruct (p y) eqn:Hy; [discriminate|].
  destruct (JS.findIndex p l); [discriminate|]. intros _. constructor; auto.
Qed.

Lemma insert_split {A} (l1 : list A) x y l2 :
  <[length l1 := y]> (l1 ++ x :: l2) = l1 ++ y :: l2.
Proof. induction l1 as [|z l1 IH]; simpl; [reflexivity | now rewrite IH]. Qed.



End Accounts.




(** X2.  [getCurrentUser] reads back the user [setCurrentUser] wrote when the store
    accepts the write; when the store refuses it the previous session stays
    (the error is only logged); after [setCurrentUser(null)] there is no
    current user. *)
Theorem currentUser_roundtrip (ls : LocalStorage.t) :
  (forall u,
     LocalStorage.admits ls
       (<[storageService.CURRENT_USER := JSON.stringify (Codec.User_to_json u)]>
          (LocalStorage.items ls)) = true ->
     storageService.getCurrentUser (storageService.setCurrentUser (Some u) ls) = Some u) /\
  (forall u,
     LocalStorage.admits ls
       (<[storageService.CURRENT_USER := JSON.stringify (Codec.User_to_json u)]>
          (LocalStorage.items ls)) = false ->
     storageService.getCurrentUser (storageService.setCurrentUser (Some u) ls)
     = storageService.getCurrentUser ls) /\
  storageService.getCurrentUser (storageService.setCurrentUser None ls) = None.
Proof.
  split; [|split].
  - intros u H. now apply getCurrentUser_set.
  - intros u H. unfold storageService.setCurrentUser. now rewrite write_refused.
  - apply getCurrentUser_unset.
Qed.

Lemma currentUser_roundtrip_witness :
  storageService.getCurrentUser
    (storageService.setCurrentUser (Some Samples.user) (Samples.store 4000))
  = Some Samples.user.
Proof.
  apply (proj1 (currentUser_roundtrip (Samples.store 4000)) Samples.user).
  vm_compute. reflexivity.
Defined.

(** X3.  The four keys of the store are independent: saving a contract, saving or
    clearing the recent analyses, saving a user and setting or removing the
    current user each leave what the other getters return unchanged, whether
    or not the write goes through. *)
Theorem storage_keys_independent (ls : LocalStorage.t) :
  (forall contract,
     let ls' := fst (storageService.saveContract contract ls) in
     storageService.getUsers ls' = storageService.getUsers ls /\
     storageService.getCurrentUser ls' = storageService.getCurrentUser ls /\
     storageService.getRecentAnalyses ls' = storageService.getRecentAnalyses ls) /\
  (forall analysis,
     let ls' := storageService.saveRecentAnalysis analysis ls in
     storageService.allContracts ls' = storageService.allContracts ls /\
     (forall userId,
        storageService.getContracts userId ls' = storageService.getContracts userId ls) /\
     storageService.getUsers ls' = storageService.getUsers ls /\
     storageService.getCurrentUser ls' = storageService.getCurrentUser ls) /\
  (let ls' := storageService.clearRecentAnalyses ls in
   storageService.getRecentAnalyses ls' = [] /\
   storageService.allContracts ls' = storageService.allContracts ls /\
   (forall userId,
      storageService.getContracts userId ls' = storageService.getContracts userId ls) /\
   storageService.getUsers ls' = storageService.getUsers ls /\
   storageService.getCurrentUser ls' = storageService.getCurrentUser ls) /\
  (forall user,
     let ls' := storageService.saveUser user ls in
     storageService.allContracts ls' = storageService.allContracts ls /\
     (forall userId,
        storageService.getContracts userId ls' = storageService.getContracts userId ls) /\
     storageService.getCurrentUser ls' = storageService.getCurrentUser ls /\
     storageService.getRecentAnalyses ls' = storageService.getRecentAnalyses ls) /\
  (forall user,
     let ls' := storageService.setCurrentUser user ls in
     storageService.allContracts ls' = storageService.allContracts ls /\
     (forall userId,
        storageService.getContracts userId ls' = storageService.getContracts userId ls) /\
     storageService.getUsers ls' = storageService.getUsers ls /\
     storageService.getRecentAnalyses ls' = storageService.getRecentAnalyses ls).
Proof.
  split; [|split; [|split; [|split]]].
  - intros contract ls'. subst ls'. split; [|split].
    + apply getUsers_ext, saveContract_getItem_ne. discriminate.
    + apply getCurrentUser_ext, saveContract_getItem_ne. discriminate.
    + apply getRecentAnalyses_ext, saveContract_getItem_ne. discriminate.
  - intros analysis ls'. subst ls'. unfold storageService.saveRecentAnalysis.
    split; [|split; [|split]].
    + apply allContracts_ext, getItem_write_ne. discriminate.
    + intros userId. apply getContracts_ext, getItem_write_ne. discriminate.
    + apply getUsers_ext, getItem_write_ne. discriminate.
    + apply getCurrentUser_ext, getItem_write_ne. discriminate.
  - unfold storageService.clearRecentAnalyses. split; [|split; [|split; [|split]]].
    + unfold storageService.getRecentAnalyses. now rewrite getItem_removeItem.
    + apply allContracts_ext, getItem_removeItem_ne. discriminate.
    + intros userId. apply getContracts_ext, getItem_removeItem_ne. discriminate.
    + apply getUsers_ext, getItem_removeItem_ne. discriminate.
    + apply getCurrentUser_ext, getItem_removeItem_ne. discriminate.
  - intros user ls'. subst ls'. unfold storageService.saveUser.
    split; [|split; [|split]].
    + apply allContracts_ext, getItem_write_ne. discriminate.
    + intros userId. apply getContracts_ext, getItem_write_ne. discriminate.
    + apply getCurrentUser_ext, getItem_write_ne. discriminate.
    + apply getRecentAnalyses_ext, getItem_write_ne. discriminate.
  - intros [u|] ls'; subst ls'; unfold storageService.setCurrentUser.
    + split; [|split; [|split]].
      * apply allContracts_ext, getItem_write_ne. discriminate.
      * intros userId. apply getContracts_ext, getItem_write_ne. discriminate.
      * apply getUsers_ext, getItem_write_ne. discriminate.
      * apply getRecentAnalyses_ext, getItem_write_ne. discriminate.
    + split; [|split; [|split]].
      * apply allContracts_ext, getItem_removeItem_ne. discriminate.
      * intros userId. apply getContracts_ext, getItem_removeItem_ne. discriminate.
      * apply getUsers_ext, getItem_removeItem_ne. discriminate.
      * apply getRecentAnalyses_ext, getItem_removeItem_ne. discriminate.
Qed.

Section Isolation.
Import Runtime storageService.

Lemma upsert_cases contract contracts :
  (exists l1 x l2, contracts = l1 ++ x :: l2 /\ Contract.id x = Contract.id contract /\
                   Forall (fun y => Contract.id y <> Contract.id contract) l1 /\
                   upsert contract contracts = l1 ++ contract :: l2) \/
  (Forall (fun y => Contract.id y <> Contract.id contract) contracts /\
   upsert contract contracts = contracts ++ [contract]).
Proof.
  unfold upsert.
  destruct (JS.findIndex _ contracts) as [i|] eqn:E.
  - left. apply findIndex_split in E as (l1 & x & l2 & -> & <- & Hx & Hl1).
    exists l1, x, l2. split; [reflexivity|]. split; [now apply String.eqb_eq|]. split.
    + eapply List.Forall_impl; [|exact Hl1]. intros y. simpl. now apply String.eqb_neq.
    + now rewrite insert_split.
  - right. apply findIndex_None in E. split; [|reflexivity].
    eapply List.Forall_impl; [|exact E]. intros y. simpl. now apply String.eqb_neq.
Qed.

End Isolation.

(** X4.  Saving a contract does not change the contracts another user sees, as
    long as none of that user's contracts has the id of the saved one
    (contracts are replaced by id alone, whoever owns them). *)
Theorem saveContract_isolation (contract : Contract.t) (ls ls' : LocalStorage.t)
    (userId : string) :
  storageService.saveContract contract ls = (ls', Runtime.Ok tt) ->
  userId <> Contract.userId contract ->
  (forall c, In c (storageService.getContracts userId ls) ->
             Contract.id c <> Contract.id contract) ->
  storageService.getContracts userId ls' = storageService.getContracts userId ls.
Proof.
  intros Hsave Hother Hids.
  rewrite !getContracts_filter in *. rewrite (saveContract_stored _ _ _ Hsave).
  assert (Hc : String.eqb (Contract.userId contract) userId = false)
    by (apply String.eqb_neq; congruence).
  destruct (upsert_cases contract (storageService.allContracts ls)) as
    [(l1 & x & l2 & Hall & Hx & _ & ->) | (_ & ->)].
  - rewrite Hall in *. rewrite !List.filter_app. simpl. rewrite Hc.
    destruct (String.eqb (Contract.userId x) userId) eqn:Hxu; [|reflexivity].
    exfalso. apply (Hids x); [|exact Hx].
    apply filter_In. split; [|exact Hxu]. apply in_or_app. right. now left.
  - rewrite List.filter_app. simpl. rewrite Hc. apply app_nil_r.
Qed.

Lemma saveContract_isolation_witness :
  storageService.getContracts "bob@example.org"
    (fst (storageService.saveContract Samples.lease (Samples.store 4000)))
  = storageService.getContracts "bob@example.org" (Samples.store 4000).
Proof.
  apply (saveContract_isolation Samples.lease (Samples.store 4000)
           (fst (storageService.saveContract Samples.lease (Samples.store 4000)))
           "bob@example.org").
  - vm_compute. reflexivity.
  - discriminate.
  - vm_compute. intros c [].
Defined.

Section Recent.
Import Runtime storageService.

Lemma updated_recent_invariant a (l : list RecentAnalysis.t) (P : RecentAnalysis.t -> Prop) :
  List.NoDup (map RecentAnalysis.id l) -> Forall P l -> P a ->
  (length (updated_recent a l) <= 10)%nat /\
  List.NoDup (map RecentAnalysis.id (updated_recent a l)) /\
  Forall P (updated_recent a l).
Proof.
  intros Hnd HP Ha. unfold updated_recent, JS.slice0.
  set (others := List.filter _ l).
  assert (Hnd' : List.NoDup (map RecentAnalysis.id (a :: others))).
  { simpl. constructor.
    - intros Hin. apply in_map_iff in Hin as (r & Hr & Hin).
      apply filter_In in Hin as [_ Hin]. apply negb_true_iff, String.eqb_neq in Hin.
      congruence.
    - subst others. clear -Hnd. induction l as [|r l IH]; [constructor|].
      simpl in *. inversion Hnd as [|? ? Hr Hl]; subst.
      destruct (negb _); [|auto]. simpl. constructor; [|auto].
      intros Hin. apply Hr. apply in_map_iff in Hin as (r' & Hr' & Hin).
      apply filter_In in Hin as [Hin _]. rewrite <- Hr'. now apply in_map. }
  assert (HP' : Forall P (a :: others)).
  { constructor; [exact Ha|]. subst others. rewrite List.Forall_forall in *.
    intros r Hr. apply filter_In in Hr as [Hr _]. auto. }
  split; [|split].
  - rewrite length_take. lia.
  - rewrite <- (firstn_skipn 10 (a :: others)), map_app in Hnd'.
    now apply NoDup_ListNoDup, NoDup_app in Hnd' as [Hnd' _]; apply NoDup_ListNoDup.
  - now apply Forall_take.
Qed.

End Recent.

(** X5.  After the history is cleared, any sequence of [saveRecentAnalysis] calls
    leaves at most 10 recent analyses, with distinct ids, each of them one
    that was saved. *)
Theorem recentAnalyses_invariant (ls : LocalStorage.t) (analyses : list RecentAnalysis.t) :
  let ls' :=
    fold_left (fun s a => storageService.saveRecentAnalysis a s) analyses
      (storageService.clearRecentAnalyses ls) in
  let recent := storageService.getRecentAnalyses ls' in
  (length recent <= 10)%nat /\
  List.NoDup (map RecentAnalysis.id recent) /\
  (forall r, In r recent -> In r analyses).
Proof.
  intros ls' recent.
  assert (Hgen : forall (seen : list RecentAnalysis.t) todo s,
            (length (storageService.getRecentAnalyses s) <= 10)%nat ->
            List.NoDup (map RecentAnalysis.id (storageService.getRecentAnalyses s)) ->
            Forall (fun r => In r (seen ++ todo)) (storageService.getRecentAnalyses s) ->
            let s' := fold_left (fun s a => storageService.saveRecentAnalysis a s) todo s in
            (length (storageService.getRecentAnalyses s') <= 10)%nat /\
            List.NoDup (map RecentAnalysis.id (storageService.getRecentAnalyses s')) /\
            Forall (fun r => In r (seen ++ todo)) (storageService.getRecentAnalyses s')).
  { intros seen todo. revert seen. induction todo as [|a todo IH]; intros seen s Hlen Hnd Hin.
    - simpl. auto.
    - simpl. specialize (IH (seen ++ [a]) (storageService.saveRecentAnalysis a s)).
      rewrite <- app_assoc in IH. simpl in IH. apply IH;
        destruct (getRecentAnalyses_save a s) as [-> | ->]; auto;
        apply (updated_recent_invariant a _ (fun r => In r (seen ++ a :: todo))); auto;
        apply in_or_app; right; now left. }
  destruct (Hgen [] analyses (storageService.clearRecentAnalyses ls)) as (H1 & H2 & H3).
  - unfold storageService.clearRecentAnalyses, storageService.getRecentAnalyses.
    rewrite getItem_removeItem. simpl. lia.
  - unfold storageService.clearRecentAnalyses, storageService.getRecentAnalyses.
    rewrite getItem_removeItem. simpl. constructor.
  - unfold storageService.clearRecentAnalyses, storageService.getRecentAnalyses.
    rewrite getItem_removeItem. simpl. constructor.
  - split; [exact H1|]. split; [exact H2|]. now apply List.Forall_forall.
Qed.

(** ** Responses of the backend: white space and Markdown fences *)

Section Responses.
Import JSON Codec Runtime geminiService.

Lemma append_assoc3 (a b c : string) : (a +:+ b) +:+ c = a +:+ b +:+ c.
Proof. apply append_assoc. Qed.

Lemma skip_ws_app pre X : JS.all_chars is_ws pre = true -> skip_ws (pre +:+ X) = skip_ws X.
Proof.
  induction pre as [|c pre IH]; simpl; [reflexivity|].
  intros H. apply andb_true_iff in H as [Hc Hpre]. rewrite Hc. auto.
Qed.

Lemma skip_ws_all post : JS.all_chars is_ws post = true -> skip_ws post = EmptyString.
Proof.
  induction post as [|c post IH]; simpl; [reflexivity|].
  intros H. apply andb_true_iff in H as [Hc Hpost]. rewrite Hc. auto.
Qed.

Lemma ws_not_digit post : JS.all_chars is_ws post = true -> starts_digit post = false.
Proof.
  destruct post as [|c post]; [reflexivity|]. simpl. intros H.
  apply andb_true_iff in H as [Hc _].
  destruct c as [[] [] [] [] [] [] [] []]; try reflexivity; discriminate Hc.
Qed.

Lemma ws_integer_ends post : JS.all_chars is_ws post = true -> integer_ends post = true.
Proof.
  destruct post as [|c post]; [reflexivity|]. simpl. intros H.
  apply andb_true_iff in H as [Hc _].
  destruct c as [[] [] [] [] [] [] [] []]; try reflexivity; discriminate Hc.
Qed.

(** [parse_value] reads back the text of a value before any text that
    cannot continue a number. *)
Lemma parse_value_stringify_before j fuel rest :
  (size j <= fuel)%nat -> starts_digit rest = false -> integer_ends rest = true ->
  parse_value fuel (stringify j +:+ rest) = Some (j, rest).
Proof.
  intros Hfuel Hd He.
  destruct j as [| b | z | s | l | m];
    (destruct fuel as [|fuel]; [simpl in Hfuel; lia|]); rewrite parse_value_S.
  - reflexivity.
  - destruct b; reflexivity.
  - cbn [stringify].
    destruct (number_head z) as (c & s & E & Hc).
    pose proof (parse_number_print z rest Hd He) as Hnum.
    rewrite E in *. change (String c s +:+ rest) with (String c (s +:+ rest)) in *.
    destruct (number_dispatch c (s +:+ rest) Hc) as (H0 & H1 & H2 & H3 & H4 & H5 & H6).
    cbv zeta. rewrite H0, H1, H2, H3, H4, H5, H6, Hnum. reflexivity.
  - cbn [stringify]. rewrite quote_append.
    cbv zeta. rewrite skip_ws_token by reflexivity.
    change (strip_prefix "null" (String "034" ?x)) with (@None string).
    change (strip_prefix "true" (String "034" ?x)) with (@None string).
    change (strip_prefix "false" (String "034" ?x)) with (@None string).
    rewrite (starts_with_char_eq 34) by reflexivity.
    now rewrite parse_string_body_escape.
  - assert (IH : Forall roundtrips l)
      by (apply List.Forall_forall; intros x _; apply parse_value_stringify).
    cbn [stringify]. rewrite !append_assoc.
    change ("[" +:+ ?x) with (String "[" x).
    cbv zeta. rewrite skip_ws_token by reflexivity.
    change (strip_prefix "null" (String "[" ?x)) with (@None string).
    change (strip_prefix "true" (String "[" ?x)) with (@None string).
    change (strip_prefix "false" (String "[" ?x)) with (@None string).
    rewrite (starts_with_char_ne 34) by discriminate.
    rewrite (starts_with_char_eq 91) by reflexivity.
    destruct l as [|x l].
    + reflexivity.
    + assert (Hhead : forall X, skip_ws (join_comma (map stringify (x :: l)) +:+ X)
                                = join_comma (map stringify (x :: l)) +:+ X
                                /\ starts_with_char 93 (join_comma (map stringify (x :: l)) +:+ X) = None).
      { intros X. cbn [map]. rewrite join_comma_head, append_assoc.
        split; [apply skip_ws_value | apply starts_with_char_value; auto]. }
      destruct (Hhead ("]" +:+ rest)) as [-> ->].
      rewrite parse_elements_join; [reflexivity | exact IH | discriminate |].
      simpl in Hfuel. simpl. lia.
  - assert (IH : Forall (fun kv : string * json => roundtrips (snd kv)) m)
      by (apply List.Forall_forall; intros x _; apply parse_value_stringify).
    cbn [stringify]. rewrite !append_assoc.
    change ("{" +:+ ?x) with (String "{" x).
    cbv zeta. rewrite skip_ws_token by reflexivity.
    change (strip_prefix "null" (String "{" ?x)) with (@None string).
    change (strip_prefix "true" (String "{" ?x)) with (@None string).
    change (strip_prefix "false" (String "{" ?x)) with (@None string).
    rewrite (starts_with_char_ne 34) by discriminate.
    rewrite (starts_with_char_ne 91) by discriminate.
    rewrite (starts_with_char_eq 123) by reflexivity.
    destruct m as [|[k v] m].
    + reflexivity.
    + set (parts := map _ ((k, v) :: m)).
      assert (Hhead : forall X, skip_ws (join_comma parts +:+ X) = join_comma parts +:+ X
                                /\ starts_with_char 125 (join_comma parts +:+ X) = None).
      { intros X. subst parts. cbn [map fst snd].
        rewrite join_comma_head, !append_assoc, quote_append.
        split; [now apply skip_ws_token | now apply starts_with_char_ne]. }
      destruct (Hhead ("}" +:+ rest)) as [-> ->]. subst parts.
      rewrite parse_members_join; [reflexivity | exact IH | discriminate |].
      simpl in Hfuel. simpl. lia.
Qed.

(** [JSON.parse] ignores white space around a document. *)
Lemma parse_stringify_ws j pre post :
  JS.all_chars is_ws pre = true -> JS.all_chars is_ws post = true ->
  parse (pre +:+ stringify j +:+ post) = Some j.
Proof.
  intros Hpre Hpost. unfold parse.
  remember (2 * String.length (pre +:+ stringify j +:+ post) + 2)%nat as fuel eqn:Efuel.
  assert (Hfuel : (size j <= fuel)%nat).
  { subst fuel. rewrite !length_append. pose proof (size_le_length j). lia. }
  destruct fuel as [|fuel]; [lia|]. clear Efuel.
  assert (Hskip : parse_value (S fuel) (pre +:+ stringify j +:+ post)
                  = parse_value (S fuel) (stringify j +:+ post)).
  { rewrite !parse_value_S. cbv zeta. now rewrite skip_ws_app, skip_ws_value by exact Hpre. }
  rewrite Hskip, parse_value_stringify_before;
    [| exact Hfuel | now apply ws_not_digit | now apply ws_integer_ends].
  now rewrite skip_ws_all.
Qed.

(** *** [trim] *)

Lemma trimStart_app pre X :
  JS.all_chars JS.is_space pre = true -> JS.trimStart (pre +:+ X) = JS.trimStart X.
Proof.
  induction pre as [|c pre IH]; simpl; [reflexivity|].
  intros H. apply andb_true_iff in H as [Hc Hpre]. rewrite Hc. auto.
Qed.

Lemma trimStart_token c X : JS.is_space c = false -> JS.trimStart (String c X) = String c X.
Proof. intros H. simpl. now rewrite H. Qed.

Lemma trimEnd_spaces post : JS.all_chars JS.is_space post = true -> JS.trimEnd post = EmptyString.
Proof.
  induction post as [|c post IH]; [reflexivity|]. cbn [JS.all_chars JS.trimEnd].
  intros H. apply andb_true_iff in H as [Hc Hpost]. now rewrite IH, Hc.
Qed.

Lemma trimEnd_app a post :
  JS.all_chars JS.is_space post = true -> JS.trimEnd (a +:+ post) = JS.trimEnd a.
Proof.
  intros Hpost. induction a as [|c a IH]; cbn [String.append JS.trimEnd].
  - now apply trimEnd_spaces.
  - now rewrite IH.
Qed.

Lemma trimEnd_token a c :
  JS.is_space c = false -> JS.trimEnd (a +:+ String c EmptyString) = a +:+ String c EmptyString.
Proof.
  intros Hc. induction a as [|d a IH]; cbn [String.append JS.trimEnd].
  - now rewrite Hc.
  - rewrite IH. now destruct a.
Qed.

(** A text between white space, with no white space at its ends, is what
    [trim] returns. *)
Lemma trim_core pre post c0 X a c1 :
  JS.all_chars JS.is_space pre = true -> JS.all_chars JS.is_space post = true ->
  JS.is_space c0 = false -> JS.is_space c1 = false ->
  String c0 X = a +:+ String c1 EmptyString ->
  JS.trim (pre +:+ String c0 X +:+ post) = String c0 X.
Proof.
  intros Hpre Hpost H0 H1 E. unfold JS.trim.
  rewrite trimStart_app by exact Hpre.
  change (String c0 X +:+ post) with (String c0 (X +:+ post)).
  rewrite trimStart_token by exact H0.
  change (String c0 (X +:+ post)) with (String c0 X +:+ post).
  rewrite trimEnd_app by exact Hpost. rewrite E. now apply trimEnd_token.
Qed.

Lemma json_ws_is_space s : JS.all_chars is_ws s = true -> JS.all_chars JS.is_space s = true.
Proof.
  induction s as [|c s IH]; [reflexivity|]. simpl. intros H.
  apply andb_true_iff in H as [Hc Hs]. rewrite IH by exact Hs.
  destruct c as [[] [] [] [] [] [] [] []]; try reflexivity; discriminate Hc.
Qed.

(** *** The ends of a printed value *)

Lemma value_start_token c :
  value_start c ->
  JS.is_space c = false /\ JS.lower_char c <> "j"%char /\
  (nat_of_ascii c =? 10)%nat = false /\ c <> "`"%char.
Proof.
  intros H.
  destruct c as [[] [] [] [] [] [] [] []];
    try (split; [reflexivity | split; [discriminate | split; [reflexivity | discriminate]]]);
    exfalso; destruct H as [H|H]; try discriminate H;
    simpl in H; repeat (destruct H as [H|H]; [discriminate H|]); exact H.
Qed.

Lemma uint_last d :
  d <> Decimal.Nil ->
  exists a c, NilEmpty.string_of_uint d = a +:+ String c EmptyString /\ is_digit c = true.
Proof.
  induction d as [|d IH|d IH|d IH|d IH|d IH|d IH|d IH|d IH|d IH|d IH]; intros Hd;
    [congruence|..];
    (destruct d as [|d'|d'|d'|d'|d'|d'|d'|d'|d'|d'];
     [ eexists EmptyString, _; split; reflexivity
     | destruct IH as (a & c & E & Hc); [discriminate|];
       eexists (String _ a), c; cbn [NilEmpty.string_of_uint] in *; rewrite E;
       split; [reflexivity | exact Hc] .. ]).
Qed.

Lemma digit_not_space c : is_digit c = true -> JS.is_space c = false.
Proof.
  intros H. destruct c as [[] [] [] [] [] [] [] []]; try reflexivity; discriminate H.
Qed.

Lemma stringify_last j :
  exists a c, stringify j = a +:+ String c EmptyString /\ JS.is_space c = false.
Proof.
  destruct j as [| [] | [|p|p] | s | l | m]; cbn [stringify print_Z].
  - now exists "nul", "l"%char.
  - now exists "tru", "e"%char.
  - now exists "fals", "e"%char.
  - now exists "", "0"%char.
  - destruct (uint_last (Pos.to_uint p) (DecimalPos.Unsigned.to_uint_nonnil p))
      as (a & c & -> & Hc).
    exists a, c. split; [reflexivity | now apply digit_not_space].
  - destruct (uint_last (Pos.to_uint p) (DecimalPos.Unsigned.to_uint_nonnil p))
      as (a & c & -> & Hc).
    exists ("-" +:+ a), c. split; [reflexivity | now apply digit_not_space].
  - exists (JS.dquote +:+ escape s), "034"%char. unfold quote.
    now rewrite append_assoc.
  - exists ("[" +:+ join_comma (map stringify l)), "]"%char. now rewrite append_assoc.
  - eexists ("{" +:+ join_comma _), "}"%char. now rewrite append_assoc.
Qed.

(** *** [cleaned] *)

Lemma cleaned_bare j pre post :
  JS.all_chars JS.is_space pre = true -> JS.all_chars JS.is_space post = true ->
  cleaned (pre +:+ stringify j +:+ post) = stringify j.
Proof.
  intros Hpre Hpost. unfold cleaned.
  destruct (stringify_head j) as (c0 & X & E0 & Hc0).
  destruct (stringify_last j) as (a & c1 & E1 & Hc1).
  destruct (value_start_token c0 Hc0) as (Hs & _ & _ & Hfence).
  rewrite E0 in *.
  rewrite (trim_core pre post c0 X a c1) by assumption.
  unfold JS.startsWith. cbn [String.prefix].
  destruct (ascii_dec "`" c0) as [<-|_]; [congruence | reflexivity].
Qed.

Lemma strip_suffix_app p a : JS.strip_suffix p (a +:+ p) = a.
Proof.
  induction a as [|c a IH].
  - simpl. destruct p; simpl; [reflexivity|]. now rewrite Ascii.eqb_refl, String.eqb_refl.
  - cbn [String.append]. destruct p as [|d p].
    + rewrite !append_nil_r in *. cbn [JS.strip_suffix]. simpl String.eqb. now rewrite IH.
    + cbn [JS.strip_suffix].
      replace (String.eqb (String c (a +:+ String d p)) (String d p)) with false.
      * now rewrite IH.
      * symmetry. apply String.eqb_neq. intros H.
        apply (f_equal String.length) in H. simpl in H. rewrite length_append in H.
        simpl in H. lia.
Qed.

Lemma toLowerCase_app a b :
  JS.toLowerCase (a +:+ b) = JS.toLowerCase a +:+ JS.toLowerCase b.
Proof. induction a as [|c a IH]; simpl; [reflexivity | now rewrite IH]. Qed.

Lemma toLowerCase_length a : String.length (JS.toLowerCase a) = String.length a.
Proof. induction a as [|c a IH]; simpl; [reflexivity | now rewrite IH]. Qed.

Lemma drop_app a b : JS.drop (String.length a) (a +:+ b) = b.
Proof. induction a as [|c a IH]; simpl; [now destruct b | exact IH]. Qed.

(** The opening fence, with or without the tag and the line feed. *)
Lemma strip_open_fence_value tag (newline : bool) j rest :
  tag = EmptyString \/ JS.toLowerCase tag = "json" ->
  strip_open_fence
    ("```" +:+ tag +:+ (if newline then JS.nl else EmptyString) +:+ stringify j +:+ rest)
  = stringify j +:+ rest.
Proof.
  intros Htag. unfold strip_open_fence.
  change (JS.drop 3 ("```" +:+ ?x)) with x.
  destruct (stringify_head j) as (c0 & X & E0 & Hc0).
  destruct (value_start_token c0 Hc0) as (_ & Hj & Hnl & _).
  rewrite E0. destruct Htag as [-> | Htag].
  - destruct newline; cbn [String.append JS.nl].
    + cbn. reflexivity.
    + unfold JS.startsWith. cbn [JS.toLowerCase String.prefix].
      destruct (ascii_dec "j" (JS.lower_char c0)) as [E|_]; [congruence|].
      now rewrite Hnl.
  - set (r := (if newline then JS.nl else EmptyString) +:+ String c0 X +:+ rest).
    unfold JS.startsWith. rewrite toLowerCase_app, Htag.
    rewrite prefix_append.
    assert (Hlen : String.length tag = 4%nat)
      by (rewrite <- toLowerCase_length, Htag; reflexivity).
    assert (Hdrop : JS.drop 4 (tag +:+ r) = r) by (rewrite <- Hlen; apply drop_app).
    rewrite Hdrop. subst r. destruct newline; cbn [String.append JS.nl].
    + reflexivity.
    + now rewrite Hnl.
Qed.

Lemma cleaned_fenced j pre post tag (newline : bool) gap :
  JS.all_chars JS.is_space pre = true -> JS.all_chars JS.is_space post = true ->
  tag = EmptyString \/ JS.toLowerCase tag = "json" ->
  cleaned (pre +:+ "```" +:+ tag +:+ (if newline then JS.nl else EmptyString)
           +:+ stringify j +:+ gap +:+ "```" +:+ post)
  = stringify j +:+ gap.
Proof.
  intros Hpre Hpost Htag. unfold cleaned.
  set (inner := tag +:+ (if newline then JS.nl else EmptyString) +:+ stringify j +:+ gap).
  assert (Etext : pre +:+ "```" +:+ tag +:+ (if newline then JS.nl else EmptyString)
                  +:+ stringify j +:+ gap +:+ "```" +:+ post
                  = pre +:+ String "`" ("``" +:+ inner +:+ "```") +:+ post).
  { subst inner. cbn [String.append]. now rewrite !append_assoc. }
  rewrite Etext.
  rewrite (trim_core pre post "`" ("``" +:+ inner +:+ "```") ("```" +:+ inner +:+ "``") "`");
    try assumption; try reflexivity.
  2: { cbn [String.append]. now rewrite !append_assoc. }
  change (String "`" ("``" +:+ inner +:+ "```")) with ("```" +:+ inner +:+ "```").
  unfold JS.startsWith. rewrite prefix_append.
  subst inner. rewrite !append_assoc.
  rewrite (strip_open_fence_value tag newline j (gap +:+ "```") Htag).
  rewrite <- append_assoc. apply strip_suffix_app.
Qed.

End Responses.

Section ParseResponse.
Import JSON Codec Runtime geminiService.

Lemma truthy_app pre c X : JS.truthy (pre +:+ String c X) = true.
Proof. now destruct pre. Qed.

Lemma parseJSONResponse_value {T} (dec : json -> option T) (text : string) j v gap :
  dec j = Some v ->
  JS.truthy text = true -> cleaned text = stringify j +:+ gap ->
  JS.all_chars is_ws gap = true ->
  parseJSONResponse dec text = Ok v.
Proof.
  intros Hv Ht Hc Hgap. unfold parseJSONResponse. rewrite Ht, Hc. cbn [negb].
  pose proof (parse_stringify_ws j EmptyString gap eq_refl Hgap) as Hp.
  cbn [String.append] in Hp. now rewrite Hp, Hv.
Qed.

Lemma parseJSONResponse_bare {T} (dec : json -> option T) j v pre post :
  dec j = Some v ->
  JS.all_chars JS.is_space pre = true -> JS.all_chars JS.is_space post = true ->
  parseJSONResponse dec (pre +:+ stringify j +:+ post) = Ok v.
Proof.
  intros Hv Hpre Hpost. apply (parseJSONResponse_value dec _ j v EmptyString).
  - exact Hv.
  - destruct (stringify_head j) as (c & X & -> & _). apply truthy_app.
  - rewrite append_nil_r. now apply cleaned_bare.
  - reflexivity.
Qed.

Lemma parseJSONResponse_fence {T} (dec : json -> option T) j v pre post tag (newline : bool)
    gap :
  dec j = Some v ->
  JS.all_chars JS.is_space pre = true -> JS.all_chars JS.is_space post = true ->
  JS.all_chars is_ws gap = true ->
  tag = EmptyString \/ JS.toLowerCase tag = "json" ->
  parseJSONResponse dec
    (pre +:+ "```" +:+ tag +:+ (if newline then JS.nl else EmptyString)
     +:+ stringify j +:+ gap +:+ "```" +:+ post)
  = Ok v.
Proof.
  intros Hv Hpre Hpost Hgap Htag. apply (parseJSONResponse_value dec _ j v gap).
  - exact Hv.
  - apply truthy_app.
  - now apply cleaned_fenced.
  - exact Hgap.
Qed.

End ParseResponse.

(** X6.  [parseJSONResponse] returns the value a response denotes when the
    response is the JSON text of a value of the expected type: bare, between
    spaces, or in a Markdown code fence (with or without the tag [json] in
    any case and a line break after it, and with white space before the
    closing fence).  An empty response is refused with the error
    [Empty response from AI service.]. *)
Theorem parseJSONResponse_fenced {T : Type} (dec : JSON.json -> option T) (j : JSON.json)
    (v : T) (pre post tag gap : string) (newline : bool) :
  dec j = Some v ->
  JS.all_chars JS.is_space pre = true ->
  JS.all_chars JS.is_space post = true ->
  JS.all_chars JSON.is_ws gap = true ->
  tag = EmptyString \/ JS.toLowerCase tag = "json" ->
  geminiService.parseJSONResponse dec (JSON.stringify j) = Runtime.Ok v /\
  geminiService.parseJSONResponse dec (pre +:+ JSON.stringify j +:+ post) = Runtime.Ok v /\
  geminiService.parseJSONResponse dec
    (pre +:+ "```" +:+ tag +:+ (if newline then JS.nl else EmptyString)
     +:+ JSON.stringify j +:+ gap +:+ "```" +:+ post) = Runtime.Ok v /\
  geminiService.parseJSONResponse dec EmptyString
  = Runtime.Throw (Runtime.Error "Empty response from AI service.").
Proof.
  intros Hv Hpre Hpost Hgap Htag. split; [|split; [|split]].
  - pose proof (parseJSONResponse_bare dec j v EmptyString EmptyString Hv eq_refl eq_refl) as H.
    cbn [String.append] in H. now rewrite append_nil_r in H.
  - now apply parseJSONResponse_bare.
  - now apply parseJSONResponse_fence.
  - reflexivity.
Qed.

Lemma parseJSONResponse_fenced_witness :
  geminiService.parseJSONResponse Codec.ContractAnalysis_of_json
    ("```json" +:+ JS.nl +:+ JSON.stringify (Codec.ContractAnalysis_to_json Samples.analysis)
     +:+ JS.nl +:+ "```" +:+ JS.nl)
  = Runtime.Ok Samples.analysis.
Proof.
  exact (proj1 (proj2 (proj2 (parseJSONResponse_fenced Codec.ContractAnalysis_of_json
                                (Codec.ContractAnalysis_to_json Samples.analysis)
                                Samples.analysis
                                EmptyString JS.nl "json" JS.nl true
                                eq_refl eq_refl eq_refl eq_refl (or_intror eq_refl))))).
Defined.

(** X7.  With an API key, when the model answers with the JSON text of an
    analysis, bare or in a code fence, [analyzeContract] resolves to that
    analysis after exactly one request. *)
Theorem analyzeContract_resolves (analysis : ContractAnalysis.t)
    (base64Data : option string) (mimeType : string) (w : Runtime.World)
    (pre post tag gap : string) (newline fenced : bool) :
  let request := Runtime.ReqAnalyze mimeType base64Data in
  let body := JSON.stringify (Codec.ContractAnalysis_to_json analysis) in
  let text :=
    if fenced
    then pre +:+ "```" +:+ tag +:+ (if newline then JS.nl else EmptyString)
         +:+ body +:+ gap +:+ "```" +:+ post
    else pre +:+ body +:+ post in
  JS.truthy (Runtime.API_KEY (Runtime.platform w)) = true ->
  Runtime.generateContent (Runtime.platform w) (Runtime.requests_issued w) request
  = Runtime.Responded text ->
  JS.all_chars JS.is_space pre = true ->
  JS.all_chars JS.is_space post = true ->
  JS.all_chars JSON.is_ws gap = true ->
  tag = EmptyString \/ JS.toLowerCase tag = "json" ->
  Runtime.run (geminiService.analyzeContract base64Data mimeType) w
  = (Runtime.emit (Runtime.EvRequest request) w, Runtime.Ok analysis).
Proof.
  intros request body text Hkey Hresp Hpre Hpost Hgap Htag.
  unfold geminiService.analyzeContract. rewrite run_with_key, Hkey. cbn [negb].
  rewrite run_try_catch, run_bind, run_generateContent. fold request. rewrite Hresp.
  cbn [Runtime.run].
  assert (Hparse : geminiService.parseJSONResponse Codec.ContractAnalysis_of_json text
                   = Runtime.Ok analysis).
  { subst text body. destruct fenced.
    - apply parseJSONResponse_fence; auto using ContractAnalysis_roundtrip.
    - apply parseJSONResponse_bare; auto using ContractAnalysis_roundtrip. }
  now rewrite Hparse.
Qed.

Lemma analyzeContract_resolves_witness :
  Runtime.run (geminiService.analyzeContract (Some "JVBERi0xLjQ=") "application/pdf")
    (Samples.world "test-key" 4000 [])
  = (Runtime.emit
       (Runtime.EvRequest (Runtime.ReqAnalyze "application/pdf" (Some "JVBERi0xLjQ=")))
       (Samples.world "test-key" 4000 []),
     Runtime.Ok Samples.analysis).
Proof.
  exact (analyzeContract_resolves Samples.analysis (Some "JVBERi0xLjQ=") "application/pdf"
           (Samples.world "test-key" 4000 []) EmptyString EmptyString EmptyString EmptyString
           false false eq_refl eq_refl eq_refl eq_refl eq_refl (or_introl eq_refl)).
Defined.

(** ** The upload page: retry, removal and the action bar *)

Section Upload.
Import Runtime ContractUpload.

Lemma guarantees_run {A} (R : World -> World -> Prop) (m : Async A) w :
  (forall w, R w w) -> (forall w1 w2 w3, R w1 w2 -> R w2 w3 -> R w1 w3) ->
  guarantees R m -> R w (fst (run m w)).
Proof.
  intros Hrefl Htrans. revert w.
  induction m as [r|step k IH|k IH]; intros w H; simpl in *; auto.
  destruct (H w) as [Hs Hk]. eauto.
Qed.

(** [arr.map((x, i) => i === index ? g x : x)] changes the entry at
    [index], when there is one. *)
Lemma imap_at {A} (g : A -> A) (index : nat) (l : list A) :
  imap (fun i x => if (i =? index)%nat then g x else x) l
  = match l !! index with
    | Some x => <[index := g x]> l
    | None => l
    end.
Proof.
  revert index. induction l as [|y l IH]; intros index; [reflexivity|].
  rewrite imap_cons. destruct index as [|index]; simpl.
  - f_equal. clear IH. induction l as [|z l IHl]; [reflexivity|].
    rewrite imap_cons. simpl. f_equal. exact IHl.
  - f_equal. unfold compose. simpl. rewrite (IH index).
    now destruct (l !! index).
Qed.

(** [arr.filter((_, i) => i !== index)] deletes the entry at [index]. *)
Lemma filter_index_delete {A} (index : nat) (l : list A) :
  JS.filter_index (fun i => negb (i =? index)%nat) l = delete index l.
Proof.
  unfold JS.filter_index.
  assert (H : forall (g : nat -> nat) l index,
            (forall i j, g i = g j -> i = j) ->
            map snd (List.filter (fun ix : nat * A => negb (fst ix =? g index)%nat)
                       (imap (fun i x => (g i, x)) l))
            = delete index l).
  { clear. intros g l. revert g. induction l as [|y l IH]; intros g index Hg; [reflexivity|].
    rewrite imap_cons. simpl. destruct index as [|index].
    - rewrite Nat.eqb_refl. simpl.
      clear IH. unfold compose.
      assert (Hall : forall (l : list A) (h : nat -> nat), (forall i, h i <> g 0%nat) ->
                map snd (List.filter (fun ix : nat * A => negb (fst ix =? g 0)%nat)
                           (imap (fun i x => (h i, x)) l)) = l).
      { clear -Hg. induction l as [|z l IHl]; intros h Hh; [reflexivity|].
        rewrite imap_cons. simpl. specialize (Hh 0%nat) as Hh0.
        apply Nat.eqb_neq in Hh0. rewrite Hh0. simpl. f_equal.
        apply (IHl (fun i => h (S i))). intros i. apply Hh. }
      apply (Hall l (fun i => g (S i))). intros i E. apply Hg in E. discriminate.
    - destruct (Nat.eqb_spec (g 0%nat) (g (S index))) as [E|_];
        [apply Hg in E; discriminate|].
      simpl. f_equal. unfold compose.
      apply (IH (fun i => g (S i)) index). intros i j E. apply Hg in E. congruence. }
  apply (H (fun i => i) l index). auto.
Qed.

(** What [processFile] resolves to keeps the error text of the entry it
    was given when it succeeds: the new entry spreads the old one. *)
Lemma processFile_result user fileState :
  always (fun r => exists result, r = Ok result /\ outcome_of fileState result /\
                     (FileUploadState.status result = success ->
                      FileUploadState.error result = FileUploadState.error fileState))
         (processFile user fileState).
Proof.
  unfold processFile.
  apply always_try_catch with
    (P := fun r => match r with
                   | Ok result =>
                       FileUploadState.file result = FileUploadState.file fileState /\
                       FileUploadState.status result = success /\
                       FileUploadState.error result = FileUploadState.error fileState /\
                       exists c, FileUploadState.contract result = Some c
                   | Throw _ => True
                   end).
  - repeat (apply always_bind with (P := fun _ => True);
            [apply always_true | intros ? _ | auto]).
    simpl. eauto.
  - intros result (Hfile & Hstatus & Herr & Hc). exists result. split; [reflexivity|].
    split; [|auto]. split; [exact Hfile|]. left. auto.
  - intros e _. simpl. eexists. split; [reflexivity|]. split.
    + split; [reflexivity|]. right. simpl. eauto.
    + simpl. discriminate.
Qed.

End Upload.

Section Interleaving.
Import Runtime ContractUpload.

Lemma run_among_nil {A} (m : Async A) w : run_among [] m w = run m w.
Proof. revert w. induction m as [r|step k IH|k IH]; intros w; simpl; auto. Qed.

(** A continuation that is never suspended runs where the function it
    follows has settled. *)
Lemma run_among_bind {A B} (m : Async A) (f : A -> Async B) others w :
  (forall a others w, run_among others (f a) w = run (f a) w) ->
  run_among others (bind m f) w
  = match run_among others m w with
    | (w', Ok a) => run (f a) w'
    | (w', Throw e) => (w', Throw e)
    end.
Proof.
  intros Hf. revert others w.
  induction m as [[a|e]|step k IH|k IH]; intros others w; simpl; auto.
  destruct others as [|other rest]; apply IH.
Qed.

Lemma always_run_among {A} (P : Result A -> Prop) (m : Async A) others w :
  always P m -> P (snd (run_among others m w)).
Proof.
  revert others w. induction m as [r|step k IH|k IH]; intros others w H; simpl in *; auto.
  destruct others as [|other rest]; auto.
Qed.

(** The batch is as it was after a function that does not change it, run
    among events that do not change it either. *)
Lemma run_among_files {A} (m : Async A) others w :
  guarantees analysis_step m ->
  Forall (fun other => forall w, files (other w) = files w) others ->
  files (fst (run_among others m w)) = files w.
Proof.
  revert others w. induction m as [r|step k IH|k IH]; intros others w Hg Ho; simpl in *.
  - reflexivity.
  - destruct (Hg w) as [(_ & Hf & _) Hk]. rewrite (IH w others (step w) Hk Ho). exact Hf.
  - destruct others as [|other rest]; [now apply IH|].
    inversion Ho as [|? ? Hother Hrest]; subst.
    rewrite (IH rest (other w) Hg Hrest). apply Hother.
Qed.

End Interleaving.

(** X8.  [retryFile] never rejects, and on an index without an entry it does
    nothing.  Otherwise it marks the entry at the index of the current batch
    [processing] with its error cleared, runs [processFile] on the entry of
    its render, as [pending] and without error, and writes the result at the
    same index of the batch as it is when the analysis has settled.  The
    page handles other events meanwhile.  When none of them changes the
    batch the retried entry is replaced by the result and the other entries
    are as they were; a retry that ends with [success] carries no error.
    Run alone, it shows the page the marked batch, its requests, and the
    batch with the result, and leaves the global error as it was. *)
Theorem retryFile_entry (user : User.t) (files : list FileUploadState.t) (index : nat)
    (others : list (Runtime.World -> Runtime.World)) (w : Runtime.World) :
  let retried := Runtime.run_among others (ContractUpload.retryFile user files index) w in
  Runtime.always (fun r => r = Runtime.Ok tt) (ContractUpload.retryFile user files index) /\
  (files !! index = None -> retried = (w, Runtime.Ok tt)) /\
  (forall fileToRetry,
     files !! index = Some fileToRetry ->
     let given :=
       FileUploadState.mk (FileUploadState.file fileToRetry) pending None
         (FileUploadState.contract fileToRetry) in
     let mark f :=
       FileUploadState.mk (FileUploadState.file f) processing None
         (FileUploadState.contract f) in
     let w1 :=
       ContractUpload.setFiles
         (imap (fun i f => if (i =? index)%nat then mark f else f)) w in
     let analysis :=
       Runtime.run_among others (Runtime.await (ContractUpload.processFile user given)) w1 in
     exists result,
       snd analysis = Runtime.Ok result /\
       ContractUpload.outcome_of fileToRetry result /\
       (FileUploadState.status result = success -> FileUploadState.error result = None) /\
       snd retried = Runtime.Ok tt /\
       Runtime.files w1
       = match Runtime.files w !! index with
         | Some f => <[index := mark f]> (Runtime.files w)
         | None => Runtime.files w
         end /\
       Runtime.files (fst retried) = <[index := result]> (Runtime.files (fst analysis)) /\
       Runtime.globalError (fst retried) = Runtime.globalError (fst analysis) /\
       (Forall (fun other => forall w, Runtime.files (other w) = Runtime.files w) others ->
        Runtime.files (fst retried) = <[index := result]> (Runtime.files w)) /\
       (others = [] -> Runtime.files w = files ->
        snd (Runtime.run (ContractUpload.processFile user given) w1) = Runtime.Ok result /\
        exists reqs,
          Runtime.trace (fst retried)
          = Runtime.trace w ++ [Runtime.EvSetFiles (<[index := mark fileToRetry]> files)]
              ++ map Runtime.EvRequest reqs
              ++ [Runtime.EvSetFiles (<[index := result]> files)] /\
          Runtime.globalError (fst retried) = Runtime.globalError w)).
Proof.
  intros retried. split; [|split].
  - unfold ContractUpload.retryFile. destruct (files !! index) as [f|]; [|reflexivity].
    cbn [Runtime.always]. intros w0.
    apply always_bind with (P := fun r => exists result, r = Runtime.Ok result).
    + apply always_await. eapply always_impl; [|apply processFile_result].
      intros r (result & -> & _). eauto.
    + intros result _. simpl. auto.
    + intros e (result & [=]).
  - intros Hnone. subst retried. unfold ContractUpload.retryFile. now rewrite Hnone.
  - intros fileToRetry Hindex given mark w1 analysis.
    set (analysis0 := Runtime.run_among others
                        (Runtime.await (ContractUpload.processFile user given)) w1) in *.
    assert (Han : analysis = analysis0) by reflexivity.
    clearbody analysis.
    assert (Hres : exists result, snd analysis = Runtime.Ok result /\
              ContractUpload.outcome_of given result /\
              (FileUploadState.status result = success ->
               FileUploadState.error result = FileUploadState.error given)).
    { rewrite Han. apply always_run_among. apply always_await.
      eapply always_impl; [|apply processFile_result]. intros r (result & -> & H). eauto. }
    destruct Hres as (result & Hresult & Hout & Herr).
    assert (Hretried : retried
              = (ContractUpload.setFiles
                   (imap (fun i f => if (i =? index)%nat then result else f)) (fst analysis),
                 Runtime.Ok tt)).
    { subst retried. unfold ContractUpload.retryFile. rewrite Hindex.
      cbn [Runtime.run_among].
      rewrite run_among_bind by reflexivity.
      match goal with
      | |- context [Runtime.run_among others (Runtime.await ?m) ?w0] =>
          change (Runtime.run_among others (Runtime.await m) w0) with analysis0
      end.
      rewrite <- Han.
      destruct analysis as [w2 r]. simpl in Hresult. subst r. reflexivity. }
    assert (Hw1 : Runtime.files w1
                  = match Runtime.files w !! index with
                    | Some f => <[index := mark f]> (Runtime.files w)
                    | None => Runtime.files w
                    end).
    { subst w1. simpl. apply (imap_at mark index (Runtime.files w)). }
    assert (Hfinal : Runtime.files (fst retried)
                     = <[index := result]> (Runtime.files (fst analysis))).
    { rewrite Hretried. simpl.
      rewrite (imap_at (fun _ => result) index (Runtime.files (fst analysis))).
      destruct (Runtime.files (fst analysis) !! index) eqn:E; [reflexivity|].
      symmetry. apply list_insert_ge. now apply lookup_ge_None. }
    exists result. split; [exact Hresult|]. split; [exact Hout|].
    split; [intros Hs; now rewrite (Herr Hs)|].
    split; [now rewrite Hretried|]. split; [exact Hw1|]. split; [exact Hfinal|].
    split; [now rewrite Hretried|]. split.
    + intros Hquiet. rewrite Hfinal, Han. subst analysis0.
      rewrite run_among_files;
        [|apply guarantees_await, processFile_guarantees | exact Hquiet].
      rewrite Hw1. destruct (Runtime.files w !! index); [|reflexivity].
      apply list_insert_insert_eq.
    + intros -> Hfiles. subst analysis analysis0. rewrite run_among_nil, run_await in *.
      pose proof (guarantees_run ContractUpload.analysis_step
                    (ContractUpload.processFile user given) w1
                    analysis_step_refl analysis_step_trans
                    (processFile_guarantees user given)) as Hstep.
      split; [exact Hresult|].
      destruct Hstep as (Hp & Hf & Hg & reqs & Ht). exists reqs.
      rewrite Hfiles, Hindex in Hw1.
      rewrite Hretried. cbn [fst]. split.
      * unfold ContractUpload.setFiles at 1. cbn [Runtime.trace Runtime.emit Runtime.with_files
                                                   Runtime.files].
        rewrite (imap_at (fun _ => result) index), Hf, Hw1.
        rewrite list_lookup_insert_eq by (now apply lookup_lt_Some in Hindex).
        rewrite list_insert_insert_eq, Ht. subst w1. simpl.
        rewrite (imap_at mark index (Runtime.files w)), Hfiles, Hindex.
        now rewrite <- !app_assoc.
      * unfold ContractUpload.setFiles at 1. cbn [Runtime.globalError Runtime.emit
                                                   Runtime.with_files].
        rewrite Hg. reflexivity.
Qed.

Lemma retryFile_entry_witness :
  exists result,
    snd (Runtime.run
           (ContractUpload.processFile Samples.user
              (FileUploadState.mk Samples.scan pending None None))
           (ContractUpload.setFiles
              (imap (fun i f =>
                       if (i =? 1)%nat
                       then FileUploadState.mk (FileUploadState.file f) processing None
                              (FileUploadState.contract f)
                       else f))
              (Samples.world "test-key" 4000 [Samples.fresh; Samples.failed])))
    = Runtime.Ok result /\
    Runtime.files
      (fst (Runtime.run_among [] (ContractUpload.retryFile Samples.user
                                    [Samples.fresh; Samples.failed] 1)
              (Samples.world "test-key" 4000 [Samples.fresh; Samples.failed])))
    = [Samples.fresh; result].
Proof.
  destruct (proj2 (proj2 (retryFile_entry Samples.user [Samples.fresh; Samples.failed] 1 []
                            (Samples.world "test-key" 4000 [Samples.fresh; Samples.failed])))
              Samples.failed eq_refl)
    as (result & _ & _ & _ & _ & _ & _ & _ & Hquiet & Halone).
  exists result. split.
  - apply (Halone eq_refl eq_refl).
  - apply Hquiet. constructor.
Defined.

(** A removal during a retry.  The batch holds three files and the second
    is retried; while its analysis is in flight the first entry is removed.
    The result is written at index 1 all the same, where the third file now
    is: its entry is lost, and the entry of the retried file stays
    [processing]. *)
Example retryFile_after_removal :
  let batch :=
    [Samples.fresh; Samples.failed; FileUploadState.mk Samples.pdf pending None None] in
  let w := Samples.world "test-key" 4000 batch in
  let w' :=
    fst (Runtime.run_among [ContractUpload.handleRemoveFile batch 0]
           (ContractUpload.retryFile Samples.user batch 1) w) in
  map (fun f => (File.name (FileUploadState.file f), FileUploadState.status f))
      (Runtime.files w')
  = [("scan.png", processing); ("scan.png", success)].
Proof. vm_compute. reflexivity. Qed.

(** X9.  [handleRemoveFile] deletes the entry at the index and shifts the later
    ones down by one; an index out of range changes nothing.  The global
    error is cleared exactly when the list the handler saw had at most one
    entry, and the store is not touched. *)
Theorem handleRemoveFile_deletes (files : list FileUploadState.t) (index : nat)
    (w : Runtime.World) :
  let w' := ContractUpload.handleRemoveFile files index w in
  Runtime.files w' = delete index (Runtime.files w) /\
  (forall j, (j < index)%nat -> Runtime.files w' !! j = Runtime.files w !! j) /\
  (forall j, (index <= j)%nat -> Runtime.files w' !! j = Runtime.files w !! S j) /\
  ((length (Runtime.files w) <= index)%nat -> Runtime.files w' = Runtime.files w) /\
  ((index < length (Runtime.files w))%nat ->
   S (length (Runtime.files w')) = length (Runtime.files w)) /\
  Runtime.globalError w'
  = (if (length files <=? 1)%nat then None else Runtime.globalError w) /\
  Runtime.localStorage w' = Runtime.localStorage w.
Proof.
  intros w'.
  assert (Hfiles : Runtime.files w' = delete index (Runtime.files w)).
  { subst w'. unfold ContractUpload.handleRemoveFile.
    destruct (length files <=? 1)%nat; simpl; apply filter_index_delete. }
  rewrite Hfiles. split; [reflexivity|]. split; [|split; [|split; [|split; [|split]]]].
  - intros j Hj. now apply list_lookup_delete_lt.
  - intros j Hj. now apply list_lookup_delete_ge.
  - intros Hlen. rewrite delete_take_drop, take_ge, drop_ge by lia. apply app_nil_r.
  - intros Hlt. rewrite length_delete; [lia|]. now apply lookup_lt_is_Some_2.
  - subst w'. unfold ContractUpload.handleRemoveFile.
    now destruct (length files <=? 1)%nat.
  - subst w'. unfold ContractUpload.handleRemoveFile.
    now destruct (length files <=? 1)%nat.
Qed.

Lemma handleRemoveFile_deletes_witness :
  Runtime.files
    (ContractUpload.handleRemoveFile [Samples.fresh; Samples.failed] 0
       (Samples.world "test-key" 4000 [Samples.fresh; Samples.failed])) !! 0%nat
  = Some Samples.failed.
Proof.
  apply (proj1 (proj2 (proj2 (handleRemoveFile_deletes [Samples.fresh; Samples.failed] 0
                                (Samples.world "test-key" 4000
                                   [Samples.fresh; Samples.failed])))) 0%nat).
  lia.
Defined.

Section BatchResults.
Import Runtime ContractUpload.

Context (Q : FileUploadState.t -> FileUploadState.t -> Prop) (user : User.t).
Hypothesis processFile_Q :
  forall fileState,
    always (fun r => exists result, r = Ok result /\ Q fileState result)
           (processFile user fileState).

Lemma process_item_Q item :
  always (fun r => exists result, r = Ok (snd item, result) /\ Q (fst item) result)
         (process_item user item).
Proof.
  unfold process_item.
  apply always_bind with
    (P := fun r => exists result, r = Ok result /\ Q (fst item) result).
  - apply always_await, processFile_Q.
  - intros a (result & [= ->] & H). simpl. eauto.
  - intros e (result & [=] & _).
Qed.

(** The batch completes, and every entry it processed is as [processFile]
    leaves it. *)
Lemma handleAnalyzeAll_results files sched w :
  Runtime.files w = files ->
  fair (length (filesToProcess files)) sched ->
  exists results w',
    handleAnalyzeAll user files sched w = (navigation files results w', Some (Ok tt)) /\
    Forall2 (fun item r => fst r = snd item /\ Q (fst item) (snd r))
            (filesToProcess files) results /\
    Runtime.files w' = apply_results results (map mark_processing files).
Proof.
  intros Hfiles Hfair. unfold handleAnalyzeAll.
  set (w1 := setFiles (map mark_processing) w).
  set (calls := map (process_item user) (filesToProcess files)).
  pose proof (launch_all_guarantees analysis_step calls w1
                analysis_step_refl analysis_step_trans) as Hlaunch.
  pose proof (launch_all_length calls w1) as Hlen.
  pose proof (launch_all_lookup calls w1) as Hlook.
  destruct (launch_all calls w1) as [w2 promises]. simpl in Hlaunch, Hlen, Hlook.
  assert (Hcalls : forall i m, calls !! i = Some m ->
            exists item, filesToProcess files !! i = Some item /\ m = process_item user item).
  { intros i m Hi. subst calls. rewrite list_lookup_fmap in Hi.
    destruct (filesToProcess files !! i) as [item|]; [|discriminate].
    injection Hi as <-. eauto. }
  assert (Hlaunch' : analysis_step w1 w2).
  { apply Hlaunch. subst calls. apply List.Forall_forall. intros m Hm.
    apply in_map_iff in Hm as (item & <- & _). apply process_item_guarantees. }
  set (P := fun (i : nat) (r : Result (nat * FileUploadState.t)) =>
              exists item result, filesToProcess files !! i = Some item /\
                r = Ok (snd item, result) /\ Q (fst item) result).
  pose proof (Promise_all_completes sched promises w2) as Hdone.
  pose proof (Promise_all_results P sched promises w2) as Hres.
  pose proof (Promise_all_guarantees analysis_step sched promises w2
                analysis_step_refl analysis_step_trans) as Hguar.
  destruct (Promise_all sched promises w2) as [[w3 pool3] r]. simpl in Hdone, Hres, Hguar.
  destruct Hdone as [r' ->].
  { intros i p Hp. destruct (Hlook i p Hp) as (m & wi & Hm & ->).
    destruct (Hcalls i m Hm) as (item & Hitem & ->).
    split; [apply parked_advance|].
    apply within_advance. eapply within_mono; [|apply process_item_within].
    apply Hfair. apply lookup_lt_Some in Hitem. exact Hitem. }
  assert (Hres' : match r' with
                  | Ok values => length values = length promises /\
                                 forall i v, values !! i = Some v -> P i (Ok v)
                  | Throw e => exists i, P i (Throw e)
                  end).
  { apply Hres. intros i p Hp. destruct (Hlook i p Hp) as (m & wi & Hm & ->).
    destruct (Hcalls i m Hm) as (item & Hitem & ->).
    apply always_advance. eapply always_impl; [|apply process_item_Q].
    intros r (result & -> & Hout). exists item, result. auto. }
  assert (Hstep : analysis_step w2 w3).
  { apply Hguar. intros i p Hp. destruct (Hlook i p Hp) as (m & wi & Hm & ->).
    destruct (Hcalls i m Hm) as (item & Hitem & ->).
    apply (guarantees_advance analysis_step analysis_step_refl analysis_step_trans).
    apply process_item_guarantees. }
  destruct r' as [values|e]; [|destruct Hres' as (i & item & result & _ & [=] & _)].
  destruct Hres' as [Hvlen Hvalues].
  destruct (analysis_step_trans _ _ _ Hlaunch' Hstep) as (Hp13 & Hf13 & Hg13 & reqs & Ht13).
  exists values, (setFiles (apply_results values) w3).
  assert (Hf3 : Runtime.files w3 = map mark_processing files).
  { rewrite Hf13. subst w1. simpl. now rewrite Hfiles. }
  split; [reflexivity|]. split.
  - apply Forall2_same_length_lookup. split.
    + rewrite Hvlen, Hlen. subst calls. now rewrite length_map.
    + intros i item v Hitem Hv.
      destruct (Hvalues i v Hv) as (item' & result & Hitem' & [= ->] & Hout).
      rewrite Hitem in Hitem'. injection Hitem' as <-. simpl. auto.
  - simpl. now rewrite Hf3.
Qed.

(** The batch after [handleAnalyzeAll], entry by entry. *)
Lemma handleAnalyzeAll_final files sched w :
  Runtime.files w = files ->
  fair (length (filesToProcess files)) sched ->
  let final := Runtime.files (fst (handleAnalyzeAll user files sched w)) in
  length final = length files /\
  forall i f, files !! i = Some f ->
    (FileUploadState.status f = success -> final !! i = Some f) /\
    (FileUploadState.status f <> success ->
     exists result, final !! i = Some result /\ Q f result).
Proof.
  intros Hfiles Hfair final.
  destruct (handleAnalyzeAll_results files sched w Hfiles Hfair)
    as (results & w' & Hrun & Hres & Hfinal).
  destruct (navigation_effect files results w') as (Hnf & _).
  assert (Hf : final = apply_results results (map mark_processing files)).
  { subst final. rewrite Hrun. simpl. now rewrite Hnf. }
  rewrite Hf. clear Hf final.
  assert (Hidx : map fst results = map snd (filesToProcess files)).
  { clear -Hres. induction Hres as [|item r items results [H _] _ IH]; simpl; congruence. }
  split; [now rewrite apply_results_length, length_map|].
  intros i f Hi. split.
  - intros Hs.
    assert (Hm : map mark_processing files !! i = Some f).
    { rewrite list_lookup_fmap, Hi. simpl. now rewrite mark_processing_success. }
    rewrite apply_results_other; [exact Hm|].
    rewrite Hidx. intros Hin. apply in_map_iff in Hin as (item & Hsnd & Hin).
    apply filesToProcess_In in Hin as [Hitem Hns]. rewrite Hsnd, Hi in Hitem.
    injection Hitem as ->. contradiction.
  - intros Hs.
    assert (Hin : In (f, i) (filesToProcess files)) by (apply filesToProcess_In; auto).
    apply list_elem_of_In, list_elem_of_lookup in Hin as [j Hj].
    destruct (Forall2_lookup_l _ _ _ _ _ Hres Hj) as ([i' result] & Hr & Hi' & Hout).
    simpl in Hi', Hout. subst i'. exists result. split; [|exact Hout].
    apply apply_results_at.
    + rewrite Hidx. apply filesToProcess_NoDup.
    + apply list_elem_of_In. eapply list_elem_of_lookup_2. exact Hr.
    + rewrite length_map. now apply lookup_lt_Some in Hi.
Qed.

End BatchResults.

Section ActionBar.
Import Runtime ContractUpload.

Lemma settled_flags (l : list FileUploadState.t) :
  Forall (fun f => FileUploadState.status f = success \/ FileUploadState.status f = error) l ->
  hasProcessing l = false /\
  forallb (fun f => status_eqb (FileUploadState.status f) success) l = negb (hasErrors l).
Proof.
  unfold hasProcessing, hasErrors.
  induction 1 as [|f l [Hf|Hf] _ [IH1 IH2]]; [auto|..]; simpl; rewrite Hf, IH1, IH2; simpl; auto.
Qed.

Lemma processFile_settles user fileState :
  always (fun r => exists result, r = Ok result /\
                     (FileUploadState.status result = success \/
                      FileUploadState.status result = error))
         (processFile user fileState).
Proof.
  eapply always_impl; [|apply processFile_result].
  intros r (result & -> & (_ & [[Hs _]|[Hs _]]) & _); eauto.
Qed.

Lemma processFile_error_kept user fileState :
  always (fun r => exists result, r = Ok result /\
                     (FileUploadState.status result = success ->
                      FileUploadState.error result = FileUploadState.error fileState))
         (processFile user fileState).
Proof.
  eapply always_impl; [|apply processFile_result].
  intros r (result & -> & _ & Herr). eauto.
Qed.

End ActionBar.

(** X10.  When [handleAnalyzeAll] has finished, every entry is [success] or
    [error] and none is [processing]; the condition that disables the
    analyse button holds exactly when nothing failed, and the action offered
    for a list that is not empty is [Retry Failed] when an entry failed and
    [Go to Dashboard] otherwise. *)
Theorem handleAnalyzeAll_action_bar (user : User.t) (files : list FileUploadState.t)
    (sched : list nat) (w : Runtime.World) :
  Runtime.files w = files ->
  ContractUpload.fair (length (ContractUpload.filesToProcess files)) sched ->
  let final := Runtime.files (fst (ContractUpload.handleAnalyzeAll user files sched w)) in
  Forall (fun f => FileUploadState.status f = success \/ FileUploadState.status f = error)
         final /\
  ContractUpload.hasProcessing final = false /\
  ContractUpload.analyze_disabled final = negb (ContractUpload.hasErrors final) /\
  (files <> [] ->
   ContractUpload.action final
   = if ContractUpload.hasErrors final
     then ContractUpload.RetryFailed else ContractUpload.GoToDashboard).
Proof.
  intros Hfiles Hfair final.
  destruct (handleAnalyzeAll_final
              (fun _ result => FileUploadState.status result = success \/
                               FileUploadState.status result = error)
              user (processFile_settles user) files sched w Hfiles Hfair)
    as [Hlen Hentries].
  fold final in Hlen, Hentries.
  assert (Hall : Forall (fun f => FileUploadState.status f = success \/
                                  FileUploadState.status f = error) final).
  { apply Forall_lookup. intros i x Hx.
    assert (Hlt : (i < length files)%nat) by (rewrite <- Hlen; now apply lookup_lt_Some in Hx).
    apply lookup_lt_is_Some_2 in Hlt as [f Hf].
    destruct (Hentries i f Hf) as [Hok Hnot].
    destruct (FileUploadState.status f) eqn:Es;
      try (destruct Hnot as (result & Hr & Hres); [congruence|];
           rewrite Hx in Hr; injection Hr as <-; exact Hres).
    rewrite Hok in Hx by reflexivity. injection Hx as <-. now left. }
  destruct (settled_flags final Hall) as [Hproc Hsucc].
  split; [exact Hall|]. split; [exact Hproc|]. split.
  - unfold ContractUpload.analyze_disabled. rewrite Hproc, Hsucc. simpl.
    destruct final as [|x l]; simpl; [reflexivity|]. now rewrite orb_false_r.
  - intros Hne. unfold ContractUpload.action, ContractUpload.allSuccess.
    rewrite Hproc, Hsucc.
    destruct final as [|x l]; [destruct files; [congruence | discriminate Hlen]|].
    simpl length. simpl Nat.ltb. cbn [andb].
    now destruct (ContractUpload.hasErrors (x :: l)).
Qed.

Lemma handleAnalyzeAll_action_bar_witness :
  ContractUpload.action
    (Runtime.files
       (fst (ContractUpload.handleAnalyzeAll Samples.user [Samples.fresh; Samples.failed]
               Samples.alternate
               (Samples.world_unreadable_scan [Samples.fresh; Samples.failed]))))
  = ContractUpload.RetryFailed.
Proof.
  rewrite (proj2 (proj2 (proj2
             (handleAnalyzeAll_action_bar Samples.user [Samples.fresh; Samples.failed]
                Samples.alternate
                (Samples.world_unreadable_scan [Samples.fresh; Samples.failed]) eq_refl
                ltac:(intros [|[|i]] Hi; [vm_compute; lia | vm_compute; lia | simpl in Hi; lia])))))
    by discriminate.
  vm_compute. reflexivity.
Defined.

(** X11.  An entry that [handleAnalyzeAll] processes keeps its error text when
    it succeeds: unlike [retryFile], the batch does not clear the message
    of an earlier failure. *)
Theorem handleAnalyzeAll_keeps_error (user : User.t) (files : list FileUploadState.t)
    (sched : list nat) (w : Runtime.World) (i : nat) (f : FileUploadState.t) :
  Runtime.files w = files ->
  ContractUpload.fair (length (ContractUpload.filesToProcess files)) sched ->
  files !! i = Some f ->
  FileUploadState.status f <> success ->
  exists result,
    Runtime.files (fst (ContractUpload.handleAnalyzeAll user files sched w)) !! i
    = Some result /\
    (FileUploadState.status result = success ->
     FileUploadState.error result = FileUploadState.error f).
Proof.
  intros Hfiles Hfair Hi Hs.
  destruct (handleAnalyzeAll_final
              (fun fileState result =>
                 FileUploadState.status result = success ->
                 FileUploadState.error result = FileUploadState.error fileState)
              user (processFile_error_kept user) files sched w Hfiles Hfair)
    as [_ Hentries].
  exact (proj2 (Hentries i f Hi) Hs).
Qed.

Lemma handleAnalyzeAll_keeps_error_witness :
  exists result,
    Runtime.files
      (fst (ContractUpload.handleAnalyzeAll Samples.user [Samples.failed] Samples.alternate
              (Samples.world "test-key" 4000 [Samples.failed]))) !! 0%nat
    = Some result /\
    (FileUploadState.status result = success ->
     FileUploadState.error result
     = Some "AI service is temporarily unavailable. Please retry.").
Proof.
  exact (handleAnalyzeAll_keeps_error Samples.user [Samples.failed] Samples.alternate
           (Samples.world "test-key" 4000 [Samples.failed]) 0 Samples.failed eq_refl
           ltac:(intros [|i] Hi; [vm_compute; lia | simpl in Hi; lia])
           eq_refl ltac:(discriminate)).
Defined.

(** A failed entry analysed again through the batch button: it ends with
    [success] and still carries the message of its failure. *)
Example handleAnalyzeAll_retry_keeps_message :
  let w := Samples.world "test-key" 4000 [Samples.failed] in
  let w' := fst (ContractUpload.handleAnalyzeAll Samples.user [Samples.failed]
                   Samples.alternate w) in
  map FileUploadState.status (Runtime.files w') = [success] /\
  map FileUploadState.error (Runtime.files w')
  = [Some "AI service is temporarily unavailable. Please retry."].
Proof. vm_compute. split; reflexivity. Qed.

(** X12.  When the file is read, the model answers with an analysis and the
    store accepts the contract, [processFile] resolves to the entry with
    status [success] and the new contract, which is then among the user's
    contracts; the recent analyses start with its summary or are unchanged
    (when that write is refused); one request was sent and the list of
    files is not touched. *)
Theorem processFile_success (user : User.t) (fileState : FileUploadState.t)
    (w : Runtime.World) (dataURL text : string) (analysis : ContractAnalysis.t) :
  let file := FileUploadState.file fileState in
  let base64Data := JS.split_comma_1 dataURL in
  let newContract :=
    Contract.mk (Runtime.Math_random_id (Runtime.platform w) (Runtime.ticks w))
      (User.id user) (File.name file)
      (Runtime.Date_now (Runtime.platform w) (S (Runtime.ticks w)))
      CAnalyzed (Some analysis) base64Data (Some (File.type file)) in
  let recent :=
    ContractUpload.recentAnalysis_of (Runtime.toISOString (Runtime.platform w))
      newContract analysis in
  Runtime.readAsDataURL (Runtime.platform w) file = Some dataURL ->
  JS.truthy (Runtime.API_KEY (Runtime.platform w)) = true ->
  Runtime.generateContent (Runtime.platform w) (Runtime.requests_issued w)
    (Runtime.ReqAnalyze (File.type file) base64Data) = Runtime.Responded text ->
  geminiService.parseJSONResponse Codec.ContractAnalysis_of_json text = Runtime.Ok analysis ->
  snd (storageService.saveContract newContract (Runtime.localStorage w)) = Runtime.Ok tt ->
  let w' := fst (Runtime.run (ContractUpload.processFile user fileState) w) in
  snd (Runtime.run (ContractUpload.processFile user fileState) w)
  = Runtime.Ok (FileUploadState.mk file success (FileUploadState.error fileState)
                  (Some newContract)) /\
  In newContract (storageService.getContracts (User.id user) (Runtime.localStorage w')) /\
  (head (storageService.getRecentAnalyses (Runtime.localStorage w')) = Some recent \/
   storageService.getRecentAnalyses (Runtime.localStorage w')
   = storageService.getRecentAnalyses (Runtime.localStorage w)) /\
  Runtime.trace w'
  = Runtime.trace w ++ [Runtime.EvRequest (Runtime.ReqAnalyze (File.type file) base64Data)] /\
  Runtime.files w' = Runtime.files w.
Proof.
  intros file base64Data newContract recent Hread Hkey Hout Hparse Hsave w'.
  set (ls1 := fst (storageService.saveContract newContract (Runtime.localStorage w))).
  assert (Hsaved : storageService.saveContract newContract (Runtime.localStorage w)
                   = (ls1, Runtime.Ok tt)).
  { subst ls1. destruct (storageService.saveContract _ _) as [l r]. simpl in *. now subst r. }
  assert (Hrun : Runtime.run (ContractUpload.processFile user fileState) w
                 = (Runtime.with_localStorage
                      (storageService.saveRecentAnalysis recent ls1)
                      (Runtime.with_localStorage ls1
                         (Runtime.tick (Runtime.tick
                            (Runtime.emit
                               (Runtime.EvRequest
                                  (Runtime.ReqAnalyze (File.type file) base64Data)) w)))),
                    Runtime.Ok (FileUploadState.mk file success (FileUploadState.error fileState)
                                  (Some newContract)))).
  { clearbody ls1. unfold ContractUpload.processFile. fold file.
    subst newContract base64Data recent. simpl in Hsaved.
    rewrite run_try_catch, run_bind, run_await. simpl.
    rewrite Hread. simpl. rewrite Hkey. simpl. rewrite Hout. simpl. rewrite Hparse. simpl.
    rewrite Hsaved. simpl. reflexivity. }
  subst w'. rewrite Hrun. cbn [fst snd].
  cbn [Runtime.localStorage Runtime.with_localStorage Runtime.trace Runtime.files
       Runtime.tick Runtime.emit].
  split; [reflexivity|]. split; [|split; [|split]].
  - rewrite getContracts_saveRecentAnalysis, getContracts_filter,
      (saveContract_stored _ _ _ Hsaved).
    apply filter_In. split; [apply upsert_In | apply String.eqb_refl].
  - destruct (getRecentAnalyses_save recent ls1) as [-> | ->].
    + left. reflexivity.
    + right. subst ls1. apply getRecentAnalyses_saveContract.
  - reflexivity.
  - reflexivity.
Qed.

Lemma processFile_success_witness :
  Runtime.trace
    (fst (Runtime.run (ContractUpload.processFile Samples.user Samples.fresh)
            (Samples.world "test-key" 4000 [])))
  = [Runtime.EvRequest (Runtime.ReqAnalyze "application/pdf" (Some "JVBERi0xLjQ="))].
Proof.
  apply (processFile_success Samples.user Samples.fresh (Samples.world "test-key" 4000 [])
           "data:application/pdf;base64,JVBERi0xLjQ="
           (JSON.stringify (Codec.ContractAnalysis_to_json Samples.analysis))
           Samples.analysis);
    vm_compute; reflexivity.
Defined.

(** ** Handlers of components *)

Section Tasks.
Import Runtime.
Context {S : Type}.

Lemma task_run_bind {A B} (m : React.Task S A) (f : A -> React.Task S B) p :
  React.run (React.bind m f) p
  = match React.run m p with
    | (p', Ok a) => React.run (f a) p'
    | (p', Throw e) => (p', Throw e)
    end.
Proof.
  revert p. induction m as [[a|e]|step k IH|k IH]; intros p; simpl; auto.
Qed.

Lemma task_run_try_catch {A} (m : React.Task S A) (h : exn -> React.Task S A) p :
  React.run (React.try_catch m h) p
  = match React.run m p with
    | (p', Ok a) => (p', Ok a)
    | (p', Throw e) => React.run (h e) p'
    end.
Proof.
  revert p. induction m as [[a|e]|step k IH|k IH]; intros p; simpl; auto.
Qed.

Lemma task_run_await {A} (m : React.Task S A) p : React.run (React.await m) p = React.run m p.
Proof.
  unfold React.await. rewrite task_run_try_catch, task_run_bind.
  destruct (React.run m p) as [p' [a|e]]; reflexivity.
Qed.

Lemma task_run_finally {A} (m : React.Task S A) (cleanup : React.Task S unit) p :
  React.run (React.finally m cleanup) p
  = match React.run m p with
    | (p', r) =>
        match React.run cleanup p' with
        | (p'', Ok _) => (p'', r)
        | (p'', Throw e) => (p'', Throw e)
        end
    end.
Proof.
  revert p. induction m as [r|step k IH|k IH]; intros p; simpl; auto.
  rewrite task_run_bind. destruct (React.run cleanup p) as [p' [[]|e]]; reflexivity.
Qed.

Lemma task_run_lift {A} (m : Async A) (s : S) w :
  React.run (React.lift m) (s, w) = (s, fst (run m w), snd (run m w)).
Proof.
  revert w. induction m as [r|step k IH|k IH]; intros w; simpl; auto.
Qed.

Lemma task_always_impl {A} (P Q : Result A -> Prop) (m : React.Task S A) :
  (forall r, P r -> Q r) -> React.always P m -> React.always Q m.
Proof. intros HPQ. induction m as [r|step k IH|k IH]; simpl; auto. Qed.

Lemma task_always_bind {A B} (P : Result A -> Prop) (Q : Result B -> Prop)
    (m : React.Task S A) (f : A -> React.Task S B) :
  React.always P m ->
  (forall a, P (Ok a) -> React.always Q (f a)) ->
  (forall e, P (Throw e) -> Q (Throw e)) ->
  React.always Q (React.bind m f).
Proof.
  intros Hm Hok Hthrow.
  induction m as [[a|e]|step k IH|k IH]; simpl in *; auto.
Qed.

Lemma task_always_try_catch {A} (P Q : Result A -> Prop) (m : React.Task S A)
    (h : exn -> React.Task S A) :
  React.always P m ->
  (forall a, P (Ok a) -> Q (Ok a)) ->
  (forall e, P (Throw e) -> React.always Q (h e)) ->
  React.always Q (React.try_catch m h).
Proof.
  intros Hm Hok Hthrow.
  induction m as [[a|e]|step k IH|k IH]; simpl in *; auto.
Qed.

Lemma task_always_await {A} (P : Result A -> Prop) (m : React.Task S A) :
  React.always P m -> React.always P (React.await m).
Proof.
  intros Hm. unfold React.await.
  apply task_always_try_catch with (P := P); auto.
  apply task_always_bind with (P := P); auto.
Qed.

Lemma task_always_finally {A} (P : Result A -> Prop) (Q : Result A -> Prop)
    (m : React.Task S A) (cleanup : React.Task S unit) :
  React.always P m ->
  React.always (fun r => r = Ok tt) cleanup ->
  (forall r, P r -> Q r) ->
  React.always Q (React.finally m cleanup).
Proof.
  intros Hm Hc HPQ.
  induction m as [r|step k IH|k IH]; cbn [React.finally React.always] in *; auto.
  apply task_always_bind with (P := fun r => r = Ok tt).
  - exact Hc.
  - intros a _. simpl. auto.
  - intros e [=].
Qed.

Lemma task_always_lift {A} (P : Result A -> Prop) (m : Async A) :
  always P m -> React.always P (React.lift (S := S) m).
Proof. induction m as [r|step k IH|k IH]; simpl; auto. Qed.

Lemma task_always_run {A} (P : Result A -> Prop) (m : React.Task S A) p :
  React.always P m -> P (snd (React.run m p)).
Proof. revert p. induction m as [r|step k IH|k IH]; intros p H; simpl in *; auto. Qed.

End Tasks.

Section Chat.
Import Runtime geminiService.

Lemma or_else_truthy a b : JS.truthy b = true -> JS.truthy (JS.or_else a b) = true.
Proof. unfold JS.or_else. now destruct (JS.truthy a) eqn:E. Qed.

(** The chat functions resolve to a text that is not empty. *)
Lemma sendChatMessage_answer history newMessage contractContext :
  always (fun r => exists answer, r = Ok answer /\ JS.truthy answer = true)
         (sendChatMessage history newMessage contractContext).
Proof.
  unfold sendChatMessage. apply always_with_key. intros key.
  destruct (negb (JS.truthy key)); [simpl; eauto|].
  apply always_try_catch with
    (P := fun r => match r with
                   | Ok answer => JS.truthy answer = true
                   | Throw _ => True
                   end).
  - apply always_bind with (P := fun _ => True); [apply always_generateContent| |auto].
    intros text _. simpl. now apply or_else_truthy.
  - intros answer H. eauto.
  - intros e _. simpl. eauto.
Qed.

Lemma askClauseQuestion_answer clauseText question :
  always (fun r => exists answer, r = Ok answer /\ JS.truthy answer = true)
         (askClauseQuestion clauseText question).
Proof.
  unfold askClauseQuestion. apply always_with_key. intros key.
  destruct (negb (JS.truthy key)); [simpl; eauto|].
  apply always_try_catch with
    (P := fun r => match r with
                   | Ok answer => JS.truthy answer = true
                   | Throw _ => True
                   end).
  - apply always_bind with (P := fun _ => True); [apply always_generateContent| |auto].
    intros text _. simpl. now apply or_else_truthy.
  - intros answer H. eauto.
  - intros e _. simpl. eauto.
Qed.

(** What a run of a chat function leaves: the request, when there is a
    key, and nothing else. *)
Lemma run_sendChatMessage history newMessage contractContext w :
  let request := ReqChat history newMessage contractContext in
  run (sendChatMessage history newMessage contractContext) w
  = if JS.truthy (API_KEY (platform w))
    then (emit (EvRequest request) w,
          Ok (match Runtime.generateContent (platform w) (requests_issued w) request with
              | Responded text => JS.or_else text "I couldn't generate a response."
              | Rejected _ =>
                  "Sorry, I'm having trouble connecting right now. Please try again."
              end))
    else (w, Ok "API Key missing.").
Proof.
  intros request. unfold sendChatMessage. rewrite run_with_key.
  destruct (JS.truthy (API_KEY (platform w))); [|reflexivity]. cbn [negb].
  rewrite run_try_catch, run_bind, run_generateContent. fold request.
  now destruct (Runtime.generateContent _ _ request).
Qed.

Lemma run_askClauseQuestion clauseText question w :
  let request := ReqClauseQuestion clauseText question in
  run (askClauseQuestion clauseText question) w
  = if JS.truthy (API_KEY (platform w))
    then (emit (EvRequest request) w,
          Ok (match Runtime.generateContent (platform w) (requests_issued w) request with
              | Responded text => JS.or_else text "Could not generate an answer."
              | Rejected _ =>
                  "Sorry, I couldn't answer that right now due to a connection issue."
              end))
    else (w, Ok "API Key missing.").
Proof.
  intros request. unfold askClauseQuestion. rewrite run_with_key.
  destruct (JS.truthy (API_KEY (platform w))); [|reflexivity]. cbn [negb].
  rewrite run_try_catch, run_bind, run_generateContent. fold request.
  now destruct (Runtime.generateContent _ _ request).
Qed.

Lemma slice_last_length {A} n (l : list A) : (length (JS.slice_last n l) <= n)%nat.
Proof. unfold JS.slice_last. rewrite length_skipn. lia. Qed.

Lemma slice_last_suffix {A} n (l : list A) : exists before, l = before ++ JS.slice_last n l.
Proof.
  unfold JS.slice_last. exists (firstn (length l - n) l). symmetry. apply firstn_skipn.
Qed.

End Chat.

(** X13.  [handleSend] never rejects.  It does nothing when the input is blank or
    a reply is pending.  Otherwise it appends the user's message and then a
    reply that is not empty, clears the input, ends with [isLoading] false,
    and sends the model at most the last 10 earlier messages; it leaves the
    window state and the store unchanged. *)
Theorem handleSend_exchange (contract : option Contract.t) (s : ChatBot.state)
    (w : Runtime.World) :
  let history := JS.slice_last 10 (ChatBot.messages s) in
  let request := Runtime.ReqChat history (ChatBot.input s) (ChatBot.context contract) in
  let outcome := React.run (ChatBot.handleSend contract s) (s, w) in
  let s' := fst (fst outcome) in
  let w' := snd (fst outcome) in
  React.always (fun r => r = Runtime.Ok tt) (ChatBot.handleSend contract s) /\
  (JS.truthy (JS.trim (ChatBot.input s)) = false \/ ChatBot.isLoading s = true ->
   outcome = (s, w, Runtime.Ok tt)) /\
  (JS.truthy (JS.trim (ChatBot.input s)) = true -> ChatBot.isLoading s = false ->
   exists reply,
     JS.truthy reply = true /\
     ChatBot.messages s'
     = ChatBot.messages s
         ++ [ChatMessage.mk RoleUser (ChatBot.input s)
               (Runtime.Date_now (Runtime.platform w) (Runtime.ticks w));
             ChatMessage.mk RoleModel reply
               (Runtime.Date_now (Runtime.platform w) (S (Runtime.ticks w)))] /\
     ChatBot.input s' = EmptyString /\
     ChatBot.isLoading s' = false /\
     ChatBot.isOpen s' = ChatBot.isOpen s /\
     ChatBot.isMinimized s' = ChatBot.isMinimized s /\
     (length history <= 10)%nat /\
     (exists before, ChatBot.messages s = before ++ history) /\
     Runtime.trace w'
     = Runtime.trace w
         ++ (if JS.truthy (Runtime.API_KEY (Runtime.platform w))
             then [Runtime.EvRequest request] else []) /\
     Runtime.localStorage w' = Runtime.localStorage w).
Proof.
  intros history request outcome s' w'. split; [|split].
  - unfold ChatBot.handleSend. destruct (_ || _); [reflexivity|].
    cbn [React.lift ContractUpload.Date_now React.bind React.always]. intros p0.
    cbn [React.lift React.bind React.ret Runtime.ret React.update React.always]. intros p1.
    apply task_always_bind with (P := fun r => exists answer, r = Runtime.Ok answer).
    + apply task_always_await, task_always_lift.
      eapply always_impl; [|apply sendChatMessage_answer]. intros r (a & -> & _). eauto.
    + intros responseText _.
      cbn [React.lift ContractUpload.Date_now React.bind React.always]. intros p2.
      cbn [React.lift React.bind React.ret Runtime.ret React.update React.always]. auto.
    + intros e (a & [=]).
  - subst outcome. unfold ChatBot.handleSend. intros [H|H]; rewrite H; [reflexivity|].
    now rewrite orb_true_r.
  - intros Hinput Hload.
    assert (Hrun : outcome
              = let reply := snd (Runtime.run (geminiService.sendChatMessage history
                                                 (ChatBot.input s) (ChatBot.context contract))
                                    (Runtime.tick w)) in
                let w1 := fst (Runtime.run (geminiService.sendChatMessage history
                                              (ChatBot.input s) (ChatBot.context contract))
                                 (Runtime.tick w)) in
                match reply with
                | Runtime.Ok responseText =>
                    (ChatBot.mkState (ChatBot.isOpen s) (ChatBot.isMinimized s)
                       ((ChatBot.messages s
                           ++ [ChatMessage.mk RoleUser (ChatBot.input s)
                                 (Runtime.Date_now (Runtime.platform w) (Runtime.ticks w))])
                          ++ [ChatMessage.mk RoleModel responseText
                                (Runtime.Date_now (Runtime.platform w1) (Runtime.ticks w1))])
                       EmptyString false,
                     Runtime.tick w1, Runtime.Ok tt)
                | Runtime.Throw e =>
                    (ChatBot.mkState (ChatBot.isOpen s) (ChatBot.isMinimized s)
                       (ChatBot.messages s
                          ++ [ChatMessage.mk RoleUser (ChatBot.input s)
                                (Runtime.Date_now (Runtime.platform w) (Runtime.ticks w))])
                       EmptyString true,
                     w1, Runtime.Throw e)
                end).
    { subst outcome. unfold ChatBot.handleSend. rewrite Hinput, Hload. cbn [negb orb].
      cbn [React.lift ContractUpload.Date_now React.bind React.run React.ret Runtime.ret React.update
           fst snd].
      rewrite task_run_bind, task_run_await, task_run_lift. fold history.
      cbn [ChatMessage.text].
      destruct (Runtime.run (geminiService.sendChatMessage history (ChatBot.input s)
                               (ChatBot.context contract)) (Runtime.tick w)) as [w1 [a|e]];
        reflexivity. }
    subst s' w'. rewrite Hrun. clear Hrun outcome.
    rewrite run_sendChatMessage. cbn [Runtime.platform Runtime.tick].
    destruct (JS.truthy (Runtime.API_KEY (Runtime.platform w))) eqn:Hkey; cbn [fst snd].
    + exists (match Runtime.generateContent (Runtime.platform w) (Runtime.requests_issued w)
                      request with
              | Runtime.Responded text => JS.or_else text "I couldn't generate a response."
              | Runtime.Rejected _ =>
                  "Sorry, I'm having trouble connecting right now. Please try again."
              end).
      split; [|split; [|split; [|split; [|split; [|split; [|split; [|split;
        [|split]]]]]]]]; try reflexivity.
      * destruct (Runtime.generateContent _ _ request);
          [now apply or_else_truthy | reflexivity].
      * cbn [ChatBot.messages]. rewrite <- app_assoc. reflexivity.
      * apply slice_last_length.
      * apply slice_last_suffix.
    + exists "API Key missing.".
      split; [|split; [|split; [|split; [|split; [|split; [|split; [|split;
        [|split]]]]]]]]; try reflexivity.
      * cbn [ChatBot.messages]. rewrite <- app_assoc. reflexivity.
      * apply slice_last_length.
      * apply slice_last_suffix.
      * cbn. now rewrite app_nil_r.
Qed.

Lemma handleSend_exchange_witness :
  ChatBot.input
    (fst (fst (React.run (ChatBot.handleSend (Some Samples.analyzed) Samples.chat)
                 (Samples.chat, Samples.world "test-key" 4000 []))))
  = EmptyString.
Proof.
  destruct (proj2 (proj2 (handleSend_exchange (Some Samples.analyzed) Samples.chat
                            (Samples.world "test-key" 4000 [])))
              eq_refl eq_refl) as (reply & _ & _ & Hinput & _).
  exact Hinput.
Defined.

(** ** Questions about a clause *)

Section ClauseQuestion.

(** A run of [handleAsk] on a question that is not blank. *)
Lemma handleAsk_run (clause : Clause.t) (onUpdate : bool) (s : ClauseCard.state)
    (w : Runtime.World) :
  JS.truthy (JS.trim (ClauseCard.question s)) = true ->
  React.run (ClauseCard.handleAsk clause onUpdate s) (s, w)
  = let asked := Runtime.run (geminiService.askClauseQuestion (Clause.text clause)
                                (ClauseCard.question s)) w in
    match snd asked with
    | Runtime.Ok result =>
        (ClauseCard.mkState (ClauseCard.expanded s) EmptyString false,
         (if onUpdate then Runtime.tick (fst asked) else fst asked),
         Runtime.Ok
           (if onUpdate
            then Some (ClauseCard.with_answer clause
                         (QAPair.mk (ClauseCard.question s) result
                            (Runtime.Date_now (Runtime.platform (fst asked))
                               (Runtime.ticks (fst asked)))))
            else None))
    | Runtime.Throw e =>
        (ClauseCard.mkState (ClauseCard.expanded s) (ClauseCard.question s) true,
         fst asked, Runtime.Throw e)
    end.
Proof.
  intros Hq. unfold ClauseCard.handleAsk. rewrite Hq. cbn [negb].
  cbn [React.bind React.run React.ret React.update fst snd].
  rewrite task_run_bind, task_run_await, task_run_lift.
  destruct (Runtime.run (geminiService.askClauseQuestion (Clause.text clause)
                           (ClauseCard.question s)) w) as [w1 [a|e]];
    [|reflexivity].
  destruct onUpdate; reflexivity.
Qed.

(** The answer [handleAsk] records, whatever the backend does. *)
Lemma handleAsk_answer (clause : Clause.t) (s : ClauseCard.state) (w : Runtime.World) :
  JS.truthy (JS.trim (ClauseCard.question s)) = true ->
  exists answer,
    JS.truthy answer = true /\
    snd (React.run (ClauseCard.handleAsk clause true s) (s, w))
    = Runtime.Ok
        (Some (ClauseCard.with_answer clause
                 (QAPair.mk (ClauseCard.question s) answer
                    (Runtime.Date_now (Runtime.platform w) (Runtime.ticks w))))).
Proof.
  intros Hq. rewrite handleAsk_run by exact Hq. rewrite run_askClauseQuestion.
  destruct (JS.truthy (Runtime.API_KEY (Runtime.platform w))); cbn [fst snd].
  - eexists. split; [|reflexivity].
    destruct (Runtime.generateContent _ _ _); [now apply or_else_truthy | reflexivity].
  - eexists. split; [|reflexivity]. reflexivity.
Qed.

End ClauseQuestion.

(** X14.  [ClauseCard.handleAsk] never rejects.  On a blank question it does
    nothing.  Otherwise it hands the clause with the question and an answer
    that is not empty appended to its history to [onUpdate] (when there is
    one), clears the question, ends with [loadingAnswer] false, and sends at
    most one request; the store is not touched. *)
Theorem handleAsk_records (clause : Clause.t) (onUpdate : bool) (s : ClauseCard.state)
    (w : Runtime.World) :
  let request := Runtime.ReqClauseQuestion (Clause.text clause) (ClauseCard.question s) in
  let outcome := React.run (ClauseCard.handleAsk clause onUpdate s) (s, w) in
  let s' := fst (fst outcome) in
  let w' := snd (fst outcome) in
  React.always (fun r => exists updated, r = Runtime.Ok updated)
    (ClauseCard.handleAsk clause onUpdate s) /\
  (JS.truthy (JS.trim (ClauseCard.question s)) = false ->
   outcome = (s, w, Runtime.Ok None)) /\
  (JS.truthy (JS.trim (ClauseCard.question s)) = true ->
   exists answer,
     JS.truthy answer = true /\
     snd outcome
     = Runtime.Ok
         (if onUpdate
          then Some (ClauseCard.with_answer clause
                       (QAPair.mk (ClauseCard.question s) answer
                          (Runtime.Date_now (Runtime.platform w) (Runtime.ticks w))))
          else None) /\
     ClauseCard.question s' = EmptyString /\
     ClauseCard.loadingAnswer s' = false /\
     ClauseCard.expanded s' = ClauseCard.expanded s /\
     Runtime.trace w'
     = Runtime.trace w
         ++ (if JS.truthy (Runtime.API_KEY (Runtime.platform w))
             then [Runtime.EvRequest request] else []) /\
     Runtime.localStorage w' = Runtime.localStorage w).
Proof.
  intros request outcome s' w'. split; [|split].
  - unfold ClauseCard.handleAsk. destruct (negb _); [simpl; eauto|].
    cbn [React.bind React.ret React.update React.always]. intros p0.
    apply task_always_bind with (P := fun r => exists answer, r = Runtime.Ok answer).
    + apply task_always_await, task_always_lift.
      eapply always_impl; [|apply askClauseQuestion_answer]. intros r (a & -> & _). eauto.
    + intros result _.
      cbn [React.bind React.ret React.update React.always]. intros p1.
      destruct onUpdate;
        cbn [React.lift ContractUpload.Date_now React.bind React.ret Runtime.ret React.always];
        eauto.
    + intros e (a & [=]).
  - subst outcome. unfold ClauseCard.handleAsk. now intros ->.
  - intros Hq.
    pose proof (handleAsk_run clause onUpdate s w Hq) as Hrun. fold outcome in Hrun.
    cbv zeta in Hrun.
    subst s' w'. rewrite Hrun. clear Hrun outcome.
    rewrite run_askClauseQuestion. fold request.
    destruct (JS.truthy (Runtime.API_KEY (Runtime.platform w))) eqn:Hkey; cbn [fst snd].
    + exists (match Runtime.generateContent (Runtime.platform w) (Runtime.requests_issued w)
                      request with
              | Runtime.Responded text => JS.or_else text "Could not generate an answer."
              | Runtime.Rejected _ =>
                  "Sorry, I couldn't answer that right now due to a connection issue."
              end).
      split; [|split; [|split; [|split; [|split; [|split]]]]]; try reflexivity.
      * destruct (Runtime.generateContent _ _ request);
          [now apply or_else_truthy | reflexivity].
      * now destruct onUpdate.
      * now destruct onUpdate.
    + exists "API Key missing.".
      split; [|split; [|split; [|split; [|split; [|split]]]]]; try reflexivity.
      * destruct onUpdate; cbn; now rewrite app_nil_r.
      * now destruct onUpdate.
Qed.

Lemma handleAsk_records_witness :
  ClauseCard.question
    (fst (fst (React.run (ClauseCard.handleAsk Samples.clause true Samples.card)
                 (Samples.card, Samples.world "test-key" 4000 []))))
  = EmptyString.
Proof.
  destruct (proj2 (proj2 (handleAsk_records Samples.clause true Samples.card
                            (Samples.world "test-key" 4000 [])))
              eq_refl) as (answer & _ & _ & Hquestion & _).
  exact Hquestion.
Defined.

Section ClauseUpdate.

Lemma map_replace_id (updated : Clause.t) (clauses : list Clause.t) :
  let replace c := if String.eqb (Clause.id c) (Clause.id updated) then updated else c in
  map Clause.id (map replace clauses) = map Clause.id clauses /\
  (forall i c, clauses !! i = Some c -> Clause.id c = Clause.id updated ->
     List.NoDup (map Clause.id clauses) ->
     map replace clauses = <[i := updated]> clauses).
Proof.
  intros replace. split.
  - rewrite map_map. apply map_ext. intros c. unfold replace.
    destruct (String.eqb_spec (Clause.id c) (Clause.id updated)); congruence.
  - induction clauses as [|x l IH]; intros i c Hi Hc Hnd; [now rewrite lookup_nil in Hi|].
    simpl in Hnd. inversion Hnd as [|? ? Hx Hl]; subst.
    destruct i as [|i]; simpl in *.
    + injection Hi as ->. unfold replace at 1. rewrite Hc, String.eqb_refl. f_equal.
      rewrite <- (map_id l) at 2. apply map_ext_in. intros y Hy. unfold replace.
      destruct (String.eqb_spec (Clause.id y) (Clause.id updated)) as [E|_]; [|reflexivity].
      exfalso. apply Hx. rewrite Hc, <- E. now apply in_map.
    + rewrite (IH i c Hi Hc Hl). f_equal. unfold replace.
      destruct (String.eqb_spec (Clause.id x) (Clause.id updated)) as [E|_]; [|reflexivity].
      exfalso. apply Hx. rewrite E, <- Hc. apply in_map.
      apply list_elem_of_In. eapply list_elem_of_lookup_2. exact Hi.
Qed.

End ClauseUpdate.

(** X15.  [AnalysisView.handleClauseUpdate] hands on the contract with the
    same id, owner, file and summary, in which every clause with the id of
    the updated clause is replaced by it and every other clause stays in
    its place; with distinct clause ids exactly one position changes. *)
Theorem handleClauseUpdate_replaces (contract : Contract.t) (a : ContractAnalysis.t)
    (updatedClause : Clause.t) :
  Contract.analysis contract = Some a ->
  exists updatedContract a',
    AnalysisView.handleClauseUpdate contract true updatedClause = Some updatedContract /\
    Contract.analysis updatedContract = Some a' /\
    Contract.id updatedContract = Contract.id contract /\
    Contract.userId updatedContract = Contract.userId contract /\
    Contract.fileName updatedContract = Contract.fileName contract /\
    Contract.uploadDate updatedContract = Contract.uploadDate contract /\
    Contract.fileData updatedContract = Contract.fileData contract /\
    ContractAnalysis.summary a' = ContractAnalysis.summary a /\
    ContractAnalysis.riskScore a' = ContractAnalysis.riskScore a /\
    map Clause.id (ContractAnalysis.clauses a') = map Clause.id (ContractAnalysis.clauses a) /\
    (forall i c, ContractAnalysis.clauses a !! i = Some c ->
       Clause.id c <> Clause.id updatedClause ->
       ContractAnalysis.clauses a' !! i = Some c) /\
    (forall i c, ContractAnalysis.clauses a !! i = Some c ->
       Clause.id c = Clause.id updatedClause ->
       ContractAnalysis.clauses a' !! i = Some updatedClause) /\
    (forall i c, ContractAnalysis.clauses a !! i = Some c ->
       Clause.id c = Clause.id updatedClause ->
       List.NoDup (map Clause.id (ContractAnalysis.clauses a)) ->
       ContractAnalysis.clauses a' = <[i := updatedClause]> (ContractAnalysis.clauses a)).
Proof.
  intros Ha. unfold AnalysisView.handleClauseUpdate. rewrite Ha. cbn [negb].
  eexists _, _. split; [reflexivity|]. split; [reflexivity|].
  cbn [Contract.analysis Contract.id Contract.userId Contract.fileName Contract.uploadDate
       Contract.fileData ContractAnalysis.summary ContractAnalysis.riskScore
       ContractAnalysis.clauses].
  destruct (map_replace_id updatedClause (ContractAnalysis.clauses a)) as [Hids Hone].
  repeat (split; [reflexivity|]). split; [exact Hids|]. split; [|split].
  - intros i c Hi Hc. rewrite list_lookup_fmap, Hi. simpl.
    apply String.eqb_neq in Hc. now rewrite Hc.
  - intros i c Hi Hc. rewrite list_lookup_fmap, Hi. simpl.
    now rewrite Hc, String.eqb_refl.
  - exact Hone.
Qed.

Lemma handleClauseUpdate_replaces_witness :
  exists updatedContract,
    AnalysisView.handleClauseUpdate Samples.analyzed true Samples.clause
    = Some updatedContract /\
    Contract.fileData updatedContract = Some "JVBERi0xLjQ=".
Proof.
  destruct (handleClauseUpdate_replaces Samples.analyzed Samples.analysis Samples.clause
              eq_refl) as (updatedContract & a' & Hupdate & _ & _ & _ & _ & _ & Hdata & _).
  exists updatedContract. split; [exact Hupdate | exact Hdata].
Defined.

(** X16.  The three risk counts add up to the number of clauses; so do the values
    of the chart, each of which is positive; the chart is empty exactly
    when there are no clauses. *)
Theorem riskCounts_partition (clauses : list Clause.t) :
  (AnalysisView.count HIGH clauses + AnalysisView.count MEDIUM clauses
   + AnalysisView.count LOW clauses = length clauses)%nat /\
  list_sum (map (fun d => snd (fst d)) (AnalysisView.chartData clauses)) = length clauses /\
  Forall (fun d => (0 < snd (fst d))%nat) (AnalysisView.chartData clauses) /\
  (AnalysisView.chartData clauses = [] <-> clauses = []).
Proof.
  assert (Hsum : (AnalysisView.count HIGH clauses + AnalysisView.count MEDIUM clauses
                  + AnalysisView.count LOW clauses = length clauses)%nat).
  { unfold AnalysisView.count.
    induction clauses as [|c l IH]; [reflexivity|].
    simpl. destruct (Clause.riskLevel c); simpl; lia. }
  split; [exact Hsum|]. unfold AnalysisView.chartData.
  set (h := AnalysisView.count HIGH clauses) in *.
  set (m := AnalysisView.count MEDIUM clauses) in *.
  set (l := AnalysisView.count LOW clauses) in *.
  clearbody h m l. split; [|split].
  - destruct h, m, l; simpl; lia.
  - apply List.Forall_forall. intros d Hd. apply filter_In in Hd as [_ Hd].
    now apply Nat.ltb_lt.
  - split.
    + destruct h, m, l; simpl; try discriminate. intros _.
      destruct clauses; [reflexivity | discriminate].
    + intros ->. simpl in Hsum. destruct h, m, l; simpl in *; try lia. reflexivity.
Qed.

Section AppEvents.
Import Runtime.

(** [saveContract] either stores the updated array or leaves the store. *)
Lemma saveContract_fst contract ls :
  (exists ls', storageService.saveContract contract ls = (ls', Ok tt)) \/
  fst (storageService.saveContract contract ls) = ls.
Proof.
  unfold storageService.saveContract.
  destruct (storageService.parse_or_empty _ _); [|now right].
  destruct (LocalStorage.setItem _ _ _); [left; eauto | now right].
Qed.

End AppEvents.

(** X17.  A question asked on a clause reaches the store: [handleAsk] resolves to
    the clause with the new question and answer at the end of its history,
    [handleClauseUpdate] puts it at the clause's position in the contract,
    and [handleContractUpdate] selects that contract, keeps the view, and
    saves it, so that it is among the owner's contracts when the store
    accepts the write and the store is unchanged when it does not. *)
Theorem question_persisted (contract : Contract.t) (a : ContractAnalysis.t) (clause : Clause.t)
    (i : nat) (s : ClauseCard.state) (w : Runtime.World) (app : App.state)
    (ls : LocalStorage.t) :
  Contract.analysis contract = Some a ->
  ContractAnalysis.clauses a !! i = Some clause ->
  List.NoDup (map Clause.id (ContractAnalysis.clauses a)) ->
  JS.truthy (JS.trim (ClauseCard.question s)) = true ->
  exists answer updatedContract,
    let item :=
      QAPair.mk (ClauseCard.question s) answer
        (Runtime.Date_now (Runtime.platform w) (Runtime.ticks w)) in
    let updatedClause := ClauseCard.with_answer clause item in
    let after := App.handle (App.ContractUpdate updatedContract) (app, ls) in
    JS.truthy answer = true /\
    snd (React.run (ClauseCard.handleAsk clause true s) (s, w))
    = Runtime.Ok (Some updatedClause) /\
    AnalysisView.handleClauseUpdate contract true updatedClause = Some updatedContract /\
    Clause.conversationHistory updatedClause
    = Some (match Clause.conversationHistory clause with Some h => h | None => [] end
            ++ [item]) /\
    Contract.analysis updatedContract
    = Some (ContractAnalysis.mk (ContractAnalysis.summary a) (ContractAnalysis.overallRisk a)
              (ContractAnalysis.riskScore a)
              (<[i := updatedClause]> (ContractAnalysis.clauses a))
              (ContractAnalysis.fullText a)) /\
    App.selectedContract (fst after) = Some updatedContract /\
    App.view (fst after) = App.view app /\
    (snd (storageService.saveContract updatedContract ls) = Runtime.Ok tt ->
     In updatedContract
        (storageService.getContracts (Contract.userId contract) (snd after))) /\
    (snd (storageService.saveContract updatedContract ls) <> Runtime.Ok tt ->
     snd after = ls).
Proof.
  intros Ha Hi Hnd Hq.
  destruct (handleAsk_answer clause s w Hq) as (answer & Hanswer & Hrun).
  set (item := QAPair.mk (ClauseCard.question s) answer
                 (Runtime.Date_now (Runtime.platform w) (Runtime.ticks w))) in *.
  set (updatedClause := ClauseCard.with_answer clause item) in *.
  destruct (map_replace_id updatedClause (ContractAnalysis.clauses a)) as [_ Hone].
  specialize (Hone i clause Hi eq_refl Hnd).
  exists answer,
    (Contract.mk (Contract.id contract) (Contract.userId contract)
       (Contract.fileName contract) (Contract.uploadDate contract) (Contract.status contract)
       (Some (ContractAnalysis.mk (ContractAnalysis.summary a)
                (ContractAnalysis.overallRisk a) (ContractAnalysis.riskScore a)
                (<[i := updatedClause]> (ContractAnalysis.clauses a))
                (ContractAnalysis.fullText a)))
       (Contract.fileData contract) (Contract.mimeType contract)).
  split; [exact Hanswer|]. split; [exact Hrun|]. split.
  { unfold AnalysisView.handleClauseUpdate. rewrite Ha. cbn [negb].
    subst updatedClause item. now rewrite Hone. }
  split; [reflexivity|]. split; [reflexivity|].
  split; [reflexivity|]. split; [reflexivity|].
  cbn [App.handle snd]. split.
  - intros Hsave.
    match goal with |- In ?c _ => set (updatedContract := c) in * end.
    assert (Hsaved : storageService.saveContract updatedContract ls
                     = (fst (storageService.saveContract updatedContract ls), Runtime.Ok tt)).
    { destruct (storageService.saveContract updatedContract ls) as [l r]. simpl in *.
      now subst r. }
    rewrite getContracts_filter, (saveContract_stored _ _ _ Hsaved).
    apply filter_In. split; [apply upsert_In | apply String.eqb_refl].
  - intros Hsave.
    match goal with |- fst (storageService.saveContract ?c ls) = _ =>
      destruct (saveContract_fst c ls) as [[ls' E]|E]; [|exact E] end.
    rewrite E in Hsave. now contradiction Hsave.
Qed.

Lemma question_persisted_witness :
  exists answer updatedContract,
    JS.truthy answer = true /\
    AnalysisView.handleClauseUpdate Samples.analyzed true
      (ClauseCard.with_answer Samples.clause
         (QAPair.mk "Who pays for the repairs?" answer 1700000000000))
    = Some updatedContract.
Proof.
  destruct (question_persisted Samples.analyzed Samples.analysis Samples.clause 0
              Samples.card (Samples.world "test-key" 4000 [])
              (App.mkState (Some Samples.user) App.analysis (Some Samples.analyzed) None)
              (Samples.store 4000) eq_refl eq_refl)
    as (answer & updatedContract & Hanswer & _ & Hupdate & _).
  - constructor; [simpl; tauto | constructor].
  - reflexivity.
  - exists answer, updatedContract. split; [exact Hanswer | exact Hupdate].
Defined.

Section Download.

Lemma split_comma_no_comma data :
  JS.all_chars (fun c => negb (Ascii.eqb c ",")) data = true -> JS.until_comma data = data.
Proof.
  induction data as [|c data IH]; [reflexivity|]. simpl. intros H.
  apply andb_true_iff in H as [Hc Hd]. apply negb_true_iff in Hc. now rewrite Hc, IH.
Qed.

Lemma split_comma_1_app prefix data :
  JS.all_chars (fun c => negb (Ascii.eqb c ",")) prefix = true ->
  JS.all_chars (fun c => negb (Ascii.eqb c ",")) data = true ->
  JS.split_comma_1 (prefix +:+ "," +:+ data) = Some data.
Proof.
  intros Hp Hd. induction prefix as [|c prefix IH].
  - simpl. now rewrite split_comma_no_comma.
  - simpl in Hp. apply andb_true_iff in Hp as [Hc Hp]. apply negb_true_iff in Hc.
    cbn [String.append JS.split_comma_1]. rewrite Hc. auto.
Qed.

Lemma all_chars_app p a b :
  JS.all_chars p (a +:+ b) = JS.all_chars p a && JS.all_chars p b.
Proof. induction a as [|c a IH]; simpl; [reflexivity|]. now rewrite IH, andb_assoc. Qed.

End Download.

(** X18.  The link of [handleDownloadOriginal] is the data URL the upload read,
    when the mime type and the data hold no comma: the upload keeps what
    follows the comma, and the download puts [data:<mime>;base64,] back in
    front of it; there is no download when the data or the type is empty. *)
Theorem download_link_roundtrip (contract : Contract.t) (mimeType data : string) :
  let no_comma := JS.all_chars (fun c => negb (Ascii.eqb c ",")) in
  let dataURL := "data:" +:+ mimeType +:+ ";base64," +:+ data in
  no_comma mimeType = true -> no_comma data = true ->
  Contract.fileData contract = JS.split_comma_1 dataURL ->
  Contract.mimeType contract = Some mimeType ->
  Contract.fileData contract = Some data /\
  AnalysisView.handleDownloadOriginal contract
  = if JS.truthy data && JS.truthy mimeType
    then Some (dataURL, Contract.fileName contract)
    else None.
Proof.
  intros no_comma dataURL Hm Hd Hdata Hmime.
  assert (Hsplit : JS.split_comma_1 dataURL = Some data).
  { subst dataURL.
    replace ("data:" +:+ mimeType +:+ ";base64," +:+ data)
      with (("data:" +:+ mimeType +:+ ";base64") +:+ "," +:+ data)
      by (rewrite !append_assoc; reflexivity).
    apply split_comma_1_app; [|exact Hd].
    rewrite !all_chars_app. fold no_comma. rewrite Hm. reflexivity. }
  rewrite Hsplit in Hdata. split; [exact Hdata|].
  unfold AnalysisView.handleDownloadOriginal. rewrite Hdata, Hmime.
  destruct (JS.truthy data), (JS.truthy mimeType); reflexivity.
Qed.

Lemma download_link_roundtrip_witness :
  AnalysisView.handleDownloadOriginal Samples.analyzed
  = Some ("data:application/pdf;base64,JVBERi0xLjQ=", "lease.pdf").
Proof.
  apply (download_link_roundtrip Samples.analyzed "application/pdf" "JVBERi0xLjQ=");
    reflexivity.
Defined.

(** ** The comparison page *)

Section Comparison.
Import Runtime.

Lemma fetchComparison_run contracts (s : CompareViewPage.state) w :
  React.run (CompareViewPage.fetchComparison contracts) (s, w)
  = let compared := run (geminiService.compareContracts contracts) w in
    (match snd compared with
     | Ok result =>
         CompareViewPage.mkState (Some result) false (CompareViewPage.activeDifference s)
     | Throw _ =>
         CompareViewPage.mkState (CompareViewPage.comparison s) false
           (CompareViewPage.activeDifference s)
     end,
     fst compared, Ok tt).
Proof.
  unfold CompareViewPage.fetchComparison.
  rewrite task_run_finally, task_run_try_catch, task_run_bind, task_run_await, task_run_lift.
  destruct (run (geminiService.compareContracts contracts) w) as [w1 [result|e]]; reflexivity.
Qed.

Lemma fetchComparison_always contracts :
  React.always (fun r => r = Ok tt) (CompareViewPage.fetchComparison contracts).
Proof.
  unfold CompareViewPage.fetchComparison.
  apply task_always_finally with (P := fun r => r = Ok tt); auto.
  - apply task_always_try_catch with (P := fun r => match r with Ok a => a = tt | _ => True end).
    + apply task_always_bind with (P := fun _ => True).
      * apply task_always_await, task_always_lift, always_true.
      * intros result _. simpl. auto.
      * auto.
    + intros [] _. reflexivity.
    + intros e _. reflexivity.
  - simpl. auto.
Qed.

Lemma winner_In contracts comparison winner :
  CompareView.winner contracts comparison = Some winner -> In winner contracts.
Proof.
  unfold CompareView.winner, JS.find.
  destruct (List.find _ contracts) as [c|] eqn:E.
  - intros [= <-]. now apply find_some in E.
  - destruct contracts as [|c l]; [discriminate|]. simpl. intros [= <-]. now left.
Qed.

Lemma winner_nonempty contracts comparison :
  contracts <> [] -> exists winner, CompareView.winner contracts comparison = Some winner.
Proof.
  unfold CompareView.winner. destruct (JS.find _ contracts); [eauto|].
  destruct contracts; [congruence | simpl; eauto].
Qed.

End Comparison.

(** X19.  The effect of [CompareView] never rejects, and the render that
    follows never reads an undefined winner.  With no contracts it stays on the
    loading screen; otherwise it ends with [loading] false, showing the
    comparison with one of the compared contracts as winner when
    [compareContracts] resolves, and the failure screen when it rejects. *)
Theorem fetchComparison_settles (contracts : list Contract.t) (w : Runtime.World) :
  let outcome := React.run (CompareViewPage.effect contracts) (CompareViewPage.initial, w) in
  let s' := fst (fst outcome) in
  let compared := Runtime.run (geminiService.compareContracts contracts) w in
  React.always (fun r => r = Runtime.Ok tt) (CompareViewPage.effect contracts) /\
  CompareViewPage.render contracts s' <> CompareViewPage.Crash /\
  (contracts = [] ->
   outcome = (CompareViewPage.initial, w, Runtime.Ok tt) /\
   CompareViewPage.render contracts s' = CompareViewPage.Loading) /\
  (contracts <> [] ->
   CompareViewPage.loading s' = false /\
   snd (fst outcome) = fst compared /\
   (forall result, snd compared = Runtime.Ok result ->
      CompareViewPage.comparison s' = Some result /\
      exists winner,
        CompareViewPage.render contracts s' = CompareViewPage.Comparison winner result /\
        In winner contracts) /\
   (forall e, snd compared = Runtime.Throw e ->
      CompareViewPage.comparison s' = None /\
      CompareViewPage.render contracts s' = CompareViewPage.Failed)).
Proof.
  intros outcome s' compared.
  assert (Hempty : contracts = [] -> outcome = (CompareViewPage.initial, w, Runtime.Ok tt))
    by (intros ->; reflexivity).
  assert (Hfull : contracts <> [] ->
            outcome = React.run (CompareViewPage.fetchComparison contracts)
                        (CompareViewPage.initial, w)).
  { intros Hne. subst outcome. unfold CompareViewPage.effect.
    destruct contracts; [congruence | reflexivity]. }
  split; [|split; [|split]].
  - unfold CompareViewPage.effect. destruct (0 <? length contracts)%nat; [|reflexivity].
    apply fetchComparison_always.
  - destruct contracts as [|c l].
    + subst s'. rewrite Hempty by reflexivity. discriminate.
    + subst s'. rewrite Hfull by discriminate. rewrite fetchComparison_run. cbn [fst snd].
      fold compared. unfold CompareViewPage.render.
      destruct (snd compared) as [result|e]; cbn; [|discriminate].
      destruct (winner_nonempty (c :: l) result) as [winner ->]; discriminate.
  - intros ->. split; reflexivity.
  - intros Hne. subst s'. rewrite Hfull by exact Hne. rewrite fetchComparison_run.
    cbn [fst snd]. fold compared.
    split; [now destruct (snd compared)|]. split; [reflexivity|]. split.
    + intros result ->. split; [reflexivity|].
      destruct (winner_nonempty contracts result Hne) as [winner Hw].
      exists winner. unfold CompareViewPage.render. cbn. rewrite Hw.
      split; [reflexivity|]. now apply winner_In in Hw.
    + intros e ->. split; reflexivity.
Qed.

Lemma fetchComparison_settles_witness :
  CompareViewPage.loading
    (fst (fst (React.run (CompareViewPage.effect [Samples.lease; Samples.offer])
                 (CompareViewPage.initial, Samples.world_down))))
  = false.
Proof.
  apply (proj2 (proj2 (proj2 (fetchComparison_settles [Samples.lease; Samples.offer]
                                Samples.world_down)))).
  discriminate.
Defined.

(** ** The application shell *)

Section Shell.

(** What every event keeps: the analysis view has a contract, the
    comparison view has contracts. *)
Lemma handle_views ev (p : App.state * LocalStorage.t) :
  (App.view (fst p) = App.analysis -> App.selectedContract (fst p) <> None) /\
  (App.view (fst p) = App.compare -> App.compareContracts (fst p) <> None) ->
  (App.view (fst (App.handle ev p)) = App.analysis ->
   App.selectedContract (fst (App.handle ev p)) <> None) /\
  (App.view (fst (App.handle ev p)) = App.compare ->
   App.compareContracts (fst (App.handle ev p)) <> None).
Proof.
  destruct p as [s ls]. intros [H1 H2]. cbn [fst] in *.
  destruct ev; cbn [App.handle];
    repeat match goal with
           | |- context [match ?x with _ => _ end] => destruct x
           end;
    cbn; split; intros E; try discriminate E; auto.
Qed.

(** Without [onUpdateUser], the view is [auth] only while no user is
    signed in. *)
Lemma handle_auth ev (p : App.state * LocalStorage.t) :
  (forall u, ev <> App.UserUpdate u) ->
  (App.user (fst p) <> None -> App.view (fst p) <> App.auth) ->
  App.user (fst (App.handle ev p)) <> None -> App.view (fst (App.handle ev p)) <> App.auth.
Proof.
  destruct p as [s ls]. intros Hev H. cbn [fst] in *.
  destruct ev; cbn [App.handle]; try (now destruct (Hev updatedUser));
    repeat match goal with
           | |- context [match ?x with _ => _ end] => destruct x eqn:?
           end;
    cbn; try discriminate; try congruence; auto.
Qed.

End Shell.

(** X20.  Whatever the sequence of events, [App] never renders [No contract
    selected] or [Select at least 2 contracts], and it renders [Not found]
    only after a profile update; with no user it shows the sign-in screen
    and no chat. *)
Theorem App_error_screens_unreachable (events : list App.Event) (ls : LocalStorage.t) :
  let s := fst (fold_left (fun p ev => App.handle ev p) events (App.initial, ls)) in
  App.renderContent s <> App.NoContractSelected /\
  App.renderContent s <> App.SelectAtLeast2 /\
  ((forall u, ~ In (App.UserUpdate u) events) -> App.renderContent s <> App.NotFound) /\
  (App.user s = None -> App.renderContent s = App.AuthScreen /\ App.chatBot s = None).
Proof.
  intros s.
  assert (Hviews : (App.view s = App.analysis -> App.selectedContract s <> None) /\
                   (App.view s = App.compare -> App.compareContracts s <> None)).
  { subst s.
    assert (Hgen : forall p : App.state * LocalStorage.t,
              (App.view (fst p) = App.analysis -> App.selectedContract (fst p) <> None) /\
              (App.view (fst p) = App.compare -> App.compareContracts (fst p) <> None) ->
              let s := fst (fold_left (fun p ev => App.handle ev p) events p) in
              (App.view s = App.analysis -> App.selectedContract s <> None) /\
              (App.view s = App.compare -> App.compareContracts s <> None)).
    { induction events as [|ev events IH]; intros p Hp; [exact Hp|].
      simpl. apply IH. now apply handle_views. }
    apply (Hgen (App.initial, ls)). simpl. split; discriminate. }
  split; [|split; [|split]].
  - unfold App.renderContent. destruct Hviews as [H1 H2].
    destruct (App.user s); [|discriminate].
    destruct (App.view s), (App.selectedContract s), (App.compareContracts s);
      try discriminate; exfalso; now apply H1.
  - unfold App.renderContent. destruct Hviews as [H1 H2].
    destruct (App.user s); [|discriminate].
    destruct (App.view s), (App.selectedContract s), (App.compareContracts s);
      try discriminate; exfalso; now apply H2.
  - intros Hev.
    assert (Hauth : App.user s <> None -> App.view s <> App.auth).
    { subst s.
      assert (Hgen : forall events (p : App.state * LocalStorage.t),
                (forall u, ~ In (App.UserUpdate u) events) ->
                (App.user (fst p) <> None -> App.view (fst p) <> App.auth) ->
                let s := fst (fold_left (fun p ev => App.handle ev p) events p) in
                App.user s <> None -> App.view s <> App.auth).
      { clear. induction events as [|ev events IH]; intros p Hev Hp; [exact Hp|].
        simpl. apply IH.
        - intros u Hin. apply (Hev u). now right.
        - apply handle_auth; [|exact Hp]. intros u ->. apply (Hev u). now left. }
      apply Hgen; [exact Hev|]. simpl. congruence. }
    unfold App.renderContent.
    destruct (App.user s) as [u|]; [|discriminate].
    destruct (App.view s), (App.selectedContract s), (App.compareContracts s);
      try discriminate; exfalso; now apply Hauth.
  - intros Hu. unfold App.renderContent, App.chatBot. now rewrite Hu.
Qed.

Lemma App_error_screens_unreachable_witness :
  App.renderContent
    (fst (fold_left (fun p ev => App.handle ev p)
            [App.Login "ada@example.org" None; App.NavigateProfile; App.Logout]
            (App.initial, Samples.store 4000)))
  = App.AuthScreen.
Proof.
  apply (proj2 (proj2 (proj2 (App_error_screens_unreachable
                                [App.Login "ada@example.org" None; App.NavigateProfile;
                                 App.Logout]
                                (Samples.store 4000))))).
  reflexivity.
Defined.

(** A profile save that completes after the user has signed out: the user
    is set again while the view is [auth], and the page shows "Not
    found". *)
Example App_late_profile_save :
  App.renderContent
    (fst (fold_left (fun p ev => App.handle ev p)
            [App.Login "ada@example.org" None; App.NavigateProfile; App.Logout;
             App.UserUpdate Samples.user]
            (App.initial, Samples.store 4000)))
  = App.NotFound.
Proof. vm_compute. reflexivity. Qed.

(** X21.  After [handleLogin] the user is set and the dashboard shown, and a
    reload of the page restores that session when the store accepted the
    write.  After [handleLogout] the state is the initial one, a reload
    finds no session, and the accounts are still stored. *)
Theorem session_survives_reload (email : string) (name : option string) (s : App.state)
    (ls : LocalStorage.t) :
  let newUser := User.mk email email (match name with Some n => n | None => "User" end) in
  let logged := App.handle (App.Login email name) (s, ls) in
  let out := App.handle App.Logout logged in
  App.user (fst logged) = Some newUser /\
  App.view (fst logged) = App.dashboard /\
  (LocalStorage.admits ls
     (<[storageService.CURRENT_USER := JSON.stringify (Codec.User_to_json newUser)]>
        (LocalStorage.items ls)) = true ->
   fst (App.handle App.Mount (App.initial, snd logged))
   = App.mkState (Some newUser) App.dashboard None None) /\
  fst out = App.initial /\
  fst (App.handle App.Mount (App.initial, snd out)) = App.initial /\
  storageService.getUsers (snd out) = storageService.getUsers (snd logged).
Proof.
  intros newUser logged out. subst logged out. cbn [App.handle fst snd]. fold newUser.
  split; [reflexivity|]. split; [reflexivity|]. split; [|split; [reflexivity|split]].
  - intros Hadmits. now rewrite getCurrentUser_saveUser, getCurrentUser_set.
  - now rewrite getCurrentUser_unset.
  - apply getUsers_setCurrentUser.
Qed.

Lemma session_survives_reload_witness :
  fst (App.handle App.Mount
         (App.initial,
          snd (App.handle (App.Login "ada@example.org" (Some "Ada"))
                 (App.initial, Samples.store 4000))))
  = App.mkState (Some Samples.user) App.dashboard None None.
Proof.
  apply (session_survives_reload "ada@example.org" (Some "Ada") App.initial
           (Samples.store 4000)).
  vm_compute. reflexivity.
Defined.

(** ** Regular expressions: the test decides the language *)

Section RegularExpressions.
Import RegExp.

Lemma append_nil_inv (a b : string) : a +:+ b = EmptyString -> a = EmptyString /\ b = EmptyString.
Proof. destruct a; simpl; [auto | discriminate]. Qed.

Lemma append_cons_inv (a b : string) c s :
  a +:+ b = String c s ->
  (a = EmptyString /\ b = String c s) \/ (exists a', a = String c a' /\ s = a' +:+ b).
Proof.
  destruct a as [|d a]; simpl; [auto|]. intros [= -> <-]. right. eauto.
Qed.

Lemma nullable_matches r : nullable r = true <-> matches r EmptyString.
Proof.
  split.
  - induction r; simpl; intros H; try discriminate.
    + constructor.
    + apply andb_true_iff in H as [H1 H2].
      change EmptyString with (EmptyString +:+ EmptyString). constructor; auto.
    + apply orb_true_iff in H as [H|H]; [apply matches_Alt_l | apply matches_Alt_r]; auto.
    + constructor.
  - intros H. remember EmptyString as s eqn:Es.
    induction H; simpl; auto; try discriminate.
    + apply append_nil_inv in Es as [-> ->]. rewrite IHmatches1, IHmatches2; auto.
    + rewrite IHmatches; auto.
    + rewrite IHmatches; auto. apply orb_true_r.
Qed.

Lemma matches_Star_cons_inv r c s :
  matches (Star r) (String c s) ->
  exists s1 s2, s = s1 +:+ s2 /\ matches r (String c s1) /\ matches (Star r) s2.
Proof.
  intros H. remember (Star r) as r' eqn:Er. remember (String c s) as t eqn:Et.
  induction H; try discriminate.
  injection Er as ->.
  apply append_cons_inv in Et as [[-> ->] | (a' & -> & ->)].
  - apply IHmatches2; reflexivity.
  - eauto.
Qed.

Lemma matches_Seq_inv r1 r2 s :
  matches (Seq r1 r2) s <-> exists s1 s2, s = s1 +:+ s2 /\ matches r1 s1 /\ matches r2 s2.
Proof.
  split.
  - intros H. inversion H; subst. eauto.
  - intros (s1 & s2 & -> & H1 & H2). now constructor.
Qed.

Lemma matches_Alt_inv r1 r2 s : matches (Alt r1 r2) s <-> matches r1 s \/ matches r2 s.
Proof.
  split.
  - intros H. inversion H; subst; auto.
  - intros [H|H]; [now apply matches_Alt_l | now apply matches_Alt_r].
Qed.

Lemma matches_Seq_cons r1 r2 c s :
  matches (Seq r1 r2) (String c s) <->
  (matches r1 EmptyString /\ matches r2 (String c s)) \/
  (exists s1 s2, s = s1 +:+ s2 /\ matches r1 (String c s1) /\ matches r2 s2).
Proof.
  rewrite matches_Seq_inv. split.
  - intros (s1 & s2 & E & H1 & H2). symmetry in E.
    apply append_cons_inv in E as [[-> ->] | (a' & -> & ->)]; [left; auto | right; eauto].
  - intros [[H1 H2] | (s1 & s2 & -> & H1 & H2)].
    + exists EmptyString, (String c s). auto.
    + exists (String c s1), s2. auto.
Qed.

Lemma deriv_matches r : forall c s, matches (deriv c r) s <-> matches r (String c s).
Proof.
  induction r as [| |p|r1 IH1 r2 IH2|r1 IH1 r2 IH2|r IH]; intros c s; simpl.
  - split; intros H; inversion H.
  - split; intros H; inversion H.
  - destruct (p c) eqn:Hp; split; intros H.
    + inversion H; subst. now constructor.
    + inversion H; subst. constructor.
    + inversion H.
    + inversion H; subst. congruence.
  - rewrite matches_Seq_cons. destruct (nullable r1) eqn:Hn.
    + rewrite matches_Alt_inv, matches_Seq_inv. split.
      * intros [(s1 & s2 & -> & H1 & H2) | H].
        -- right. exists s1, s2. split; [reflexivity|]. split; [now apply IH1 | exact H2].
        -- left. split; [now apply nullable_matches | now apply IH2].
      * intros [[H1 H2] | (s1 & s2 & -> & H1 & H2)].
        -- right. now apply IH2.
        -- left. exists s1, s2. split; [reflexivity|]. split; [now apply IH1 | exact H2].
    + rewrite matches_Seq_inv. split.
      * intros (s1 & s2 & -> & H1 & H2).
        right. exists s1, s2. split; [reflexivity|]. split; [now apply IH1 | exact H2].
      * intros [[H1 H2] | (s1 & s2 & -> & H1 & H2)].
        -- apply nullable_matches in H1. congruence.
        -- exists s1, s2. split; [reflexivity|]. split; [now apply IH1 | exact H2].
  - rewrite !matches_Alt_inv, IH1, IH2. reflexivity.
  - rewrite matches_Seq_inv. split.
    + intros (s1 & s2 & -> & H1 & H2).
      change (String c (s1 +:+ s2)) with (String c s1 +:+ s2).
      apply matches_Star_cons; [now apply IH | exact H2].
    + intros H. apply matches_Star_cons_inv in H as (s1 & s2 & -> & Ha & Hb).
      exists s1, s2. split; [reflexivity|]. split; [now apply IH | exact Hb].
Qed.

(** [test] decides the language. *)
Lemma test_matches r s : test r s = true <-> matches r s.
Proof.
  revert r. induction s as [|c s IH]; intros r; simpl.
  - apply nullable_matches.
  - rewrite IH. apply deriv_matches.
Qed.

Lemma matches_Class_inv p s :
  matches (Class p) s <-> exists c, s = String c EmptyString /\ p c = true.
Proof.
  split.
  - intros H. inversion H; subst. eauto.
  - intros (c & -> & Hc). now constructor.
Qed.

Lemma matches_Star_Class p s : matches (Star (Class p)) s <-> JS.all_chars p s = true.
Proof.
  split.
  - intros H. remember (Star (Class p)) as r eqn:Er.
    induction H; try discriminate; [reflexivity|].
    injection Er as ->. apply matches_Class_inv in H as (c & -> & Hc). simpl.
    rewrite IHmatches2 by reflexivity. now rewrite Hc.
  - induction s as [|c s IH]; simpl; intros H; [constructor|].
    apply andb_true_iff in H as [Hc Hs].
    change (String c s) with (String c EmptyString +:+ s).
    constructor; [now constructor | auto].
Qed.

Lemma matches_Plus_Class p s :
  matches (Plus (Class p)) s <-> s <> EmptyString /\ JS.all_chars p s = true.
Proof.
  unfold Plus. split.
  - intros H. apply matches_Seq_inv in H as (s1 & s2 & -> & Ha & Hb).
    apply matches_Class_inv in Ha as (c & -> & Hc). apply matches_Star_Class in Hb. simpl.
    split; [discriminate|]. now rewrite Hc, Hb.
  - intros [Hne H]. destruct s as [|c s]; [congruence|]. simpl in H.
    apply andb_true_iff in H as [Hc Hs].
    change (String c s) with (String c EmptyString +:+ s).
    constructor; [now constructor | now apply matches_Star_Class].
Qed.

Lemma matches_Char_inv c s : matches (Char c) s <-> s = String c EmptyString.
Proof.
  unfold Char. rewrite matches_Class_inv. split.
  - intros (d & -> & Hd). apply Ascii.eqb_eq in Hd. now subst.
  - intros ->. exists c. split; [reflexivity | apply Ascii.eqb_refl].
Qed.

End RegularExpressions.

Section Normalisation.

Lemma lower_char_idem c : JS.lower_char (JS.lower_char c) = JS.lower_char c.
Proof. destruct c as [[] [] [] [] [] [] [] []]; reflexivity. Qed.

Lemma toLowerCase_idem s : JS.toLowerCase (JS.toLowerCase s) = JS.toLowerCase s.
Proof. induction s as [|c s IH]; simpl; [reflexivity|]. now rewrite lower_char_idem, IH. Qed.

Lemma trimEnd_no_space s :
  JS.all_chars (fun c => negb (JS.is_space c)) s = true -> JS.trimEnd s = s.
Proof.
  induction s as [|c s IH]; [reflexivity|]. cbn [JS.all_chars JS.trimEnd]. intros H.
  apply andb_true_iff in H as [Hc Hs]. apply negb_true_iff in Hc.
  rewrite IH by exact Hs. destruct s; [now rewrite Hc | reflexivity].
Qed.

Lemma trim_no_space s :
  JS.all_chars (fun c => negb (JS.is_space c)) s = true -> JS.trim s = s.
Proof.
  intros H. unfold JS.trim.
  assert (Hs : JS.trimStart s = s).
  { destruct s as [|c s]; [reflexivity|]. simpl in *.
    apply andb_true_iff in H as [Hc _]. apply negb_true_iff in Hc. now rewrite Hc. }
  rewrite Hs. now apply trimEnd_no_space.
Qed.

Lemma all_chars_impl (p q : ascii -> bool) s :
  (forall c, p c = true -> q c = true) -> JS.all_chars p s = true -> JS.all_chars q s = true.
Proof.
  intros Hpq. induction s as [|c s IH]; [reflexivity|]. simpl. intros H.
  apply andb_true_iff in H as [Hc Hs]. now rewrite (Hpq c Hc), IH.
Qed.

End Normalisation.

Section Email.

Lemma validateEmail_matches email :
  Auth.validateEmail email = true <->
  exists local domain tld,
    email = local +:+ "@" +:+ domain +:+ "." +:+ tld /\
    local <> EmptyString /\ domain <> EmptyString /\ tld <> EmptyString /\
    JS.all_chars Auth.local_char local = true /\
    JS.all_chars Auth.local_char domain = true /\
    JS.all_chars Auth.local_char tld = true.
Proof.
  unfold Auth.validateEmail, Auth.email_pattern. rewrite test_matches.
  rewrite matches_Seq_inv. split.
  - intros (l & r1 & -> & Hl & H1).
    apply matches_Seq_inv in H1 as (at_ & r2 & -> & Hat & H2).
    apply matches_Seq_inv in H2 as (d & r3 & -> & Hd & H3).
    apply matches_Seq_inv in H3 as (dot & t & -> & Hdot & Ht).
    apply matches_Char_inv in Hat, Hdot. subst at_ dot.
    apply matches_Plus_Class in Hl as [Hl1 Hl2], Hd as [Hd1 Hd2], Ht as [Ht1 Ht2].
    exists l, d, t. auto 10.
  - intros (l & d & t & -> & Hl & Hd & Ht & Hl' & Hd' & Ht').
    exists l, ("@" +:+ d +:+ "." +:+ t). split; [reflexivity|].
    split; [now apply matches_Plus_Class|].
    apply matches_Seq_inv. exists "@", (d +:+ "." +:+ t). split; [reflexivity|].
    split; [now apply matches_Char_inv|].
    apply matches_Seq_inv. exists d, ("." +:+ t). split; [reflexivity|].
    split; [now apply matches_Plus_Class|].
    apply matches_Seq_inv. exists ".", t. split; [reflexivity|].
    split; [now apply matches_Char_inv | now apply matches_Plus_Class].
Qed.

Lemma validateEmail_no_space email :
  Auth.validateEmail email = true ->
  JS.all_chars (fun c => negb (JS.is_space c)) email = true.
Proof.
  intros H. apply validateEmail_matches in H
    as (l & d & t & -> & _ & _ & _ & Hl & Hd & Ht).
  assert (Himp : forall s, JS.all_chars Auth.local_char s = true ->
                           JS.all_chars (fun c => negb (JS.is_space c)) s = true).
  { intros s. apply all_chars_impl. intros c. unfold Auth.local_char.
    rewrite negb_orb. intros Hc. now apply andb_true_iff in Hc as [Hc _]. }
  rewrite !all_chars_app, (Himp l Hl), (Himp d Hd), (Himp t Ht). reflexivity.
Qed.

End Email.

(** X22.  [validateEmail] accepts exactly the texts [local@domain.tld] whose
    three parts are not empty and hold neither a space character nor [@];
    an accepted address has no space, is its own trim, contains [@] and has
    at least 3 characters. *)
Theorem validateEmail_shape (email : string) :
  (Auth.validateEmail email = true <->
   exists local domain tld,
     email = local +:+ "@" +:+ domain +:+ "." +:+ tld /\
     local <> EmptyString /\ domain <> EmptyString /\ tld <> EmptyString /\
     JS.all_chars Auth.local_char local = true /\
     JS.all_chars Auth.local_char domain = true /\
     JS.all_chars Auth.local_char tld = true) /\
  (Auth.validateEmail email = true ->
   JS.all_chars (fun c => negb (JS.is_space c)) email = true /\
   JS.trim email = email /\
   JS.includes email "@" = true /\
   (3 <= String.length email)%nat).
Proof.
  split; [apply validateEmail_matches|].
  intros H. pose proof (validateEmail_no_space email H) as Hns.
  split; [exact Hns|]. split; [now apply trim_no_space|].
  apply validateEmail_matches in H as (l & d & t & -> & Hl & Hd & Ht & _).
  split.
  - apply (includes_infix l "@" (d +:+ "." +:+ t)).
  - rewrite !length_append. destruct l, d, t; simpl; try congruence; lia.
Qed.

Lemma validateEmail_shape_witness :
  JS.trim "ada@example.org" = "ada@example.org".
Proof.
  apply (proj2 (validateEmail_shape "ada@example.org")). vm_compute. reflexivity.
Defined.

(** X23.  [Auth.handleSubmit] calls [onLogin] only with the trimmed,
    lower-cased email when that is a valid address, the password has at
    least 6 characters and the name is not empty ([User] on sign-in), and
    [App] then logs in the user with that email as id.  Otherwise it sets
    the message of the first check that failed.  The fields are never
    changed. *)
Theorem handleSubmit_guards (s : Auth.state) :
  let normalizedEmail := JS.toLowerCase (JS.trim (Auth.email s)) in
  let s' := fst (Auth.handleSubmit s) in
  (forall email name,
     snd (Auth.handleSubmit s) = Some (email, name) ->
     email = normalizedEmail /\
     Auth.validateEmail email = true /\
     JS.toLowerCase (JS.trim email) = email /\
     (6 <= String.length (Auth.password s))%nat /\
     JS.truthy name = true /\
     name = (if Auth.isLogin s then "User" else JS.trim (Auth.name s)) /\
     Auth.error s' = None /\
     (forall app ls,
        App.user (fst (App.handle (App.Login email (Some name)) (app, ls)))
        = Some (User.mk email email name))) /\
  (snd (Auth.handleSubmit s) = None ->
   Auth.error s'
   = Some (if negb (Auth.validateEmail normalizedEmail)
           then "Please enter a valid email address."
           else if (String.length (Auth.password s) <? 6)%nat
                then "Password must be at least 6 characters."
                else "Please enter your full name.")) /\
  Auth.email s' = Auth.email s /\ Auth.password s' = Auth.password s /\
  Auth.name s' = Auth.name s /\ Auth.isLogin s' = Auth.isLogin s.
Proof.
  intros normalizedEmail s'. subst s'. unfold Auth.handleSubmit.
  cbn [Auth.setError Auth.email Auth.password Auth.name Auth.isLogin]. fold normalizedEmail.
  destruct (Auth.validateEmail normalizedEmail) eqn:Hv; cbn [negb].
  2: { split; [intros ? ? [=]|]. split; [reflexivity|]. repeat split. }
  assert (Hpw : JS.truthy (Auth.password s) = false ->
                (String.length (Auth.password s) <? 6)%nat = true).
  { destruct (Auth.password s); [reflexivity | discriminate]. }
  destruct (JS.truthy (Auth.password s)) eqn:Htp; cbn [negb orb].
  2: { split; [intros ? ? [=]|]. rewrite Hpw by reflexivity.
       split; [reflexivity|]. repeat split. }
  destruct (String.length (Auth.password s) <? 6)%nat eqn:Hlen.
  { split; [intros ? ? [=]|]. split; [reflexivity|]. repeat split. }
  destruct (negb (Auth.isLogin s) && negb (JS.truthy (JS.trim (Auth.name s)))) eqn:Hname.
  { split; [intros ? ? [=]|]. split; [reflexivity|]. repeat split. }
  split; [|split; [intros [=] | repeat split]].
  intros email name [= <- <-]. cbn [fst Auth.error].
  split; [reflexivity|]. split; [exact Hv|]. split.
  { rewrite (trim_no_space normalizedEmail) by (now apply validateEmail_no_space).
    apply toLowerCase_idem. }
  split; [apply Nat.ltb_ge in Hlen; exact Hlen|]. split.
  { destruct (Auth.isLogin s); [reflexivity|]. simpl in Hname.
    now apply negb_false_iff in Hname. }
  split; [reflexivity|]. split; [reflexivity|]. intros app ls. reflexivity.
Qed.

Lemma handleSubmit_guards_witness :
  Auth.validateEmail "ada@example.org" = true /\
  App.user (fst (App.handle (App.Login "ada@example.org" (Some "Ada"))
                   (App.initial, Samples.store 4000)))
  = Some Samples.user.
Proof.
  destruct (proj1 (handleSubmit_guards Samples.signup) "ada@example.org" "Ada" eq_refl)
    as (_ & Hvalid & _ & _ & _ & _ & _ & Hlogin).
  split; [exact Hvalid | apply Hlogin].
Defined.

(** ** The dashboard *)

Section Selection.

Lemma Array_includes_In (arr : list string) x : JS.Array_includes arr x = true <-> In x arr.
Proof.
  unfold JS.Array_includes. rewrite existsb_exists. split.
  - intros (y & Hy & E). apply String.eqb_eq in E. now subst.
  - intros H. exists x. split; [exact H | apply String.eqb_refl].
Qed.

Lemma toggleSelection_cases id selectedIds :
  (In id selectedIds /\
   Dashboard.toggleSelection id selectedIds
   = List.filter (fun sid => negb (String.eqb sid id)) selectedIds) \/
  (~ In id selectedIds /\ (length selectedIds < Dashboard.MAX_COMPARE)%nat /\
   Dashboard.toggleSelection id selectedIds = selectedIds ++ [id]) \/
  (~ In id selectedIds /\ (Dashboard.MAX_COMPARE <= length selectedIds)%nat /\
   Dashboard.toggleSelection id selectedIds = selectedIds).
Proof.
  unfold Dashboard.toggleSelection.
  destruct (JS.Array_includes selectedIds id) eqn:E.
  - left. split; [now apply Array_includes_In | reflexivity].
  - right. assert (Hn : ~ In id selectedIds).
    { intros H. apply Array_includes_In in H. congruence. }
    destruct (Nat.ltb_spec (length selectedIds) Dashboard.MAX_COMPARE); [left | right]; auto.
Qed.

Lemma toggleSelection_keeps id selectedIds (P : string -> Prop) :
  (length selectedIds <= Dashboard.MAX_COMPARE)%nat -> List.NoDup selectedIds ->
  Forall P selectedIds -> P id ->
  (length (Dashboard.toggleSelection id selectedIds) <= Dashboard.MAX_COMPARE)%nat /\
  List.NoDup (Dashboard.toggleSelection id selectedIds) /\
  Forall P (Dashboard.toggleSelection id selectedIds).
Proof.
  intros Hlen Hnd HP Hid.
  destruct (toggleSelection_cases id selectedIds) as [[_ ->] | [(Hn & Hlt & ->) | (_ & _ & ->)]].
  - split; [|split].
    + etransitivity; [apply filter_length_le | exact Hlen].
    + now apply List.NoDup_filter.
    + rewrite List.Forall_forall in *. intros x Hx. apply filter_In in Hx as [Hx _]. auto.
  - split; [|split].
    + rewrite length_app. simpl. lia.
    + apply NoDup_ListNoDup, NoDup_app. split; [now apply NoDup_ListNoDup|].
      split; [|apply NoDup_singleton].
      intros x Hx Hx'. apply list_elem_of_singleton in Hx'. subst x.
      apply Hn. now apply list_elem_of_In.
    + apply Forall_app. split; [exact HP | now constructor].
  - auto.
Qed.

End Selection.

(** X24.  Whatever rows are toggled from an empty selection, at most 3 ids are
    selected, without repeats, each of them the id of a toggled row.
    Toggling a selected id removes it; toggling another one appends it when
    fewer than 3 are selected and does nothing otherwise. *)
Theorem toggleSelection_bounded (ids : list string) :
  let selectedIds := fold_left (fun selected id => Dashboard.toggleSelection id selected) ids [] in
  (length selectedIds <= 3)%nat /\
  List.NoDup selectedIds /\
  (forall id, In id selectedIds -> In id ids) /\
  (forall id selected,
     In id selected -> ~ In id (Dashboard.toggleSelection id selected)) /\
  (forall id selected,
     ~ In id selected ->
     Dashboard.toggleSelection id selected
     = if (length selected <? 3)%nat then selected ++ [id] else selected).
Proof.
  intros selectedIds.
  assert (Hgen : forall todo seen selected,
            (length selected <= Dashboard.MAX_COMPARE)%nat -> List.NoDup selected ->
            Forall (fun id => In id (seen ++ todo)) selected ->
            let final := fold_left (fun selected id => Dashboard.toggleSelection id selected)
                           todo selected in
            (length final <= Dashboard.MAX_COMPARE)%nat /\ List.NoDup final /\
            Forall (fun id => In id (seen ++ todo)) final).
  { induction todo as [|id todo IH]; intros seen selected Hlen Hnd Hin; [simpl; auto|].
    simpl. specialize (IH (seen ++ [id]) (Dashboard.toggleSelection id selected)).
    rewrite <- app_assoc in IH. simpl in IH.
    destruct (toggleSelection_keeps id selected (fun x => In x (seen ++ id :: todo))
                Hlen Hnd Hin) as (H1 & H2 & H3).
    - apply in_or_app. right. now left.
    - now apply IH. }
  destruct (Hgen ids [] []) as (H1 & H2 & H3).
  { simpl. unfold Dashboard.MAX_COMPARE. lia. }
  { constructor. }
  { constructor. }
  fold selectedIds in H1, H2, H3. unfold Dashboard.MAX_COMPARE in H1.
  split; [exact H1|]. split; [exact H2|]. split; [|split].
  - intros id Hid. rewrite List.Forall_forall in H3. now apply H3.
  - intros id selected Hin.
    destruct (toggleSelection_cases id selected) as [[_ ->] | [(Hn & _) | (Hn & _)]];
      try contradiction.
    intros H. apply filter_In in H as [_ H]. now rewrite String.eqb_refl in H.
  - intros id selected Hn.
    destruct (toggleSelection_cases id selected) as [[Hin _] | [(_ & Hlt & ->) | (_ & Hge & ->)]];
      [contradiction | |].
    + unfold Dashboard.MAX_COMPARE in Hlt. apply Nat.ltb_lt in Hlt. now rewrite Hlt.
    + unfold Dashboard.MAX_COMPARE in Hge. apply Nat.ltb_ge in Hge. now rewrite Hge.
Qed.

Lemma toggleSelection_bounded_witness :
  Dashboard.toggleSelection "k3x9" ["p07q"] = ["p07q"; "k3x9"].
Proof.
  apply (proj2 (proj2 (proj2 (proj2 (toggleSelection_bounded []))))
           "k3x9" ["p07q"]).
  simpl. intros [H|[]]. discriminate H.
Defined.

(** X25.  When [handleCompareClick] calls [onCompare], at least two ids are
    selected and the contracts passed are the listed contracts with a
    selected id, at least two of them, in the order of the list, and no more
    than the selected ids when ids are distinct.  The comparison view then
    has a winner among them, and [App] shows the comparison screen. *)
Theorem handleCompareClick_selection (contracts : list Contract.t) (selectedIds : list string)
    (selectedContracts : list Contract.t) :
  Dashboard.handleCompareClick contracts selectedIds = Some selectedContracts ->
  (2 <= length selectedContracts)%nat /\
  (2 <= length selectedIds)%nat /\
  selectedContracts
  = List.filter (fun c => JS.Array_includes selectedIds (Contract.id c)) contracts /\
  (forall c, In c selectedContracts <-> In c contracts /\ In (Contract.id c) selectedIds) /\
  (List.NoDup (map Contract.id contracts) ->
   (length selectedContracts <= length selectedIds)%nat) /\
  (forall comparison,
     exists winner, CompareView.winner selectedContracts comparison = Some winner /\
                    In winner contracts) /\
  (forall app ls,
     App.user app <> None ->
     App.renderContent (fst (App.handle (App.Compare selectedContracts) (app, ls)))
     = App.CompareScreen selectedContracts).
Proof.
  unfold Dashboard.handleCompareClick.
  destruct (2 <=? length selectedIds)%nat eqn:Hids; [|discriminate].
  set (cs := List.filter _ contracts).
  destruct (2 <=? length cs)%nat eqn:Hcs; [|discriminate].
  intros [= <-]. apply Nat.leb_le in Hids, Hcs.
  split; [exact Hcs|]. split; [exact Hids|]. split; [reflexivity|].
  assert (Hin : forall c, In c cs <-> In c contracts /\ In (Contract.id c) selectedIds).
  { intros c. subst cs. rewrite filter_In, Array_includes_In. reflexivity. }
  split; [exact Hin|]. split; [|split].
  - intros Hnd.
    assert (Hnd' : List.NoDup (map Contract.id cs)) by (subst cs; now apply NoDup_map_filter).
    rewrite <- (length_map Contract.id cs).
    apply List.NoDup_incl_length; [exact Hnd'|].
    intros x Hx. apply in_map_iff in Hx as (c & <- & Hc). now apply Hin in Hc.
  - intros comparison.
    destruct (winner_nonempty cs comparison) as [winner Hw].
    { destruct cs; [simpl in Hcs; lia | discriminate]. }
    exists winner. split; [exact Hw|]. apply winner_In in Hw. now apply Hin in Hw.
  - intros app ls Hu. unfold App.renderContent. cbn.
    destruct (App.user app); [reflexivity | congruence].
Qed.

Lemma handleCompareClick_selection_witness :
  (2 <= length [Samples.lease; Samples.offer])%nat.
Proof.
  apply (proj1 (handleCompareClick_selection [Samples.lease; Samples.offer] ["p07q"; "k3x9"]
                  [Samples.lease; Samples.offer] eq_refl)).
Defined.

(** X26.  [handleSelectRecent] on the entry [processFile] records gives back the
    analysed contract without its file data: same id, file name, status and
    analysis, provided that the date survives the ISO text and the analysis
    has a score and a text (a missing score becomes 0, a missing text the
    empty text). *)
Theorem handleSelectRecent_reopens (getTime : string -> Z) (toISO : Z -> string)
    (user : User.t) (newContract : Contract.t) (analysis : ContractAnalysis.t) :
  let recent := ContractUpload.recentAnalysis_of toISO newContract analysis in
  let reopened :=
    Contract.mk (Contract.id newContract) (User.id user) (Contract.fileName newContract)
      (getTime (toISO (Contract.uploadDate newContract))) CAnalyzed
      (Some (ContractAnalysis.mk (ContractAnalysis.summary analysis)
               (ContractAnalysis.overallRisk analysis)
               (Some (match ContractAnalysis.riskScore analysis with
                      | Some n => n
                      | None => 0
                      end))
               (ContractAnalysis.clauses analysis)
               (Some (match ContractAnalysis.fullText analysis with
                      | Some t => t
                      | None => EmptyString
                      end))))
      None None in
  Dashboard.handleSelectRecent getTime user recent = Some reopened /\
  (getTime (toISO (Contract.uploadDate newContract)) = Contract.uploadDate newContract ->
   Contract.userId newContract = User.id user ->
   Contract.status newContract = CAnalyzed ->
   Contract.analysis newContract = Some analysis ->
   (exists n, ContractAnalysis.riskScore analysis = Some n) ->
   (exists t, ContractAnalysis.fullText analysis = Some t) ->
   reopened
   = Contract.mk (Contract.id newContract) (Contract.userId newContract)
       (Contract.fileName newContract) (Contract.uploadDate newContract)
       (Contract.status newContract) (Contract.analysis newContract) None None).
Proof.
  intros recent reopened. split.
  - subst recent reopened. unfold Dashboard.handleSelectRecent, ContractUpload.recentAnalysis_of.
    cbn [RecentAnalysis.riskSummary RecentAnalysis.id RecentAnalysis.fileName
         RecentAnalysis.name RecentAnalysis.createdAt RecentAnalysis.summary
         RecentAnalysis.riskScore RecentAnalysis.clauses RecentAnalysis.rawText].
    rewrite RiskLevel_roundtrip. cbn [JS.join].
    replace (JS.or_else (Contract.fileName newContract) (Contract.fileName newContract))
      with (Contract.fileName newContract)
      by (unfold JS.or_else; now destruct (JS.truthy _)).
    repeat f_equal.
    destruct (ContractAnalysis.fullText analysis) as [t|]; [|reflexivity].
    unfold JS.or_else. now destruct t.
  - intros Htime Huser Hstatus Hanalysis (n & Hn) (t & Ht). subst reopened.
    rewrite Htime, Huser, Hstatus, Hanalysis, Hn, Ht.
    destruct analysis. simpl in *. now subst.
Qed.

Lemma handleSelectRecent_reopens_witness :
  let newContract :=
    Contract.mk "k3x9" "ada@example.org" "lease.pdf" 1700000000000 CAnalyzed
      (Some Samples.analysis) (Some "JVBERi0xLjQ=") (Some "application/pdf") in
  Dashboard.handleSelectRecent (fun _ => 1700000000000) Samples.user
    (ContractUpload.recentAnalysis_of (fun _ => "2023-11-14T22:13:20.000Z")
       newContract Samples.analysis)
  = Some (Contract.mk "k3x9" "ada@example.org" "lease.pdf" 1700000000000 CAnalyzed
            (Some Samples.analysis) None None).
Proof.
  intros newContract.
  pose proof (handleSelectRecent_reopens (fun _ => 1700000000000)
                (fun _ => "2023-11-14T22:13:20.000Z") Samples.user
                newContract Samples.analysis) as [Hopen Hsame].
  rewrite Hopen. apply (f_equal Some).
  apply Hsame; try reflexivity; eexists; reflexivity.
Defined.

(** ** The list of the dashboard: search and sort *)

Section Sorting.
Context {A : Type} (compare : A -> A -> Z).

Lemma sort_insert_Permutation x l : Permutation (JS.sort_insert compare x l) (x :: l).
Proof.
  induction l as [|y l IH]; simpl; [reflexivity|].
  destruct (0 <? compare x y); [|reflexivity].
  rewrite IH. apply perm_swap.
Qed.

Lemma sort_Permutation l : Permutation (JS.sort compare l) l.
Proof.
  induction l as [|x l IH]; simpl; [reflexivity|].
  unfold JS.sort in *. simpl. rewrite sort_insert_Permutation. now constructor.
Qed.

Hypothesis compare_total : forall x y, 0 < compare x y -> compare y x <= 0.
Hypothesis compare_trans : forall x y z, compare x y <= 0 -> compare y z <= 0 -> compare x z <= 0.

(** A comparator that is a total preorder leaves the list in its order:
    [compare x y <= 0] for every [x] before a [y]. *)
Lemma sort_insert_sorted x l :
  StronglySorted (fun x y => compare x y <= 0) l ->
  StronglySorted (fun x y => compare x y <= 0) (JS.sort_insert compare x l).
Proof.
  induction 1 as [|y l Hl IH Hy]; simpl.
  - repeat constructor.
  - destruct (0 <? compare x y) eqn:E.
    + apply Z.ltb_lt in E. constructor; [exact IH|].
      rewrite sort_insert_Permutation. constructor; [|exact Hy].
      now apply compare_total.
    + apply Z.ltb_ge in E. constructor; [now constructor|].
      constructor; [exact E|].
      eapply List.Forall_impl; [|exact Hy]. intros z Hz. now apply compare_trans with y.
Qed.

Lemma sort_sorted l : StronglySorted (fun x y => compare x y <= 0) (JS.sort compare l).
Proof.
  induction l as [|x l IH]; [constructor|].
  unfold JS.sort in *. simpl. now apply sort_insert_sorted.
Qed.

End Sorting.

Section Stability.
Context {A : Type} (compare : A -> A -> Z) (P : A -> bool).
Hypothesis compare_P : forall x y, P x = true -> P y = true -> compare x y <= 0.

Lemma filter_sort_insert x l :
  List.filter P (JS.sort_insert compare x l) = List.filter P (x :: l).
Proof.
  induction l as [|y l IH]; [reflexivity|].
  cbn [JS.sort_insert]. destruct (0 <? compare x y) eqn:E; [|reflexivity].
  apply Z.ltb_lt in E. cbn [List.filter] in *. rewrite IH.
  destruct (P x) eqn:Hx, (P y) eqn:Hy; try reflexivity.
  specialize (compare_P x y Hx Hy). lia.
Qed.

Lemma filter_sort l : List.filter P (JS.sort compare l) = List.filter P l.
Proof.
  induction l as [|x l IH]; [reflexivity|].
  unfold JS.sort in *. cbn [fold_right]. rewrite filter_sort_insert.
  cbn [List.filter]. now rewrite IH.
Qed.

End Stability.

Section Listing.

Lemma includes_empty s : JS.includes s EmptyString = true.
Proof. now destruct s. Qed.

Lemma matches_query_empty contract : Dashboard.matches_query EmptyString contract = true.
Proof. unfold Dashboard.matches_query. cbn [JS.toLowerCase]. now rewrite includes_empty. Qed.

Lemma filter_all {A} (f : A -> bool) l : (forall x, f x = true) -> List.filter f l = l.
Proof. intros H. induction l as [|x l IH]; simpl; [|rewrite H, IH]; reflexivity. Qed.

Lemma StronglySorted_impl {A} (R R' : A -> A -> Prop) l :
  (forall x y, R x y -> R' x y) -> StronglySorted R l -> StronglySorted R' l.
Proof.
  intros H. induction 1 as [|x l Hl IH Hx]; constructor; [exact IH|].
  eapply List.Forall_impl; [|exact Hx]. auto.
Qed.

(** The comparator of each order that sorts by a number. *)
Lemma compare_keyed localeCompare sortOrder :
  sortOrder <> "name_asc" -> sortOrder <> "name_desc" ->
  exists key : Contract.t -> Z,
    (forall a b, Dashboard.compare localeCompare sortOrder a b = key a - key b) /\
    key = (if String.eqb sortOrder "oldest" then Contract.uploadDate
           else if String.eqb sortOrder "risk_high" then fun c => - Dashboard.score c
           else if String.eqb sortOrder "risk_low" then Dashboard.score
           else fun c => - Contract.uploadDate c).
Proof.
  intros Hasc Hdesc. apply String.eqb_neq in Hasc, Hdesc.
  eexists. split; [|reflexivity]. intros a b. unfold Dashboard.compare.
  rewrite Hasc, Hdesc.
  destruct (String.eqb sortOrder "newest") eqn:E1.
  - apply String.eqb_eq in E1. subst sortOrder. simpl. lia.
  - destruct (String.eqb sortOrder "oldest"); [lia|].
    destruct (String.eqb sortOrder "risk_high"); [lia|].
    destruct (String.eqb sortOrder "risk_low"); lia.
Qed.

End Listing.

(** X27.  [filteredContracts] is a rearrangement of the contracts that match
    the query, all of them for an empty query.  For every order other than
    the two by name it is sorted by that order's key (newest first also for
    an unknown order), and contracts with equal keys stay in the order of
    the list. *)
Theorem filteredContracts_sorted (localeCompare : string -> string -> Z)
    (contracts : list Contract.t) (searchQuery sortOrder : string) :
  let shown := Dashboard.filteredContracts localeCompare contracts searchQuery sortOrder in
  let found := List.filter (Dashboard.matches_query searchQuery) contracts in
  Permutation shown found /\
  (searchQuery = EmptyString -> Permutation shown contracts) /\
  (sortOrder <> "name_asc" -> sortOrder <> "name_desc" ->
   let key :=
     if String.eqb sortOrder "oldest" then Contract.uploadDate
     else if String.eqb sortOrder "risk_high" then fun c => - Dashboard.score c
     else if String.eqb sortOrder "risk_low" then Dashboard.score
     else fun c => - Contract.uploadDate c in
   StronglySorted (fun a b => key a <= key b) shown /\
   (forall k, List.filter (fun c => key c =? k) shown
              = List.filter (fun c => key c =? k) found)).
Proof.
  intros shown found. split; [|split].
  - apply sort_Permutation.
  - intros ->. subst shown found. unfold Dashboard.filteredContracts.
    rewrite sort_Permutation. now rewrite filter_all by apply matches_query_empty.
  - intros Hasc Hdesc key.
    destruct (compare_keyed localeCompare sortOrder Hasc Hdesc) as (key' & Hcompare & Hkey).
    fold key in Hkey. subst key'. split.
    + eapply StronglySorted_impl; [|apply sort_sorted].
      * intros x y. cbv beta. rewrite Hcompare. lia.
      * intros x y. rewrite !Hcompare. lia.
      * intros x y z. rewrite !Hcompare. lia.
    + intros k. apply filter_sort. intros x y Hx Hy. rewrite Hcompare. lia.
Qed.

Lemma filteredContracts_sorted_witness :
  StronglySorted (fun a b => Dashboard.score a <= Dashboard.score b)
    (Dashboard.filteredContracts (fun _ _ => 0)
       [Samples.lease; Samples.offer] EmptyString "risk_low").
Proof.
  exact (proj1 (proj2 (proj2 (filteredContracts_sorted (fun _ _ => 0)
                                [Samples.lease; Samples.offer] EmptyString "risk_low"))
                  ltac:(discriminate) ltac:(discriminate))).
Defined.

(** ** The profile page *)

Section Profile.
Import Runtime React storageService.


Lemma fold_max_le ds : forall d x, (x = d \/ In x ds) -> x <= fold_left Z.max ds d.
Proof.
  induction ds as [|e ds IH]; intros d x [Hx|Hx]; simpl in *.
  - lia.
  - contradiction.
  - subst x. specialize (IH (Z.max d e) (Z.max d e) (or_introl eq_refl)). lia.
  - destruct Hx as [<-|Hx].
    + specialize (IH (Z.max d e) (Z.max d e) (or_introl eq_refl)). lia.
    + apply IH. now right.
Qed.

Lemma fold_max_In ds : forall d, fold_left Z.max ds d = d \/ In (fold_left Z.max ds d) ds.
Proof.
  induction ds as [|e ds IH]; intros d; simpl; [now left|].
  destruct (IH (Z.max d e)) as [H|H]; [|now right; right].
  rewrite H. destruct (Z.max_spec d e) as [[_ ->]|[_ ->]]; [right|]; now left.
Qed.

End Profile.



(** X29.  The profile statistics: the number of high-risk contracts is at most
    the total; the last upload is [Never] exactly when there are no
    contracts, and otherwise it is the upload date of one of the contracts
    and at least every contract's date. *)
Theorem stats_summary (contracts : list Contract.t) :
  (ProfileView.highRisk contracts <= ProfileView.total contracts)%nat /\
  (ProfileView.lastUpload contracts = None <-> contracts = []) /\
  (forall d, ProfileView.lastUpload contracts = Some d ->
     (exists c, In c contracts /\ Contract.uploadDate c = d) /\
     (forall c, In c contracts -> Contract.uploadDate c <= d)).
Proof.
  split; [|split].
  - unfold ProfileView.highRisk, ProfileView.total. apply List.filter_length_le.
  - unfold ProfileView.lastUpload. destruct contracts; simpl; split; congruence.
  - unfold ProfileView.lastUpload. destruct contracts as [|c0 cs]; [discriminate|].
    cbn [map]. intros d [= <-]. split.
    + destruct (fold_max_In (map Contract.uploadDate cs) (Contract.uploadDate c0)) as [H|H].
      * exists c0. split; [now left | now rewrite H].
      * apply in_map_iff in H as (c & Hc & Hin). exists c. split; [now right | exact Hc].
    + intros c [<-|Hin]; apply fold_max_le; [now left|].
      right. now apply in_map.
Qed.

Lemma stats_summary_witness :
  exists c, In c [Samples.lease; Samples.offer] /\
            Contract.uploadDate c = Contract.uploadDate Samples.lease.
Proof.
  apply (proj2 (proj2 (stats_summary [Samples.lease; Samples.offer]))
           (Contract.uploadDate Samples.lease)).
  reflexivity.
Defined.
